(** * hev-socks5-tunnel: packet/flow engine, shallow embedding

    The C sources are embedded as pure functions over explicit states:
    - [MemoryPool]      src/hev-memory-pool.{h,c}
    - [RingBuffer]      src/hev-ring-buffer.{h,c}
    - [SessionRegistry] src/hev-socks5-tunnel.c (insert_session, remove_session)
    - [ConnectionPool]  src/hev-connection-pool.{h,c}
    - [ThreadPool]      src/hev-thread-pool.c (get_cpu_count, hev_thread_pool_new)
    - [TunnelIO]        src/hev-tunnel-io.c and the stats/stop entry points of
                        src/hev-socks5-tunnel.c
    - [RingOps]         src/hev-ring-buffer.h (size, is_empty, is_full)
    - [AdaptivePool]    src/hev-adaptive-pool.c
    - [ThreadPoolQueue] src/hev-thread-pool.c (submit, worker_thread,
                        destroy, wait_all)
    - [SessionTasks]    src/hev-socks5-tunnel.c (tcp_accept_handler,
                        udp_recv_handler, session_task_wrapper)
    - [PoolClients]     src/hev-memory-pool.c, sequences of calls
    - [EnhancedIO]      src/hev-tunnel-io-enhanced.c
    - [ConnectionPoolUse] src/hev-connection-pool.c, sequences of calls
    - [WriteQueue]      src/hev-tunnel-io.c (hev_tunnel_io_write,
                        writer_thread) under concurrent use

    Machine integers are [Z] with the wrap-around written out; pointers are
    addresses in [Z] with [0] for NULL; C arrays are lists read with stdpp's
    lookup and written with stdpp's insert.  Every function is first modelled
    as one call that runs from entry to return without another thread
    touching the same object, so a compare-and-swap meets the value that was
    just loaded.  The buffer pool and the ring have a second model, in which
    threads take turns one shared access at a time; a thread left alone in
    it goes through the call as the first model says. *)

From Stdlib Require Import ZArith Lia Bool.
From stdpp Require Import base tactics numbers list.

Local Open Scope Z_scope.

(** ** Machine arithmetic shared by all components *)

Definition UINT32_MOD : Z := 2 ^ 32.
Definition SIZE_MOD : Z := 2 ^ 64.

(** [uint32_t], [size_t] and [uint64_t] results are reduced modulo the
    type's range. *)
Definition u32 (x : Z) : Z := x mod UINT32_MOD.
Definition usize (x : Z) : Z := x mod SIZE_MOD.
Definition u64 (x : Z) : Z := x mod 2 ^ 64.

(** Reading a C array cell; cells outside the list read as 0, which is what
    the zero-filled structures of this code base hold before any write. *)
Definition cell (l : list Z) (i : nat) : Z := default 0 (l !! i).

Lemma u32_small x : 0 <= x < 2 ^ 32 -> u32 x = x.
Proof. intros H. unfold u32, UINT32_MOD. apply Z.mod_small. exact H. Qed.

Lemma usize_small x : 0 <= x < 2 ^ 64 -> usize x = x.
Proof. intros H. unfold usize, SIZE_MOD. apply Z.mod_small. exact H. Qed.

Lemma cell_insert (l : list Z) i j y :
  (i < length l)%nat ->
  cell (<[i := y]> l) j = if decide (j = i) then y else cell l j.
Proof.
  intros Hi. unfold cell. destruct (decide (j = i)) as [->|Hne].
  - rewrite list_lookup_insert_eq by exact Hi. reflexivity.
  - rewrite list_lookup_insert_ne by congruence. reflexivity.
Qed.

Lemma cell_elem (l : list Z) i : (i < length l)%nat -> cell l i ∈ l.
Proof.
  intros Hi. unfold cell. destruct (lookup_lt_is_Some_2 l i Hi) as [x Hx].
  rewrite Hx. simpl. apply list_elem_of_lookup. exists i. exact Hx.
Qed.

Lemma cell_beyond (l : list Z) i : (length l <= i)%nat -> cell l i = 0.
Proof. intros Hi. unfold cell. rewrite lookup_ge_None_2 by exact Hi. reflexivity. Qed.

(** ** Buffer pool: src/hev-memory-pool.c *)

Module MemoryPool.

Definition POOL_MAX_BUFFERS : Z := 2048.
Definition BITMAP_WORDS : nat := 64.

Record HevMemoryPool := mkPool {
  buffers : list Z;        (* void *buffers[POOL_MAX_BUFFERS] *)
  free_bitmap : list Z;    (* _Atomic uint32_t free_bitmap[64] *)
  buffer_size : Z;
  buffer_count : Z;
  allocated : Z;           (* _Atomic size_t *)
  peak_usage : Z           (* _Atomic size_t *)
}.

(** [__builtin_ffs]: one plus the index of the least significant set bit of
    a 32-bit word, 0 when the word is 0. *)
Fixpoint ffs_scan (fuel : nat) (k : Z) (w : Z) : Z :=
  match fuel with
  | O => 0
  | S fuel' => if Z.testbit w k then k + 1 else ffs_scan fuel' (k + 1) w
  end.

Definition builtin_ffs (w : Z) : Z := ffs_scan 32 0 w.

(** The mask written into word [i] of the bitmap by the constructor. *)
Definition init_mask (buffer_count : Z) (bitmap_size : nat) (i : nat) : Z :=
  if decide (i = (bitmap_size - 1)%nat) then
    let remaining := buffer_count - Z.of_nat i * 32 in
    if remaining <? 32 then u32 (u32 (Z.shiftl 1 remaining) - 1)
    else 4294967295
  else 4294967295.

(** The constructor's two loops.  [heap i] is the address returned by the
    [aligned_alloc] call for buffer [i]; 0 is an allocation failure. *)
Fixpoint fill_buffers (heap : nat -> Z) (todo : list nat) (bufs : list Z)
  : option (list Z) :=
  match todo with
  | [] => Some bufs
  | i :: rest =>
      if heap i =? 0 then None
      else fill_buffers heap rest (<[i := heap i]> bufs)
  end.

Definition fill_bitmap (buffer_count : Z) (bitmap_size : nat) (bm : list Z)
  : list Z :=
  fold_left (fun acc i => <[i := init_mask buffer_count bitmap_size i]> acc)
            (seq 0 bitmap_size) bm.

(** [hev_memory_pool_new].  [struct_ok] says whether the allocation of the
    pool structure itself succeeded. *)
Definition hev_memory_pool_new (struct_ok : bool) (heap : nat -> Z)
    (buffer_size buffer_count : Z) : option HevMemoryPool :=
  let buffer_count :=
    if buffer_count >? POOL_MAX_BUFFERS then POOL_MAX_BUFFERS
    else buffer_count in
  if negb struct_ok then None
  else
    match fill_buffers heap (seq 0 (Z.to_nat buffer_count))
                       (replicate (Z.to_nat POOL_MAX_BUFFERS) 0) with
    | None => None
    | Some bufs =>
        let bitmap_size := Z.to_nat (usize (buffer_count + 31) / 32) in
        Some {| buffers := bufs;
                free_bitmap :=
                  fill_bitmap buffer_count bitmap_size
                              (replicate BITMAP_WORDS 0);
                buffer_size := buffer_size;
                buffer_count := buffer_count;
                allocated := 0;
                peak_usage := 0 |}
    end.

(** The body run once a non-zero word has been loaded: claim its lowest set
    bit, bump the statistics, return the slot's buffer. *)
Definition claim (pool : HevMemoryPool) (i : nat) (bitmap : Z)
  : Z * HevMemoryPool :=
  let bit := builtin_ffs bitmap - 1 in
  let mask := u32 (Z.shiftl 1 bit) in
  let desired := Z.land bitmap (u32 (Z.lnot mask)) in
  let index := Z.to_nat (Z.of_nat i * 32 + bit) in
  let allocated' := usize (allocated pool + 1) in
  let peak := peak_usage pool in
  (cell (buffers pool) index,
   {| buffers := buffers pool;
      free_bitmap := <[i := desired]> (free_bitmap pool);
      buffer_size := buffer_size pool;
      buffer_count := buffer_count pool;
      allocated := allocated';
      peak_usage := if allocated' >? peak then allocated' else peak |}).

(** The scan over the bitmap words [i, i+1, ...] of [words]. *)
Fixpoint alloc_scan (pool : HevMemoryPool) (words : list nat)
  : Z * HevMemoryPool :=
  match words with
  | [] => (0, pool)
  | i :: rest =>
      let bitmap := cell (free_bitmap pool) i in
      if bitmap =? 0 then alloc_scan pool rest else claim pool i bitmap
  end.

(** [hev_memory_pool_alloc] on a non-null pool: the returned pointer (0 for
    NULL) and the pool afterwards. *)
Definition hev_memory_pool_alloc (pool : HevMemoryPool) : Z * HevMemoryPool :=
  let bitmap_size := Z.to_nat (usize (buffer_count pool + 31) / 32) in
  alloc_scan pool (seq 0 bitmap_size).

(** The linear search of [hev_memory_pool_free]: first index below
    [buffer_count] whose buffer is [ptr]. *)
Fixpoint find_buffer (bufs : list Z) (ptr : Z) (todo : list nat) : option nat :=
  match todo with
  | [] => None
  | i :: rest => if cell bufs i =? ptr then Some i else find_buffer bufs ptr rest
  end.

(** [hev_memory_pool_free] on a non-null pool. *)
Definition hev_memory_pool_free (pool : HevMemoryPool) (ptr : Z)
  : HevMemoryPool :=
  if ptr =? 0 then pool
  else
    match find_buffer (buffers pool) ptr (seq 0 (Z.to_nat (buffer_count pool))) with
    | None => pool
    | Some index =>
        let word := (index / 32)%nat in
        let bit := Z.of_nat (index mod 32) in
        let mask := u32 (Z.shiftl 1 bit) in
        {| buffers := buffers pool;
           free_bitmap :=
             <[word := Z.lor (cell (free_bitmap pool) word) mask]>
               (free_bitmap pool);
           buffer_size := buffer_size pool;
           buffer_count := buffer_count pool;
           allocated := usize (allocated pool - 1);
           peak_usage := peak_usage pool |}
    end.

(** [hev_memory_pool_get_stats] with both out-parameters non-null. *)
Definition hev_memory_pool_get_stats (pool : HevMemoryPool) : Z * Z :=
  (allocated pool, peak_usage pool).

(** Sum of [f] over a list; the population counts below are such sums. *)
Definition sumZ {A} (f : A -> Z) (l : list A) : Z :=
  foldr (fun x acc => f x + acc) 0 l.

(** Number of set bits of a 32-bit word and of the whole bitmap. *)
Definition popcount32 (w : Z) : Z :=
  sumZ (fun k => Z.b2z (Z.testbit w k)) (seqZ 0 32).

Definition popcount (bm : list Z) : Z := sumZ popcount32 bm.

(** Bit [idx mod 32] of word [idx / 32]. *)
Definition bm_bit (bm : list Z) (idx : nat) : bool :=
  Z.testbit (cell bm (idx / 32)) (Z.of_nat (idx mod 32)).

(** The slot's bit in the bitmap: [true] means free. *)
Definition slot_free (pool : HevMemoryPool) (idx : nat) : bool :=
  bm_bit (free_bitmap pool) idx.

(** *** Call sequences

    A client issues allocate and free calls.  [run] executes them on the
    pool.  [no_double_free] replays the same calls against the client's
    ledger of the buffers it currently holds.  A free is in order when it
    gives back a buffer of the ledger, or when its pointer is NULL or no
    buffer of the pool; the sequence is rejected at the first free of a
    buffer of the pool that the client does not hold, which is a free of a
    slot that is already free. *)

Inductive call : Type :=
  | Allocate
  | Release (ptr : Z).

Definition step (pool : HevMemoryPool) (c : call) : HevMemoryPool :=
  match c with
  | Allocate => snd (hev_memory_pool_alloc pool)
  | Release ptr => hev_memory_pool_free pool ptr
  end.

Definition run (calls : list call) (pool : HevMemoryPool) : HevMemoryPool :=
  fold_left step calls pool.

Definition ledger_step (pool : HevMemoryPool) (held : list Z) (c : call)
  : option (list Z) :=
  match c with
  | Allocate =>
      let p := fst (hev_memory_pool_alloc pool) in
      Some (if p =? 0 then held else p :: held)
  | Release ptr =>
      if bool_decide (ptr ∈ held) then Some (filter (fun q => q <> ptr) held)
      else if ptr =? 0 then Some held
      else
        match find_buffer (buffers pool) ptr
                          (seq 0 (Z.to_nat (buffer_count pool))) with
        | None => Some held
        | Some _ => None
        end
  end.

Fixpoint no_double_free (calls : list call) (pool : HevMemoryPool)
    (held : list Z) : bool :=
  match calls with
  | [] => true
  | c :: rest =>
      match ledger_step pool held c with
      | None => false
      | Some held' => no_double_free rest (step pool c) held'
      end
  end.

(** [n] allocations in a row: the pointers returned, first call first. *)
Fixpoint alloc_many (n : nat) (pool : HevMemoryPool) : list Z * HevMemoryPool :=
  match n with
  | O => ([], pool)
  | S n' =>
      let r := hev_memory_pool_alloc pool in
      let rs := alloc_many n' (snd r) in
      (fst r :: fst rs, snd rs)
  end.

(** Live blocks returned by the C allocator have pairwise distinct
    addresses. *)
Definition heap_distinct (heap : nat -> Z) (n : nat) : Prop :=
  forall i j, (i < n)%nat -> (j < n)%nat -> heap i = heap j -> i = j.

(** The bitmap the constructor leaves for a (clamped) count [c], and a
    checker of what the invariant needs of it. *)
Definition fresh_bitmap (c : Z) : list Z :=
  fill_bitmap c (Z.to_nat (usize (c + 31) / 32)) (replicate BITMAP_WORDS 0).

Definition fresh_bitmap_ok (c : Z) : bool :=
  let bm := fresh_bitmap c in
  (length bm =? BITMAP_WORDS)%nat
  && forallb (fun w => (0 <=? w) && (w <? 2 ^ 32)) bm
  && (popcount bm =? c)
  && forallb (fun i =>
        forallb (fun b => Bool.eqb (Z.testbit (cell bm i) b)
                                   (Z.of_nat i * 32 + b <? c))
                (seqZ 0 32))
       (seq 0 BITMAP_WORDS).

(** A concrete heap for examples: buffer [i] at address [64 * (i + 1)]. *)
Definition heap64 (i : nat) : Z := 64 * (Z.of_nat i + 1).

(** The pool built by [hev_memory_pool_new (2048, 4)] on that heap. *)
Definition pool4 : HevMemoryPool :=
  Eval vm_compute in
    default (mkPool [] [] 0 0 0 0) (hev_memory_pool_new true heap64 2048 4).

(** *** Threads

    Several threads call allocate and free on one pool.  A thread runs its
    call one access to the shared fields at a time, in program order; a
    schedule interleaves the accesses of the threads in any order.  The
    program points of [hev_memory_pool_alloc]: about to load word [i];
    about to compare-and-swap word [i] against the value loaded; bit
    claimed, about to add 1 to [allocated]; about to load [peak_usage];
    about to compare-and-swap [peak_usage].  Those of
    [hev_memory_pool_free], after the search of the immutable buffer table:
    about to OR the bit in; about to subtract 1 from [allocated]. *)

Inductive thread_pc : Type :=
  | Idle
  | AllocLoad (i : nat)
  | AllocCas (i : nat) (bitmap : Z)
  | AllocCount (index : nat)
  | AllocPeakLoad (index : nat) (counted : Z)
  | AllocPeakCas (index : nat) (counted peak : Z)
  | FreeOr (index : nat)
  | FreeSub.

(** A thread: where it stands, and the pointers its allocate calls have
    returned so far (0 for NULL), first call first. *)
Record thread := mkThread {
  pc : thread_pc;
  returned : list Z
}.

Definition bitmap_size (pool : HevMemoryPool) : nat :=
  Z.to_nat (usize (buffer_count pool + 31) / 32).

Definition with_bitmap (pool : HevMemoryPool) (bm : list Z) : HevMemoryPool :=
  {| buffers := buffers pool; free_bitmap := bm;
     buffer_size := buffer_size pool; buffer_count := buffer_count pool;
     allocated := allocated pool; peak_usage := peak_usage pool |}.

Definition with_allocated (pool : HevMemoryPool) (a : Z) : HevMemoryPool :=
  {| buffers := buffers pool; free_bitmap := free_bitmap pool;
     buffer_size := buffer_size pool; buffer_count := buffer_count pool;
     allocated := a; peak_usage := peak_usage pool |}.

Definition with_peak (pool : HevMemoryPool) (p : Z) : HevMemoryPool :=
  {| buffers := buffers pool; free_bitmap := free_bitmap pool;
     buffer_size := buffer_size pool; buffer_count := buffer_count pool;
     allocated := allocated pool; peak_usage := p |}.

Definition finish (t : thread) (result : Z) : thread :=
  {| pc := Idle; returned := returned t ++ [result] |}.

Definition goto (t : thread) (next : thread_pc) : thread :=
  {| pc := next; returned := returned t |}.

(** A thread enters a call. *)
Definition thread_call (pool : HevMemoryPool) (t : thread) (c : call) : thread :=
  match pc t with
  | Idle =>
      match c with
      | Allocate =>
          if (0 <? bitmap_size pool)%nat then goto t (AllocLoad 0)
          else finish t 0
      | Release ptr =>
          if ptr =? 0 then t
          else
            match find_buffer (buffers pool) ptr
                              (seq 0 (Z.to_nat (buffer_count pool))) with
            | None => t
            | Some index => goto t (FreeOr index)
            end
      end
  | _ => t
  end.

(** A thread runs to its next access. *)
Definition thread_step (pool : HevMemoryPool) (t : thread)
  : HevMemoryPool * thread :=
  match pc t with
  | Idle => (pool, t)
  | AllocLoad i =>
      let bitmap := cell (free_bitmap pool) i in
      if bitmap =? 0 then
        if (S i <? bitmap_size pool)%nat then (pool, goto t (AllocLoad (S i)))
        else (pool, finish t 0)
      else (pool, goto t (AllocCas i bitmap))
  | AllocCas i expected =>
      if cell (free_bitmap pool) i =? expected then
        let bit := builtin_ffs expected - 1 in
        let mask := u32 (Z.shiftl 1 bit) in
        let desired := Z.land expected (u32 (Z.lnot mask)) in
        (with_bitmap pool (<[i := desired]> (free_bitmap pool)),
         goto t (AllocCount (Z.to_nat (Z.of_nat i * 32 + bit))))
      else (pool, goto t (AllocLoad i))
  | AllocCount index =>
      let counted := usize (allocated pool + 1) in
      (with_allocated pool counted, goto t (AllocPeakLoad index counted))
  | AllocPeakLoad index counted =>
      let peak := peak_usage pool in
      if counted >? peak then (pool, goto t (AllocPeakCas index counted peak))
      else (pool, finish t (cell (buffers pool) index))
  | AllocPeakCas index counted expected =>
      if peak_usage pool =? expected then
        (with_peak pool counted, finish t (cell (buffers pool) index))
      else
        let peak := peak_usage pool in
        if counted >? peak then (pool, goto t (AllocPeakCas index counted peak))
        else (pool, finish t (cell (buffers pool) index))
  | FreeOr index =>
      let word := (index / 32)%nat in
      let bit := Z.of_nat (index mod 32) in
      let mask := u32 (Z.shiftl 1 bit) in
      (with_bitmap pool
         (<[word := Z.lor (cell (free_bitmap pool) word) mask]>
            (free_bitmap pool)),
       goto t FreeSub)
  | FreeSub =>
      (with_allocated pool (usize (allocated pool - 1)), goto t Idle)
  end.

(** The pool and its threads; what a schedule is made of. *)
Record shared_pool := mkShared {
  the_pool : HevMemoryPool;
  threads : list thread
}.

Inductive thread_action : Type :=
  | Enter (tid : nat) (c : call)
  | Advance (tid : nat).

Definition sched_step (s : shared_pool) (a : thread_action) : shared_pool :=
  match a with
  | Enter tid c =>
      match threads s !! tid with
      | Some t =>
          {| the_pool := the_pool s;
             threads := <[tid := thread_call (the_pool s) t c]> (threads s) |}
      | None => s
      end
  | Advance tid =>
      match threads s !! tid with
      | Some t =>
          let r := thread_step (the_pool s) t in
          {| the_pool := fst r; threads := <[tid := snd r]> (threads s) |}
      | None => s
      end
  end.

Definition sched_run (schedule : list thread_action) (s : shared_pool)
  : shared_pool :=
  fold_left sched_step schedule s.

(** No call is in progress. *)
Definition quiescent (s : shared_pool) : bool :=
  forallb (fun t => match pc t with Idle => true | _ => false end) (threads s).

(** A thread left alone for [n] accesses. *)
Fixpoint run_alone (n : nat) (pool : HevMemoryPool) (t : thread)
  : HevMemoryPool * thread :=
  match n with
  | O => (pool, t)
  | S n' => let r := thread_step pool t in run_alone n' (fst r) (snd r)
  end.

(** The pool built by [hev_memory_pool_new (2048, 1)] on the example heap,
    shared by two threads.  Thread 0 allocates the buffer and starts to free
    it; between the two accesses of that free, thread 1 allocates. *)
Definition pool1 : HevMemoryPool :=
  Eval vm_compute in
    default (mkPool [] [] 0 0 0 0) (hev_memory_pool_new true heap64 2048 1).

Definition two_threads : shared_pool :=
  {| the_pool := pool1; threads := [mkThread Idle []; mkThread Idle []] |}.

Definition overlapping_free : list thread_action :=
  [Enter 0 Allocate; Advance 0; Advance 0; Advance 0; Advance 0; Advance 0;
   Enter 0 (Release 64); Advance 0;
   Enter 1 Allocate; Advance 1; Advance 1; Advance 1; Advance 1; Advance 1;
   Advance 0]%nat.

(** *** Bit-level facts *)

Lemma word_high_bits w k : 0 <= w < 2 ^ 32 -> 32 <= k -> Z.testbit w k = false.
Proof.
  intros Hw Hk. rewrite <- (Z.mod_small w (2 ^ 32)) by exact Hw.
  apply Z.mod_pow2_bits_high. lia.
Qed.

Lemma word_of_bits x :
  0 <= x -> (forall k, 32 <= k -> Z.testbit x k = false) -> 0 <= x < 2 ^ 32.
Proof.
  intros Hx Hhi. split; [exact Hx|].
  assert (Heq : x = x mod 2 ^ 32).
  { apply Z.bits_inj'. intros k Hk.
    destruct (Z_lt_le_dec k 32) as [Hlt|Hge].
    - rewrite Z.mod_pow2_bits_low by lia. reflexivity.
    - rewrite Z.mod_pow2_bits_high by lia. apply Hhi. exact Hge. }
  rewrite Heq. apply Z.mod_pos_bound. lia.
Qed.

Lemma mask_val b : 0 <= b < 32 -> u32 (Z.shiftl 1 b) = 2 ^ b.
Proof.
  intros Hb. rewrite Z.shiftl_1_l. apply u32_small. split.
  - apply Z.pow_nonneg. lia.
  - apply Z.pow_lt_mono_r; lia.
Qed.

Lemma mask_bits b k :
  0 <= b < 32 -> Z.testbit (u32 (Z.shiftl 1 b)) k = (b =? k).
Proof. intros Hb. rewrite mask_val by exact Hb. apply Z.pow2_bits_eqb. lia. Qed.

Lemma cleared_bits w b k :
  0 <= b < 32 -> 0 <= k < 32 ->
  Z.testbit (Z.land w (u32 (Z.lnot (u32 (Z.shiftl 1 b))))) k
  = Z.testbit w k && negb (b =? k).
Proof.
  intros Hb Hk. rewrite Z.land_spec. f_equal.
  unfold u32 at 1, UINT32_MOD. rewrite Z.mod_pow2_bits_low by lia.
  rewrite Z.lnot_spec by lia. rewrite mask_bits by exact Hb. reflexivity.
Qed.

Lemma cleared_range w b :
  0 <= w < 2 ^ 32 -> 0 <= b < 32 ->
  0 <= Z.land w (u32 (Z.lnot (u32 (Z.shiftl 1 b)))) < 2 ^ 32.
Proof.
  intros Hw Hb. apply word_of_bits.
  - apply Z.land_nonneg. left. lia.
  - intros k Hk. rewrite Z.land_spec, (word_high_bits w k) by assumption.
    reflexivity.
Qed.

Lemma set_bits w b k :
  0 <= b < 32 ->
  Z.testbit (Z.lor w (u32 (Z.shiftl 1 b))) k = Z.testbit w k || (b =? k).
Proof. intros Hb. rewrite Z.lor_spec, mask_bits by exact Hb. reflexivity. Qed.

Lemma set_range w b :
  0 <= w < 2 ^ 32 -> 0 <= b < 32 ->
  0 <= Z.lor w (u32 (Z.shiftl 1 b)) < 2 ^ 32.
Proof.
  intros Hw Hb. apply word_of_bits.
  - apply Z.lor_nonneg. rewrite mask_val by exact Hb. split; [lia|].
    apply Z.pow_nonneg. lia.
  - intros k Hk. rewrite set_bits by exact Hb.
    rewrite (word_high_bits w k) by assumption.
    destruct (Z.eqb_spec b k); [lia|reflexivity].
Qed.

(** Setting a bit that was cleared from a word in which it was set gives the
    word back. *)
Lemma set_cleared w b :
  0 <= w < 2 ^ 32 -> 0 <= b < 32 -> Z.testbit w b = true ->
  Z.lor (Z.land w (u32 (Z.lnot (u32 (Z.shiftl 1 b))))) (u32 (Z.shiftl 1 b)) = w.
Proof.
  intros Hw Hb Hset. apply Z.bits_inj'. intros k Hk.
  rewrite set_bits by exact Hb.
  destruct (Z_lt_le_dec k 32) as [Hlt|Hge].
  - rewrite cleared_bits by lia.
    destruct (Z.eqb_spec b k) as [->|Hne]; [rewrite Hset|];
      destruct (Z.testbit w k); reflexivity.
  - rewrite Z.land_spec, (word_high_bits w k) by assumption.
    destruct (Z.eqb_spec b k); [lia|reflexivity].
Qed.

(** Setting a bit that is already set changes nothing. *)
Lemma set_idempotent w b :
  0 <= b < 32 -> Z.testbit w b = true -> Z.lor w (u32 (Z.shiftl 1 b)) = w.
Proof.
  intros Hb Hset. apply Z.bits_inj'. intros k Hk.
  rewrite set_bits by exact Hb.
  destruct (Z.eqb_spec b k) as [->|Hne]; [rewrite Hset|];
    destruct (Z.testbit w k); reflexivity.
Qed.

Lemma ffs_scan_spec fuel : forall k w,
  0 <= k ->
  (ffs_scan fuel k w = 0 /\
   forall j, k <= j < k + Z.of_nat fuel -> Z.testbit w j = false) \/
  (k < ffs_scan fuel k w <= k + Z.of_nat fuel /\
   Z.testbit w (ffs_scan fuel k w - 1) = true).
Proof.
  induction fuel as [|fuel IH]; intros k w Hk; simpl.
  - left. split; [reflexivity|]. intros j Hj. lia.
  - destruct (Z.testbit w k) eqn:Hbit.
    + right. split; [lia|]. replace (k + 1 - 1) with k by lia. exact Hbit.
    + destruct (IH (k + 1) w ltac:(lia)) as [[H0 Hall]|[Hr Hset]].
      * left. split; [exact H0|]. intros j Hj.
        destruct (Z.eq_dec j k) as [->|Hne]; [exact Hbit|]. apply Hall. lia.
      * right. split; [lia|exact Hset].
Qed.

Lemma builtin_ffs_set w :
  0 <= w < 2 ^ 32 -> w <> 0 ->
  0 <= builtin_ffs w - 1 < 32 /\ Z.testbit w (builtin_ffs w - 1) = true.
Proof.
  intros Hw Hnz. unfold builtin_ffs.
  destruct (ffs_scan_spec 32 0 w ltac:(lia)) as [[_ Hall]|[Hr Hset]].
  - exfalso. apply Hnz. apply Z.bits_inj'. intros k Hk.
    rewrite Z.bits_0. destruct (Z_lt_le_dec k 32) as [Hlt|Hge].
    + apply Hall. lia.
    + apply word_high_bits; assumption.
  - split; [lia|exact Hset].
Qed.

(** *** Counting set bits *)

Lemma sumZ_ext {A} (f g : A -> Z) l :
  (forall x, x ∈ l -> f x = g x) -> sumZ f l = sumZ g l.
Proof.
  induction l as [|a l IH]; intros H; simpl; [reflexivity|].
  rewrite (H a) by left. rewrite IH; [reflexivity|].
  intros x Hx. apply H. right. exact Hx.
Qed.

Lemma sumZ_point (f g : Z -> Z) l b d :
  NoDup l -> b ∈ l -> f b = g b + d ->
  (forall k, k ∈ l -> k <> b -> f k = g k) ->
  sumZ f l = sumZ g l + d.
Proof.
  induction l as [|a l IH]; intros Hnd Hin Hb Hrest.
  - inversion Hin.
  - apply NoDup_cons in Hnd as [Hnotin Hnd]. simpl.
    destruct (Z.eq_dec a b) as [->|Hne].
    + rewrite Hb. rewrite (sumZ_ext f g l); [lia|].
      intros x Hx. apply Hrest; [right; exact Hx|].
      intros ->. contradiction.
    + rewrite (Hrest a) by (left || exact Hne).
      apply elem_of_cons in Hin as [Heq|Hin]; [congruence|].
      rewrite IH; [lia|assumption..|].
      intros k Hk. apply Hrest. right. exact Hk.
Qed.

Lemma sumZ_nonneg {A} (f : A -> Z) l :
  (forall x, x ∈ l -> 0 <= f x) -> 0 <= sumZ f l.
Proof.
  induction l as [|a l IH]; intros H; simpl; [lia|].
  assert (0 <= f a) by (apply H; left).
  assert (0 <= sumZ f l) by (apply IH; intros x Hx; apply H; right; exact Hx).
  lia.
Qed.

Lemma sumZ_zero {A} (f : A -> Z) l :
  (forall x, x ∈ l -> 0 <= f x) -> sumZ f l = 0 ->
  forall x, x ∈ l -> f x = 0.
Proof.
  induction l as [|a l IH]; intros Hpos Hsum x Hx; [inversion Hx|].
  simpl in Hsum.
  assert (0 <= f a) by (apply Hpos; left).
  assert (0 <= sumZ f l)
    by (apply sumZ_nonneg; intros y Hy; apply Hpos; right; exact Hy).
  apply elem_of_cons in Hx as [->|Hx]; [lia|].
  apply IH; [|lia|exact Hx]. intros y Hy. apply Hpos. right. exact Hy.
Qed.

Lemma b2z_nonneg b : 0 <= Z.b2z b.
Proof. destruct b; simpl; lia. Qed.

Lemma popcount32_nonneg w : 0 <= popcount32 w.
Proof. apply sumZ_nonneg. intros k _. apply b2z_nonneg. Qed.

Lemma popcount_nonneg bm : 0 <= popcount bm.
Proof. apply sumZ_nonneg. intros w _. apply popcount32_nonneg. Qed.

Lemma popcount32_zero w : 0 <= w < 2 ^ 32 -> popcount32 w = 0 -> w = 0.
Proof.
  intros Hw Hpc. destruct (Z.eq_dec w 0) as [|Hnz]; [assumption|exfalso].
  destruct (builtin_ffs_set w Hw Hnz) as [Hb Hset].
  pose proof (sumZ_zero (fun k => Z.b2z (Z.testbit w k)) (seqZ 0 32)
                (fun k _ => b2z_nonneg _) Hpc (builtin_ffs w - 1)) as Hz.
  simpl in Hz. rewrite Hset in Hz. simpl in Hz.
  assert (1 = 0); [apply Hz|lia]. apply elem_of_seqZ. lia.
Qed.

Lemma popcount32_cleared w b :
  0 <= b < 32 -> Z.testbit w b = true ->
  popcount32 (Z.land w (u32 (Z.lnot (u32 (Z.shiftl 1 b))))) = popcount32 w - 1.
Proof.
  intros Hb Hset. unfold popcount32.
  rewrite (sumZ_point (fun k => Z.b2z (Z.testbit w k))
             (fun k => Z.b2z (Z.testbit
                (Z.land w (u32 (Z.lnot (u32 (Z.shiftl 1 b))))) k))
             (seqZ 0 32) b 1).
  - lia.
  - apply NoDup_seqZ.
  - apply elem_of_seqZ. lia.
  - rewrite cleared_bits by lia. rewrite Hset, Z.eqb_refl. reflexivity.
  - intros k Hk Hne. apply elem_of_seqZ in Hk. rewrite cleared_bits by lia.
    destruct (Z.eqb_spec b k); [congruence|].
    rewrite andb_true_r. reflexivity.
Qed.

Lemma popcount32_set w b :
  0 <= b < 32 -> Z.testbit w b = false ->
  popcount32 (Z.lor w (u32 (Z.shiftl 1 b))) = popcount32 w + 1.
Proof.
  intros Hb Hclr. unfold popcount32.
  apply (sumZ_point _ _ (seqZ 0 32) b 1).
  - apply NoDup_seqZ.
  - apply elem_of_seqZ. lia.
  - rewrite set_bits by lia. rewrite Hclr, Z.eqb_refl. reflexivity.
  - intros k Hk Hne. rewrite set_bits by lia.
    destruct (Z.eqb_spec b k); [congruence|].
    rewrite orb_false_r. reflexivity.
Qed.

Lemma popcount_insert bm : forall i y,
  (i < length bm)%nat ->
  popcount (<[i := y]> bm) = popcount bm - popcount32 (cell bm i) + popcount32 y.
Proof.
  unfold popcount.
  induction bm as [|w bm IH]; intros i y Hi; simpl in Hi; [lia|].
  destruct i as [|i]; simpl.
  - unfold cell. simpl. lia.
  - rewrite IH by lia. unfold cell. simpl. lia.
Qed.

(** Index arithmetic: slot [32 * i + b] lives in word [i] at bit [b]. *)
Lemma slot_word (i : nat) (b : Z) :
  0 <= b < 32 ->
  (Z.to_nat (Z.of_nat i * 32 + b) / 32)%nat = i /\
  Z.of_nat (Z.to_nat (Z.of_nat i * 32 + b) mod 32) = b.
Proof.
  intros Hb.
  assert (Heq : Z.to_nat (Z.of_nat i * 32 + b) = (32 * i + Z.to_nat b)%nat) by lia.
  rewrite Heq. split.
  - symmetry. apply (Nat.div_unique _ 32 i (Z.to_nat b)); lia.
  - rewrite <- (Nat.mod_unique (32 * i + Z.to_nat b) 32 i (Z.to_nat b)); lia.
Qed.

Lemma slot_join (idx : nat) :
  idx = Z.to_nat (Z.of_nat (idx / 32) * 32 + Z.of_nat (idx mod 32)) /\
  0 <= Z.of_nat (idx mod 32) < 32.
Proof.
  pose proof (Nat.div_mod_eq idx 32). pose proof (Nat.mod_upper_bound idx 32).
  lia.
Qed.

Lemma bm_bit_cleared bm i b idx :
  (i < length bm)%nat -> 0 <= b < 32 ->
  bm_bit (<[i := Z.land (cell bm i) (u32 (Z.lnot (u32 (Z.shiftl 1 b))))]> bm) idx
  = bm_bit bm idx && negb (bool_decide (idx = Z.to_nat (Z.of_nat i * 32 + b))).
Proof.
  intros Hi Hb. unfold bm_bit. rewrite cell_insert by exact Hi.
  destruct (slot_join idx) as [Hidx Hmod].
  destruct (slot_word i b Hb) as [Hw Hbit].
  destruct (decide (idx / 32 = i)%nat) as [Hq|Hq].
  - rewrite cleared_bits by lia. rewrite Hq. f_equal. f_equal.
    destruct (Z.eqb_spec b (Z.of_nat (idx mod 32))) as [He|He].
    + rewrite bool_decide_eq_true_2; [reflexivity|]. rewrite Hidx, Hq, He. reflexivity.
    + rewrite bool_decide_eq_false_2; [reflexivity|]. intros ->. lia.
  - rewrite bool_decide_eq_false_2; [rewrite andb_true_r; reflexivity|].
    intros ->. congruence.
Qed.

Lemma bm_bit_set bm i b idx :
  (i < length bm)%nat -> 0 <= b < 32 ->
  bm_bit (<[i := Z.lor (cell bm i) (u32 (Z.shiftl 1 b))]> bm) idx
  = bm_bit bm idx || bool_decide (idx = Z.to_nat (Z.of_nat i * 32 + b)).
Proof.
  intros Hi Hb. unfold bm_bit. rewrite cell_insert by exact Hi.
  destruct (slot_join idx) as [Hidx Hmod].
  destruct (slot_word i b Hb) as [Hw Hbit].
  destruct (decide (idx / 32 = i)%nat) as [Hq|Hq].
  - rewrite set_bits by lia. rewrite Hq. f_equal.
    destruct (Z.eqb_spec b (Z.of_nat (idx mod 32))) as [He|He].
    + rewrite bool_decide_eq_true_2; [reflexivity|]. rewrite Hidx, Hq, He. reflexivity.
    + rewrite bool_decide_eq_false_2; [reflexivity|]. intros ->. lia.
  - rewrite bool_decide_eq_false_2; [rewrite orb_false_r; reflexivity|].
    intros ->. congruence.
Qed.

(** *** The pool invariant

    [held] is the client's ledger: the pointers handed out by allocate and
    not yet given back.  The invariant ties the ledger to the bitmap (a lent
    buffer is a slot whose bit is 0) and carries the conservation law. *)

Record pool_ok (pool : HevMemoryPool) : Prop := {
  ok_count : 0 <= buffer_count pool <= POOL_MAX_BUFFERS;
  ok_bitmap_len : length (free_bitmap pool) = BITMAP_WORDS;
  ok_words : forall i, 0 <= cell (free_bitmap pool) i < 2 ^ 32;
  ok_tail : forall idx,
    buffer_count pool <= Z.of_nat idx -> slot_free pool idx = false;
  ok_conserve :
    popcount (free_bitmap pool) + allocated pool = buffer_count pool;
  ok_peak : allocated pool <= peak_usage pool <= buffer_count pool;
  ok_allocated : 0 <= allocated pool;
  ok_nonnull : forall idx,
    Z.of_nat idx < buffer_count pool -> cell (buffers pool) idx <> 0
}.

Record pool_inv (pool : HevMemoryPool) (held : list Z) : Prop := {
  inv_ok : pool_ok pool;
  inv_distinct : forall i j,
    Z.of_nat i < buffer_count pool -> Z.of_nat j < buffer_count pool ->
    cell (buffers pool) i = cell (buffers pool) j -> i = j;
  inv_held_nodup : NoDup held;
  inv_held_count : allocated pool = Z.of_nat (length held);
  inv_link : forall p,
    p ∈ held <->
    exists idx, Z.of_nat idx < buffer_count pool /\
                cell (buffers pool) idx = p /\ slot_free pool idx = false
}.

Lemma inv_count pool held :
  pool_inv pool held -> 0 <= buffer_count pool <= POOL_MAX_BUFFERS.
Proof. intros H. exact (ok_count _ (inv_ok _ _ H)). Qed.

Lemma inv_bitmap_len pool held :
  pool_inv pool held -> length (free_bitmap pool) = BITMAP_WORDS.
Proof. intros H. exact (ok_bitmap_len _ (inv_ok _ _ H)). Qed.

Lemma inv_words pool held :
  pool_inv pool held -> forall i, 0 <= cell (free_bitmap pool) i < 2 ^ 32.
Proof. intros H. exact (ok_words _ (inv_ok _ _ H)). Qed.

Lemma inv_tail pool held :
  pool_inv pool held ->
  forall idx, buffer_count pool <= Z.of_nat idx -> slot_free pool idx = false.
Proof. intros H. exact (ok_tail _ (inv_ok _ _ H)). Qed.

Lemma inv_conserve pool held :
  pool_inv pool held ->
  popcount (free_bitmap pool) + allocated pool = buffer_count pool.
Proof. intros H. exact (ok_conserve _ (inv_ok _ _ H)). Qed.

Lemma inv_peak pool held :
  pool_inv pool held -> allocated pool <= peak_usage pool <= buffer_count pool.
Proof. intros H. exact (ok_peak _ (inv_ok _ _ H)). Qed.

Lemma inv_nonnull pool held :
  pool_inv pool held ->
  forall idx, Z.of_nat idx < buffer_count pool -> cell (buffers pool) idx <> 0.
Proof. intros H. exact (ok_nonnull _ (inv_ok _ _ H)). Qed.

Lemma find_buffer_unique bufs p idx todo :
  idx ∈ todo -> cell bufs idx = p ->
  (forall j, j ∈ todo -> cell bufs j = p -> j = idx) ->
  find_buffer bufs p todo = Some idx.
Proof.
  induction todo as [|a todo IH]; intros Hin Hp Huniq; [inversion Hin|].
  simpl. destruct (Z.eqb_spec (cell bufs a) p) as [Ha|Ha].
  - f_equal. apply Huniq; [left|exact Ha].
  - apply elem_of_cons in Hin as [->|Hin]; [contradiction|].
    apply IH; [exact Hin|exact Hp|].
    intros j Hj. apply Huniq. right. exact Hj.
Qed.

Lemma find_buffer_none bufs p todo :
  (forall j, j ∈ todo -> cell bufs j <> p) -> find_buffer bufs p todo = None.
Proof.
  induction todo as [|a todo IH]; intros H; [reflexivity|]. simpl.
  destruct (Z.eqb_spec (cell bufs a) p) as [Ha|Ha].
  - exfalso. apply (H a); [left|exact Ha].
  - apply IH. intros j Hj. apply H. right. exact Hj.
Qed.

Lemma find_buffer_slot pool held idx :
  pool_inv pool held -> Z.of_nat idx < buffer_count pool ->
  find_buffer (buffers pool) (cell (buffers pool) idx)
              (seq 0 (Z.to_nat (buffer_count pool))) = Some idx.
Proof.
  intros Hinv Hidx. apply find_buffer_unique.
  - apply elem_of_seq. lia.
  - reflexivity.
  - intros j Hj Heq. apply elem_of_seq in Hj.
    apply (inv_distinct _ _ Hinv); [lia|exact Hidx|exact Heq].
Qed.

Lemma filter_out_absent (l : list Z) p :
  p ∉ l -> filter (fun q => q <> p) l = l.
Proof.
  induction l as [|a l IH]; intros Hp; [reflexivity|].
  apply not_elem_of_cons in Hp as [Hne Hp].
  rewrite filter_cons_True by congruence. f_equal. apply IH. exact Hp.
Qed.

Lemma length_filter_out (l : list Z) p :
  NoDup l -> p ∈ l ->
  length (filter (fun q => q <> p) l) = (length l - 1)%nat.
Proof.
  induction l as [|a l IH]; intros Hnd Hin; [inversion Hin|].
  apply NoDup_cons in Hnd as [Hnotin Hnd].
  destruct (decide (a = p)) as [->|Hne].
  - rewrite filter_cons_False by (intros H; apply H; reflexivity).
    simpl. rewrite Nat.sub_0_r. f_equal.
    apply filter_out_absent. exact Hnotin.
  - rewrite filter_cons_True by exact Hne. simpl.
    apply elem_of_cons in Hin as [Heq|Hin]; [congruence|].
    rewrite IH by assumption.
    destruct l; [inversion Hin|]. simpl. lia.
Qed.

Lemma ok_allocated_range pool :
  pool_ok pool -> 0 <= allocated pool <= buffer_count pool.
Proof.
  intros Hok. pose proof (ok_conserve _ Hok). pose proof (ok_allocated _ Hok).
  pose proof (popcount_nonneg (free_bitmap pool)). lia.
Qed.

Lemma inv_allocated_range pool held :
  pool_inv pool held -> 0 <= allocated pool <= buffer_count pool.
Proof.
  intros Hinv. pose proof (inv_conserve _ _ Hinv).
  pose proof (inv_held_count _ _ Hinv).
  pose proof (popcount_nonneg (free_bitmap pool)). lia.
Qed.

(** Claiming the lowest set bit of a non-zero word: a slot [idx] below the
    count that was free is taken, its non-null buffer is returned, one more
    buffer is counted as allocated, and the rest of the bitmap is as it
    was. *)
Lemma claim_ok pool i :
  pool_ok pool -> cell (free_bitmap pool) i <> 0 ->
  let w := cell (free_bitmap pool) i in
  let r := claim pool i w in
  pool_ok (snd r) /\
  allocated (snd r) = allocated pool + 1 /\
  allocated pool < buffer_count pool /\
  buffers (snd r) = buffers pool /\
  buffer_count (snd r) = buffer_count pool /\
  exists idx b,
    0 <= b < 32 /\ (idx / 32)%nat = i /\ Z.of_nat (idx mod 32) = b /\
    (i < length (free_bitmap pool))%nat /\
    Z.testbit w b = true /\
    free_bitmap (snd r)
    = <[i := Z.land w (u32 (Z.lnot (u32 (Z.shiftl 1 b))))]> (free_bitmap pool) /\
    Z.of_nat idx < buffer_count pool /\
    fst r = cell (buffers pool) idx /\ fst r <> 0 /\
    slot_free pool idx = true /\
    forall idx', slot_free (snd r) idx'
                 = slot_free pool idx' && negb (bool_decide (idx' = idx)).
Proof.
  intros Hok Hnz. cbv zeta.
  assert (Hi : (i < length (free_bitmap pool))%nat).
  { destruct (Nat.lt_ge_cases i (length (free_bitmap pool))) as [H|H];
      [exact H|]. exfalso. apply Hnz. apply cell_beyond. exact H. }
  set (w := cell (free_bitmap pool) i) in *.
  pose proof (ok_words _ Hok i) as Hw. fold w in Hw.
  destruct (builtin_ffs_set w Hw Hnz) as [Hb Hset].
  set (b := builtin_ffs w - 1) in *.
  set (idx := Z.to_nat (Z.of_nat i * 32 + b)).
  destruct (slot_word i b Hb) as [Hq Hm]. fold idx in Hq, Hm.
  assert (Hfree : slot_free pool idx = true).
  { unfold slot_free, bm_bit. rewrite Hq, Hm. exact Hset. }
  assert (Hidx : Z.of_nat idx < buffer_count pool).
  { destruct (Z_lt_le_dec (Z.of_nat idx) (buffer_count pool)) as [H|H];
      [exact H|]. rewrite (ok_tail _ Hok idx H) in Hfree. discriminate. }
  pose proof (ok_allocated_range _ Hok) as Halloc.
  pose proof (ok_count _ Hok) as Hcount. unfold POOL_MAX_BUFFERS in Hcount.
  pose proof (ok_conserve _ Hok) as Hcons.
  assert (Hpc : popcount (<[i := Z.land w (u32 (Z.lnot (u32 (Z.shiftl 1 b))))]>
                            (free_bitmap pool))
                = popcount (free_bitmap pool) - 1).
  { rewrite popcount_insert by exact Hi. fold w.
    rewrite popcount32_cleared by assumption. lia. }
  pose proof (popcount_nonneg
    (<[i := Z.land w (u32 (Z.lnot (u32 (Z.shiftl 1 b))))]> (free_bitmap pool)))
    as Hpc0.
  assert (Hus : usize (allocated pool + 1) = allocated pool + 1)
    by (apply usize_small; lia).
  assert (Hslot : forall idx',
    bm_bit (<[i := Z.land w (u32 (Z.lnot (u32 (Z.shiftl 1 b))))]>
              (free_bitmap pool)) idx'
    = slot_free pool idx' && negb (bool_decide (idx' = idx))).
  { intros idx'. unfold w. rewrite bm_bit_cleared by assumption. reflexivity. }
  unfold claim. fold b idx. cbn [fst snd]. rewrite Hus.
  split; [|split; [reflexivity|split; [lia|split; [reflexivity|split;
    [reflexivity|]]]]].
  - constructor; cbn [buffers free_bitmap buffer_size buffer_count allocated
                      peak_usage].
    + exact (ok_count _ Hok).
    + rewrite length_insert. exact (ok_bitmap_len _ Hok).
    + intros j. rewrite cell_insert by exact Hi.
      destruct (decide (j = i)); [apply cleared_range; assumption|].
      apply (ok_words _ Hok).
    + intros idx' Hge. unfold slot_free. cbn [free_bitmap]. rewrite Hslot.
      rewrite (ok_tail _ Hok idx' Hge). reflexivity.
    + lia.
    + pose proof (ok_peak _ Hok).
      destruct (Z.gtb_spec (allocated pool + 1) (peak_usage pool)); lia.
    + lia.
    + exact (ok_nonnull _ Hok).
  - exists idx, b. cbn [free_bitmap].
    split; [exact Hb|]. split; [exact Hq|]. split; [exact Hm|].
    split; [exact Hi|]. split; [exact Hset|]. split; [reflexivity|].
    split; [exact Hidx|]. split; [reflexivity|].
    split; [apply (ok_nonnull _ Hok); exact Hidx|].
    split; [exact Hfree|]. intros idx'. unfold slot_free at 1.
    cbn [free_bitmap]. apply Hslot.
Qed.

(** With the ledger: the buffer returned is not one the client holds, the
    invariant is kept with the buffer entered in the ledger, and freeing it
    at once restores the bitmap and the counter. *)
Lemma claim_inv pool held i :
  pool_inv pool held -> cell (free_bitmap pool) i <> 0 ->
  let r := claim pool i (cell (free_bitmap pool) i) in
  fst r <> 0 /\ (fst r ∉ held) /\ pool_inv (snd r) (fst r :: held) /\
  free_bitmap (hev_memory_pool_free (snd r) (fst r)) = free_bitmap pool /\
  allocated (hev_memory_pool_free (snd r) (fst r)) = allocated pool.
Proof.
  intros Hinv Hnz. cbv zeta.
  destruct (claim_ok pool i (inv_ok _ _ Hinv) Hnz)
    as (Hok' & Hal & Hroom & Hbufs & Hcnt & idx & b & Hb & Hq & Hm & Hi & Hset
        & Hbm & Hidx & Hp & Hpnz & Hfree & Hslot).
  set (r := claim pool i (cell (free_bitmap pool) i)) in *.
  pose proof (inv_allocated_range _ _ Hinv) as Halloc.
  pose proof (inv_count _ _ Hinv) as Hcount. unfold POOL_MAX_BUFFERS in Hcount.
  assert (Hnotheld : fst r ∉ held).
  { rewrite Hp. intros Hh.
    apply (inv_link _ _ Hinv) in Hh as (idx' & Hlt & Heq & Hclr).
    apply (inv_distinct _ _ Hinv) in Heq; [|assumption..]. subst idx'.
    rewrite Hfree in Hclr. discriminate. }
  assert (Hfind : find_buffer (buffers (snd r)) (fst r)
                    (seq 0 (Z.to_nat (buffer_count (snd r)))) = Some idx).
  { rewrite Hbufs, Hcnt, Hp. apply find_buffer_unique.
    - apply elem_of_seq. lia.
    - reflexivity.
    - intros j Hj Heq. apply elem_of_seq in Hj.
      apply (inv_distinct _ _ Hinv); [lia|exact Hidx|exact Heq]. }
  split; [exact Hpnz|]. split; [exact Hnotheld|]. split; [|split].
  - constructor.
    + exact Hok'.
    + rewrite Hbufs, Hcnt. exact (inv_distinct _ _ Hinv).
    + apply NoDup_cons. split; [exact Hnotheld|exact (inv_held_nodup _ _ Hinv)].
    + rewrite Hal, (inv_held_count _ _ Hinv). simpl length. lia.
    + intros p. rewrite Hbufs, Hcnt. split.
      * intros Hin. apply elem_of_cons in Hin as [->|Hin].
        -- exists idx. split; [exact Hidx|]. split; [symmetry; exact Hp|].
           rewrite Hslot, bool_decide_eq_true_2 by reflexivity.
           apply andb_false_r.
        -- apply (inv_link _ _ Hinv) in Hin as (idx' & Hlt & Heq & Hclr).
           exists idx'. split; [exact Hlt|]. split; [exact Heq|].
           rewrite Hslot, Hclr. reflexivity.
      * intros (idx' & Hlt & Heq & Hclr). rewrite Hslot in Hclr.
        destruct (decide (idx' = idx)) as [->|Hne].
        -- subst p. rewrite <- Hp. left.
        -- right. apply (inv_link _ _ Hinv). exists idx'.
           split; [exact Hlt|]. split; [exact Heq|].
           rewrite bool_decide_eq_false_2 in Hclr by exact Hne.
           rewrite andb_true_r in Hclr. exact Hclr.
  - unfold hev_memory_pool_free.
    destruct (Z.eqb_spec (fst r) 0) as [H0|_]; [contradiction|].
    rewrite Hfind. cbn [free_bitmap]. rewrite Hq, Hm, Hbm.
    rewrite cell_insert by exact Hi. rewrite decide_True by reflexivity.
    rewrite list_insert_insert_eq.
    rewrite set_cleared;
      [|exact (inv_words _ _ Hinv i)|exact Hb|exact Hset].
    apply list_insert_id. unfold cell.
    destruct (lookup_lt_is_Some_2 _ _ Hi) as [x Hx]. rewrite Hx. reflexivity.
  - unfold hev_memory_pool_free.
    destruct (Z.eqb_spec (fst r) 0) as [H0|_]; [contradiction|].
    rewrite Hfind. cbn [allocated]. rewrite Hal.
    replace (allocated pool + 1 - 1) with (allocated pool) by lia.
    apply usize_small. lia.
Qed.

(** Giving back a buffer of the ledger keeps the invariant. *)
Lemma free_inv pool held p :
  pool_inv pool held -> p ∈ held ->
  pool_inv (hev_memory_pool_free pool p) (filter (fun q => q <> p) held).
Proof.
  intros Hinv Hp.
  pose proof Hp as Hlink.
  apply (inv_link _ _ Hinv) in Hlink as (idx & Hidx & Hbuf & Hclr).
  pose proof (inv_count _ _ Hinv) as Hcount. unfold POOL_MAX_BUFFERS in Hcount.
  pose proof (inv_allocated_range _ _ Hinv) as Halloc.
  pose proof (inv_held_count _ _ Hinv) as Hlen.
  assert (Hpos : (1 <= length held)%nat).
  { destruct held; [inversion Hp|simpl; lia]. }
  destruct (slot_join idx) as [Hjoin Hm].
  set (i := (idx / 32)%nat) in *. set (b := Z.of_nat (idx mod 32)) in *.
  assert (Hi : (i < length (free_bitmap pool))%nat).
  { rewrite (inv_bitmap_len _ _ Hinv). unfold BITMAP_WORDS. lia. }
  pose proof (inv_words _ _ Hinv i) as Hw.
  assert (Hbit : Z.testbit (cell (free_bitmap pool) i) b = false) by exact Hclr.
  assert (Hslot : forall idx',
    bm_bit (<[i := Z.lor (cell (free_bitmap pool) i) (u32 (Z.shiftl 1 b))]>
              (free_bitmap pool)) idx'
    = slot_free pool idx' || bool_decide (idx' = idx)).
  { intros idx'. rewrite bm_bit_set by assumption. rewrite <- Hjoin. reflexivity. }
  unfold hev_memory_pool_free.
  destruct (Z.eqb_spec p 0) as [H0|_].
  { exfalso. subst p. apply (inv_nonnull _ _ Hinv idx Hidx). exact H0. }
  subst p. rewrite (find_buffer_slot pool held idx Hinv Hidx). fold i b.
  assert (Hus : usize (allocated pool - 1) = allocated pool - 1)
    by (apply usize_small; lia).
  rewrite Hus.
  constructor; [constructor|..];
    cbn [buffers free_bitmap buffer_size buffer_count allocated peak_usage].
  - exact (inv_count _ _ Hinv).
  - rewrite length_insert. exact (inv_bitmap_len _ _ Hinv).
  - intros j. rewrite cell_insert by exact Hi.
    destruct (decide (j = i)); [apply set_range; assumption|].
    apply (inv_words _ _ Hinv).
  - intros idx' Hge. unfold slot_free. cbn [free_bitmap]. rewrite Hslot.
    rewrite (inv_tail _ _ Hinv idx' Hge).
    rewrite bool_decide_eq_false_2 by lia. reflexivity.
  - rewrite popcount_insert by exact Hi.
    rewrite popcount32_set by assumption.
    pose proof (inv_conserve _ _ Hinv). lia.
  - pose proof (inv_peak _ _ Hinv). lia.
  - lia.
  - exact (inv_nonnull _ _ Hinv).
  - exact (inv_distinct _ _ Hinv).
  - apply NoDup_filter. exact (inv_held_nodup _ _ Hinv).
  - rewrite length_filter_out; [lia|exact (inv_held_nodup _ _ Hinv)|exact Hp].
  - intros q. unfold slot_free. cbn [free_bitmap].
    rewrite list_elem_of_filter. split.
    + intros [Hne Hq].
      apply (inv_link _ _ Hinv) in Hq as (idx' & Hlt & Heq & Hc).
      exists idx'. split; [exact Hlt|]. split; [exact Heq|].
      rewrite Hslot, Hc. apply bool_decide_eq_false_2. intros ->. congruence.
    + intros (idx' & Hlt & Heq & Hc). rewrite Hslot in Hc.
      apply orb_false_elim in Hc as [Hc Hne].
      apply bool_decide_eq_false_1 in Hne. split.
      * intros Habs. apply Hne. apply (inv_distinct _ _ Hinv); congruence.
      * apply (inv_link _ _ Hinv). exists idx'. auto.
Qed.

Lemma alloc_scan_spec pool words :
  (alloc_scan pool words = (0, pool) /\
   forall i, i ∈ words -> cell (free_bitmap pool) i = 0) \/
  (exists i, cell (free_bitmap pool) i <> 0 /\
             alloc_scan pool words = claim pool i (cell (free_bitmap pool) i)).
Proof.
  induction words as [|i words IH]; simpl.
  - left. split; [reflexivity|]. intros i Hi. inversion Hi.
  - destruct (Z.eqb_spec (cell (free_bitmap pool) i) 0) as [Hz|Hnz].
    + destruct IH as [[Heq Hall]|Hex]; [left|right; exact Hex].
      split; [exact Heq|]. intros j Hj.
      apply elem_of_cons in Hj as [->|Hj]; [exact Hz|apply Hall; exact Hj].
    + right. exists i. split; [exact Hnz|reflexivity].
Qed.

Lemma popcount32_0 : popcount32 0 = 0.
Proof. reflexivity. Qed.

(** A word whose 32 slots all lie at or beyond [buffer_count] is 0. *)
Lemma tail_word_zero pool i :
  pool_ok pool -> buffer_count pool <= Z.of_nat i * 32 ->
  cell (free_bitmap pool) i = 0.
Proof.
  intros Hok Hge. pose proof (ok_words _ Hok i) as Hw.
  apply Z.bits_inj'. intros k Hk. rewrite Z.bits_0.
  destruct (Z_lt_le_dec k 32) as [Hlt|Hhi]; [|apply word_high_bits; assumption].
  destruct (slot_word i k ltac:(lia)) as [Hq Hm].
  pose proof (ok_tail _ Hok (Z.to_nat (Z.of_nat i * 32 + k)) ltac:(lia)) as Ht.
  unfold slot_free, bm_bit in Ht. rewrite Hq, Hm in Ht. exact Ht.
Qed.

(** [hev_memory_pool_alloc]: NULL exactly when every buffer is lent, a
    buffer otherwise. *)
Lemma alloc_full pool :
  pool_ok pool ->
  (forall i, i ∈ seq 0 (Z.to_nat (usize (buffer_count pool + 31) / 32)) ->
             cell (free_bitmap pool) i = 0) ->
  allocated pool = buffer_count pool.
Proof.
  intros Hok Hall.
  pose proof (ok_count _ Hok) as Hcount. unfold POOL_MAX_BUFFERS in Hcount.
  set (n := Z.to_nat (usize (buffer_count pool + 31) / 32)) in *.
  assert (Hzero : popcount (free_bitmap pool) = 0).
  { unfold popcount. rewrite (sumZ_ext popcount32 (fun _ => 0)).
    - clear. induction (free_bitmap pool); simpl; lia.
    - intros w Hw. apply list_elem_of_lookup in Hw as [i Hi].
      assert (Hc : cell (free_bitmap pool) i = w)
        by (unfold cell; rewrite Hi; reflexivity).
      rewrite <- Hc.
      destruct (Nat.lt_ge_cases i n) as [Hlt|Hge].
      + rewrite Hall by (apply elem_of_seq; lia). reflexivity.
      + rewrite (tail_word_zero pool i Hok); [reflexivity|].
        unfold n in Hge. rewrite usize_small in Hge by lia.
        pose proof (Z.div_mod (buffer_count pool + 31) 32 ltac:(lia)).
        pose proof (Z.mod_pos_bound (buffer_count pool + 31) 32 ltac:(lia)).
        lia. }
  pose proof (ok_conserve _ Hok). lia.
Qed.

Lemma alloc_ok pool :
  pool_ok pool ->
  let r := hev_memory_pool_alloc pool in
  (fst r = 0 /\ snd r = pool /\ allocated pool = buffer_count pool) \/
  (fst r <> 0 /\ allocated pool < buffer_count pool /\
   allocated (snd r) = allocated pool + 1 /\ pool_ok (snd r)).
Proof.
  intros Hok. unfold hev_memory_pool_alloc.
  destruct (alloc_scan_spec pool
              (seq 0 (Z.to_nat (usize (buffer_count pool + 31) / 32))))
    as [[Heq Hall]|(i & Hnz & Heq)]; rewrite Heq.
  - left. cbn [fst snd]. split; [reflexivity|]. split; [reflexivity|].
    apply alloc_full; assumption.
  - right. destruct (claim_ok pool i Hok Hnz)
      as (Hok' & Hal & Hroom & _ & _ & idx & b & _ & _ & _ & _ & _ & _ & _ & _
          & Hpnz & _).
    auto.
Qed.

Lemma alloc_inv pool held :
  pool_inv pool held ->
  let r := hev_memory_pool_alloc pool in
  (fst r = 0 /\ snd r = pool /\ allocated pool = buffer_count pool) \/
  (fst r <> 0 /\ (fst r ∉ held) /\ allocated pool < buffer_count pool /\
   allocated (snd r) = allocated pool + 1 /\
   pool_inv (snd r) (fst r :: held) /\
   free_bitmap (hev_memory_pool_free (snd r) (fst r)) = free_bitmap pool /\
   allocated (hev_memory_pool_free (snd r) (fst r)) = allocated pool).
Proof.
  intros Hinv. unfold hev_memory_pool_alloc.
  destruct (alloc_scan_spec pool
              (seq 0 (Z.to_nat (usize (buffer_count pool + 31) / 32))))
    as [[Heq Hall]|(i & Hnz & Heq)]; rewrite Heq.
  - left. cbn [fst snd]. split; [reflexivity|]. split; [reflexivity|].
    apply alloc_full; [exact (inv_ok _ _ Hinv)|exact Hall].
  - right. destruct (claim_inv pool held i Hinv Hnz) as (H1 & H2 & H3 & H4 & H5).
    destruct (claim_ok pool i (inv_ok _ _ Hinv) Hnz) as (_ & Hal & Hroom & _).
    split; [exact H1|]. split; [exact H2|]. split; [exact Hroom|].
    split; [exact Hal|]. split; [exact H3|]. split; assumption.
Qed.

(** *** The freshly constructed pool *)

Lemma fresh_bitmap_ok_all : forallb fresh_bitmap_ok (seqZ 0 2049) = true.
Proof. vm_cast_no_check (eq_refl true). Qed.

Lemma fresh_bitmap_checked c :
  0 <= c <= POOL_MAX_BUFFERS -> fresh_bitmap_ok c = true.
Proof.
  intros Hc. unfold POOL_MAX_BUFFERS in Hc.
  pose proof fresh_bitmap_ok_all as Hall.
  rewrite forallb_forall in Hall. apply Hall.
  apply list_elem_of_In, elem_of_seqZ. lia.
Qed.

Lemma fill_buffers_spec heap : forall todo bufs out,
  NoDup todo -> fill_buffers heap todo bufs = Some out ->
  length out = length bufs /\
  (forall i, i ∈ todo -> heap i <> 0) /\
  (forall i, i ∈ todo -> (i < length bufs)%nat -> cell out i = heap i) /\
  (forall i, i ∉ todo -> cell out i = cell bufs i).
Proof.
  induction todo as [|a todo IH]; intros bufs out Hnd Hfill; simpl in Hfill.
  - inversion Hfill; subst. split; [reflexivity|].
    split; [intros i Hi; inversion Hi|].
    split; [intros i Hi; inversion Hi|]. reflexivity.
  - apply NoDup_cons in Hnd as [Ha Hnd].
    destruct (Z.eqb_spec (heap a) 0) as [|Hnz]; [discriminate|].
    destruct (IH _ _ Hnd Hfill) as (Hlen & Hnn & Hin & Hout).
    rewrite length_insert in Hlen, Hin.
    split; [exact Hlen|]. split; [|split].
    + intros i Hi. apply elem_of_cons in Hi as [->|Hi]; [exact Hnz|auto].
    + intros i Hi Hlt. apply elem_of_cons in Hi as [->|Hi]; [|auto].
      rewrite Hout by exact Ha. rewrite cell_insert by exact Hlt.
      rewrite decide_True by reflexivity. reflexivity.
    + intros i Hi. apply not_elem_of_cons in Hi as [Hne Hi].
      rewrite Hout by exact Hi. unfold cell.
      rewrite list_lookup_insert_ne by congruence. reflexivity.
Qed.

(** What the constructor returns, when it returns a pool. *)
Lemma new_ok struct_ok heap size count pool0 :
  0 <= count ->
  hev_memory_pool_new struct_ok heap size count = Some pool0 ->
  pool_ok pool0 /\
  buffer_count pool0 = Z.min count POOL_MAX_BUFFERS /\
  allocated pool0 = 0 /\
  (forall idx, slot_free pool0 idx = (Z.of_nat idx <? buffer_count pool0)) /\
  (forall i, Z.of_nat i < buffer_count pool0 ->
             cell (buffers pool0) i = heap i).
Proof.
  intros Hpos Hnew. unfold hev_memory_pool_new in Hnew.
  set (c := if count >? POOL_MAX_BUFFERS then POOL_MAX_BUFFERS else count) in *.
  assert (Hc : c = Z.min count POOL_MAX_BUFFERS).
  { unfold c. destruct (Z.gtb_spec count POOL_MAX_BUFFERS); lia. }
  assert (Hrange : 0 <= c <= POOL_MAX_BUFFERS)
    by (rewrite Hc; unfold POOL_MAX_BUFFERS; lia).
  destruct struct_ok; [|discriminate]. simpl negb in Hnew. cbv iota in Hnew.
  destruct (fill_buffers heap (seq 0 (Z.to_nat c))
              (replicate (Z.to_nat POOL_MAX_BUFFERS) 0)) as [bufs|] eqn:Hfill;
    [|discriminate].
  injection Hnew as Hpool.
  assert (Hbc : buffer_count pool0 = c) by (subst pool0; reflexivity).
  destruct (fill_buffers_spec _ _ _ _ (NoDup_seq 0 _) Hfill)
    as (Hlen & Hnn & Hin & _).
  rewrite length_replicate in Hlen, Hin.
  pose proof (fresh_bitmap_checked c Hrange) as Hok.
  unfold fresh_bitmap_ok in Hok. fold (fresh_bitmap c) in Hpool.
  apply andb_prop in Hok as [Hok Htail]. apply andb_prop in Hok as [Hok Hpc].
  apply andb_prop in Hok as [Hl Hwords].
  apply Nat.eqb_eq in Hl. apply Z.eqb_eq in Hpc.
  rewrite forallb_forall in Hwords. rewrite forallb_forall in Htail.
  unfold POOL_MAX_BUFFERS in *.
  assert (Hbufeq : forall i, Z.of_nat i < c -> cell bufs i = heap i).
  { intros i Hi. apply Hin; [apply elem_of_seq|]; lia. }
  assert (Hbits : forall idx, bm_bit (fresh_bitmap c) idx = (Z.of_nat idx <? c)).
  { intros idx. unfold bm_bit. destruct (slot_join idx) as [Hjoin Hm].
    destruct (Nat.lt_ge_cases (idx / 32) BITMAP_WORDS) as [Hi|Hi].
    - assert (Hini : In (idx / 32)%nat (seq 0 BITMAP_WORDS))
        by (apply list_elem_of_In, elem_of_seq; lia).
      pose proof (Htail _ Hini) as Hrow. rewrite forallb_forall in Hrow.
      assert (Hinb : In (Z.of_nat (idx mod 32)) (seqZ 0 32))
        by (apply list_elem_of_In, elem_of_seqZ; lia).
      specialize (Hrow _ Hinb). apply Bool.eqb_prop in Hrow. rewrite Hrow.
      f_equal. lia.
    - rewrite cell_beyond by (rewrite Hl; exact Hi). rewrite Z.bits_0.
      symmetry. apply Z.ltb_ge. unfold BITMAP_WORDS in Hi. lia. }
  assert (Hbm : free_bitmap pool0 = fresh_bitmap c) by (subst pool0; reflexivity).
  assert (Hbufs : buffers pool0 = bufs) by (subst pool0; reflexivity).
  assert (Hal : allocated pool0 = 0) by (subst pool0; reflexivity).
  assert (Hpk : peak_usage pool0 = 0) by (subst pool0; reflexivity).
  clear Hpool.
  split; [|split; [rewrite Hbc; exact Hc|split; [exact Hal|split]]].
  - constructor; unfold slot_free; rewrite ?Hbm, ?Hbufs, ?Hal, ?Hpk, ?Hbc.
    + exact Hrange.
    + exact Hl.
    + intros i.
      destruct (Nat.lt_ge_cases i (length (fresh_bitmap c))) as [Hi|Hi].
      * pose proof (Hwords _ (proj1 (list_elem_of_In _ _) (cell_elem _ _ Hi)))
          as Hw.
        apply andb_prop in Hw as [H1 H2].
        apply Z.leb_le in H1. apply Z.ltb_lt in H2. lia.
      * rewrite cell_beyond by exact Hi. lia.
    + intros idx Hge. rewrite Hbits. apply Z.ltb_ge. exact Hge.
    + lia.
    + lia.
    + lia.
    + intros idx Hidx. rewrite Hbufeq by exact Hidx. apply Hnn.
      apply elem_of_seq. lia.
  - intros idx. unfold slot_free. rewrite Hbm, Hbc. apply Hbits.
  - intros i Hi. rewrite Hbufs. apply Hbufeq. rewrite <- Hbc. exact Hi.
Qed.

Lemma new_inv struct_ok heap size count pool0 :
  0 <= count ->
  hev_memory_pool_new struct_ok heap size count = Some pool0 ->
  heap_distinct heap (Z.to_nat (buffer_count pool0)) ->
  pool_inv pool0 [] /\
  buffer_count pool0 = Z.min count POOL_MAX_BUFFERS.
Proof.
  intros Hpos Hnew Hdist.
  destruct (new_ok _ _ _ _ _ Hpos Hnew) as (Hok & Hcnt & Hal & Hbits & Hbufs).
  split; [|exact Hcnt]. constructor.
  - exact Hok.
  - intros i j Hi Hj Heq. rewrite !Hbufs in Heq by assumption.
    apply Hdist; [lia|lia|exact Heq].
  - apply NoDup_nil. exact I.
  - rewrite Hal. reflexivity.
  - intros p. split; [intros Hp; inversion Hp|].
    intros (idx & Hidx & _ & Hclr). exfalso.
    rewrite Hbits in Hclr. apply Z.ltb_ge in Hclr. lia.
Qed.

(** *** Call sequences keep the invariant *)

Lemma step_inv pool held c held' :
  pool_inv pool held -> ledger_step pool held c = Some held' ->
  pool_inv (step pool c) held'.
Proof.
  intros Hinv Hstep. destruct c as [|ptr]; simpl in Hstep |- *.
  - injection Hstep as <-.
    destruct (alloc_inv pool held Hinv)
      as [(H0 & Hsame & _)|(Hnz & _ & _ & _ & Hinv' & _)].
    + rewrite H0, Hsame. exact Hinv.
    + destruct (Z.eqb_spec (fst (hev_memory_pool_alloc pool)) 0);
        [contradiction|exact Hinv'].
  - destruct (bool_decide (ptr ∈ held)) eqn:Hheld.
    + injection Hstep as <-. apply bool_decide_eq_true_1 in Hheld.
      apply free_inv; assumption.
    + unfold hev_memory_pool_free.
      destruct (ptr =? 0); [injection Hstep as <-; exact Hinv|].
      destruct (find_buffer _ _ _); [discriminate|].
      injection Hstep as <-. exact Hinv.
Qed.

Lemma run_inv calls : forall rest pool held,
  pool_inv pool held -> no_double_free (calls ++ rest) pool held = true ->
  exists held', pool_inv (run calls pool) held'.
Proof.
  induction calls as [|c calls IH]; intros rest pool held Hinv Hp.
  - exists held. exact Hinv.
  - simpl in Hp. destruct (ledger_step pool held c) as [held'|] eqn:Hstep;
      [|discriminate].
    simpl. apply (IH rest _ held'); [|exact Hp].
    apply (step_inv pool held c held'); assumption.
Qed.

Lemma alloc_buffer_count pool :
  buffer_count (snd (hev_memory_pool_alloc pool)) = buffer_count pool.
Proof.
  unfold hev_memory_pool_alloc.
  induction (seq 0 (Z.to_nat (usize (buffer_count pool + 31) / 32)))
    as [|i words IH]; simpl; [reflexivity|].
  destruct (cell (free_bitmap pool) i =? 0); [exact IH|reflexivity].
Qed.

Lemma alloc_many_length n : forall pool, length (fst (alloc_many n pool)) = n.
Proof. induction n as [|n IH]; intros pool; simpl; [reflexivity|]. rewrite IH. reflexivity. Qed.

(** In a row of allocations the [k]-th call (from 0) succeeds exactly when
    fewer than [buffer_count] buffers were lent before it. *)
Lemma alloc_many_spec n : forall pool k r,
  pool_ok pool -> fst (alloc_many n pool) !! k = Some r ->
  (r <> 0 <-> allocated pool + Z.of_nat k < buffer_count pool).
Proof.
  induction n as [|n IH]; intros pool k r Hok Hk; simpl in Hk;
    [discriminate|].
  destruct (alloc_ok pool Hok)
    as [(H0 & Hsame & Hfull)|(Hnz & Hroom & Hinc & Hok')].
  - destruct k as [|k]; simpl in Hk.
    + injection Hk as <-. rewrite H0. split; [congruence|lia].
    + rewrite Hsame in Hk. rewrite (IH pool k r Hok Hk). lia.
  - destruct k as [|k]; simpl in Hk.
    + injection Hk as <-. split; [intros _; lia|intros _; exact Hnz].
    + rewrite (IH _ k r Hok' Hk), Hinc, alloc_buffer_count. lia.
Qed.

Lemma fill_buffers_succeeds heap : forall todo bufs,
  (forall i, i ∈ todo -> heap i <> 0) ->
  exists out, fill_buffers heap todo bufs = Some out.
Proof.
  induction todo as [|a todo IH]; intros bufs Hnz; simpl.
  - exists bufs. reflexivity.
  - destruct (Z.eqb_spec (heap a) 0) as [H0|_].
    + exfalso. apply (Hnz a); [left|exact H0].
    + apply IH. intros i Hi. apply Hnz. right. exact Hi.
Qed.

(** Freeing a pointer that is no buffer of the pool, or NULL, changes
    nothing. *)
Lemma free_foreign pool ptr :
  (forall i, Z.of_nat i < buffer_count pool -> cell (buffers pool) i <> ptr) ->
  hev_memory_pool_free pool ptr = pool.
Proof.
  intros Hforeign. unfold hev_memory_pool_free.
  destruct (ptr =? 0); [reflexivity|].
  rewrite find_buffer_none; [reflexivity|].
  intros j Hj. apply Hforeign. apply elem_of_seq in Hj. lia.
Qed.

(** Freeing a buffer whose slot is already free leaves the bitmap and the
    peak alone and still decrements the allocated counter. *)
Lemma free_twice pool held idx :
  pool_inv pool held -> Z.of_nat idx < buffer_count pool ->
  slot_free pool idx = true ->
  let pool' := hev_memory_pool_free pool (cell (buffers pool) idx) in
  free_bitmap pool' = free_bitmap pool /\
  peak_usage pool' = peak_usage pool /\
  allocated pool' = usize (allocated pool - 1) /\
  allocated pool' <> allocated pool.
Proof.
  intros Hinv Hidx Hfree. cbv zeta. unfold hev_memory_pool_free.
  destruct (Z.eqb_spec (cell (buffers pool) idx) 0) as [H0|_].
  { exfalso. apply (inv_nonnull _ _ Hinv idx Hidx). exact H0. }
  rewrite (find_buffer_slot pool held idx Hinv Hidx).
  cbn [free_bitmap peak_usage allocated].
  destruct (slot_join idx) as [Hjoin Hm].
  pose proof (inv_count _ _ Hinv) as Hcount. unfold POOL_MAX_BUFFERS in Hcount.
  split; [|split; [reflexivity|split; [reflexivity|]]].
  - rewrite set_idempotent by assumption.
    apply list_insert_id. unfold cell.
    assert (Hi : (idx / 32 < length (free_bitmap pool))%nat).
    { rewrite (inv_bitmap_len _ _ Hinv). unfold BITMAP_WORDS. lia. }
    destruct (lookup_lt_is_Some_2 _ _ Hi) as [x Hx]. rewrite Hx. reflexivity.
  - pose proof (inv_allocated_range _ _ Hinv) as Hr.
    destruct (Z.eq_dec (allocated pool) 0) as [Hz|Hnz].
    + rewrite Hz. vm_compute. discriminate.
    + rewrite usize_small by lia. lia.
Qed.

(** *** One thread alone

    A thread that no other thread interrupts goes through its call and
    leaves the pool as the sequential functions do. *)

Lemma run_alone_step n pool t :
  run_alone (S n) pool t
  = run_alone n (fst (thread_step pool t)) (snd (thread_step pool t)).
Proof. reflexivity. Qed.

Lemma alone_free pool rs ptr :
  exists n,
    run_alone n pool (thread_call pool (mkThread Idle rs) (Release ptr))
    = (hev_memory_pool_free pool ptr, mkThread Idle rs).
Proof.
  unfold thread_call, hev_memory_pool_free. cbn [pc].
  destruct (ptr =? 0); [by exists 0%nat |].
  destruct (find_buffer _ _ _) as [index |]; [| by exists 0%nat].
  by exists 2%nat.
Qed.

Ltac thread_step_once :=
  rewrite run_alone_step; unfold thread_step at 1 2;
  cbn [pc goto returned fst snd with_bitmap with_allocated
       buffers free_bitmap buffer_size buffer_count allocated peak_usage].

Lemma alone_claim pool rs i :
  cell (free_bitmap pool) i <> 0 ->
  exists n,
    run_alone n pool (mkThread (AllocLoad i) rs)
    = (snd (claim pool i (cell (free_bitmap pool) i)),
       mkThread Idle (rs ++ [fst (claim pool i (cell (free_bitmap pool) i))])).
Proof.
  intros Hword. apply Z.eqb_neq in Hword. unfold claim. cbn [fst snd].
  destruct (usize (allocated pool + 1) >? peak_usage pool) eqn:Hpeak.
  - exists 5%nat.
    thread_step_once. rewrite Hword.
    thread_step_once. rewrite Z.eqb_refl.
    thread_step_once.
    thread_step_once. rewrite Hpeak.
    thread_step_once. rewrite Z.eqb_refl.
    reflexivity.
  - exists 4%nat.
    thread_step_once. rewrite Hword.
    thread_step_once. rewrite Z.eqb_refl.
    thread_step_once.
    thread_step_once. rewrite Hpeak.
    reflexivity.
Qed.

Lemma alone_scan pool rs k : forall i,
  (i + S k = bitmap_size pool)%nat ->
  exists n,
    run_alone n pool (mkThread (AllocLoad i) rs)
    = (snd (alloc_scan pool (seq i (S k))),
       mkThread Idle (rs ++ [fst (alloc_scan pool (seq i (S k)))])).
Proof.
  induction k as [| k IH]; intros i Hi.
  - cbn [seq alloc_scan].
    destruct (cell (free_bitmap pool) i =? 0) eqn:Hword.
    + exists 1%nat.
      thread_step_once. rewrite Hword.
      destruct (Nat.ltb_spec (S i) (bitmap_size pool)); [lia | reflexivity].
    + apply alone_claim. by apply Z.eqb_neq.
  - change (seq i (S (S k))) with (i :: seq (S i) (S k)). cbn [alloc_scan].
    destruct (cell (free_bitmap pool) i =? 0) eqn:Hword.
    + destruct (IH (S i) ltac:(lia)) as [n Hn]. exists (S n).
      thread_step_once. rewrite Hword.
      destruct (Nat.ltb_spec (S i) (bitmap_size pool)); [| lia]. exact Hn.
    + apply alone_claim. by apply Z.eqb_neq.
Qed.

Lemma alone_alloc pool rs :
  exists n,
    run_alone n pool (thread_call pool (mkThread Idle rs) Allocate)
    = (snd (hev_memory_pool_alloc pool),
       mkThread Idle (rs ++ [fst (hev_memory_pool_alloc pool)])).
Proof.
  unfold thread_call, hev_memory_pool_alloc. cbn [pc].
  fold (bitmap_size pool).
  destruct (bitmap_size pool) as [| k] eqn:Hsize.
  - by exists 0%nat.
  - change (0 <? S k)%nat with true. cbn match.
    apply (alone_scan pool rs k 0%nat). lia.
Qed.

(** *** The claims about the buffer pool *)

(** Conservation in a sequential run.  Take the pool returned by the
    constructor, of capacity [M = buffer_count], and any sequence of allocate
    and free calls, one after the other, in which no free is given a buffer
    whose slot is already free.  After every prefix of the sequence, the
    number of set bits of the bitmap plus [allocated] is [M], and
    [allocated <= peak_usage <= M]; and an allocate followed at once by the
    free of the buffer it returned leaves the bitmap as it was. *)
Theorem pool_conservation struct_ok heap size count pool0 calls rest :
  0 <= count ->
  hev_memory_pool_new struct_ok heap size count = Some pool0 ->
  heap_distinct heap (Z.to_nat (buffer_count pool0)) ->
  no_double_free (calls ++ rest) pool0 [] = true ->
  let pool := run calls pool0 in
  let M := buffer_count pool0 in
  popcount (free_bitmap pool) + allocated pool = M /\
  allocated pool <= peak_usage pool <= M /\
  forall p pool',
    hev_memory_pool_alloc pool = (p, pool') -> p <> 0 ->
    free_bitmap (hev_memory_pool_free pool' p) = free_bitmap pool.
Proof.
  intros Hpos Hnew Hdist Hcalls pool M.
  destruct (new_inv _ _ _ _ _ Hpos Hnew Hdist) as [Hinv0 _].
  destruct (run_inv calls rest pool0 [] Hinv0 Hcalls) as [held Hinv].
  fold pool in Hinv.
  assert (HM : buffer_count pool = M).
  { unfold pool, M. clear. revert pool0.
    induction calls as [|c calls IH]; intros pool0; [reflexivity|].
    simpl. rewrite IH. destruct c as [|ptr]; simpl.
    - apply alloc_buffer_count.
    - unfold hev_memory_pool_free. destruct (ptr =? 0); [reflexivity|].
      destruct (find_buffer _ _ _); reflexivity. }
  rewrite <- HM. split; [exact (inv_conserve _ _ Hinv)|].
  split; [exact (inv_peak _ _ Hinv)|].
  intros p pool' Halloc Hp.
  destruct (alloc_inv pool held Hinv)
    as [(H0 & _)|(_ & _ & _ & _ & _ & Hback & _)];
    rewrite Halloc in *; cbn [fst snd] in *; [contradiction|exact Hback].
Qed.

Lemma pool_conservation_witness :
  let pool := run [Allocate; Allocate; Release 64; Release 4099] pool4 in
  popcount (free_bitmap pool) + allocated pool = buffer_count pool4 /\
  allocated pool <= peak_usage pool <= buffer_count pool4 /\
  forall p pool',
    hev_memory_pool_alloc pool = (p, pool') -> p <> 0 ->
    free_bitmap (hev_memory_pool_free pool' p) = free_bitmap pool.
Proof.
  apply (pool_conservation true heap64 2048 4 pool4
           [Allocate; Allocate; Release 64; Release 4099]
           [Release 0; Release 128; Allocate]).
  - lia.
  - vm_compute. reflexivity.
  - intros i j _ _. unfold heap64. lia.
  - vm_compute. reflexivity.
Defined.

(** C1 (buffer pool conservation).  The conservation law does not hold after
    every sequence of allocate and free calls.

    First, one thread on the pool of capacity 4: allocate, free the buffer,
    free it again.  The second free leaves the four bits set and subtracts 1
    from [allocated] once more: the counter wraps to [2^64 - 1], the sum of
    set bits and [allocated] is not 4, and [allocated] is above
    [peak_usage].

    Second, two threads on the pool of capacity 1, every buffer freed once.
    Thread 0 allocates the buffer and frees it; [hev_memory_pool_free] sets
    the bit before it subtracts from [allocated], and between these two
    accesses thread 1 allocates: it finds the bit set, claims it and raises
    [allocated] to 2, which its peak loop records.  When no call is in
    progress any more, thread 1 holds the only buffer, [allocated] is 1 and
    the bitmap is empty, but [peak_usage] is 2, above the capacity. *)
Theorem conservation_violated :
  (let calls := [Allocate; Release 64; Release 64] in
   let pool := run calls pool4 in
   fst (hev_memory_pool_alloc pool4) = 64 /\
   no_double_free calls pool4 [] = false /\
   buffer_count pool = 4 /\
   popcount (free_bitmap pool) = 4 /\
   allocated pool = 18446744073709551615 /\
   peak_usage pool = 1 /\
   popcount (free_bitmap pool) + allocated pool <> buffer_count pool /\
   ~ allocated pool <= peak_usage pool) /\
  (let s := sched_run overlapping_free two_threads in
   let pool := the_pool s in
   quiescent s = true /\
   returned <$> threads s = [[64]; [64]] /\
   buffer_count pool = 1 /\
   popcount (free_bitmap pool) = 0 /\
   allocated pool = 1 /\
   peak_usage pool = 2 /\
   ~ peak_usage pool <= buffer_count pool).
Proof.
  split.
  - vm_compute.
    repeat split;
      first [ reflexivity
            | intros H; discriminate H
            | intros H; apply H; reflexivity ].
  - vm_compute.
    repeat split;
      first [ reflexivity | intros H; apply H; reflexivity ].
Qed.

(** C9 (capacity clamping at construction).  For every requested count above
    2048, provided the C allocator serves the requests, the constructor
    returns a pool whose [buffer_count] is exactly 2048; and in any row of
    allocations on that pool the first 2048 calls return a buffer and every
    later call returns NULL. *)
Theorem pool_new_clamps heap size count :
  POOL_MAX_BUFFERS < count ->
  (forall i, (i < 2048)%nat -> heap i <> 0) ->
  exists pool0,
    hev_memory_pool_new true heap size count = Some pool0 /\
    buffer_count pool0 = POOL_MAX_BUFFERS /\
    forall n,
      length (fst (alloc_many n pool0)) = n /\
      forall k r, fst (alloc_many n pool0) !! k = Some r ->
                  (r <> 0 <-> (k < 2048)%nat).
Proof.
  intros Hbig Hheap.
  assert (Hex : exists pool0,
             hev_memory_pool_new true heap size count = Some pool0).
  { unfold hev_memory_pool_new.
    destruct (Z.gtb_spec count POOL_MAX_BUFFERS) as [_|Hle]; [|lia].
    simpl negb. cbv iota.
    destruct (fill_buffers_succeeds heap (seq 0 (Z.to_nat POOL_MAX_BUFFERS))
                (replicate (Z.to_nat POOL_MAX_BUFFERS) 0)) as [bufs Hb].
    - intros i Hi. apply elem_of_seq in Hi. apply Hheap.
      unfold POOL_MAX_BUFFERS in Hi. lia.
    - rewrite Hb. eexists. reflexivity. }
  destruct Hex as [pool0 Hnew]. exists pool0. split; [exact Hnew|].
  unfold POOL_MAX_BUFFERS in Hbig.
  destruct (new_ok true heap size count pool0 ltac:(lia) Hnew)
    as (Hok & Hcount & Hal & _).
  assert (Hcount' : buffer_count pool0 = POOL_MAX_BUFFERS).
  { rewrite Hcount. unfold POOL_MAX_BUFFERS. lia. }
  split; [exact Hcount'|].
  intros n. split; [apply alloc_many_length|]. intros k r Hk.
  rewrite (alloc_many_spec n pool0 k r Hok Hk).
  rewrite Hal, Hcount'. unfold POOL_MAX_BUFFERS. lia.
Qed.

Lemma pool_new_clamps_witness :
  exists pool0,
    hev_memory_pool_new true heap64 2048 3000 = Some pool0 /\
    buffer_count pool0 = POOL_MAX_BUFFERS /\
    forall n,
      length (fst (alloc_many n pool0)) = n /\
      forall k r, fst (alloc_many n pool0) !! k = Some r ->
                  (r <> 0 <-> (k < 2048)%nat).
Proof.
  apply (pool_new_clamps heap64 2048 3000).
  - unfold POOL_MAX_BUFFERS. lia.
  - intros i _. unfold heap64. lia.
Defined.

(** C3 (free on invalid input).  On the pool of four buffers: allocate a
    buffer, free it, free it again.  The second free meets a slot whose bit
    is already 1; it leaves the bitmap and the peak as they were, and it
    decrements [allocated] from 0 to [2^64 - 1], so the conservation law of
    the pool no longer holds.  A free of an address that is no buffer of the
    pool changes nothing. *)
Theorem double_free_decrements_allocated :
  let r := hev_memory_pool_alloc pool4 in
  let once := hev_memory_pool_free (snd r) (fst r) in
  let twice := hev_memory_pool_free once (fst r) in
  fst r = 64 /\ slot_free once 0 = true /\
  free_bitmap twice = free_bitmap once /\
  peak_usage twice = peak_usage once /\
  allocated once = 0 /\
  allocated twice = 18446744073709551615 /\
  popcount (free_bitmap twice) + allocated twice <> buffer_count twice /\
  hev_memory_pool_free once 4096 = once.
Proof.
  vm_compute. repeat split; try reflexivity. discriminate.
Qed.

End MemoryPool.

(** ** SPSC ring: src/hev-ring-buffer.h, src/hev-ring-buffer.c *)

Module RingBuffer.

Definition RING_BUFFER_SIZE : Z := 4096.

Record HevRingBuffer := mkRing {
  head : Z;            (* _Atomic size_t, producer side *)
  cached_tail : Z;
  tail : Z;            (* _Atomic size_t, consumer side *)
  cached_head : Z;
  buffer : list Z;     (* void *buffer[RING_BUFFER_SIZE] *)
  mask : Z
}.

(** [hev_ring_buffer_new], when the allocation succeeds. *)
Definition hev_ring_buffer_new : HevRingBuffer :=
  {| head := 0; cached_tail := 0; tail := 0; cached_head := 0;
     buffer := replicate (Z.to_nat RING_BUFFER_SIZE) 0;
     mask := RING_BUFFER_SIZE - 1 |}.

(** The tail of [hev_ring_buffer_push] once the ring is known not to be
    full: store the pointer, publish the new head, return 0. *)
Definition push_store (rb : HevRingBuffer) (next data : Z)
  : Z * HevRingBuffer :=
  (0, {| head := next; cached_tail := cached_tail rb; tail := tail rb;
         cached_head := cached_head rb;
         buffer := <[Z.to_nat (head rb) := data]> (buffer rb);
         mask := mask rb |}).

(** [hev_ring_buffer_push]: the return value (0, or -1 for full) and the
    ring afterwards. *)
Definition hev_ring_buffer_push (rb : HevRingBuffer) (data : Z)
  : Z * HevRingBuffer :=
  let next := Z.land (usize (head rb + 1)) (mask rb) in
  if next =? cached_tail rb then
    let rb' := {| head := head rb; cached_tail := tail rb; tail := tail rb;
                  cached_head := cached_head rb; buffer := buffer rb;
                  mask := mask rb |} in
    if next =? cached_tail rb' then (-1, rb') else push_store rb' next data
  else push_store rb next data.

(** The tail of [hev_ring_buffer_pop] once the ring is known not to be
    empty. *)
Definition pop_load (rb : HevRingBuffer) : option Z * HevRingBuffer :=
  (Some (cell (buffer rb) (Z.to_nat (tail rb))),
   {| head := head rb; cached_tail := cached_tail rb;
      tail := Z.land (usize (tail rb + 1)) (mask rb);
      cached_head := cached_head rb; buffer := buffer rb; mask := mask rb |}).

(** [hev_ring_buffer_pop].  [None] is the branch [return NULL] taken on an
    empty ring; [Some data] is the branch [return data], whatever pointer
    [data] is. *)
Definition hev_ring_buffer_pop (rb : HevRingBuffer)
  : option Z * HevRingBuffer :=
  if tail rb =? cached_head rb then
    let rb' := {| head := head rb; cached_tail := cached_tail rb;
                  tail := tail rb; cached_head := head rb;
                  buffer := buffer rb; mask := mask rb |} in
    if tail rb' =? cached_head rb' then (None, rb') else pop_load rb'
  else pop_load rb.

(** The pointer the C function hands to its caller. *)
Definition pop_pointer (r : option Z) : Z := default 0 r.

(** [hev_ring_buffer_size]. *)
Definition hev_ring_buffer_size (rb : HevRingBuffer) : Z :=
  Z.land (usize (head rb - tail rb)) (mask rb).

(** *** The two endpoints as interleaved threads

    One producer thread runs [hev_ring_buffer_push] and one consumer thread
    runs [hev_ring_buffer_pop], each one access to the shared fields at a
    time; a schedule interleaves their steps in any order.  The program
    points of a push: the head is loaded; the capacity test (with its reload
    of the tail) is passed; the pointer is stored in the buffer; the head is
    published.  Those of a pop mirror them. *)

Inductive producer_pc : Type :=
  | PIdle
  | PLoaded (data h : Z)       (* head loaded into [h] *)
  | PChecked (data h : Z)      (* not full: about to store into buffer[h] *)
  | PStored (data h : Z).      (* stored: about to publish the new head *)

Inductive consumer_pc : Type :=
  | CIdle
  | CLoaded (t : Z)            (* tail loaded into [t] *)
  | CChecked (t : Z)           (* not empty: about to read buffer[t] *)
  | CRead (t data : Z).        (* read: about to publish the new tail *)

(** The system: the ring, where each thread stands, and what the threads
    have observed so far: the pointers whose push returned 0 and the
    pointers returned by pop, in order of return. *)
Record system := mkSystem {
  ring : HevRingBuffer;
  producer : producer_pc;
  consumer : consumer_pc;
  pushed : list Z;
  popped : list Z
}.

Inductive action : Type :=
  | ProducerCall (data : Z)    (* the producer enters push (data) *)
  | ProducerStep               (* the producer runs to its next access *)
  | ConsumerCall               (* the consumer enters pop () *)
  | ConsumerStep.

Definition with_cached_tail (rb : HevRingBuffer) (v : Z) : HevRingBuffer :=
  {| head := head rb; cached_tail := v; tail := tail rb;
     cached_head := cached_head rb; buffer := buffer rb; mask := mask rb |}.

Definition with_cached_head (rb : HevRingBuffer) (v : Z) : HevRingBuffer :=
  {| head := head rb; cached_tail := cached_tail rb; tail := tail rb;
     cached_head := v; buffer := buffer rb; mask := mask rb |}.

Definition with_buffer (rb : HevRingBuffer) (b : list Z) : HevRingBuffer :=
  {| head := head rb; cached_tail := cached_tail rb; tail := tail rb;
     cached_head := cached_head rb; buffer := b; mask := mask rb |}.

Definition with_head (rb : HevRingBuffer) (v : Z) : HevRingBuffer :=
  {| head := v; cached_tail := cached_tail rb; tail := tail rb;
     cached_head := cached_head rb; buffer := buffer rb; mask := mask rb |}.

Definition with_tail (rb : HevRingBuffer) (v : Z) : HevRingBuffer :=
  {| head := head rb; cached_tail := cached_tail rb; tail := v;
     cached_head := cached_head rb; buffer := buffer rb; mask := mask rb |}.

Definition producer_step (s : system) : system :=
  let rb := ring s in
  match producer s with
  | PIdle => s
  | PLoaded data h =>
      let next := Z.land (usize (h + 1)) (mask rb) in
      if next =? cached_tail rb then
        let rb' := with_cached_tail rb (tail rb) in
        if next =? cached_tail rb' then
          (* return -1 *)
          {| ring := rb'; producer := PIdle; consumer := consumer s;
             pushed := pushed s; popped := popped s |}
        else
          {| ring := rb'; producer := PChecked data h; consumer := consumer s;
             pushed := pushed s; popped := popped s |}
      else
        {| ring := rb; producer := PChecked data h; consumer := consumer s;
           pushed := pushed s; popped := popped s |}
  | PChecked data h =>
      {| ring := with_buffer rb (<[Z.to_nat h := data]> (buffer rb));
         producer := PStored data h; consumer := consumer s;
         pushed := pushed s; popped := popped s |}
  | PStored data h =>
      (* return 0 *)
      {| ring := with_head rb (Z.land (usize (h + 1)) (mask rb));
         producer := PIdle; consumer := consumer s;
         pushed := pushed s ++ [data]; popped := popped s |}
  end.

Definition consumer_step (s : system) : system :=
  let rb := ring s in
  match consumer s with
  | CIdle => s
  | CLoaded t =>
      if t =? cached_head rb then
        let rb' := with_cached_head rb (head rb) in
        if t =? cached_head rb' then
          (* return NULL *)
          {| ring := rb'; producer := producer s; consumer := CIdle;
             pushed := pushed s; popped := popped s |}
        else
          {| ring := rb'; producer := producer s; consumer := CChecked t;
             pushed := pushed s; popped := popped s |}
      else
        {| ring := rb; producer := producer s; consumer := CChecked t;
           pushed := pushed s; popped := popped s |}
  | CChecked t =>
      {| ring := rb; producer := producer s;
         consumer := CRead t (cell (buffer rb) (Z.to_nat t));
         pushed := pushed s; popped := popped s |}
  | CRead t data =>
      (* return data *)
      {| ring := with_tail rb (Z.land (usize (t + 1)) (mask rb));
         producer := producer s; consumer := CIdle;
         pushed := pushed s; popped := popped s ++ [data] |}
  end.

(** One scheduled action; an action that does not apply (a call while the
    thread is inside a call, a step while it is idle) changes nothing. *)
Definition act (s : system) (a : action) : system :=
  match a with
  | ProducerCall data =>
      match producer s with
      | PIdle =>
          {| ring := ring s; producer := PLoaded data (head (ring s));
             consumer := consumer s; pushed := pushed s; popped := popped s |}
      | _ => s
      end
  | ProducerStep => producer_step s
  | ConsumerCall =>
      match consumer s with
      | CIdle =>
          {| ring := ring s; producer := producer s;
             consumer := CLoaded (tail (ring s));
             pushed := pushed s; popped := popped s |}
      | _ => s
      end
  | ConsumerStep => consumer_step s
  end.

Definition start : system :=
  {| ring := hev_ring_buffer_new; producer := PIdle; consumer := CIdle;
     pushed := []; popped := [] |}.

Definition exec (schedule : list action) : system :=
  fold_left act schedule start.

(** A whole push, and a whole pop, run without interruption. *)
Definition whole_push (data : Z) : list action :=
  [ProducerCall data; ProducerStep; ProducerStep; ProducerStep].
Definition whole_pop : list action :=
  [ConsumerCall; ConsumerStep; ConsumerStep; ConsumerStep].

(** [n] pushes of the distinct pointers [8 * (k + 1)], [k = from, from+1, ...]:
    the ring afterwards and whether every push returned 0. *)
Fixpoint push_run (n : nat) (from : Z) (rb : HevRingBuffer)
  : bool * HevRingBuffer :=
  match n with
  | O => (true, rb)
  | S n' =>
      let r := hev_ring_buffer_push rb (8 * (from + 1)) in
      let rest := push_run n' (from + 1) (snd r) in
      ((fst r =? 0) && fst rest, snd rest)
  end.

(** *** The ring invariant

    [q] is the queue held by the ring, oldest pointer first.  [H] and [T]
    count the pushes and pops that took effect; [CH] and [CT] are the values
    of these counters when the other endpoint last looked at them.  The
    fields of the ring are these counters modulo the capacity. *)

Record ring_inv (rb : HevRingBuffer) (q : list Z) (H T CH CT : Z) : Prop := {
  ri_mask : mask rb = 4095;
  ri_len : length (buffer rb) = 4096%nat;
  ri_head : head rb = H mod 4096;
  ri_tail : tail rb = T mod 4096;
  ri_chead : cached_head rb = CH mod 4096;
  ri_ctail : cached_tail rb = CT mod 4096;
  ri_order : 0 <= CT /\ CT <= T /\ T <= CH /\ CH <= H /\ H <= CT + 4095;
  ri_q_len : Z.of_nat (length q) = H - T;
  ri_q : forall k, (k < length q)%nat ->
    q !! k = Some (cell (buffer rb) (Z.to_nat ((T + Z.of_nat k) mod 4096)))
}.

Lemma land_mask x : Z.land x 4095 = x mod 4096.
Proof. change 4095 with (Z.ones 12). rewrite Z.land_ones by lia. reflexivity. Qed.

Lemma next_index x : 0 <= x ->
  Z.land (usize (x mod 4096 + 1)) 4095 = (x + 1) mod 4096.
Proof.
  intros Hx. rewrite usize_small.
  - rewrite land_mask. apply Z.add_mod_idemp_l. lia.
  - pose proof (Z.mod_pos_bound x 4096 ltac:(lia)). lia.
Qed.

Lemma mod_eq_near a b :
  b <= a <= b + 4095 -> (a mod 4096 = b mod 4096 <-> a = b).
Proof. intros Hab. split; [|intros ->; reflexivity]. Z.div_mod_to_equations. lia. Qed.

Lemma mod_eq_wrap a b :
  b <= a <= b + 4095 -> ((a + 1) mod 4096 = b mod 4096 <-> a = b + 4095).
Proof.
  intros Hab. split.
  - Z.div_mod_to_equations. lia.
  - intros ->. replace (b + 4095 + 1) with (b + 1 * 4096) by lia.
    apply Z.mod_add. lia.
Qed.

Lemma ring_new_inv : ring_inv hev_ring_buffer_new [] 0 0 0 0.
Proof.
  constructor; try reflexivity.
  - lia.
  - intros k Hk. simpl in Hk. lia.
Qed.

Lemma push_store_inv rb q H T CH CT data :
  ring_inv rb q H T CH CT -> H < CT + 4095 ->
  ring_inv (snd (push_store rb ((H + 1) mod 4096) data)) (q ++ [data])
           (H + 1) T CH CT.
Proof.
  intros Hinv Hroom. pose proof (ri_order _ _ _ _ _ _ Hinv) as Hord.
  pose proof (ri_q_len _ _ _ _ _ _ Hinv) as Hlen.
  assert (Hh : (Z.to_nat (head rb) < length (buffer rb))%nat).
  { rewrite (ri_len _ _ _ _ _ _ Hinv), (ri_head _ _ _ _ _ _ Hinv).
    pose proof (Z.mod_pos_bound H 4096 ltac:(lia)). lia. }
  constructor; cbn [push_store snd head tail cached_head cached_tail buffer mask].
  - exact (ri_mask _ _ _ _ _ _ Hinv).
  - rewrite length_insert. exact (ri_len _ _ _ _ _ _ Hinv).
  - reflexivity.
  - exact (ri_tail _ _ _ _ _ _ Hinv).
  - exact (ri_chead _ _ _ _ _ _ Hinv).
  - exact (ri_ctail _ _ _ _ _ _ Hinv).
  - lia.
  - rewrite length_app. simpl length. lia.
  - intros k Hk. rewrite length_app in Hk. simpl length in Hk.
    rewrite cell_insert by exact Hh.
    destruct (Nat.lt_ge_cases k (length q)) as [Hold|Hnew].
    + rewrite lookup_app_l by exact Hold.
      rewrite (ri_q _ _ _ _ _ _ Hinv k Hold).
      rewrite decide_False; [reflexivity|].
      rewrite (ri_head _ _ _ _ _ _ Hinv). intros Heq.
      apply Z2Nat.inj in Heq;
        [|apply Z.mod_pos_bound; lia|apply Z.mod_pos_bound; lia].
      symmetry in Heq.
      apply (proj1 (mod_eq_near H (T + Z.of_nat k) ltac:(lia))) in Heq. lia.
    + assert (k = length q) by lia. subst k.
      rewrite lookup_app_r by lia. rewrite Nat.sub_diag. simpl.
      rewrite decide_True; [reflexivity|].
      rewrite (ri_head _ _ _ _ _ _ Hinv). f_equal. f_equal. lia.
Qed.

(** [hev_ring_buffer_push] under the invariant: it returns -1 exactly when
    4095 pointers are queued, which is exactly when the next head index is
    the tail index; otherwise it returns 0 and appends the pointer. *)
Lemma push_inv rb q H T CH CT data :
  ring_inv rb q H T CH CT ->
  let r := hev_ring_buffer_push rb data in
  let next := Z.land (usize (head rb + 1)) (mask rb) in
  (fst r = -1 /\ next = tail rb /\ H - T = 4095 /\
   ring_inv (snd r) q H T CH T) \/
  (fst r = 0 /\ next <> tail rb /\ H - T < 4095 /\
   exists CT', ring_inv (snd r) (q ++ [data]) (H + 1) T CH CT').
Proof.
  intros Hinv. pose proof (ri_order _ _ _ _ _ _ Hinv) as Hord.
  assert (Hnext : Z.land (usize (head rb + 1)) (mask rb) = (H + 1) mod 4096).
  { rewrite (ri_mask _ _ _ _ _ _ Hinv), (ri_head _ _ _ _ _ _ Hinv).
    apply next_index. lia. }
  pose proof (ri_ctail _ _ _ _ _ _ Hinv) as Hct.
  pose proof (ri_tail _ _ _ _ _ _ Hinv) as Ht.
  cbv zeta. unfold hev_ring_buffer_push. rewrite Hnext. cbn [cached_tail].
  assert (Hreload : ring_inv
            {| head := head rb; cached_tail := tail rb; tail := tail rb;
               cached_head := cached_head rb; buffer := buffer rb;
               mask := mask rb |} q H T CH T).
  { constructor; cbn [head tail cached_head cached_tail buffer mask];
      try (destruct Hinv; assumption). lia. }
  destruct (Z.eqb_spec ((H + 1) mod 4096) (cached_tail rb)) as [Hfull|Hroom];
    rewrite Hct in *.
  - apply (proj1 (mod_eq_wrap H CT ltac:(lia))) in Hfull.
    destruct (Z.eqb_spec ((H + 1) mod 4096) (tail rb)) as [Hfull'|Hroom'];
      rewrite Ht in *.
    + apply (proj1 (mod_eq_wrap H T ltac:(lia))) in Hfull'. left. cbn [fst snd].
      split; [reflexivity|]. split; [apply mod_eq_wrap; lia|].
      split; [lia|exact Hreload].
    + assert (H < T + 4095).
      { destruct (Z_lt_le_dec H (T + 4095)) as [Hlt|Hge]; [exact Hlt|].
        exfalso. apply Hroom'. apply mod_eq_wrap; lia. }
      right. split; [reflexivity|]. split; [exact Hroom'|]. split; [lia|].
      exists T. apply (push_store_inv _ q H T CH T data Hreload). lia.
  - assert (H < CT + 4095).
    { destruct (Z_lt_le_dec H (CT + 4095)) as [Hlt|Hge]; [exact Hlt|].
      exfalso. apply Hroom. apply mod_eq_wrap; lia. }
    right. split; [reflexivity|]. split.
    + intros Heq. rewrite Ht in Heq.
      apply (proj1 (mod_eq_wrap H T ltac:(lia))) in Heq. lia.
    + split; [lia|]. exists CT. apply push_store_inv; assumption.
Qed.

Lemma pop_load_inv rb q H T CH CT :
  ring_inv rb q H T CH CT -> T < CH ->
  exists data q',
    q = data :: q' /\
    fst (pop_load rb) = Some data /\
    ring_inv (snd (pop_load rb)) q' H (T + 1) CH CT.
Proof.
  intros Hinv Hne. pose proof (ri_order _ _ _ _ _ _ Hinv) as Hord.
  pose proof (ri_q_len _ _ _ _ _ _ Hinv) as Hlen.
  destruct q as [|data q']; [simpl in Hlen; lia|].
  exists data, q'. split; [reflexivity|].
  pose proof (ri_q _ _ _ _ _ _ Hinv 0%nat ltac:(simpl; lia)) as H0.
  simpl in H0. rewrite Z.add_0_r, <- (ri_tail _ _ _ _ _ _ Hinv) in H0.
  split; [unfold pop_load; cbn [fst]; congruence|].
  constructor; cbn [pop_load snd head tail cached_head cached_tail buffer mask].
  - exact (ri_mask _ _ _ _ _ _ Hinv).
  - exact (ri_len _ _ _ _ _ _ Hinv).
  - exact (ri_head _ _ _ _ _ _ Hinv).
  - rewrite (ri_mask _ _ _ _ _ _ Hinv), (ri_tail _ _ _ _ _ _ Hinv).
    apply next_index. lia.
  - exact (ri_chead _ _ _ _ _ _ Hinv).
  - exact (ri_ctail _ _ _ _ _ _ Hinv).
  - lia.
  - simpl length in Hlen. lia.
  - intros k Hk.
    pose proof (ri_q _ _ _ _ _ _ Hinv (S k) ltac:(simpl; lia)) as Hk'.
    simpl in Hk'. rewrite Hk'. do 4 f_equal. lia.
Qed.

(** [hev_ring_buffer_pop] under the invariant: the empty branch is taken
    exactly when nothing is queued; otherwise the oldest pointer is
    returned and leaves the queue. *)
Lemma pop_inv rb q H T CH CT :
  ring_inv rb q H T CH CT ->
  let r := hev_ring_buffer_pop rb in
  (fst r = None /\ q = [] /\ ring_inv (snd r) q H T H CT) \/
  (exists data q' CH',
     fst r = Some data /\ q = data :: q' /\
     ring_inv (snd r) q' H (T + 1) CH' CT).
Proof.
  intros Hinv. pose proof (ri_order _ _ _ _ _ _ Hinv) as Hord.
  pose proof (ri_q_len _ _ _ _ _ _ Hinv) as Hlen.
  pose proof (ri_chead _ _ _ _ _ _ Hinv) as Hch.
  pose proof (ri_tail _ _ _ _ _ _ Hinv) as Ht.
  pose proof (ri_head _ _ _ _ _ _ Hinv) as Hh.
  cbv zeta. unfold hev_ring_buffer_pop. cbn [tail cached_head].
  assert (Hreload : ring_inv
            {| head := head rb; cached_tail := cached_tail rb;
               tail := tail rb; cached_head := head rb;
               buffer := buffer rb; mask := mask rb |} q H T H CT).
  { constructor; cbn [head tail cached_head cached_tail buffer mask];
      try (destruct Hinv; assumption). lia. }
  destruct (Z.eqb_spec (tail rb) (cached_head rb)) as [Heq|Hne].
  - destruct (Z.eqb_spec (tail rb) (head rb)) as [Heq'|Hne'].
    + left. cbn [fst snd]. split; [reflexivity|]. split; [|exact Hreload].
      rewrite Ht, Hh in Heq'. symmetry in Heq'.
      apply (proj1 (mod_eq_near H T ltac:(lia))) in Heq'.
      destruct q; [reflexivity|simpl in Hlen; lia].
    + right. assert (T < H).
      { destruct (Z_lt_le_dec T H) as [Hlt|Hge]; [exact Hlt|].
        exfalso. apply Hne'. rewrite Ht, Hh. f_equal. lia. }
      destruct (pop_load_inv _ q H T H CT Hreload ltac:(lia))
        as (data & q' & Hq & Hr & Hinv').
      exists data, q', H. auto.
  - right. assert (T < CH).
    { destruct (Z_lt_le_dec T CH) as [Hlt|Hge]; [exact Hlt|].
      exfalso. apply Hne. rewrite Ht, Hch. f_equal. lia. }
    destruct (pop_load_inv _ q H T CH CT Hinv ltac:(lia))
      as (data & q' & Hq & Hr & Hinv').
    exists data, q', CH. auto.
Qed.

(** *** The interleaved system *)

Definition producer_ok (rb : HevRingBuffer) (H CT : Z) (pc : producer_pc)
  : Prop :=
  match pc with
  | PIdle => True
  | PLoaded _ h => h = H mod 4096
  | PChecked _ h => h = H mod 4096 /\ H < CT + 4095
  | PStored data h =>
      h = H mod 4096 /\ H < CT + 4095 /\ cell (buffer rb) (Z.to_nat h) = data
  end.

Definition consumer_ok (q : list Z) (T CH : Z) (pc : consumer_pc) : Prop :=
  match pc with
  | CIdle => True
  | CLoaded t => t = T mod 4096
  | CChecked t => t = T mod 4096 /\ T < CH
  | CRead t data => t = T mod 4096 /\ T < CH /\ q !! 0%nat = Some data
  end.

Definition system_inv (s : system) : Prop :=
  exists q H T CH CT,
    ring_inv (ring s) q H T CH CT /\
    pushed s = popped s ++ q /\
    producer_ok (ring s) H CT (producer s) /\
    consumer_ok q T CH (consumer s).

Lemma index_bound x : (Z.to_nat (x mod 4096) < 4096)%nat.
Proof. pose proof (Z.mod_pos_bound x 4096 ltac:(lia)). lia. Qed.

Lemma index_distinct a b :
  b < a <= b + 4095 -> Z.to_nat (a mod 4096) <> Z.to_nat (b mod 4096).
Proof.
  intros Hab Heq.
  apply Z2Nat.inj in Heq;
    [|apply Z.mod_pos_bound; lia|apply Z.mod_pos_bound; lia].
  apply (proj1 (mod_eq_near a b ltac:(lia))) in Heq. lia.
Qed.

Lemma producer_step_inv s : system_inv s -> system_inv (producer_step s).
Proof.
  intros (q & H & T & CH & CT & Hinv & Hlog & Hp & Hc).
  pose proof (ri_order _ _ _ _ _ _ Hinv) as Hord.
  pose proof (ri_q_len _ _ _ _ _ _ Hinv) as Hlen.
  pose proof (ri_mask _ _ _ _ _ _ Hinv) as Hmask.
  pose proof (ri_ctail _ _ _ _ _ _ Hinv) as Hct.
  pose proof (ri_tail _ _ _ _ _ _ Hinv) as Ht.
  unfold producer_step.
  destruct (producer s) as [|data h|data h|data h] eqn:Hpc; simpl in Hp.
  - exists q, H, T, CH, CT. rewrite Hpc. auto.
  - subst h. rewrite Hmask, next_index by lia.
    assert (Hreload : ring_inv (with_cached_tail (ring s) (tail (ring s)))
                               q H T CH T).
    { constructor; cbn [with_cached_tail head tail cached_head cached_tail
                        buffer mask]; try (destruct Hinv; assumption). lia. }
    destruct (Z.eqb_spec ((H + 1) mod 4096) (cached_tail (ring s)))
      as [Hfull|Hroom]; rewrite Hct in *.
    + cbn [with_cached_tail cached_tail].
      destruct (Z.eqb_spec ((H + 1) mod 4096) (tail (ring s)))
        as [Hfull'|Hroom']; rewrite Ht in *.
      * exists q, H, T, CH, T. cbn. auto.
      * exists q, H, T, CH, T. cbn [ring producer consumer pushed popped].
        split; [exact Hreload|]. split; [exact Hlog|]. split; [|exact Hc].
        simpl. split; [reflexivity|].
        destruct (Z_lt_le_dec H (T + 4095)) as [Hlt|Hge]; [exact Hlt|].
        exfalso. apply Hroom'. apply mod_eq_wrap; lia.
    + exists q, H, T, CH, CT. cbn [ring producer consumer pushed popped].
      split; [exact Hinv|]. split; [exact Hlog|]. split; [|exact Hc].
      simpl. split; [reflexivity|].
      destruct (Z_lt_le_dec H (CT + 4095)) as [Hlt|Hge]; [exact Hlt|].
      exfalso. apply Hroom. apply mod_eq_wrap; lia.
  - destruct Hp as [-> Hroom].
    assert (Hh : (Z.to_nat (H mod 4096) < length (buffer (ring s)))%nat).
    { rewrite (ri_len _ _ _ _ _ _ Hinv). apply index_bound. }
    exists q, H, T, CH, CT. cbn [ring producer consumer pushed popped].
    split; [|split; [exact Hlog|split; [|exact Hc]]].
    + constructor; cbn [with_buffer head tail cached_head cached_tail buffer
                        mask]; try (destruct Hinv; assumption).
      * rewrite length_insert. exact (ri_len _ _ _ _ _ _ Hinv).
      * intros k Hk. rewrite (ri_q _ _ _ _ _ _ Hinv k Hk).
        rewrite cell_insert by exact Hh.
        rewrite decide_False; [reflexivity|].
        intros Heq. symmetry in Heq. revert Heq. apply index_distinct. lia.
    + simpl. split; [reflexivity|]. split; [exact Hroom|].
      cbn [with_buffer buffer]. rewrite cell_insert by exact Hh.
      rewrite decide_True by reflexivity. reflexivity.
  - destruct Hp as (-> & Hroom & Hcell).
    rewrite Hmask, next_index by lia.
    exists (q ++ [data]), (H + 1), T, CH, CT.
    cbn [ring producer consumer pushed popped].
    split; [|split; [|split]].
    + constructor; cbn [with_head head tail cached_head cached_tail buffer
                        mask]; try (destruct Hinv; assumption).
      * reflexivity.
      * lia.
      * rewrite length_app. simpl length. lia.
      * intros k Hk. rewrite length_app in Hk. simpl length in Hk.
        destruct (Nat.lt_ge_cases k (length q)) as [Hold|Hnew].
        -- rewrite lookup_app_l by exact Hold.
           exact (ri_q _ _ _ _ _ _ Hinv k Hold).
        -- assert (k = length q) by lia. subst k.
           rewrite lookup_app_r by lia. rewrite Nat.sub_diag. simpl.
           rewrite <- Hcell.
           replace (T + Z.of_nat (length q)) with H by lia. reflexivity.
    + rewrite Hlog, app_assoc. reflexivity.
    + exact I.
    + destruct (consumer s) as [|t|t|t d]; simpl in Hc |- *; try exact Hc.
      destruct Hc as (Ht' & Hlt & Hq0). split; [exact Ht'|]. split; [exact Hlt|].
      apply lookup_app_l_Some. exact Hq0.
Qed.

Lemma consumer_step_inv s : system_inv s -> system_inv (consumer_step s).
Proof.
  intros (q & H & T & CH & CT & Hinv & Hlog & Hp & Hc).
  pose proof (ri_order _ _ _ _ _ _ Hinv) as Hord.
  pose proof (ri_q_len _ _ _ _ _ _ Hinv) as Hlen.
  pose proof (ri_mask _ _ _ _ _ _ Hinv) as Hmask.
  pose proof (ri_chead _ _ _ _ _ _ Hinv) as Hch.
  pose proof (ri_head _ _ _ _ _ _ Hinv) as Hh.
  unfold consumer_step.
  destruct (consumer s) as [|t|t|t data] eqn:Hpc; simpl in Hc.
  - exists q, H, T, CH, CT. rewrite Hpc. auto.
  - subst t.
    assert (Hreload : ring_inv (with_cached_head (ring s) (head (ring s)))
                               q H T H CT).
    { constructor; cbn [with_cached_head head tail cached_head cached_tail
                        buffer mask]; try (destruct Hinv; assumption). lia. }
    destruct (Z.eqb_spec (T mod 4096) (cached_head (ring s))) as [Heq|Hne];
      rewrite Hch in *.
    + cbn [with_cached_head cached_head].
      destruct (Z.eqb_spec (T mod 4096) (head (ring s))) as [Heq'|Hne'];
        rewrite Hh in *.
      * exists q, H, T, H, CT. cbn [ring producer consumer pushed popped].
        split; [exact Hreload|]. split; [exact Hlog|]. split; [|exact I].
        destruct (producer s); exact Hp.
      * exists q, H, T, H, CT. cbn [ring producer consumer pushed popped].
        split; [exact Hreload|]. split; [exact Hlog|]. split.
        -- destruct (producer s); exact Hp.
        -- simpl. split; [reflexivity|].
           destruct (Z_lt_le_dec T H) as [Hlt|Hge]; [exact Hlt|].
           exfalso. apply Hne'. f_equal. lia.
    + exists q, H, T, CH, CT. cbn [ring producer consumer pushed popped].
      split; [exact Hinv|]. split; [exact Hlog|]. split; [exact Hp|].
      simpl. split; [reflexivity|].
      destruct (Z_lt_le_dec T CH) as [Hlt|Hge]; [exact Hlt|].
      exfalso. apply Hne. f_equal. lia.
  - destruct Hc as [-> Hlt].
    exists q, H, T, CH, CT. cbn [ring producer consumer pushed popped].
    split; [exact Hinv|]. split; [exact Hlog|]. split; [exact Hp|].
    simpl. split; [reflexivity|]. split; [exact Hlt|].
    rewrite (ri_q _ _ _ _ _ _ Hinv 0%nat ltac:(lia)).
    rewrite Z.add_0_r. reflexivity.
  - destruct Hc as (-> & Hlt & Hq0).
    destruct q as [|d q']; [discriminate|]. injection Hq0 as ->.
    rewrite Hmask, next_index by lia.
    exists q', H, (T + 1), CH, CT. cbn [ring producer consumer pushed popped].
    split; [|split; [|split]].
    + constructor; cbn [with_tail head tail cached_head cached_tail buffer
                        mask]; try (destruct Hinv; assumption).
      * reflexivity.
      * lia.
      * simpl length in Hlen. lia.
      * intros k Hk.
        pose proof (ri_q _ _ _ _ _ _ Hinv (S k) ltac:(simpl; lia)) as Hk'.
        simpl in Hk'. rewrite Hk'. do 4 f_equal. lia.
    + rewrite Hlog, <- app_assoc. reflexivity.
    + destruct (producer s) as [|d h|d h|d h]; simpl in Hp |- *; exact Hp.
    + exact I.
Qed.

Lemma act_inv s a : system_inv s -> system_inv (act s a).
Proof.
  intros Hs. destruct a as [data| | |]; simpl.
  - destruct (producer s) eqn:Hpc; try exact Hs.
    destruct Hs as (q & H & T & CH & CT & Hinv & Hlog & Hp & Hc).
    exists q, H, T, CH, CT. cbn [ring producer consumer pushed popped].
    split; [exact Hinv|]. split; [exact Hlog|]. split; [|exact Hc].
    simpl. exact (ri_head _ _ _ _ _ _ Hinv).
  - apply producer_step_inv. exact Hs.
  - destruct (consumer s) eqn:Hpc; try exact Hs.
    destruct Hs as (q & H & T & CH & CT & Hinv & Hlog & Hp & Hc).
    exists q, H, T, CH, CT. cbn [ring producer consumer pushed popped].
    split; [exact Hinv|]. split; [exact Hlog|]. split; [exact Hp|].
    simpl. exact (ri_tail _ _ _ _ _ _ Hinv).
  - apply consumer_step_inv. exact Hs.
Qed.

Lemma exec_inv schedule : system_inv (exec schedule).
Proof.
  unfold exec.
  assert (Hgen : forall s, system_inv s -> system_inv (fold_left act schedule s)).
  { induction schedule as [|a schedule IH]; intros s Hs; [exact Hs|].
    simpl. apply IH. apply act_inv. exact Hs. }
  apply Hgen. exists [], 0, 0, 0, 0.
  split; [apply ring_new_inv|]. split; [reflexivity|]. split; exact I.
Qed.

(** The program points compose to the C functions: a push, or a pop, that
    runs without interruption does to the ring what the function does, and
    reports what the function returns. *)
Lemma whole_push_is_push s data :
  producer s = PIdle ->
  let s' := fold_left act (whole_push data) s in
  let r := hev_ring_buffer_push (ring s) data in
  ring s' = snd r /\ producer s' = PIdle /\ consumer s' = consumer s /\
  popped s' = popped s /\
  pushed s' = (if fst r =? 0 then pushed s ++ [data] else pushed s).
Proof.
  intros Hidle. cbv zeta. unfold whole_push, hev_ring_buffer_push.
  cbn [fold_left act]. rewrite Hidle.
  destruct (Z.land (usize (head (ring s) + 1)) (mask (ring s))
            =? cached_tail (ring s)) eqn:E1;
    [destruct (Z.land (usize (head (ring s) + 1)) (mask (ring s))
               =? tail (ring s)) eqn:E2|];
    unfold producer_step; cbn [producer ring]; rewrite E1;
    cbn [with_cached_tail cached_tail]; rewrite ?E2;
    cbn [producer ring consumer pushed popped fst snd push_store
         with_cached_tail with_buffer with_head head tail cached_head
         cached_tail buffer mask];
    rewrite ?Z.eqb_refl; auto.
Qed.

Lemma whole_pop_is_pop s :
  consumer s = CIdle ->
  let s' := fold_left act whole_pop s in
  let r := hev_ring_buffer_pop (ring s) in
  ring s' = snd r /\ consumer s' = CIdle /\ producer s' = producer s /\
  pushed s' = pushed s /\
  popped s' = (match fst r with
               | Some data => popped s ++ [data]
               | None => popped s
               end).
Proof.
  intros Hidle. cbv zeta. unfold whole_pop, hev_ring_buffer_pop.
  cbn [fold_left act]. rewrite Hidle.
  destruct (tail (ring s) =? cached_head (ring s)) eqn:E1;
    [destruct (tail (ring s) =? head (ring s)) eqn:E2|];
    unfold consumer_step; cbn [consumer ring]; rewrite E1;
    cbn [with_cached_head cached_head tail]; rewrite ?E2;
    cbn [producer ring consumer pushed popped fst snd pop_load
         with_cached_head with_tail head tail cached_head
         cached_tail buffer mask];
    auto.
Qed.

(** *** The claim about the ring *)

(** C2 (ring FIFO and exact full condition).  In every execution of one
    producer and one consumer, interleaved access by access in any order,
    the pointers returned by pop are a prefix of the pointers accepted by
    push; whenever the producer is between two calls, a push returns -1
    exactly when [((head + 1) & mask) == tail].  On a fresh ring 4095
    pushes of distinct pointers all return 0, the next push returns -1, a
    pop then returns the first pointer pushed, and the push after it
    returns 0. *)
Theorem ring_fifo_and_full :
  (forall schedule,
     let s := exec schedule in
     popped s `prefix_of` pushed s /\
     (producer s = PIdle ->
      forall data,
        fst (hev_ring_buffer_push (ring s) data) = -1 <->
        Z.land (usize (head (ring s) + 1)) (mask (ring s)) = tail (ring s))) /\
  (let filled := push_run 4095 0 hev_ring_buffer_new in
   let over := hev_ring_buffer_push (snd filled) 7 in
   let taken := hev_ring_buffer_pop (snd over) in
   let again := hev_ring_buffer_push (snd taken) 7 in
   fst filled = true /\ fst over = -1 /\ fst taken = Some 8 /\ fst again = 0).
Proof.
  split.
  - intros schedule s.
    destruct (exec_inv schedule) as (q & H & T & CH & CT & Hinv & Hlog & _).
    fold s in Hinv, Hlog. split; [exists q; exact Hlog|].
    intros _ data.
    destruct (push_inv _ _ _ _ _ _ data Hinv)
      as [(Hr & Hn & _)|(Hr & Hn & _)]; rewrite Hr.
    + split; [intros _; exact Hn|reflexivity].
    + split; [discriminate|intros Heq; contradiction].
  - vm_compute. repeat split; reflexivity.
Qed.

End RingBuffer.

(** ** Session registry: insert_session and remove_session of
       src/hev-socks5-tunnel.c *)

Module SessionRegistry.

(** The doubly-linked list of [SessionNode]s, oldest first: each node carries
    one session pointer, [session_list_head] is the first element and
    [session_list_tail] the last.  [warnings] counts the [LOG_W] lines
    written. *)
Record registry := mkRegistry {
  session_list : list Z;
  session_count : Z;       (* static volatile int *)
  warnings : nat
}.

Definition empty_registry : registry :=
  {| session_list := []; session_count := 0; warnings := 0 |}.

(** [insert_session].  [node_ok] says whether [malloc] returned a node;
    [max_sessions] is [hev_config_get_misc_max_session_count ()]. *)
Definition insert_session (node_ok : bool) (max_sessions : Z) (session : Z)
    (r : registry) : registry :=
  if negb node_ok then r
  else
    let l := session_list r ++ [session] in
    let count := session_count r + 1 in
    let warn :=
      if (max_sessions >? 0) && (count >? max_sessions) then
        match l with
        | oldest :: _ => if oldest =? 0 then false else true
        | [] => false
        end
      else false in
    {| session_list := l;
       session_count := count;
       warnings := if warn then S (warnings r) else warnings r |}.

(** The loop of [remove_session]: unlink the first node whose session is
    [session]; [None] when no node matches. *)
Fixpoint unlink (session : Z) (l : list Z) : option (list Z) :=
  match l with
  | [] => None
  | s :: rest =>
      if s =? session then Some rest
      else option_map (cons s) (unlink session rest)
  end.

Definition remove_session (session : Z) (r : registry) : registry :=
  match unlink session (session_list r) with
  | Some l =>
      {| session_list := l;
         session_count := session_count r - 1;
         warnings := warnings r |}
  | None => r
  end.

(** Registering the sessions of [l] one after the other. *)
Definition insert_all (max_sessions : Z) (l : list Z) (r : registry) : registry :=
  fold_left (fun acc s => insert_session true max_sessions s acc) l r.

(** Every insertion that gets its node grows the registry by one, whatever
    the configured cap. *)
Lemma insert_session_grows max_sessions session r :
  session_count (insert_session true max_sessions session r)
  = session_count r + 1 /\
  session_list (insert_session true max_sessions session r)
  = session_list r ++ [session].
Proof. unfold insert_session. simpl. split; reflexivity. Qed.

Lemma insert_all_count max_sessions l : forall r,
  session_count (insert_all max_sessions l r)
  = session_count r + Z.of_nat (length l).
Proof.
  unfold insert_all.
  induction l as [|s l IH]; intros r; simpl; [lia|].
  rewrite IH.
  destruct (insert_session_grows max_sessions s r) as [-> _]. lia.
Qed.

(** C4 (session cap).  With [max_sessions = 1], registering two sessions
    leaves both in the registry: the size is 2, above the cap, and the only
    effect of the cap is one warning.  In general [M + 1] insertions into an
    empty registry leave [M + 1] sessions. *)
Theorem session_cap_not_enforced :
  (let r := insert_all 1 [4096; 8192] empty_registry in
   session_count r = 2 /\ session_list r = [4096; 8192] /\ warnings r = 1%nat) /\
  (forall M l, Z.of_nat (length l) = M + 1 ->
               session_count (insert_all M l empty_registry) = M + 1).
Proof.
  split; [vm_compute; repeat split; reflexivity|].
  intros M l Hl. rewrite insert_all_count. simpl. lia.
Qed.

End SessionRegistry.

(** ** Worker pool: get_cpu_count and hev_thread_pool_new of
       src/hev-thread-pool.c *)

Module ThreadPool.

Definition MAX_QUEUE_SIZE : Z := 10000.
Definition MIN_THREADS : Z := 2.
Definition MAX_THREADS : Z := 64.

Record HevThreadPool := mkThreadPool {
  num_threads : Z;
  shutdown : bool;
  queue_size : Z;
  active_threads : Z
}.

(** [get_cpu_count].  [cores] is what the platform branch selected by the
    preprocessor reports ([get_nprocs ()] on Linux). *)
Definition get_cpu_count (cores : Z) : Z :=
  let cpu_count := cores in
  let cpu_count := if cpu_count <? MIN_THREADS then MIN_THREADS else cpu_count in
  let cpu_count := if cpu_count >? MAX_THREADS then MAX_THREADS else cpu_count in
  cpu_count.

(** What the C library answers during construction: whether the two [calloc]
    calls succeed and how many [pthread_create] calls succeed before the
    first failure ([None]: all of them). *)
Record new_env := mkNewEnv {
  pool_ok : bool;
  threads_ok : bool;
  first_failed_create : option nat
}.

Definition all_ok : new_env :=
  {| pool_ok := true; threads_ok := true; first_failed_create := None |}.

(** [hev_thread_pool_new]; [None] is the NULL return. *)
Definition hev_thread_pool_new (env : new_env) (cores : Z) (num_threads : Z)
  : option HevThreadPool :=
  if negb (pool_ok env) then None
  else
    let num_threads :=
      if num_threads <=? 0 then
        let n := get_cpu_count cores in
        let n := n * 2 in
        if n >? MAX_THREADS then MAX_THREADS else n
      else num_threads in
    if negb (threads_ok env) then None
    else
      match first_failed_create env with
      | Some i => if (Z.of_nat i <? num_threads) then None
                  else Some {| num_threads := num_threads; shutdown := false;
                               queue_size := 0; active_threads := 0 |}
      | None => Some {| num_threads := num_threads; shutdown := false;
                        queue_size := 0; active_threads := 0 |}
      end.

(** [hev_thread_pool_get_thread_count] on a non-null pool. *)
Definition hev_thread_pool_get_thread_count (pool : HevThreadPool) : Z :=
  num_threads pool.

(** The spec's formula for the default: [clamp(2 * cores, 2, 64)]. *)
Definition clamp (x lo hi : Z) : Z := Z.min (Z.max x lo) hi.
Definition spec_default_threads (cores : Z) : Z := clamp (2 * cores) 2 64.

Lemma default_threads cores :
  (let n := get_cpu_count cores * 2 in
   if n >? MAX_THREADS then MAX_THREADS else n) = clamp (2 * cores) 4 64.
Proof.
  unfold get_cpu_count, clamp, MIN_THREADS, MAX_THREADS. cbv zeta.
  destruct (Z.ltb_spec cores 2) as [Hlow|Hlow].
  { cbn. destruct (Z.gtb_spec (2 * 2) 64); lia. }
  destruct (Z.gtb_spec cores 64) as [Hhigh|Hhigh].
  { cbn. destruct (Z.gtb_spec (64 * 2) 64); lia. }
  destruct (Z.gtb_spec (cores * 2) 64); lia.
Qed.

(** A machine with a single core: the pool gets 4 workers where the formula
    [clamp(2 * cores, 2, 64)] gives 2. *)
Lemma default_threads_single_core :
  option_map num_threads (hev_thread_pool_new all_ok 1 0) = Some 4 /\
  spec_default_threads 1 = 2 /\
  option_map num_threads (hev_thread_pool_new all_ok 1 0)
  <> Some (spec_default_threads 1).
Proof. vm_compute. repeat split; try reflexivity. discriminate. Qed.

(** C6 (default worker-thread count), as the code has it: a pool that is
    created holds, for a non-positive request, [min (2 * clamp(cores, 2, 64), 64)]
    threads, which is [clamp(2 * cores, 4, 64)], and for a positive request
    exactly the requested count. *)
Theorem thread_count_on_creation env cores requested pool :
  hev_thread_pool_new env cores requested = Some pool ->
  num_threads pool =
    if requested <=? 0 then clamp (2 * cores) 4 64 else requested.
Proof.
  unfold hev_thread_pool_new. intros Hnew.
  destruct (pool_ok env); [|discriminate]. simpl negb in Hnew. cbv iota in Hnew.
  destruct (threads_ok env); [|discriminate]. simpl negb in Hnew.
  cbv iota in Hnew.
  assert (Hn : num_threads pool =
    if requested <=? 0
    then (let n := get_cpu_count cores * 2 in
          if n >? MAX_THREADS then MAX_THREADS else n)
    else requested).
  { destruct (first_failed_create env) as [i|].
    - destruct (Z.of_nat i <? _); [discriminate|].
      injection Hnew as <-. reflexivity.
    - injection Hnew as <-. reflexivity. }
  rewrite Hn. destruct (requested <=? 0); [apply default_threads|reflexivity].
Qed.

Lemma thread_count_on_creation_witness :
  num_threads (mkThreadPool 4 false 0 0) = (if 0 <=? 0 then clamp (2 * 1) 4 64 else 0) /\
  num_threads (mkThreadPool 7 false 0 0) = (if 7 <=? 0 then clamp (2 * 8) 4 64 else 7).
Proof.
  split.
  - apply (thread_count_on_creation all_ok 1 0). reflexivity.
  - apply (thread_count_on_creation all_ok 8 7). reflexivity.
Defined.

End ThreadPool.

(** ** Connection pool: src/hev-connection-pool.{h,c} *)

Module ConnectionPool.

Definition CONN_POOL_SIZE : Z := 128.
Definition CONN_IDLE_TIMEOUT : Z := 60.

(** [errno] values of Linux used by the code. *)
Definition EAGAIN : Z := 11.
Definition EWOULDBLOCK : Z := 11.
Definition EINPROGRESS : Z := 115.

Record HevConnection := mkConn {
  fd : Z;
  last_used : Z;     (* time_t *)
  created : Z;       (* time_t *)
  in_use : bool;
  use_count : Z      (* uint32_t *)
}.

Record HevConnectionPool := mkConnPool {
  conns : list HevConnection;   (* HevConnection conns[CONN_POOL_SIZE] *)
  size : Z;
  total_requests : Z;           (* uint64_t, like the three below *)
  cache_hits : Z;
  cache_misses : Z;
  evictions : Z
}.

(** A slot as [calloc] leaves it. *)
Definition zero_conn : HevConnection :=
  {| fd := 0; last_used := 0; created := 0; in_use := false; use_count := 0 |}.

Definition slot (pool : HevConnectionPool) (i : nat) : HevConnection :=
  default zero_conn (conns pool !! i).

Definition set_slot (pool : HevConnectionPool) (i : nat) (c : HevConnection)
  : HevConnectionPool :=
  {| conns := <[i := c]> (conns pool); size := size pool;
     total_requests := total_requests pool; cache_hits := cache_hits pool;
     cache_misses := cache_misses pool; evictions := evictions pool |}.

Definition count_eviction (pool : HevConnectionPool) : HevConnectionPool :=
  {| conns := conns pool; size := size pool;
     total_requests := total_requests pool; cache_hits := cache_hits pool;
     cache_misses := cache_misses pool;
     evictions := u64 (evictions pool + 1) |}.

(** [hev_connection_pool_new]; [struct_ok] is the success of [calloc]. *)
Definition hev_connection_pool_new (struct_ok : bool) (size : Z)
  : option HevConnectionPool :=
  let size := if size >? CONN_POOL_SIZE then CONN_POOL_SIZE else size in
  if negb struct_ok then None
  else
    Some {| conns :=
              fold_left
                (fun acc i =>
                   <[i := {| fd := -1;
                             last_used := last_used (default zero_conn (acc !! i));
                             created := created (default zero_conn (acc !! i));
                             in_use := false;
                             use_count := use_count (default zero_conn (acc !! i)) |}]> acc)
                (seq 0 (Z.to_nat size))
                (replicate (Z.to_nat CONN_POOL_SIZE) zero_conn);
            size := size; total_requests := 0; cache_hits := 0;
            cache_misses := 0; evictions := 0 |}.

(** What the operating system answers during one [get]: the clock, the
    result of the one-byte [recv (MSG_PEEK | MSG_DONTWAIT)] on the fd of each
    slot probed, and the results of [socket] and [connect] on the miss
    path. *)
Record recv_result := mkRecv { ret : Z; recv_errno : Z }.

Record get_env := mkGetEnv {
  now : Z;
  peek : nat -> recv_result;
  socket_ret : Z;
  connect_ret : Z;
  connect_errno : Z
}.

(** The test [ret == 0 || (ret < 0 && errno != EAGAIN && errno != EWOULDBLOCK)]. *)
Definition dead (r : recv_result) : bool :=
  (ret r =? 0)
  || ((ret r <? 0) && negb (recv_errno r =? EAGAIN)
                   && negb (recv_errno r =? EWOULDBLOCK)).

(** The guard of the scan: the slot holds an idle, unexpired connection. *)
Definition reusable (env : get_env) (c : HevConnection) : bool :=
  (fd c >=? 0) && negb (in_use c)
  && (now env - last_used c <? CONN_IDLE_TIMEOUT).

Definition evict (c : HevConnection) : HevConnection :=
  {| fd := -1; last_used := last_used c; created := created c;
     in_use := in_use c; use_count := use_count c |}.

Definition reuse (env : get_env) (c : HevConnection) : HevConnection :=
  {| fd := fd c; last_used := now env; created := created c;
     in_use := true; use_count := u32 (use_count c + 1) |}.

Definition count_hit (pool : HevConnectionPool) : HevConnectionPool :=
  {| conns := conns pool; size := size pool;
     total_requests := total_requests pool;
     cache_hits := u64 (cache_hits pool + 1);
     cache_misses := cache_misses pool; evictions := evictions pool |}.

Definition count_miss (pool : HevConnectionPool) : HevConnectionPool :=
  {| conns := conns pool; size := size pool;
     total_requests := total_requests pool; cache_hits := cache_hits pool;
     cache_misses := u64 (cache_misses pool + 1);
     evictions := evictions pool |}.

Definition count_request (pool : HevConnectionPool) : HevConnectionPool :=
  {| conns := conns pool; size := size pool;
     total_requests := u64 (total_requests pool + 1);
     cache_hits := cache_hits pool; cache_misses := cache_misses pool;
     evictions := evictions pool |}.

(** The scan of [hev_connection_pool_get] over the slots [todo]: the fd
    found (-1 when the loop ends without a [break]) and the pool. *)
Fixpoint scan (env : get_env) (todo : list nat) (pool : HevConnectionPool)
  : Z * HevConnectionPool :=
  match todo with
  | [] => (-1, pool)
  | i :: rest =>
      let c := slot pool i in
      if reusable env c then
        if dead (peek env i) then
          scan env rest (count_eviction (set_slot pool i (evict c)))
        else (fd c, count_hit (set_slot pool i (reuse env c)))
      else scan env rest pool
  end.

(** The miss path: open a socket, start the connect, count the miss. *)
Definition connect_new (env : get_env) (pool : HevConnectionPool)
  : Z * HevConnectionPool :=
  let fd := socket_ret env in
  if fd <? 0 then (-1, pool)
  else if (connect_ret env <? 0) && negb (connect_errno env =? EINPROGRESS)
  then (-1, pool)
  else (fd, count_miss pool).

(** [hev_connection_pool_get] on a non-null pool. *)
Definition hev_connection_pool_get (env : get_env) (pool : HevConnectionPool)
  : Z * HevConnectionPool :=
  let r := scan env (seq 0 (Z.to_nat (size pool))) (count_request pool) in
  if fst r <? 0 then connect_new env (snd r) else r.

(** The two loops of [hev_connection_pool_release]. *)
Fixpoint find_fd (pool : HevConnectionPool) (fd0 : Z) (todo : list nat)
  : option nat :=
  match todo with
  | [] => None
  | i :: rest => if fd (slot pool i) =? fd0 then Some i else find_fd pool fd0 rest
  end.

Fixpoint find_empty (pool : HevConnectionPool) (todo : list nat) : option nat :=
  match todo with
  | [] => None
  | i :: rest => if fd (slot pool i) <? 0 then Some i else find_empty pool rest
  end.

(** [hev_connection_pool_release]; [t] is [time (NULL)]. *)
Definition hev_connection_pool_release (t : Z) (pool : HevConnectionPool)
    (fd0 : Z) : HevConnectionPool :=
  if fd0 <? 0 then pool
  else
    let all := seq 0 (Z.to_nat (size pool)) in
    match find_fd pool fd0 all with
    | Some i =>
        let c := slot pool i in
        set_slot pool i {| fd := fd c; last_used := t; created := created c;
                           in_use := false; use_count := use_count c |}
    | None =>
        match find_empty pool all with
        | Some i =>
            set_slot pool i {| fd := fd0; last_used := t; created := t;
                               in_use := false; use_count := 1 |}
        | None => count_eviction pool
        end
    end.

(** [hev_connection_pool_remove]. *)
Definition hev_connection_pool_remove (pool : HevConnectionPool) (fd0 : Z)
  : HevConnectionPool :=
  if fd0 <? 0 then pool
  else
    match find_fd pool fd0 (seq 0 (Z.to_nat (size pool))) with
    | Some i =>
        let c := slot pool i in
        count_eviction
          (set_slot pool i {| fd := -1; last_used := last_used c;
                              created := created c; in_use := false;
                              use_count := use_count c |})
    | None => pool
    end.

(** [hev_connection_pool_cleanup]. *)
Definition hev_connection_pool_cleanup (t : Z) (pool : HevConnectionPool)
  : HevConnectionPool :=
  fold_left
    (fun acc i =>
       let c := slot acc i in
       if (fd c >=? 0) && negb (in_use c)
          && (t - last_used c >=? CONN_IDLE_TIMEOUT)
       then count_eviction (set_slot acc i (evict c))
       else acc)
    (seq 0 (Z.to_nat (size pool))) pool.

(** [hev_connection_pool_stats] with [hits] and [misses] non-null. *)
Definition hev_connection_pool_stats (pool : HevConnectionPool) : Z * Z :=
  (cache_hits pool, cache_misses pool).

(** Examples: a pool of four slots, and environments in which no socket can
    be opened, the connect is refused, or the connect is under way. *)
Definition pool_of_4 : HevConnectionPool :=
  Eval vm_compute in
    default (mkConnPool [] 0 0 0 0 0) (hev_connection_pool_new true 4).

Definition quiet (i : nat) : recv_result := {| ret := -1; recv_errno := EAGAIN |}.
Definition closed (i : nat) : recv_result := {| ret := 0; recv_errno := 0 |}.

Definition env_no_socket : get_env :=
  {| now := 1000; peek := quiet; socket_ret := -1;
     connect_ret := 0; connect_errno := 0 |}.
Definition env_refused : get_env :=
  {| now := 1000; peek := quiet; socket_ret := 7;
     connect_ret := -1; connect_errno := 111 |}.
Definition env_connecting (new_fd : Z) (probe : nat -> recv_result) : get_env :=
  {| now := 1000; peek := probe; socket_ret := new_fd;
     connect_ret := -1; connect_errno := EINPROGRESS |}.

(** The slots scanned lie inside the array. *)
Definition pool_wf (pool : HevConnectionPool) : Prop :=
  (Z.to_nat (size pool) <= length (conns pool))%nat.

(** [get] took the miss path: its scan ended without a hit. *)
Definition miss_path (env : get_env) (pool : HevConnectionPool) : Prop :=
  fst (scan env (seq 0 (Z.to_nat (size pool))) (count_request pool)) < 0.

(** No slot of [after] holds an fd it did not hold in [before], except the
    fd [entering] (-1 marks an empty slot). *)
Definition fds_from (entering : Z) (before after : HevConnectionPool) : Prop :=
  forall j c', conns after !! j = Some c' ->
    exists c, conns before !! j = Some c /\ (fd c' = fd c \/ fd c' = entering).

(** *** Frame facts *)

Lemma lookup_set_slot pool i c j :
  conns (set_slot pool i c) !! j =
  if decide (j = i) then (fun _ => c) <$> (conns pool !! j)
  else conns pool !! j.
Proof.
  unfold set_slot. cbn [conns]. destruct (decide (j = i)) as [->|Hne].
  - destruct (conns pool !! i) as [c0|] eqn:Hc; simpl.
    + apply list_lookup_insert_eq. apply lookup_lt_is_Some. eauto.
    + rewrite list_insert_ge; [exact Hc|]. apply lookup_ge_None. exact Hc.
  - apply list_lookup_insert_ne. congruence.
Qed.

(** Slot [j] after is slot [j] before, or slot [j] before with its fd set
    to -1 because the scan found it idle and dead. *)
Definition kept_or_evicted (env : get_env) (before after : HevConnectionPool)
  : Prop :=
  forall j,
    conns after !! j = conns before !! j \/
    exists c, conns before !! j = Some c /\ reusable env c = true /\
              dead (peek env j) = true /\ conns after !! j = Some (evict c).

Lemma reusable_evict env c : reusable env (evict c) = false.
Proof. reflexivity. Qed.

(** A scan that ends without a hit only evicts. *)
Lemma scan_miss_frame env : forall todo pool,
  fst (scan env todo pool) < 0 ->
  kept_or_evicted env pool (snd (scan env todo pool)) /\
  size (snd (scan env todo pool)) = size pool /\
  cache_hits (snd (scan env todo pool)) = cache_hits pool /\
  cache_misses (snd (scan env todo pool)) = cache_misses pool /\
  total_requests (snd (scan env todo pool)) = total_requests pool.
Proof.
  induction todo as [|i todo IH]; intros pool Hmiss; simpl in Hmiss |- *.
  - split; [intros j; left; reflexivity|]. repeat split; reflexivity.
  - destruct (reusable env (slot pool i)) eqn:Hre.
    + destruct (dead (peek env i)) eqn:Hdead.
      * destruct (IH _ Hmiss) as (Hframe & Hs & Hh & Hm & Ht).
        split; [|repeat split; assumption].
        intros j. destruct (Hframe j) as [Hsame|(c & Hc & Hrc & Hd & Hafter)].
        -- rewrite Hsame. cbn [count_eviction conns].
           rewrite lookup_set_slot. destruct (decide (j = i)) as [->|Hne];
             [|left; reflexivity].
           unfold slot in *. destruct (conns pool !! i) as [c|] eqn:Hc; simpl.
           ++ right. exists c. auto.
           ++ left. reflexivity.
        -- cbn [count_eviction conns] in Hc.
           rewrite lookup_set_slot in Hc.
           destruct (decide (j = i)) as [->|Hne].
           ++ exfalso. destruct (conns pool !! i); simpl in Hc; [|discriminate].
              injection Hc as <-. rewrite reusable_evict in Hrc. discriminate.
           ++ right. exists c. auto.
      * exfalso. cbn [fst] in Hmiss. unfold reusable in Hre.
        apply andb_prop in Hre as [Hre _]. apply andb_prop in Hre as [Hfd _].
        apply Z.geb_le in Hfd. lia.
    + apply IH. exact Hmiss.
Qed.

Lemma fds_from_refl e pool : fds_from e pool pool.
Proof. intros j c' Hc. exists c'. auto. Qed.

Lemma fds_from_trans e p1 p2 p3 :
  fds_from e p1 p2 -> fds_from e p2 p3 -> fds_from e p1 p3.
Proof.
  intros H12 H23 j c3 Hc3. destruct (H23 j c3 Hc3) as (c2 & Hc2 & Hfd2).
  destruct (H12 j c2 Hc2) as (c1 & Hc1 & Hfd1).
  exists c1. split; [exact Hc1|]. destruct Hfd2 as [-> | ->]; auto.
Qed.

Lemma fds_from_set_slot e pool i c :
  fd c = fd (slot pool i) \/ fd c = e ->
  fds_from e pool (set_slot pool i c).
Proof.
  intros Hfd j c' Hc'. rewrite lookup_set_slot in Hc'.
  destruct (decide (j = i)) as [->|Hne]; [|exists c'; auto].
  unfold slot in Hfd. destruct (conns pool !! i) as [c0|]; simpl in *;
    [|discriminate].
  injection Hc' as <-. exists c0. auto.
Qed.

Lemma fds_from_count_eviction e p1 p2 :
  fds_from e p1 p2 -> fds_from e p1 (count_eviction p2).
Proof. intros H. exact H. Qed.

Lemma scan_fds env : forall todo pool,
  fds_from (-1) pool (snd (scan env todo pool)).
Proof.
  induction todo as [|i todo IH]; intros pool; simpl.
  - apply fds_from_refl.
  - destruct (reusable env (slot pool i)).
    + destruct (dead (peek env i)).
      * eapply fds_from_trans; [|apply IH].
        apply fds_from_count_eviction, fds_from_set_slot. right. reflexivity.
      * cbn [snd]. change (fds_from (-1) pool (set_slot pool i (reuse env (slot pool i)))).
        apply fds_from_set_slot. left. reflexivity.
    + apply IH.
Qed.

(** [get], [remove] and [cleanup] never put an fd into a slot. *)
Lemma get_fds env pool :
  fds_from (-1) pool (snd (hev_connection_pool_get env pool)).
Proof.
  unfold hev_connection_pool_get.
  pose proof (scan_fds env (seq 0 (Z.to_nat (size pool))) (count_request pool))
    as Hscan.
  destruct (fst (scan env _ _) <? 0); [|exact Hscan].
  unfold connect_new. destruct (socket_ret env <? 0); [exact Hscan|].
  destruct (_ && _); exact Hscan.
Qed.

Lemma remove_fds pool fd0 :
  fds_from (-1) pool (hev_connection_pool_remove pool fd0).
Proof.
  unfold hev_connection_pool_remove. destruct (fd0 <? 0); [apply fds_from_refl|].
  destruct (find_fd _ _ _) as [i|]; [|apply fds_from_refl].
  apply fds_from_count_eviction, fds_from_set_slot. right. reflexivity.
Qed.

Lemma cleanup_fds t pool :
  fds_from (-1) pool (hev_connection_pool_cleanup t pool).
Proof.
  unfold hev_connection_pool_cleanup.
  generalize (seq 0 (Z.to_nat (size pool))). intros todo.
  assert (Hgen : forall acc, fds_from (-1) pool acc ->
    fds_from (-1) pool
      (fold_left
         (fun acc i =>
            let c := slot acc i in
            if (fd c >=? 0) && negb (in_use c)
               && (t - last_used c >=? CONN_IDLE_TIMEOUT)
            then count_eviction (set_slot acc i (evict c))
            else acc) todo acc)).
  { induction todo as [|i todo IH]; intros acc Hacc; simpl; [exact Hacc|].
    apply IH. destruct (_ && _); [|exact Hacc].
    eapply fds_from_trans; [exact Hacc|].
    apply fds_from_count_eviction, fds_from_set_slot. right. reflexivity. }
  apply Hgen, fds_from_refl.
Qed.

(** [release fd0] puts no fd other than [fd0] into a slot. *)
Lemma release_fds t pool fd0 :
  fds_from fd0 pool (hev_connection_pool_release t pool fd0).
Proof.
  unfold hev_connection_pool_release.
  destruct (fd0 <? 0); [apply fds_from_refl|].
  destruct (find_fd _ _ _) as [i|].
  - apply fds_from_set_slot. left. reflexivity.
  - destruct (find_empty _ _) as [i|];
      [|apply fds_from_count_eviction, fds_from_refl].
    apply fds_from_set_slot. right. reflexivity.
Qed.

Lemma find_fd_none pool fd0 todo :
  (forall j, j ∈ todo -> fd (slot pool j) <> fd0) -> find_fd pool fd0 todo = None.
Proof.
  induction todo as [|i todo IH]; intros H; simpl; [reflexivity|].
  destruct (Z.eqb_spec (fd (slot pool i)) fd0) as [Heq|_].
  - exfalso. apply (H i); [left|exact Heq].
  - apply IH. intros j Hj. apply H. right. exact Hj.
Qed.

Lemma find_empty_some pool todo :
  (exists j, j ∈ todo /\ fd (slot pool j) < 0) ->
  exists i, find_empty pool todo = Some i /\ i ∈ todo /\ fd (slot pool i) < 0.
Proof.
  induction todo as [|i todo IH]; intros (j & Hj & Hneg); [inversion Hj|].
  simpl. destruct (Z.ltb_spec (fd (slot pool i)) 0) as [Hlt|Hge].
  - exists i. split; [reflexivity|]. split; [left|exact Hlt].
  - apply elem_of_cons in Hj as [->|Hj]; [lia|].
    destruct IH as (i' & Hfind & Hin & Hlt); [eauto|].
    exists i'. split; [exact Hfind|]. split; [right; exact Hin|exact Hlt].
Qed.

(** A released fd that no slot holds goes into the first empty slot. *)
Lemma release_inserts t pool fd0 :
  pool_wf pool -> 0 <= fd0 ->
  (forall j, (j < Z.to_nat (size pool))%nat -> fd (slot pool j) <> fd0) ->
  (exists j, (j < Z.to_nat (size pool))%nat /\ fd (slot pool j) < 0) ->
  exists i, (i < Z.to_nat (size pool))%nat /\ fd (slot pool i) < 0 /\
    slot (hev_connection_pool_release t pool fd0) i
    = {| fd := fd0; last_used := t; created := t; in_use := false;
         use_count := 1 |}.
Proof.
  intros Hwf Hfd Habsent (j & Hj & Hneg). unfold hev_connection_pool_release.
  destruct (Z.ltb_spec fd0 0) as [|_]; [lia|].
  rewrite find_fd_none
    by (intros k Hk; apply Habsent; apply elem_of_seq in Hk; lia).
  destruct (find_empty_some pool (seq 0 (Z.to_nat (size pool))))
    as (i & Hfind & Hin & Hlt).
  { exists j. split; [apply elem_of_seq; lia|exact Hneg]. }
  rewrite Hfind. apply elem_of_seq in Hin. exists i.
  split; [lia|]. split; [exact Hlt|].
  unfold slot at 1. rewrite lookup_set_slot, decide_True by reflexivity.
  unfold pool_wf in Hwf.
  destruct (lookup_lt_is_Some_2 (conns pool) i ltac:(lia)) as [c Hc].
  rewrite Hc. reflexivity.
Qed.

(** *** Statistics *)

Lemma scan_counts env : forall todo pool,
  total_requests (snd (scan env todo pool)) = total_requests pool /\
  cache_misses (snd (scan env todo pool)) = cache_misses pool /\
  cache_hits (snd (scan env todo pool))
  = (if fst (scan env todo pool) <? 0 then cache_hits pool
     else u64 (cache_hits pool + 1)).
Proof.
  induction todo as [|i todo IH]; intros pool; simpl.
  - repeat split; reflexivity.
  - destruct (reusable env (slot pool i)) eqn:Hre; [|apply IH].
    destruct (dead (peek env i)).
    + destruct (IH (count_eviction (set_slot pool i (evict (slot pool i)))))
        as (H1 & H2 & H3). rewrite H1, H2, H3. repeat split; reflexivity.
    + cbn [fst snd count_hit total_requests cache_misses cache_hits set_slot].
      unfold reusable in Hre.
      apply andb_prop in Hre as [Hre _]. apply andb_prop in Hre as [Hfd _].
      apply Z.geb_le in Hfd.
      destruct (Z.ltb_spec (fd (slot pool i)) 0); [lia|].
      repeat split; reflexivity.
Qed.

(** Every call counts one request; it counts one hit or one miss exactly
    when it returns an fd. *)
Lemma get_counts env pool :
  let r := hev_connection_pool_get env pool in
  total_requests (snd r) = u64 (total_requests pool + 1) /\
  (fst r < 0 ->
   cache_hits (snd r) = cache_hits pool /\
   cache_misses (snd r) = cache_misses pool) /\
  (0 <= fst r ->
   (cache_hits (snd r) = u64 (cache_hits pool + 1) /\
    cache_misses (snd r) = cache_misses pool) \/
   (cache_hits (snd r) = cache_hits pool /\
    cache_misses (snd r) = u64 (cache_misses pool + 1))).
Proof.
  cbv zeta. unfold hev_connection_pool_get.
  destruct (scan_counts env (seq 0 (Z.to_nat (size pool))) (count_request pool))
    as (Ht & Hm & Hh).
  cbn [count_request total_requests cache_misses cache_hits] in Ht, Hm, Hh.
  destruct (Z.ltb_spec
    (fst (scan env (seq 0 (Z.to_nat (size pool))) (count_request pool))) 0)
    as [Hmiss|Hhit].
  - unfold connect_new.
    destruct (Z.ltb_spec (socket_ret env) 0) as [Hs|Hs].
    + cbn [fst snd]. split; [exact Ht|]. split; [auto|lia].
    + destruct (_ && _); cbn [fst snd count_miss total_requests cache_hits
                                cache_misses].
      * split; [exact Ht|]. split; [auto|lia].
      * split; [exact Ht|]. split; [lia|]. intros _. right.
        rewrite Hh, Hm. auto.
  - split; [exact Ht|]. split; [lia|]. intros _. left. auto.
Qed.

(** *** The claims about the connection pool *)

(** C5 (statistics identity).  On a pool of four empty slots, a [get] during
    which [socket] fails, and a [get] during which [connect] is refused, both
    return -1 after counting the request and count neither a hit nor a miss:
    afterwards [cache_hits + cache_misses = 0] and [total_requests = 1]. *)
Theorem failed_get_counts_no_miss :
  (let r := hev_connection_pool_get env_no_socket pool_of_4 in
   fst r = -1 /\ total_requests (snd r) = 1 /\
   cache_hits (snd r) + cache_misses (snd r) = 0) /\
  (let r := hev_connection_pool_get env_refused pool_of_4 in
   fst r = -1 /\ total_requests (snd r) = 1 /\
   cache_hits (snd r) + cache_misses (snd r) = 0).
Proof. vm_compute. repeat split; reflexivity. Qed.

(** C10 (frame of a miss).  When [get] takes the miss path and returns the
    fd it created: that fd is the one [socket] returned; every slot is as it
    was, or is a slot the scan found idle and dead and closed (fd = -1), so
    no slot was made to hold the new fd; a later [release] of the fd, when no
    slot holds it and a slot is empty, stores it in an empty slot; and neither
    [get], on any path, nor [remove] nor [cleanup] ever stores an fd in a
    slot, while [release] stores none but the fd released. *)
Theorem get_miss_frame env pool :
  pool_wf pool -> miss_path env pool ->
  0 <= fst (hev_connection_pool_get env pool) ->
  let r := hev_connection_pool_get env pool in
  fst r = socket_ret env /\
  kept_or_evicted env pool (snd r) /\
  (forall t,
     (forall j, (j < Z.to_nat (size pool))%nat -> fd (slot (snd r) j) <> fst r) ->
     (exists j, (j < Z.to_nat (size pool))%nat /\ fd (slot (snd r) j) < 0) ->
     exists i, (i < Z.to_nat (size pool))%nat /\ fd (slot (snd r) i) < 0 /\
       slot (hev_connection_pool_release t (snd r) (fst r)) i
       = {| fd := fst r; last_used := t; created := t; in_use := false;
            use_count := 1 |}) /\
  (forall env0 pool0,
     fds_from (-1) pool0 (snd (hev_connection_pool_get env0 pool0))) /\
  (forall pool0 fd0, fds_from (-1) pool0 (hev_connection_pool_remove pool0 fd0)) /\
  (forall t pool0, fds_from (-1) pool0 (hev_connection_pool_cleanup t pool0)) /\
  (forall t pool0 fd0,
     fds_from fd0 pool0 (hev_connection_pool_release t pool0 fd0)).
Proof.
  intros Hwf Hmiss Hret. cbv zeta. unfold miss_path in Hmiss.
  destruct (scan_miss_frame env _ _ Hmiss) as (Hframe & Hsize & _).
  assert (Hget : hev_connection_pool_get env pool
                 = connect_new env
                     (snd (scan env (seq 0 (Z.to_nat (size pool)))
                                (count_request pool)))).
  { unfold hev_connection_pool_get.
    destruct (Z.ltb_spec
      (fst (scan env (seq 0 (Z.to_nat (size pool))) (count_request pool))) 0);
      [reflexivity|lia]. }
  rewrite Hget in Hret |- *. unfold connect_new in Hret |- *.
  destruct (Z.ltb_spec (socket_ret env) 0) as [Hs|Hs];
    [cbn [fst] in Hret; lia|].
  destruct (_ && _); [cbn [fst] in Hret; lia|]. cbn [fst snd].
  split; [reflexivity|]. split; [exact Hframe|]. split.
  - intros t Habsent Hempty.
    set (after := snd (scan env (seq 0 (Z.to_nat (size pool)))
                            (count_request pool))) in *.
    assert (Hsz : size (count_miss after) = size pool) by exact Hsize.
    assert (Hlen : length (conns after) = length (conns pool)).
    { unfold after. clear. generalize (seq 0 (Z.to_nat (size pool))).
      intros todo. change (conns pool) with (conns (count_request pool)).
      generalize (count_request pool). clear pool.
      induction todo as [|i todo IH]; intros p; simpl; [reflexivity|].
      destruct (reusable env (slot p i)); [|apply IH].
      destruct (dead (peek env i)).
      - rewrite IH. cbn [count_eviction set_slot conns]. apply length_insert.
      - cbn [snd count_hit set_slot conns]. apply length_insert. }
    destruct (release_inserts t (count_miss after) (socket_ret env))
      as (i & Hi & Hneg & Hslot).
    + unfold pool_wf in *. rewrite Hsz. cbn [count_miss conns].
      rewrite Hlen. exact Hwf.
    + exact Hs.
    + rewrite Hsz. exact Habsent.
    + rewrite Hsz. exact Hempty.
    + rewrite Hsz in Hi. exists i. auto.
  - split; [intros; apply get_fds|]. split; [intros; apply remove_fds|].
    split; [intros; apply cleanup_fds|intros; apply release_fds].
Qed.

Lemma get_miss_frame_witness :
  let env := env_connecting 9 closed in
  let pool := hev_connection_pool_release 990
                (hev_connection_pool_release 990 pool_of_4 5) 6 in
  let r := hev_connection_pool_get env pool in
  fst r = socket_ret env /\
  kept_or_evicted env pool (snd r) /\
  (forall t,
     (forall j, (j < Z.to_nat (size pool))%nat -> fd (slot (snd r) j) <> fst r) ->
     (exists j, (j < Z.to_nat (size pool))%nat /\ fd (slot (snd r) j) < 0) ->
     exists i, (i < Z.to_nat (size pool))%nat /\ fd (slot (snd r) i) < 0 /\
       slot (hev_connection_pool_release t (snd r) (fst r)) i
       = {| fd := fst r; last_used := t; created := t; in_use := false;
            use_count := 1 |}) /\
  (forall env0 pool0,
     fds_from (-1) pool0 (snd (hev_connection_pool_get env0 pool0))) /\
  (forall pool0 fd0, fds_from (-1) pool0 (hev_connection_pool_remove pool0 fd0)) /\
  (forall t pool0, fds_from (-1) pool0 (hev_connection_pool_cleanup t pool0)) /\
  (forall t pool0 fd0,
     fds_from fd0 pool0 (hev_connection_pool_release t pool0 fd0)).
Proof.
  apply (get_miss_frame (env_connecting 9 closed)
           (hev_connection_pool_release 990
              (hev_connection_pool_release 990 pool_of_4 5) 6)).
  - unfold pool_wf. vm_compute. lia.
  - unfold miss_path. vm_compute. reflexivity.
  - vm_compute. discriminate.
Defined.

End ConnectionPool.

(** ** TUN I/O engine: src/hev-tunnel-io.c, and the stop and stats entry
       points of src/hev-socks5-tunnel.c *)

Module TunnelIO.

Definition WRITE_QUEUE_SIZE : Z := 4096.
Definition WRITE_BATCH_SIZE : nat := 16.
Definition EAGAIN : Z := 11.
Definition EINTR : Z := 4.

(** A packet buffer of the stack, as far as this code reads it. *)
Record pbuf := mkPbuf {
  payload : Z;
  len : Z;
  tot_len : Z
}.

Record HevTunnelIO := mkIO {
  tun_fd : Z;
  mtu : Z;
  running : bool;
  num_readers : nat;
  num_writers : nat;
  write_queue : list pbuf;     (* write_queue_head ... write_queue_tail *)
  write_queue_size : Z;
  tx_packets : Z;              (* volatile size_t, like the three below *)
  tx_bytes : Z;
  rx_packets : Z;
  rx_bytes : Z
}.

(** What a thread of the engine does to the world outside the structure. *)
Inductive event : Type :=
  | EvBroadcast                        (* pthread_cond_broadcast (&write_cond) *)
  | EvJoinReader (i : nat)             (* pthread_join (reader_threads[i]) *)
  | EvJoinWriter (i : nat)             (* pthread_join (writer_threads[i]) *)
  | EvWrite (p : pbuf) (written : Z)   (* the packet's write to the TUN fd *)
  | EvWarn                             (* LOG_W write error *)
  | EvFree (p : pbuf).                 (* pbuf_free (p); free (node) *)

(** [hev_tunnel_io_new]; [num_cpus] is [sysconf (_SC_NPROCESSORS_ONLN)] and
    the flags say whether the three [calloc] calls succeed. *)
Definition hev_tunnel_io_new (struct_ok arrays_ok : bool) (num_cpus : Z)
    (fd mtu0 : Z) : option HevTunnelIO :=
  if negb struct_ok then None
  else
    let num_cpus := if num_cpus <? 2 then 2 else num_cpus in
    let n := if num_cpus >=? 4 then 2%nat else 1%nat in
    if negb arrays_ok then None
    else
      Some {| tun_fd := fd; mtu := mtu0; running := false;
              num_readers := n; num_writers := n;
              write_queue := []; write_queue_size := 0;
              tx_packets := 0; tx_bytes := 0; rx_packets := 0; rx_bytes := 0 |}.

Definition set_running (io : HevTunnelIO) (b : bool) : HevTunnelIO :=
  {| tun_fd := tun_fd io; mtu := mtu io; running := b;
     num_readers := num_readers io; num_writers := num_writers io;
     write_queue := write_queue io; write_queue_size := write_queue_size io;
     tx_packets := tx_packets io; tx_bytes := tx_bytes io;
     rx_packets := rx_packets io; rx_bytes := rx_bytes io |}.

(** [hev_tunnel_io_start]; [threads_ok] says whether every [pthread_create]
    succeeds. *)
Definition hev_tunnel_io_start (threads_ok : bool) (io : HevTunnelIO)
  : Z * HevTunnelIO :=
  if running io then (-1, io)
  else if threads_ok then (0, set_running io true)
  else (-1, set_running io false).

(** [hev_tunnel_io_stop]: the structure afterwards and what the caller did,
    in order. *)
Definition hev_tunnel_io_stop (io : HevTunnelIO) : HevTunnelIO * list event :=
  if negb (running io) then (io, [])
  else
    (set_running io false,
     [EvBroadcast]
       ++ (EvJoinReader <$> seq 0 (num_readers io))
       ++ (EvJoinWriter <$> seq 0 (num_writers io))).

(** [hev_tunnel_io_write]: the return value and the structure; [node_ok] is
    the success of [malloc]. *)
Definition hev_tunnel_io_write (node_ok : bool) (io : HevTunnelIO) (buf : pbuf)
  : Z * HevTunnelIO :=
  if negb node_ok then (-1, io)
  else if write_queue_size io >=? WRITE_QUEUE_SIZE then (-1, io)
  else
    (0, {| tun_fd := tun_fd io; mtu := mtu io; running := running io;
           num_readers := num_readers io; num_writers := num_writers io;
           write_queue := write_queue io ++ [buf];
           write_queue_size := write_queue_size io + 1;
           tx_packets := tx_packets io; tx_bytes := tx_bytes io;
           rx_packets := rx_packets io; rx_bytes := rx_bytes io |}).

(** The statistics update of [reader_thread] for a datagram of [n] bytes. *)
Definition count_rx (io : HevTunnelIO) (n : Z) : HevTunnelIO :=
  {| tun_fd := tun_fd io; mtu := mtu io; running := running io;
     num_readers := num_readers io; num_writers := num_writers io;
     write_queue := write_queue io; write_queue_size := write_queue_size io;
     tx_packets := tx_packets io; tx_bytes := tx_bytes io;
     rx_packets := usize (rx_packets io + 1);
     rx_bytes := usize (rx_bytes io + n) |}.

Definition count_tx (io : HevTunnelIO) (written : Z) : HevTunnelIO :=
  {| tun_fd := tun_fd io; mtu := mtu io; running := running io;
     num_readers := num_readers io; num_writers := num_writers io;
     write_queue := write_queue io; write_queue_size := write_queue_size io;
     tx_packets := usize (tx_packets io + 1);
     tx_bytes := usize (tx_bytes io + written);
     rx_packets := rx_packets io; rx_bytes := rx_bytes io |}.

(** The critical section of [writer_thread] that moves up to [n] nodes from
    the head of the queue into the local batch. *)
Fixpoint take_batch (n : nat) (io : HevTunnelIO) : list pbuf * HevTunnelIO :=
  match n with
  | O => ([], io)
  | S n' =>
      match write_queue io with
      | [] => ([], io)
      | p :: rest =>
          let io1 :=
            {| tun_fd := tun_fd io; mtu := mtu io; running := running io;
               num_readers := num_readers io; num_writers := num_writers io;
               write_queue := rest;
               write_queue_size := write_queue_size io - 1;
               tx_packets := tx_packets io; tx_bytes := tx_bytes io;
               rx_packets := rx_packets io; rx_bytes := rx_bytes io |} in
          let r := take_batch n' io1 in
          (p :: fst r, snd r)
      end
  end.

(** The TUN device during a writer's run: for each packet, the value of
    [written] after the write (or after the failed gather of a chained
    packet) and [errno]. *)
Definition tun := pbuf -> Z * Z.

(** One packet of the batch: write, count or warn, free. *)
Definition write_one (dev : tun) (io : HevTunnelIO) (p : pbuf)
  : HevTunnelIO * list event :=
  let written := fst (dev p) in
  let errno := snd (dev p) in
  let io' := if written >? 0 then count_tx io written else io in
  let warn :=
    if (written >? 0) then []
    else if (written <? 0) && negb (errno =? EAGAIN) && negb (errno =? EINTR)
    then [EvWarn] else [] in
  (io', [EvWrite p written] ++ warn ++ [EvFree p]).

Fixpoint write_batch (dev : tun) (io : HevTunnelIO) (batch : list pbuf)
  : HevTunnelIO * list event :=
  match batch with
  | [] => (io, [])
  | p :: rest =>
      let r1 := write_one dev io p in
      let r2 := write_batch dev (fst r1) rest in
      (fst r2, snd r1 ++ snd r2)
  end.

(** [writer_thread] run alone, for at most [fuel] passes of its outer loop:
    the structure and the events when the function returns.  [None] when
    the loop is still going after [fuel] passes, or when it sits in the
    timed wait for a producer or for stop (queue empty, engine running). *)
Fixpoint writer_thread (fuel : nat) (dev : tun) (io : HevTunnelIO)
  : option (HevTunnelIO * list event) :=
  match fuel with
  | O => None
  | S fuel' =>
      if running io || (write_queue_size io >? 0) then
        if (write_queue_size io =? 0) && running io then None
        else
          let b := take_batch WRITE_BATCH_SIZE io in
          let w := write_batch dev (snd b) (fst b) in
          match writer_thread fuel' dev (fst w) with
          | Some (io', evs) => Some (io', snd w ++ evs)
          | None => None
          end
      else Some (io, [])
  end.

(** The packets written, and the packets freed, in order. *)
Fixpoint packets_written (evs : list event) : list pbuf :=
  match evs with
  | [] => []
  | EvWrite p _ :: rest => p :: packets_written rest
  | _ :: rest => packets_written rest
  end.

Fixpoint packets_freed (evs : list event) : list pbuf :=
  match evs with
  | [] => []
  | EvFree p :: rest => p :: packets_freed rest
  | _ :: rest => packets_freed rest
  end.

(** [hev_tunnel_io_get_stats].  An out-parameter is [None] when the pointer
    is NULL and [Some v] when it points to a cell holding [v]; the result
    is the out-parameters after the call. *)
Definition store (out : option Z) (v : Z) : option Z :=
  match out with
  | Some _ => Some v
  | None => None
  end.

Definition outs := (option Z * option Z * option Z * option Z)%type.

Definition hev_tunnel_io_get_stats (io : HevTunnelIO) (o : outs) : outs :=
  let '(tx_p, tx_b, rx_p, rx_b) := o in
  (store tx_p (tx_packets io), store tx_b (tx_bytes io),
   store rx_p (rx_packets io), store rx_b (rx_bytes io)).

(** The orchestrator's globals that the lifecycle touches. *)
Record tunnel := mkTunnel {
  run : bool;                          (* static volatile int run *)
  tunnel_io : option HevTunnelIO       (* static HevTunnelIO *tunnel_io *)
}.

(** [hev_socks5_tunnel_stats]. *)
Definition hev_socks5_tunnel_stats (st : tunnel) (o : outs) : outs :=
  match tunnel_io st with
  | Some io => hev_tunnel_io_get_stats io o
  | None =>
      let '(tx_p, tx_b, rx_p, rx_b) := o in
      (store tx_p 0, store tx_b 0, store rx_p 0, store rx_b 0)
  end.

(** [hev_socks5_tunnel_stop]. *)
Definition hev_socks5_tunnel_stop (st : tunnel) : tunnel :=
  {| run := false;
     tunnel_io := option_map (fun io => fst (hev_tunnel_io_stop io))
                             (tunnel_io st) |}.

(** The part of [hev_socks5_tunnel_run] that starts the engine. *)
Definition hev_socks5_tunnel_run_start (st : tunnel) : tunnel :=
  {| run := true;
     tunnel_io := option_map (fun io => snd (hev_tunnel_io_start true io))
                             (tunnel_io st) |}.

(** The part of [hev_socks5_tunnel_fini] that drops the engine. *)
Definition hev_socks5_tunnel_fini (st : tunnel) : tunnel :=
  {| run := run st; tunnel_io := None |}.

(** The engine is not running: [run] is 0 and the I/O engine, when there is
    one, has its running flag cleared. *)
Definition not_running (st : tunnel) : Prop :=
  run st = false /\
  match tunnel_io st with
  | Some io => running io = false
  | None => True
  end.

(** A thread of the engine acting on the I/O engine, when there is one. *)
Definition on_io (f : HevTunnelIO -> HevTunnelIO) (st : tunnel) : tunnel :=
  {| run := run st; tunnel_io := option_map f (tunnel_io st) |}.

(** A TUN device that takes every packet whole. *)
Definition tun_accepts : tun := fun p => (len p, 0).

(** A life of the engine: created on a 4-core machine and started; a reader
    counts a datagram of 60 bytes; the stack queues a packet of 40 bytes;
    the orchestrator stops the engine; a writer drains the queue on its way
    out. *)
Definition after_traffic : tunnel :=
  let st0 := {| run := false;
                tunnel_io := hev_tunnel_io_new true true 4 3 1500 |} in
  let st1 := hev_socks5_tunnel_run_start st0 in
  let st2 := on_io (fun io => count_rx io 60) st1 in
  let st3 := on_io (fun io =>
               snd (hev_tunnel_io_write true io (mkPbuf 4096 40 40))) st2 in
  let st4 := hev_socks5_tunnel_stop st3 in
  on_io (fun io =>
           match writer_thread 2 tun_accepts io with
           | Some (io', _) => io'
           | None => io
           end) st4.

(** *** The writer's loop *)

Lemma take_batch_spec n : forall io,
  fst (take_batch n io) = take n (write_queue io) /\
  write_queue (snd (take_batch n io)) = drop n (write_queue io) /\
  write_queue_size (snd (take_batch n io))
  = write_queue_size io - Z.of_nat (length (take n (write_queue io))) /\
  running (snd (take_batch n io)) = running io.
Proof.
  induction n as [|n IH]; intros io; simpl.
  - rewrite drop_0. repeat split; try reflexivity. simpl. lia.
  - destruct (write_queue io) as [|p rest] eqn:Hq; simpl.
    + rewrite Hq. repeat split; try reflexivity. lia.
    + match goal with
      | |- context [take_batch n ?x] =>
          destruct (IH x) as (H1 & H2 & H3 & H4)
      end.
      cbn [write_queue write_queue_size running] in H1, H2, H3, H4.
      rewrite H1, H2, H3, H4. repeat split; try reflexivity. lia.
Qed.

Lemma write_one_spec dev io p :
  write_queue (fst (write_one dev io p)) = write_queue io /\
  write_queue_size (fst (write_one dev io p)) = write_queue_size io /\
  running (fst (write_one dev io p)) = running io /\
  packets_written (snd (write_one dev io p)) = [p] /\
  packets_freed (snd (write_one dev io p)) = [p].
Proof.
  unfold write_one. cbn [fst snd].
  destruct (fst (dev p) >? 0); cbn;
    [repeat split; reflexivity|].
  destruct (_ && _); cbn; repeat split; reflexivity.
Qed.

Lemma packets_written_app e1 e2 :
  packets_written (e1 ++ e2) = packets_written e1 ++ packets_written e2.
Proof.
  induction e1 as [|e e1 IH]; [reflexivity|].
  destruct e; simpl; rewrite IH; reflexivity.
Qed.

Lemma packets_freed_app e1 e2 :
  packets_freed (e1 ++ e2) = packets_freed e1 ++ packets_freed e2.
Proof.
  induction e1 as [|e e1 IH]; [reflexivity|].
  destruct e; simpl; rewrite IH; reflexivity.
Qed.

Lemma write_batch_spec dev batch : forall io,
  write_queue (fst (write_batch dev io batch)) = write_queue io /\
  write_queue_size (fst (write_batch dev io batch)) = write_queue_size io /\
  running (fst (write_batch dev io batch)) = running io /\
  packets_written (snd (write_batch dev io batch)) = batch /\
  packets_freed (snd (write_batch dev io batch)) = batch.
Proof.
  induction batch as [|p batch IH]; intros io; cbn [write_batch fst snd].
  - repeat split; reflexivity.
  - destruct (write_one_spec dev io p) as (Hq & Hs & Hr & Hw & Hf).
    destruct (IH (fst (write_one dev io p))) as (Hq' & Hs' & Hr' & Hw' & Hf').
    rewrite packets_written_app, packets_freed_app.
    rewrite Hq', Hs', Hr', Hw', Hf', Hq, Hs, Hr, Hw, Hf.
    repeat split; reflexivity.
Qed.

Lemma writer_thread_step fuel dev io :
  writer_thread (S fuel) dev io =
  if running io || (write_queue_size io >? 0) then
    if (write_queue_size io =? 0) && running io then None
    else
      let b := take_batch WRITE_BATCH_SIZE io in
      let w := write_batch dev (snd b) (fst b) in
      match writer_thread fuel dev (fst w) with
      | Some (io', evs) => Some (io', snd w ++ evs)
      | None => None
      end
  else Some (io, []).
Proof. reflexivity. Qed.

(** A writer never returns while the engine runs or its counter of queued
    packets is positive. *)
Lemma writer_exit fuel dev : forall io io' evs,
  writer_thread fuel dev io = Some (io', evs) ->
  running io' = false /\ write_queue_size io' <= 0.
Proof.
  induction fuel as [|fuel IH]; intros io io' evs Hrun; [discriminate|].
  rewrite writer_thread_step in Hrun. cbv zeta in Hrun.
  destruct (running io || (write_queue_size io >? 0)) eqn:Hcond.
  - destruct ((write_queue_size io =? 0) && running io); [discriminate|].
    set (w := write_batch dev _ _) in Hrun.
    destruct (writer_thread fuel dev (fst w)) as [[io1 evs1]|] eqn:Hrec;
      [|discriminate].
    assert (Heq : io1 = io') by congruence. subst io1.
    eapply IH. exact Hrec.
  - assert (Heq : io = io') by congruence. subst io'.
    apply orb_false_elim in Hcond as [Hr Hs].
    split; [exact Hr|]. rewrite Z.gtb_ltb in Hs. apply Z.ltb_ge in Hs. exact Hs.
Qed.

(** Once the engine is stopped, a writer left alone with the queue returns
    after writing and freeing every queued packet, in queue order. *)
Lemma writer_drains dev fuel : forall io,
  running io = false ->
  write_queue_size io = Z.of_nat (length (write_queue io)) ->
  (length (write_queue io) < fuel)%nat ->
  exists io' evs,
    writer_thread fuel dev io = Some (io', evs) /\
    write_queue_size io' = 0 /\ write_queue io' = [] /\
    packets_written evs = write_queue io /\
    packets_freed evs = write_queue io.
Proof.
  induction fuel as [|fuel IH]; intros io Hstop Hsize Hfuel; [lia|].
  rewrite writer_thread_step. cbv zeta.
  rewrite Hstop. rewrite andb_false_r. rewrite orb_false_l.
  destruct (Z.gtb_spec (write_queue_size io) 0) as [Hpos|Hzero].
  - destruct (take_batch_spec WRITE_BATCH_SIZE io) as (Hb & Hq & Hs & Hr).
    destruct (write_batch_spec dev (fst (take_batch WRITE_BATCH_SIZE io))
                (snd (take_batch WRITE_BATCH_SIZE io)))
      as (Hq' & Hs' & Hr' & Hw & Hf).
    set (w := write_batch dev (snd (take_batch WRITE_BATCH_SIZE io))
                          (fst (take_batch WRITE_BATCH_SIZE io))) in *.
    assert (Hlen : length (write_queue io) <> 0%nat) by lia.
    destruct (IH (fst w)) as (io' & evs & Hrun & H0 & Hnil & Hpw & Hpf).
    + rewrite Hr', Hr. exact Hstop.
    + rewrite Hs', Hs, Hq', Hq, Hsize. rewrite length_take, length_drop.
      unfold WRITE_BATCH_SIZE. lia.
    + rewrite Hq', Hq, length_drop. unfold WRITE_BATCH_SIZE. lia.
    + rewrite Hrun. exists io', (snd w ++ evs).
      split; [reflexivity|]. split; [exact H0|]. split; [exact Hnil|].
      rewrite packets_written_app, packets_freed_app, Hw, Hf, Hpw, Hpf.
      rewrite Hq', Hq, Hb, take_drop. split; reflexivity.
  - assert (Hnil : write_queue io = []).
    { destruct (write_queue io); [reflexivity|]. simpl length in Hsize. lia. }
    exists io, []. rewrite Hnil in *. simpl in Hsize.
    split; [reflexivity|]. split; [lia|]. repeat split; reflexivity.
Qed.

(** *** The order of the joins *)

Lemma stop_events io :
  running io = true ->
  snd (hev_tunnel_io_stop io)
  = [EvBroadcast] ++ (EvJoinReader <$> seq 0 (num_readers io))
                  ++ (EvJoinWriter <$> seq 0 (num_writers io)).
Proof. intros Hrun. unfold hev_tunnel_io_stop. rewrite Hrun. reflexivity. Qed.

Lemma joins_ordered nr nw a b i j :
  ([EvBroadcast] ++ (EvJoinReader <$> seq 0 nr)
                 ++ (EvJoinWriter <$> seq 0 nw)) !! a = Some (EvJoinReader i) ->
  ([EvBroadcast] ++ (EvJoinReader <$> seq 0 nr)
                 ++ (EvJoinWriter <$> seq 0 nw)) !! b = Some (EvJoinWriter j) ->
  (a < b)%nat.
Proof.
  intros Ha Hb.
  destruct a as [|a]; [discriminate|]. destruct b as [|b]; [discriminate|].
  simpl in Ha, Hb.
  apply lookup_app_Some in Ha as [Ha|[Hge Ha]].
  - apply lookup_lt_Some in Ha.
    apply lookup_app_Some in Hb as [Hb|[Hge Hb]].
    + apply list_lookup_fmap_Some in Hb as (k & Hk & _). discriminate.
    + lia.
  - apply list_lookup_fmap_Some in Ha as (k & Hk & _). discriminate.
Qed.

(** *** The claims about the engine *)

(** After traffic and a stop the engine is not running, and stats still
    reports the counters of the I/O engine, not zeros. *)
Lemma stats_after_stop :
  not_running after_traffic /\
  hev_socks5_tunnel_stats after_traffic (Some 9, Some 9, Some 9, Some 9)
  = (Some 1, Some 40, Some 1, Some 60) /\
  hev_socks5_tunnel_stats after_traffic (Some 9, Some 9, Some 9, Some 9)
  <> (Some 0, Some 0, Some 0, Some 0).
Proof.
  split; [split; reflexivity|]. split; [reflexivity|].
  vm_compute. discriminate.
Qed.

(** C7 (stats), as the code has it: when there is no I/O engine (before
    init, after fini), stats writes zero into each non-null out-parameter
    and touches no other; when there is one, stats writes its four counters,
    whether or not it is running. *)
Theorem stats_without_engine st tx_p tx_b rx_p rx_b :
  tunnel_io st = None ->
  hev_socks5_tunnel_stats st (tx_p, tx_b, rx_p, rx_b)
  = (store tx_p 0, store tx_b 0, store rx_p 0, store rx_b 0) /\
  forall io flag,
    hev_socks5_tunnel_stats {| run := flag; tunnel_io := Some io |}
                            (tx_p, tx_b, rx_p, rx_b)
    = (store tx_p (tx_packets io), store tx_b (tx_bytes io),
       store rx_p (rx_packets io), store rx_b (rx_bytes io)).
Proof.
  intros Hnone. unfold hev_socks5_tunnel_stats. rewrite Hnone.
  split; [reflexivity|]. intros io flag. reflexivity.
Qed.

Lemma stats_without_engine_witness :
  hev_socks5_tunnel_stats (hev_socks5_tunnel_fini after_traffic)
                          (Some 9, None, Some 9, Some 9)
  = (store (Some 9) 0, store None 0, store (Some 9) 0, store (Some 9) 0) /\
  forall io flag,
    hev_socks5_tunnel_stats {| run := flag; tunnel_io := Some io |}
                            (Some 9, None, Some 9, Some 9)
    = (store (Some 9) (tx_packets io), store None (tx_bytes io),
       store (Some 9) (rx_packets io), store (Some 9) (rx_bytes io)).
Proof.
  apply (stats_without_engine (hev_socks5_tunnel_fini after_traffic)).
  reflexivity.
Defined.

(** C8 (shutdown order).  A stop of a running engine joins every reader
    thread and every writer thread, each reader before any writer.  A
    writer returns only with the running flag clear and no packet counted
    in the queue; and from the state stop leaves, a writer does return,
    after it has written and then freed every packet that was queued, in
    queue order, leaving [write_queue_size = 0]. *)
Theorem shutdown_order dev io :
  running io = true ->
  write_queue_size io = Z.of_nat (length (write_queue io)) ->
  let stopped := fst (hev_tunnel_io_stop io) in
  let joins := snd (hev_tunnel_io_stop io) in
  (forall a b i j,
     joins !! a = Some (EvJoinReader i) ->
     joins !! b = Some (EvJoinWriter j) -> (a < b)%nat) /\
  (forall i, (i < num_readers io)%nat -> EvJoinReader i ∈ joins) /\
  (forall j, (j < num_writers io)%nat -> EvJoinWriter j ∈ joins) /\
  (forall fuel io0 io1 evs,
     writer_thread fuel dev io0 = Some (io1, evs) ->
     running io1 = false /\ write_queue_size io1 <= 0) /\
  exists io' evs,
    writer_thread (S (length (write_queue io))) dev stopped = Some (io', evs) /\
    write_queue_size io' = 0 /\ write_queue io' = [] /\
    packets_written evs = write_queue io /\
    packets_freed evs = write_queue io.
Proof.
  intros Hrun Hsize stopped joins.
  assert (Hj : joins = [EvBroadcast]
                 ++ (EvJoinReader <$> seq 0 (num_readers io))
                 ++ (EvJoinWriter <$> seq 0 (num_writers io)))
    by (apply stop_events; exact Hrun).
  assert (Hs : stopped = set_running io false).
  { unfold stopped, hev_tunnel_io_stop. rewrite Hrun. reflexivity. }
  split; [|split; [|split; [|split]]].
  - intros a b i j Ha Hb. rewrite Hj in Ha, Hb.
    exact (joins_ordered _ _ _ _ _ _ Ha Hb).
  - intros i Hi. rewrite Hj. apply elem_of_app. right.
    apply elem_of_app. left. apply list_elem_of_fmap. exists i.
    split; [reflexivity|]. apply elem_of_seq. lia.
  - intros j Hjw. rewrite Hj. apply elem_of_app. right.
    apply elem_of_app. right. apply list_elem_of_fmap. exists j.
    split; [reflexivity|]. apply elem_of_seq. lia.
  - intros fuel io0 io1 evs. apply writer_exit.
  - rewrite Hs.
    destruct (writer_drains dev (S (length (write_queue io)))
                (set_running io false)) as (io' & evs & H1 & H2 & H3 & H4 & H5).
    + reflexivity.
    + exact Hsize.
    + cbn [set_running write_queue]. lia.
    + exists io', evs. auto.
Qed.

Lemma shutdown_order_witness :
  let io := mkIO 3 1500 true 2 2
                 (map (fun k => mkPbuf (Z.of_nat k) 10 10) (seq 0 40)) 40
                 0 0 0 0 in
  let dev := fun p : pbuf => (if payload p =? 3 then -1 else len p, 5) in
  let stopped := fst (hev_tunnel_io_stop io) in
  let joins := snd (hev_tunnel_io_stop io) in
  (forall a b i j,
     joins !! a = Some (EvJoinReader i) ->
     joins !! b = Some (EvJoinWriter j) -> (a < b)%nat) /\
  (forall i, (i < num_readers io)%nat -> EvJoinReader i ∈ joins) /\
  (forall j, (j < num_writers io)%nat -> EvJoinWriter j ∈ joins) /\
  (forall fuel io0 io1 evs,
     writer_thread fuel dev io0 = Some (io1, evs) ->
     running io1 = false /\ write_queue_size io1 <= 0) /\
  exists io' evs,
    writer_thread (S (length (write_queue io))) dev stopped = Some (io', evs) /\
    write_queue_size io' = 0 /\ write_queue io' = [] /\
    packets_written evs = write_queue io /\
    packets_freed evs = write_queue io.
Proof.
  apply (shutdown_order
           (fun p : pbuf => (if payload p =? 3 then -1 else len p, 5))
           (mkIO 3 1500 true 2 2
                 (map (fun k => mkPbuf (Z.of_nat k) 10 10) (seq 0 40)) 40
                 0 0 0 0)).
  - reflexivity.
  - reflexivity.
Defined.

End TunnelIO.

(** ** Ring occupancy: hev_ring_buffer_size, hev_ring_buffer_is_empty and
       hev_ring_buffer_is_full of src/hev-ring-buffer.h *)

Module RingOps.

Import RingBuffer.

(** [hev_ring_buffer_is_empty] and [hev_ring_buffer_is_full]. *)
Definition hev_ring_buffer_is_empty (rb : HevRingBuffer) : bool :=
  hev_ring_buffer_size rb =? 0.

Definition hev_ring_buffer_is_full (rb : HevRingBuffer) : bool :=
  hev_ring_buffer_size rb >=? RING_BUFFER_SIZE - 1.

(** [n] calls of [hev_ring_buffer_pop] in a row: the branches taken, in
    order, and the ring afterwards. *)
Fixpoint pop_many (n : nat) (rb : HevRingBuffer)
  : list (option Z) * HevRingBuffer :=
  match n with
  | O => ([], rb)
  | S n' =>
      let r := hev_ring_buffer_pop rb in
      let rs := pop_many n' (snd r) in
      (fst r :: fst rs, snd rs)
  end.

(** The pointers the ring still owes its consumer: accepted by a push and not
    yet returned by a pop. *)
Definition pending (s : system) : list Z :=
  drop (length (popped s)) (pushed s).

(** A schedule in which a pop overlaps two pushes. *)
Definition overlapped : list action :=
  [ProducerCall 8; ProducerStep; ProducerStep; ProducerStep;
   ConsumerCall; ProducerCall 16; ConsumerStep; ProducerStep;
   ConsumerStep; ProducerStep; ProducerStep; ConsumerStep;
   ProducerCall 24; ProducerStep; ProducerStep; ProducerStep].

(** *** Occupancy under the ring invariant *)

Lemma size_inv rb q H T CH CT :
  ring_inv rb q H T CH CT ->
  hev_ring_buffer_size rb = Z.of_nat (length q) /\
  0 <= Z.of_nat (length q) <= 4095.
Proof.
  intros Hinv. destruct Hinv as [Hm _ Hh Ht _ _ Ho Hl _].
  unfold hev_ring_buffer_size. rewrite Hm, Hh, Ht, land_mask.
  assert (Hrange : 0 <= H - T <= 4095) by lia.
  split; [|lia].
  rewrite Hl. unfold usize, SIZE_MOD.
  change (2 ^ 64) with (4096 * 4503599627370496).
  pose proof (Z.mod_pos_bound H 4096 ltac:(lia)).
  pose proof (Z.mod_pos_bound T 4096 ltac:(lia)).
  Z.div_mod_to_equations. lia.
Qed.

Lemma pending_inv s q :
  pushed s = popped s ++ q -> pending s = q.
Proof.
  intros Hq. unfold pending. rewrite Hq. apply drop_app_length.
Qed.

Lemma pop_many_inv q : forall rb H T CH CT,
  ring_inv rb q H T CH CT ->
  fst (pop_many (length q) rb) = Some <$> q /\
  fst (hev_ring_buffer_pop (snd (pop_many (length q) rb))) = None.
Proof.
  induction q as [|d q IH]; intros rb H T CH CT Hinv.
  - cbn [length pop_many fst snd fmap list_fmap]. split; [reflexivity|].
    destruct (pop_inv _ _ _ _ _ _ Hinv) as [(Hr & _)|(data & q' & CH' & _ & Hq & _)];
      [exact Hr|discriminate].
  - cbn [length pop_many fst snd].
    destruct (pop_inv _ _ _ _ _ _ Hinv)
      as [(_ & Hq & _)|(data & q' & CH' & Hr & Hq & Hinv')]; [discriminate|].
    injection Hq as <- <-.
    destruct (IH _ _ _ _ _ Hinv') as [Hrest Hend].
    rewrite Hr, Hrest. split; [reflexivity|exact Hend].
Qed.

(** *** Occupancy, as a user of the ring sees it *)

(** X1 (occupancy).  In every execution of one producer and one consumer,
    at any point of the schedule, [hev_ring_buffer_size], evaluated with no
    step of either thread between its two loads, returns the number of
    pushes that returned 0 minus the number of pops that returned a
    pointer; the value lies between 0 and 4095. *)
Theorem ring_size_counts schedule :
  let s := exec schedule in
  hev_ring_buffer_size (ring s)
  = Z.of_nat (length (pushed s)) - Z.of_nat (length (popped s)) /\
  0 <= hev_ring_buffer_size (ring s) <= 4095.
Proof.
  intros s. destruct (exec_inv schedule) as (q & H & T & CH & CT & Hinv & Hq & _).
  fold s in Hinv, Hq.
  destruct (size_inv _ _ _ _ _ _ Hinv) as [Hsize Hrange].
  rewrite Hsize. split; [|exact Hrange].
  rewrite Hq, length_app. lia.
Qed.

(** X2 (full and empty tests).  In every execution, when the producer is
    between calls [hev_ring_buffer_is_full] answers true exactly when the
    next push would return -1, and when the consumer is between calls
    [hev_ring_buffer_is_empty] answers true exactly when the next pop would
    take its empty branch. *)
Theorem ring_full_empty_agree schedule data :
  let s := exec schedule in
  (producer s = PIdle ->
   (hev_ring_buffer_is_full (ring s) = true <->
    fst (hev_ring_buffer_push (ring s) data) = -1)) /\
  (consumer s = CIdle ->
   (hev_ring_buffer_is_empty (ring s) = true <->
    fst (hev_ring_buffer_pop (ring s)) = None)).
Proof.
  intros s. destruct (exec_inv schedule) as (q & H & T & CH & CT & Hinv & Hq & _).
  fold s in Hinv, Hq.
  destruct (size_inv _ _ _ _ _ _ Hinv) as [Hsize Hrange].
  pose proof (ri_q_len _ _ _ _ _ _ Hinv) as Hlen.
  unfold hev_ring_buffer_is_full, hev_ring_buffer_is_empty, RING_BUFFER_SIZE.
  rewrite Hsize. split; intros _.
  - destruct (push_inv _ _ _ _ _ _ data Hinv)
      as [(Hr & _ & Hfull & _)|(Hr & _ & Hroom & _)]; rewrite Hr.
    + split; [reflexivity|]. intros _. apply Z.geb_le. lia.
    + split; [|discriminate]. intros Hge. apply Z.geb_le in Hge. lia.
  - destruct (pop_inv _ _ _ _ _ _ Hinv)
      as [(Hr & Hnil & _)|(d & q' & CH' & Hr & Hcons & _)]; rewrite Hr.
    + subst q. split; reflexivity.
    + subst q. cbn [length]. split; [|discriminate].
      intros Hz. apply Z.eqb_eq in Hz. lia.
Qed.

(** X3 (nothing lost, nothing repeated).  In every execution, once the
    consumer is between calls, as many pops as there are pointers pending
    return exactly the pointers accepted by a push and not yet returned, in
    the order of their pushes, and the pop after these takes the empty
    branch. *)
Theorem ring_drains_in_order schedule :
  let s := exec schedule in
  consumer s = CIdle ->
  fst (pop_many (length (pending s)) (ring s)) = Some <$> pending s /\
  fst (hev_ring_buffer_pop (snd (pop_many (length (pending s)) (ring s))))
  = None.
Proof.
  intros s _. destruct (exec_inv schedule) as (q & H & T & CH & CT & Hinv & Hq & _).
  fold s in Hinv, Hq.
  rewrite (pending_inv s q Hq). exact (pop_many_inv q _ _ _ _ _ Hinv).
Qed.

Lemma ring_drains_in_order_witness :
  let s := exec overlapped in
  pending s = [16; 24] /\
  fst (pop_many (length (pending s)) (ring s)) = Some <$> pending s /\
  fst (hev_ring_buffer_pop (snd (pop_many (length (pending s)) (ring s))))
  = None.
Proof.
  split; [vm_compute; reflexivity|].
  apply (ring_drains_in_order overlapped). vm_compute. reflexivity.
Defined.

End RingOps.

(** ** Adaptive worker pool: src/hev-adaptive-pool.c *)

Module AdaptivePool.

Import RingBuffer RingOps.

(** A C [int] after an atomic addition or a conversion: two's complement
    wrap-around. *)
Definition int32 (x : Z) : Z := (x + 2 ^ 31) mod 2 ^ 32 - 2 ^ 31.

Record HevAdaptivePoolConfig := mkConfig {
  config_min_threads : Z;
  config_max_threads : Z;
  config_scale_up_threshold : Z;
  config_scale_down_threshold : Z;
  config_adjustment_interval : Z
}.

Record AdaptivePoolWorker := mkWorker {
  active : bool;          (* _Atomic bool *)
  should_exit : bool      (* _Atomic bool *)
}.

Record HevAdaptivePool := mkAdaptive {
  workers : list AdaptivePoolWorker;   (* calloc (max_threads, ...) *)
  min_threads : Z;
  max_threads : Z;
  current_threads : Z;                 (* _Atomic int, like the two below *)
  active_threads : Z;
  idle_threads : Z;
  work_queue : HevRingBuffer;
  running : bool;
  scale_up_threshold : Z;
  scale_down_threshold : Z;
  adjustment_interval : Z
}.

Definition set_workers (p : HevAdaptivePool) (w : list AdaptivePoolWorker)
  : HevAdaptivePool :=
  {| workers := w; min_threads := min_threads p; max_threads := max_threads p;
     current_threads := current_threads p; active_threads := active_threads p;
     idle_threads := idle_threads p; work_queue := work_queue p;
     running := running p; scale_up_threshold := scale_up_threshold p;
     scale_down_threshold := scale_down_threshold p;
     adjustment_interval := adjustment_interval p |}.

Definition set_current (p : HevAdaptivePool) (v : Z) : HevAdaptivePool :=
  {| workers := workers p; min_threads := min_threads p;
     max_threads := max_threads p;
     current_threads := v; active_threads := active_threads p;
     idle_threads := idle_threads p; work_queue := work_queue p;
     running := running p; scale_up_threshold := scale_up_threshold p;
     scale_down_threshold := scale_down_threshold p;
     adjustment_interval := adjustment_interval p |}.

Definition set_active (p : HevAdaptivePool) (v : Z) : HevAdaptivePool :=
  {| workers := workers p; min_threads := min_threads p;
     max_threads := max_threads p;
     current_threads := current_threads p; active_threads := v;
     idle_threads := idle_threads p; work_queue := work_queue p;
     running := running p; scale_up_threshold := scale_up_threshold p;
     scale_down_threshold := scale_down_threshold p;
     adjustment_interval := adjustment_interval p |}.

Definition set_idle (p : HevAdaptivePool) (v : Z) : HevAdaptivePool :=
  {| workers := workers p; min_threads := min_threads p;
     max_threads := max_threads p;
     current_threads := current_threads p; active_threads := active_threads p;
     idle_threads := v; work_queue := work_queue p;
     running := running p; scale_up_threshold := scale_up_threshold p;
     scale_down_threshold := scale_down_threshold p;
     adjustment_interval := adjustment_interval p |}.

Definition set_queue (p : HevAdaptivePool) (rb : HevRingBuffer)
  : HevAdaptivePool :=
  {| workers := workers p; min_threads := min_threads p;
     max_threads := max_threads p;
     current_threads := current_threads p; active_threads := active_threads p;
     idle_threads := idle_threads p; work_queue := rb;
     running := running p; scale_up_threshold := scale_up_threshold p;
     scale_down_threshold := scale_down_threshold p;
     adjustment_interval := adjustment_interval p |}.

Definition set_running (p : HevAdaptivePool) (b : bool) : HevAdaptivePool :=
  {| workers := workers p; min_threads := min_threads p;
     max_threads := max_threads p;
     current_threads := current_threads p; active_threads := active_threads p;
     idle_threads := idle_threads p; work_queue := work_queue p;
     running := b; scale_up_threshold := scale_up_threshold p;
     scale_down_threshold := scale_down_threshold p;
     adjustment_interval := adjustment_interval p |}.

(** A store into [workers[i]].  The array has [max_threads] cells; [None] is
    a store outside of it, which the C code does not guard against. *)
Definition store_worker (p : HevAdaptivePool) (i : Z) (w : AdaptivePoolWorker)
  : option HevAdaptivePool :=
  if (0 <=? i) && (i <? Z.of_nat (length (workers p))) then
    Some (set_workers p (<[Z.to_nat i := w]> (workers p)))
  else None.

(** Where a worker thread stands in [worker_thread_func]: at the head of
    its loop; inside the wait loop, counted in [idle_threads], the mutex
    released; holding a popped work, about to count itself active; running
    the task; returned. *)
Inductive worker_pc : Type :=
  | WLoop
  | WWait
  | WTook (work : Z)
  | WRun (work : Z)
  | WGone.

(** The pool, its worker threads, and what has been observed: the works
    whose submit returned 0 and the works popped by the workers, both in
    order. *)
Record system := mkSystem {
  pool : HevAdaptivePool;
  threads : list worker_pc;
  accepted : list Z;
  started : list Z
}.

(** The loop "Start minimum threads" of [hev_adaptive_pool_new].
    [created i] says whether the [pthread_create] for cell [i] succeeds; the
    code does not look at that result. *)
Fixpoint start_workers (created : nat -> bool) (todo : list nat) (s : system)
  : option system :=
  match todo with
  | [] => Some s
  | i :: rest =>
      match store_worker (pool s) (Z.of_nat i)
                         {| active := true; should_exit := false |} with
      | None => None
      | Some p =>
          start_workers created rest
            {| pool := set_current p (int32 (current_threads p + 1));
               threads := if created i then threads s ++ [WLoop] else threads s;
               accepted := accepted s; started := started s |}
      end
  end.

(** What [hev_adaptive_pool_new] comes to. *)
Inductive new_result : Type :=
  | NewNull                      (* return NULL *)
  | NewOverrun                   (* a store past the end of the worker array *)
  | NewPool (s : system).

(** [hev_adaptive_pool_new].  The three flags say whether the allocation of
    the pool, of the ring and of the worker array succeed. *)
Definition hev_adaptive_pool_new (config : option HevAdaptivePoolConfig)
    (pool_ok ring_ok workers_ok : bool) (created : nat -> bool) : new_result :=
  match config with
  | None => NewNull
  | Some c =>
      if negb pool_ok then NewNull
      else if negb ring_ok then NewNull
      else if negb workers_ok then NewNull
      else
        let p :=
          {| workers := replicate (Z.to_nat (config_max_threads c))
                                  {| active := false; should_exit := false |};
             min_threads := config_min_threads c;
             max_threads := config_max_threads c;
             current_threads := 0; active_threads := 0; idle_threads := 0;
             work_queue := hev_ring_buffer_new;
             running := true;
             scale_up_threshold := config_scale_up_threshold c;
             scale_down_threshold := config_scale_down_threshold c;
             adjustment_interval := config_adjustment_interval c |} in
        match start_workers created (seq 0 (Z.to_nat (min_threads p)))
                {| pool := p; threads := []; accepted := []; started := [] |} with
        | None => NewOverrun
        | Some s => NewPool s
        end
  end.

(** [hev_adaptive_pool_submit] on a non-null pool.  [task] is the function
    pointer and [work] the address returned by [malloc] (0: failure). *)
Definition hev_adaptive_pool_submit (p : HevAdaptivePool) (task work : Z)
  : Z * HevAdaptivePool :=
  if task =? 0 then (-1, p)
  else if work =? 0 then (-1, p)
  else
    let r := hev_ring_buffer_push (work_queue p) work in
    if fst r <? 0 then (-1, set_queue p (snd r))
    else (0, set_queue p (snd r)).


(** [hev_adaptive_pool_adjust] on a non-null pool; [created] is the success
    of the [pthread_create] of a scale-up.  The result is the pool and
    whether a thread was added; [None] is a store outside the worker
    array. *)
Definition hev_adaptive_pool_adjust (created : bool) (p : HevAdaptivePool)
  : option (HevAdaptivePool * bool) :=
  let queue_depth := int32 (hev_ring_buffer_size (work_queue p)) in
  let idle := idle_threads p in
  let current := current_threads p in
  if (queue_depth >? scale_up_threshold p) && (idle <? 2)
     && (current <? max_threads p) then
    match store_worker p current
            {| active := true;
               should_exit :=
                 should_exit (default (mkWorker false false)
                                (workers p !! Z.to_nat current)) |} with
    | None => None
    | Some p' => Some (set_current p' (int32 (current_threads p' + 1)), created)
    end
  else if (idle >? scale_down_threshold p) && (queue_depth <? 10)
          && (current >? min_threads p) then
    Some (set_current p (int32 (current_threads p - 1)), false)
  else Some (p, false).

(** One turn of a worker thread, up to its next access to the pool. *)
Definition worker_step (s : system) (pc : worker_pc) : system * worker_pc :=
  let p := pool s in
  match pc with
  | WLoop =>
      if running p then
        ({| pool := set_idle p (int32 (idle_threads p + 1));
            threads := threads s; accepted := accepted s;
            started := started s |}, WWait)
      else (s, WGone)
  | WWait =>
      if running p && hev_ring_buffer_is_empty (work_queue p) then (s, WWait)
      else
        let p1 := set_idle p (int32 (idle_threads p - 1)) in
        if negb (running p1) then
          ({| pool := p1; threads := threads s; accepted := accepted s;
              started := started s |}, WGone)
        else
          let r := hev_ring_buffer_pop (work_queue p1) in
          let work := pop_pointer (fst r) in
          let p2 := set_queue p1 (snd r) in
          if work =? 0 then
            ({| pool := p2; threads := threads s; accepted := accepted s;
                started := started s |}, WLoop)
          else
            ({| pool := p2; threads := threads s; accepted := accepted s;
                started := started s ++ [work] |}, WTook work)
  | WTook work =>
      ({| pool := set_active p (int32 (active_threads p + 1));
          threads := threads s; accepted := accepted s;
          started := started s |}, WRun work)
  | WRun work =>
      ({| pool := set_active p (int32 (active_threads p - 1));
          threads := threads s; accepted := accepted s;
          started := started s |}, WLoop)
  | WGone => (s, WGone)
  end.

(** What happens to the pool, one critical section or atomic access at a
    time: a client submits, worker [i] takes a turn, the adjuster thread
    calls adjust, [hev_adaptive_pool_destroy] clears [running]. *)
Inductive action : Type :=
  | ASubmit (task work : Z)
  | AWorker (i : nat)
  | AAdjust (created : bool)
  | AStop.

Definition act (s : system) (a : action) : option system :=
  match a with
  | ASubmit task work =>
      let r := hev_adaptive_pool_submit (pool s) task work in
      Some {| pool := snd r; threads := threads s;
              accepted := if fst r =? 0 then accepted s ++ [work]
                          else accepted s;
              started := started s |}
  | AWorker i =>
      match threads s !! i with
      | None => Some s
      | Some pc =>
          let r := worker_step s pc in
          Some {| pool := pool (fst r); threads := <[i := snd r]> (threads s);
                  accepted := accepted (fst r); started := started (fst r) |}
      end
  | AAdjust created =>
      match hev_adaptive_pool_adjust created (pool s) with
      | None => None
      | Some (p, added) =>
          Some {| pool := p;
                  threads := if added then threads s ++ [WLoop] else threads s;
                  accepted := accepted s; started := started s |}
      end
  | AStop =>
      Some {| pool := set_running (pool s) false; threads := threads s;
              accepted := accepted s; started := started s |}
  end.

Fixpoint exec (schedule : list action) (s : system) : option system :=
  match schedule with
  | [] => Some s
  | a :: rest =>
      match act s a with
      | None => None
      | Some s' => exec rest s'
      end
  end.

Definition waiting (pc : worker_pc) : bool :=
  match pc with WWait => true | _ => false end.

Definition busy (pc : worker_pc) : bool :=
  match pc with WRun _ => true | _ => false end.

Definition count (f : worker_pc -> bool) (l : list worker_pc) : Z :=
  Z.of_nat (length (filter (fun pc => f pc = true) l)).

(** The works accepted and not yet popped. *)
Definition backlog (s : system) : list Z :=
  drop (length (started s)) (accepted s).

(** Two pools to run: two workers out of at most four, scaling up above
    three queued works. *)
Definition config24 : HevAdaptivePoolConfig :=
  {| config_min_threads := 2; config_max_threads := 4;
     config_scale_up_threshold := 3; config_scale_down_threshold := 1;
     config_adjustment_interval := 5 |}.

Definition all_created (i : nat) : bool := true.

(** Five works are submitted, the first worker takes one and runs it, the
    adjuster adds a thread, the second worker goes to wait. *)
Definition busy_day : list action :=
  [ASubmit 1 4096; ASubmit 1 4112; ASubmit 1 4128; ASubmit 1 4144;
   ASubmit 1 4160; AWorker 0; AWorker 0; AWorker 0; AAdjust true;
   AWorker 1; AWorker 0]%nat.

(** *** Arithmetic of [int] *)

Lemma int32_small x : - 2 ^ 31 <= x < 2 ^ 31 -> int32 x = x.
Proof. intros Hx. unfold int32. rewrite Z.mod_small by lia. lia. Qed.

Lemma int32_add a b : int32 (int32 a + b) = int32 (a + b).
Proof.
  unfold int32. f_equal.
  replace ((a + 2 ^ 31) mod 2 ^ 32 - 2 ^ 31 + b + 2 ^ 31)
    with ((a + 2 ^ 31) mod 2 ^ 32 + b) by lia.
  rewrite Zplus_mod_idemp_l. f_equal. lia.
Qed.

Lemma int32_sub a b : int32 (int32 a - b) = int32 (a - b).
Proof. replace (int32 a - b) with (int32 a + - b) by lia. rewrite int32_add. f_equal. Qed.

(** *** Counting threads *)

Lemma count_app f l1 l2 : count f (l1 ++ l2) = count f l1 + count f l2.
Proof. unfold count. rewrite filter_app, length_app. lia. Qed.

Lemma count_insert f : forall (l : list worker_pc) i x y,
  l !! i = Some x ->
  count f (<[i := y]> l) = count f l - Z.b2z (f x) + Z.b2z (f y).
Proof.
  unfold count. induction l as [|z l IH]; intros i x y Hi; [discriminate|].
  destruct i as [|i]; simpl in Hi.
  - injection Hi as ->. simpl. rewrite !filter_cons.
    destruct (decide (f y = true)) as [Hy|Hy], (decide (f x = true)) as [Hx|Hx];
      simpl.
    + rewrite Hx, Hy. simpl. lia.
    + apply not_true_is_false in Hx. rewrite Hx, Hy. simpl. lia.
    + apply not_true_is_false in Hy. rewrite Hx, Hy. simpl. lia.
    + apply not_true_is_false in Hx, Hy. rewrite Hx, Hy. simpl. lia.
  - simpl. rewrite !filter_cons. specialize (IH i x y Hi).
    destruct (decide (f z = true)); simpl; lia.
Qed.

(** *** The invariant of the pool

    [c] is the configuration the pool was created from. *)
Record sys_inv (c : HevAdaptivePoolConfig) (s : system) : Prop := {
  si_min : min_threads (pool s) = config_min_threads c;
  si_max : max_threads (pool s) = config_max_threads c;
  si_workers : length (workers (pool s)) = Z.to_nat (max_threads (pool s));
  si_bounds :
    0 <= min_threads (pool s) /\
    min_threads (pool s) <= current_threads (pool s) /\
    current_threads (pool s) <= max_threads (pool s) /\
    max_threads (pool s) < 2 ^ 31;
  si_idle : idle_threads (pool s) = int32 (count waiting (threads s));
  si_active : active_threads (pool s) = int32 (count busy (threads s));
  si_ring : exists q H T CH CT,
    ring_inv (work_queue (pool s)) q H T CH CT /\
    accepted s = started s ++ q /\
    Forall (fun work => work <> 0) q
}.

Lemma store_worker_in p i w :
  0 <= i < Z.of_nat (length (workers p)) ->
  store_worker p i w = Some (set_workers p (<[Z.to_nat i := w]> (workers p))).
Proof.
  intros Hi. unfold store_worker.
  destruct (Z.leb_spec 0 i); [|lia].
  destruct (Z.ltb_spec i (Z.of_nat (length (workers p)))); [|lia]. reflexivity.
Qed.

Lemma start_workers_inv c created n : forall k s,
  sys_inv c {| pool := set_current (pool s) (config_min_threads c);
               threads := threads s; accepted := accepted s;
               started := started s |} ->
  current_threads (pool s) = Z.of_nat k ->
  Z.of_nat k + Z.of_nat n = config_min_threads c ->
  exists s', start_workers created (seq k n) s = Some s' /\ sys_inv c s'.
Proof.
  induction n as [|n IH]; intros k s Hinv Hcur Hsum.
  - exists s. split; [reflexivity|].
    destruct s as [p th ac st]. cbn [pool threads accepted started] in *.
    replace (set_current p (config_min_threads c)) with p in Hinv; [exact Hinv|].
    destruct p. cbn [current_threads] in Hcur. unfold set_current. simpl.
    f_equal. lia.
  - cbn [seq start_workers].
    destruct Hinv as [Hmin Hmax Hw Hb Hi Ha Hr].
    cbn [pool threads accepted started set_current min_threads max_threads
         workers current_threads idle_threads active_threads work_queue] in *.
    rewrite store_worker_in by lia.
    apply IH.
    + constructor;
        cbn [pool threads accepted started set_current set_workers min_threads
             max_threads workers current_threads idle_threads active_threads
             work_queue]; try assumption.
      * rewrite length_insert. exact Hw.
      * destruct (created k); [|exact Hi].
        rewrite count_app. unfold count at 2. simpl. rewrite Z.add_0_r. exact Hi.
      * destruct (created k); [|exact Ha].
        rewrite count_app. unfold count at 2. simpl. rewrite Z.add_0_r. exact Ha.
    + cbn [pool set_current set_workers current_threads]. rewrite Hcur.
      rewrite int32_small by lia. lia.
    + lia.
Qed.

Lemma adaptive_new_inv c created :
  0 <= config_min_threads c <= config_max_threads c ->
  config_max_threads c < 2 ^ 31 ->
  exists s0,
    hev_adaptive_pool_new (Some c) true true true created = NewPool s0 /\
    sys_inv c s0.
Proof.
  intros Hmin Hmax. unfold hev_adaptive_pool_new. cbn [negb min_threads].
  match goal with
  | |- context [start_workers created ?l ?s] =>
      destruct (start_workers_inv c created (Z.to_nat (config_min_threads c))
                  0%nat s) as (s' & Hs' & Hinv')
  end.
  - constructor;
      cbn [pool threads accepted started set_current min_threads max_threads
           workers current_threads idle_threads active_threads work_queue];
      try reflexivity.
    + apply length_replicate.
    + lia.
    + exists [], 0, 0, 0, 0. split; [exact ring_new_inv|].
      split; [reflexivity|constructor].
  - reflexivity.
  - lia.
  - exists s'. rewrite Hs'. split; [reflexivity|exact Hinv'].
Qed.


Lemma submit_inv c s task work :
  sys_inv c s ->
  let r := hev_adaptive_pool_submit (pool s) task work in
  sys_inv c {| pool := snd r; threads := threads s;
               accepted := if fst r =? 0 then accepted s ++ [work]
                           else accepted s;
               started := started s |}.
Proof.
  intros Hinv. destruct Hinv as [Hmin Hmax Hw Hb Hi Ha Hr].
  unfold hev_adaptive_pool_submit. cbv zeta.
  destruct (Z.eqb_spec task 0) as [Ht|Ht];
    [destruct s; constructor; assumption|].
  destruct (Z.eqb_spec work 0) as [Hwk|Hwk];
    [destruct s; constructor; assumption|].
  destruct Hr as (q & H & T & CH & CT & Hring & Hq & Hnz).
  destruct (push_inv _ _ _ _ _ _ work Hring)
    as [(Hret & _ & _ & Hring')|(Hret & _ & _ & CT' & Hring')]; rewrite Hret.
  - change (-1 <? 0) with true. cbn [fst snd]. change (-1 =? 0) with false.
    constructor; cbn [pool threads accepted started set_queue min_threads
      max_threads workers current_threads idle_threads active_threads
      work_queue]; try assumption.
    exists q, H, T, CH, T. auto.
  - change (0 <? 0) with false. cbn [fst snd]. change (0 =? 0) with true.
    constructor; cbn [pool threads accepted started set_queue min_threads
      max_threads workers current_threads idle_threads active_threads
      work_queue]; try assumption.
    exists (q ++ [work]), (H + 1), T, CH, CT'. split; [exact Hring'|].
    split; [rewrite Hq, app_assoc; reflexivity|].
    apply Forall_app. split; [exact Hnz|]. constructor; [exact Hwk|constructor].
Qed.

Lemma adjust_inv c s created :
  sys_inv c s ->
  exists p added,
    hev_adaptive_pool_adjust created (pool s) = Some (p, added) /\
    sys_inv c {| pool := p;
                 threads := if added then threads s ++ [WLoop] else threads s;
                 accepted := accepted s; started := started s |}.
Proof.
  intros Hinv. destruct Hinv as [Hmin Hmax Hw Hb Hi Ha Hr].
  unfold hev_adaptive_pool_adjust. cbv zeta.
  destruct ((_ >? _) && (_ <? 2) && (current_threads (pool s) <? _)) eqn:Hup.
  - apply andb_prop in Hup as [_ Hlt]. apply Z.ltb_lt in Hlt.
    rewrite store_worker_in by lia.
    eexists _, _. split; [reflexivity|].
    constructor; cbn [pool threads accepted started set_current set_workers
      min_threads max_threads workers current_threads idle_threads
      active_threads work_queue]; try assumption.
    + rewrite length_insert. exact Hw.
    + rewrite int32_small by lia. lia.
    + destruct created; [|exact Hi].
      rewrite count_app. unfold count at 2. simpl. rewrite Z.add_0_r. exact Hi.
    + destruct created; [|exact Ha].
      rewrite count_app. unfold count at 2. simpl. rewrite Z.add_0_r. exact Ha.
  - destruct ((_ >? _) && (_ <? 10) && (current_threads (pool s) >? _)) eqn:Hdown.
    + apply andb_prop in Hdown as [_ Hgt]. apply Z.gtb_lt in Hgt.
      eexists _, _. split; [reflexivity|].
      constructor; cbn [pool threads accepted started set_current
        min_threads max_threads workers current_threads idle_threads
        active_threads work_queue]; try assumption.
      rewrite int32_small by lia. lia.
    + eexists _, _. split; [reflexivity|].
      destruct s; constructor; assumption.
Qed.

Ltac sys_fields :=
  cbn [pool threads accepted started set_current set_workers set_idle
       set_active set_queue set_running min_threads max_threads workers
       current_threads idle_threads active_threads work_queue running
       fst snd].

Lemma worker_inv c s i pc :
  sys_inv c s -> threads s !! i = Some pc ->
  let r := worker_step s pc in
  sys_inv c {| pool := pool (fst r); threads := <[i := snd r]> (threads s);
               accepted := accepted (fst r); started := started (fst r) |}.
Proof.
  intros Hinv Hpc. destruct Hinv as [Hmin Hmax Hw Hb Hi Ha Hr].
  pose proof (count_insert waiting (threads s) i pc) as Hcw.
  pose proof (count_insert busy (threads s) i pc) as Hcb.
  unfold worker_step. cbv zeta.
  destruct pc as [| |work|work|].
  - (* head of the loop *)
    destruct (running (pool s)).
    + constructor; sys_fields; try assumption.
      * rewrite (Hcw WWait Hpc). simpl. rewrite Hi, int32_add. f_equal. lia.
      * rewrite (Hcb WWait Hpc). simpl. rewrite Ha. f_equal. lia.
    + constructor; sys_fields; try assumption.
      * rewrite (Hcw WGone Hpc). simpl. rewrite Hi. f_equal. lia.
      * rewrite (Hcb WGone Hpc). simpl. rewrite Ha. f_equal. lia.
  - (* inside the wait loop *)
    destruct Hr as (q & H & T & CH & CT & Hring & Hq & Hnz).
    destruct (running (pool s) && hev_ring_buffer_is_empty (work_queue (pool s)))
      eqn:Hwait.
    { rewrite list_insert_id by exact Hpc.
      destruct s; constructor; try assumption. exists q, H, T, CH, CT. auto. }
    sys_fields. destruct (running (pool s)) eqn:Hrun; cbn [negb].
    + cbn [andb] in Hwait.
      unfold hev_ring_buffer_is_empty in Hwait.
      destruct (size_inv _ _ _ _ _ _ Hring) as [Hsize _].
      rewrite Hsize in Hwait. apply Z.eqb_neq in Hwait.
      destruct (pop_inv _ _ _ _ _ _ Hring)
        as [(_ & Hnil & _)|(data & q' & CH' & Hret & Hcons & Hring')].
      { subst q. simpl in Hwait. lia. }
      rewrite Hret. change (pop_pointer (Some data)) with data. subst q.
      apply Forall_cons in Hnz as [Hdata Hnz].
      destruct (Z.eqb_spec data 0) as [H0|_]; [contradiction|].
      constructor; sys_fields; try assumption.
      * rewrite (Hcw (WTook data) Hpc). simpl. rewrite Hi, int32_sub.
        f_equal. lia.
      * rewrite (Hcb (WTook data) Hpc). simpl. rewrite Ha. f_equal. lia.
      * exists q', H, (T + 1), CH', CT. split; [exact Hring'|].
        split; [rewrite Hq, <- app_assoc; reflexivity|exact Hnz].
    + constructor; sys_fields; try assumption.
      * rewrite (Hcw WGone Hpc). simpl. rewrite Hi, int32_sub. f_equal. lia.
      * rewrite (Hcb WGone Hpc). simpl. rewrite Ha. f_equal. lia.
      * exists q, H, T, CH, CT. auto.
  - (* about to count itself active *)
    constructor; sys_fields; try assumption.
    + rewrite (Hcw (WRun work) Hpc). simpl. rewrite Hi. f_equal. lia.
    + rewrite (Hcb (WRun work) Hpc). simpl. rewrite Ha, int32_add. f_equal. lia.
  - (* the task has returned *)
    constructor; sys_fields; try assumption.
    + rewrite (Hcw WLoop Hpc). simpl. rewrite Hi. f_equal. lia.
    + rewrite (Hcb WLoop Hpc). simpl. rewrite Ha, int32_sub. f_equal. lia.
  - rewrite list_insert_id by exact Hpc.
    destruct s; constructor; assumption.
Qed.

Lemma adaptive_act_inv c s a :
  sys_inv c s -> exists s', act s a = Some s' /\ sys_inv c s'.
Proof.
  intros Hinv. destruct a as [task work|i|created|]; cbn [act].
  - eexists. split; [reflexivity|]. apply submit_inv. exact Hinv.
  - destruct (threads s !! i) as [pc|] eqn:Hpc.
    + eexists. split; [reflexivity|]. apply worker_inv; assumption.
    + exists s. split; [reflexivity|exact Hinv].
  - destruct (adjust_inv c s created Hinv) as (p & added & Hadj & Hinv').
    rewrite Hadj. eexists. split; [reflexivity|exact Hinv'].
  - eexists. split; [reflexivity|].
    destruct Hinv as [Hmin Hmax Hw Hb Hi Ha Hr].
    constructor; sys_fields; assumption.
Qed.

Lemma adaptive_exec_inv c schedule : forall s,
  sys_inv c s -> exists s', exec schedule s = Some s' /\ sys_inv c s'.
Proof.
  induction schedule as [|a schedule IH]; intros s Hinv.
  - exists s. split; [reflexivity|exact Hinv].
  - cbn [exec]. destruct (adaptive_act_inv c s a Hinv) as (s1 & Hact & Hinv1).
    rewrite Hact. apply IH. exact Hinv1.
Qed.

(** Every state a created pool can reach. *)
Lemma reach_inv c created schedule :
  0 <= config_min_threads c <= config_max_threads c ->
  config_max_threads c < 2 ^ 31 ->
  exists s0 s,
    hev_adaptive_pool_new (Some c) true true true created = NewPool s0 /\
    exec schedule s0 = Some s /\ sys_inv c s.
Proof.
  intros Hmin Hmax.
  destruct (adaptive_new_inv c created Hmin Hmax) as (s0 & Hnew & Hinv0).
  destruct (adaptive_exec_inv c schedule s0 Hinv0) as (s & Hexec & Hinv).
  exists s0, s. auto.
Qed.




Lemma backlog_inv s q : accepted s = started s ++ q -> backlog s = q.
Proof. intros Hq. unfold backlog. rewrite Hq. apply drop_app_length. Qed.

(** *** The adaptive pool, as its users see it *)

(** X4 (thread count within its bounds).  A pool created from a
    configuration with [0 <= min_threads <= max_threads] never stores
    outside its worker array, in [hev_adaptive_pool_new] or in any later
    call, and whatever clients, workers and the adjuster do, in any order,
    [current_threads] stays between [min_threads] and [max_threads]. *)
Theorem adaptive_threads_in_bounds c created schedule :
  0 <= config_min_threads c <= config_max_threads c ->
  config_max_threads c < 2 ^ 31 ->
  exists s0 s,
    hev_adaptive_pool_new (Some c) true true true created = NewPool s0 /\
    exec schedule s0 = Some s /\
    current_threads (pool s0) = config_min_threads c /\
    config_min_threads c <= current_threads (pool s)
                         <= config_max_threads c /\
    length (workers (pool s)) = Z.to_nat (config_max_threads c).
Proof.
  intros Hmin Hmax.
  destruct (adaptive_new_inv c created Hmin Hmax) as (s0 & Hnew & Hinv0).
  destruct (adaptive_exec_inv c schedule s0 Hinv0) as (s & Hexec & Hinv).
  exists s0, s. split; [exact Hnew|]. split; [exact Hexec|].
  destruct Hinv as [Hmn Hmx Hw Hb _ _ _]. rewrite <- Hmn, <- Hmx.
  split; [|split; [lia|exact Hw]].
  rewrite Hmn. clear - Hnew Hmin Hmax.
  (* the constructor leaves exactly [min_threads] *)
  assert (Hgen : forall n k s s',
    start_workers created (seq k n) s = Some s' ->
    current_threads (pool s) = Z.of_nat k ->
    Z.of_nat k + Z.of_nat n < 2 ^ 31 ->
    current_threads (pool s') = Z.of_nat k + Z.of_nat n).
  { clear. induction n as [|n IH]; intros k s s' Hs Hk Hlt.
    - injection Hs as <-. lia.
    - cbn [seq start_workers] in Hs.
      destruct (store_worker _ _ _) as [p|] eqn:Hst; [|discriminate].
      apply IH in Hs.
      + rewrite Hs. lia.
      + cbn [pool set_current current_threads].
        unfold store_worker in Hst. destruct (_ && _); [|discriminate].
        injection Hst as <-. cbn [set_workers current_threads].
        rewrite Hk, int32_small by lia. lia.
      + lia. }
  unfold hev_adaptive_pool_new in Hnew. cbn [negb min_threads] in Hnew.
  destruct (start_workers _ _ _) as [s'|] eqn:Hs; [|discriminate].
  injection Hnew as <-.
  rewrite (Hgen _ _ _ _ Hs); [|reflexivity|]; lia.
Qed.

Lemma adaptive_threads_in_bounds_witness :
  exists s0 s,
    hev_adaptive_pool_new (Some config24) true true true all_created
    = NewPool s0 /\
    exec busy_day s0 = Some s /\
    current_threads (pool s0) = config_min_threads config24 /\
    config_min_threads config24 <= current_threads (pool s)
                                <= config_max_threads config24 /\
    length (workers (pool s)) = Z.to_nat (config_max_threads config24).
Proof.
  apply (adaptive_threads_in_bounds config24 all_created busy_day).
  - cbn. lia.
  - cbn. lia.
Defined.



(** X6 (works are taken in submission order).  In every state such a pool
    reaches, the works popped by the workers, in the order of the pops, are
    a prefix of the works whose submit returned 0, and the queue holds the
    others: popping it gives them back in submission order, then nothing. *)
Theorem adaptive_works_in_order c created schedule :
  0 <= config_min_threads c <= config_max_threads c ->
  config_max_threads c < 2 ^ 31 ->
  exists s0 s,
    hev_adaptive_pool_new (Some c) true true true created = NewPool s0 /\
    exec schedule s0 = Some s /\
    started s `prefix_of` accepted s /\
    fst (pop_many (length (backlog s)) (work_queue (pool s)))
    = Some <$> backlog s /\
    fst (hev_ring_buffer_pop
           (snd (pop_many (length (backlog s)) (work_queue (pool s))))) = None.
Proof.
  intros Hmin Hmax.
  destruct (reach_inv c created schedule Hmin Hmax) as (s0 & s & Hnew & Hexec & Hinv).
  exists s0, s. split; [exact Hnew|]. split; [exact Hexec|].
  destruct Hinv as [_ _ _ _ _ _ (q & H & T & CH & CT & Hring & Hq & _)].
  split; [exists q; exact Hq|].
  rewrite (backlog_inv s q Hq). exact (pop_many_inv q _ _ _ _ _ Hring).
Qed.

Lemma adaptive_works_in_order_witness :
  exists s0 s,
    hev_adaptive_pool_new (Some config24) true true true all_created
    = NewPool s0 /\
    exec busy_day s0 = Some s /\
    started s `prefix_of` accepted s /\
    fst (pop_many (length (backlog s)) (work_queue (pool s)))
    = Some <$> backlog s /\
    fst (hev_ring_buffer_pop
           (snd (pop_many (length (backlog s)) (work_queue (pool s))))) = None.
Proof.
  apply (adaptive_works_in_order config24 all_created busy_day).
  - cbn. lia.
  - cbn. lia.
Defined.

(** X7 (back-pressure).  In every state such a pool reaches, a submit
    returns 0 exactly when it is given a task, its [malloc] succeeds and
    fewer than 4095 works are waiting in the queue; otherwise it returns -1
    and the work is not queued. *)
Theorem adaptive_submit_accepts c created schedule task work :
  0 <= config_min_threads c <= config_max_threads c ->
  config_max_threads c < 2 ^ 31 ->
  exists s0 s,
    hev_adaptive_pool_new (Some c) true true true created = NewPool s0 /\
    exec schedule s0 = Some s /\
    let r := hev_adaptive_pool_submit (pool s) task work in
    (fst r = 0 \/ fst r = -1) /\
    (fst r = 0 <->
     task <> 0 /\ work <> 0 /\ (length (backlog s) < 4095)%nat) /\
    hev_ring_buffer_size (work_queue (snd r))
    = Z.of_nat (length (backlog s)) + (if fst r =? 0 then 1 else 0).
Proof.
  intros Hmin Hmax.
  destruct (reach_inv c created schedule Hmin Hmax) as (s0 & s & Hnew & Hexec & Hinv).
  exists s0, s. split; [exact Hnew|]. split; [exact Hexec|].
  destruct Hinv as [_ _ _ _ _ _ (q & H & T & CH & CT & Hring & Hq & _)].
  rewrite (backlog_inv s q Hq).
  pose proof (ri_q_len _ _ _ _ _ _ Hring) as Hlen.
  destruct (size_inv _ _ _ _ _ _ Hring) as [Hsize _].
  unfold hev_adaptive_pool_submit. cbv zeta.
  destruct (Z.eqb_spec task 0) as [Ht|Ht].
  { cbn [fst snd]. split; [right; reflexivity|].
    split; [|rewrite Hsize; cbn; lia]. split; [discriminate|tauto]. }
  destruct (Z.eqb_spec work 0) as [Hwk|Hwk].
  { cbn [fst snd]. split; [right; reflexivity|].
    split; [|rewrite Hsize; cbn; lia]. split; [discriminate|tauto]. }
  destruct (push_inv _ _ _ _ _ _ work Hring)
    as [(Hret & _ & Hfull & Hring')|(Hret & _ & Hroom & CT' & Hring')];
    rewrite Hret.
  - change (-1 <? 0) with true. cbn [fst snd set_queue work_queue].
    split; [right; reflexivity|].
    destruct (size_inv _ _ _ _ _ _ Hring') as [-> _].
    split; [|cbn; lia]. split; [discriminate|]. intros (_ & _ & Hlt). lia.
  - change (0 <? 0) with false. cbn [fst snd set_queue work_queue].
    split; [left; reflexivity|].
    destruct (size_inv _ _ _ _ _ _ Hring') as [-> _].
    split; [|rewrite length_app; cbn; lia].
    split; [|reflexivity]. intros _. repeat split; try assumption. lia.
Qed.

Lemma adaptive_submit_accepts_witness :
  exists s0 s,
    hev_adaptive_pool_new (Some config24) true true true all_created
    = NewPool s0 /\
    exec busy_day s0 = Some s /\
    let r := hev_adaptive_pool_submit (pool s) 1 4176 in
    (fst r = 0 \/ fst r = -1) /\
    (fst r = 0 <->
     1 <> 0 /\ 4176 <> 0 /\ (length (backlog s) < 4095)%nat) /\
    hev_ring_buffer_size (work_queue (snd r))
    = Z.of_nat (length (backlog s)) + (if fst r =? 0 then 1 else 0).
Proof.
  apply (adaptive_submit_accepts config24 all_created busy_day 1 4176).
  - cbn. lia.
  - cbn. lia.
Defined.



End AdaptivePool.

(** ** Worker pool queue: hev_thread_pool_submit, worker_thread,
       hev_thread_pool_destroy and hev_thread_pool_wait_all of
       src/hev-thread-pool.c *)

Module ThreadPoolQueue.

Import ThreadPool.

Record HevWorkItem := mkItem {
  task : Z;       (* HevThreadPoolTask, a function pointer *)
  data : Z        (* void * *)
}.

(** The pool with its linked list of work items, [queue_head] first and
    [queue_tail] last. *)
Record pool_state := mkPoolState {
  base : HevThreadPool;
  queue : list HevWorkItem
}.

Definition set_queue_size (p : HevThreadPool) (v : Z) : HevThreadPool :=
  {| num_threads := num_threads p; shutdown := shutdown p;
     queue_size := v; active_threads := active_threads p |}.

Definition set_active_threads (p : HevThreadPool) (v : Z) : HevThreadPool :=
  {| num_threads := num_threads p; shutdown := shutdown p;
     queue_size := queue_size p; active_threads := v |}.

Definition set_shutdown (p : HevThreadPool) (b : bool) : HevThreadPool :=
  {| num_threads := num_threads p; shutdown := b;
     queue_size := queue_size p; active_threads := active_threads p |}.

(** [hev_thread_pool_submit] on a non-null pool; [item_ok] is the success of
    [malloc]. *)
Definition hev_thread_pool_submit (item_ok : bool) (s : pool_state)
    (task0 data0 : Z) : Z * pool_state :=
  if task0 =? 0 then (-1, s)
  else if negb item_ok then (-1, s)
  else if queue_size (base s) >=? MAX_QUEUE_SIZE then (-1, s)
  else
    (0, {| base := set_queue_size (base s) (queue_size (base s) + 1);
           queue := queue s ++ [{| task := task0; data := data0 |}] |}).

(** Where a worker stands in [worker_thread]: at the mutex or inside the
    wait loop; running an item; returned. *)
Inductive worker_pc : Type :=
  | TLoop
  | TRun (item : HevWorkItem)
  | TGone.

(** One critical section of a worker. *)
Definition worker_step (s : pool_state) (pc : worker_pc)
  : pool_state * worker_pc :=
  let p := base s in
  match pc with
  | TLoop =>
      if (queue_size p =? 0) && negb (shutdown p) then (s, TLoop)
      else if shutdown p && (queue_size p =? 0) then (s, TGone)
      else
        match queue s with
        | [] => (s, TLoop)
        | item :: rest =>
            ({| base :=
                  set_active_threads
                    (set_queue_size p (queue_size p - 1))
                    (active_threads p + 1);
                queue := rest |}, TRun item)
        end
  | TRun item =>
      ({| base := set_active_threads p (active_threads p - 1);
          queue := queue s |}, TLoop)
  | TGone => (s, TGone)
  end.

(** The signal on [done_cond] and the test of [hev_thread_pool_wait_all]:
    nothing queued, nothing running. *)
Definition all_done (s : pool_state) : bool :=
  (queue_size (base s) =? 0) && (active_threads (base s) =? 0).

(** The first part of [hev_thread_pool_destroy]: raise [shutdown]. *)
Definition raise_shutdown (s : pool_state) : pool_state :=
  {| base := set_shutdown (base s) true; queue := queue s |}.

(** The pool, its threads, and what has been observed: the items accepted
    by submit, the items taken by workers, the items whose task has
    returned, each list in order. *)
Record system := mkSystem {
  state : pool_state;
  threads : list worker_pc;
  accepted : list HevWorkItem;
  started : list HevWorkItem;
  finished : list HevWorkItem
}.

Inductive action : Type :=
  | ASubmit (item_ok : bool) (task0 data0 : Z)
  | AWorker (i : nat)
  | AShutdown.

Definition act (s : system) (a : action) : system :=
  match a with
  | ASubmit item_ok task0 data0 =>
      let r := hev_thread_pool_submit item_ok (state s) task0 data0 in
      {| state := snd r; threads := threads s;
         accepted := if fst r =? 0
                     then accepted s ++ [{| task := task0; data := data0 |}]
                     else accepted s;
         started := started s; finished := finished s |}
  | AWorker i =>
      match threads s !! i with
      | None => s
      | Some pc =>
          let r := worker_step (state s) pc in
          {| state := fst r; threads := <[i := snd r]> (threads s);
             accepted := accepted s;
             started := match pc, snd r with
                        | TLoop, TRun item => started s ++ [item]
                        | _, _ => started s
                        end;
             finished := match pc with
                         | TRun item => finished s ++ [item]
                         | _ => finished s
                         end |}
      end
  | AShutdown =>
      {| state := raise_shutdown (state s); threads := threads s;
         accepted := accepted s; started := started s;
         finished := finished s |}
  end.

Definition exec (schedule : list action) (s : system) : system :=
  fold_left act schedule s.

(** The system right after [hev_thread_pool_new] returned [p]: every worker
    at the head of its loop, nothing queued. *)
Definition fresh (p : HevThreadPool) : system :=
  {| state := {| base := p; queue := [] |};
     threads := replicate (Z.to_nat (num_threads p)) TLoop;
     accepted := []; started := []; finished := [] |}.

Definition busy (pc : worker_pc) : bool :=
  match pc with TRun _ => true | _ => false end.

Definition count_busy (l : list worker_pc) : Z :=
  Z.of_nat (length (filter (fun pc => busy pc = true) l)).

(** Worker [i] taking [n] turns in a row. *)
Definition turns (i n : nat) : list action := replicate n (AWorker i).

(** Three tasks for two workers. *)
Definition morning : list action :=
  [ASubmit true 1 10; ASubmit true 1 20; AWorker 0; ASubmit true 1 30;
   AWorker 1; AWorker 0]%nat.

(** *** The invariant of the queue *)

Record queue_inv (s : system) : Prop := {
  qi_size : queue_size (base (state s)) = Z.of_nat (length (queue (state s)));
  qi_bound : Z.of_nat (length (queue (state s))) <= MAX_QUEUE_SIZE;
  qi_active : active_threads (base (state s)) = count_busy (threads s);
  qi_order : accepted s = started s ++ queue (state s);
  qi_running :
    Z.of_nat (length (started s))
    = Z.of_nat (length (finished s)) + count_busy (threads s)
}.

Lemma count_busy_insert : forall (l : list worker_pc) i x y,
  l !! i = Some x ->
  count_busy (<[i := y]> l)
  = count_busy l - Z.b2z (busy x) + Z.b2z (busy y).
Proof.
  unfold count_busy. induction l as [|z l IH]; intros i x y Hi; [discriminate|].
  destruct i as [|i]; simpl in Hi.
  - injection Hi as ->. simpl. rewrite !filter_cons.
    destruct (decide (busy y = true)) as [Hy|Hy],
             (decide (busy x = true)) as [Hx|Hx]; simpl.
    + rewrite Hx, Hy. simpl. lia.
    + apply not_true_is_false in Hx. rewrite Hx, Hy. simpl. lia.
    + apply not_true_is_false in Hy. rewrite Hx, Hy. simpl. lia.
    + apply not_true_is_false in Hx, Hy. rewrite Hx, Hy. simpl. lia.
  - simpl. rewrite !filter_cons. specialize (IH i x y Hi).
    destruct (decide (busy z = true)); simpl; lia.
Qed.

Lemma count_busy_replicate n : count_busy (replicate n TLoop) = 0.
Proof.
  unfold count_busy. induction n as [|n IH]; [reflexivity|].
  simpl. rewrite filter_cons. simpl. exact IH.
Qed.

Lemma fresh_inv env cores n p :
  hev_thread_pool_new env cores n = Some p -> queue_inv (fresh p).
Proof.
  intros Hnew.
  assert (Hp : queue_size p = 0 /\ active_threads p = 0).
  { unfold hev_thread_pool_new in Hnew.
    destruct (negb (pool_ok env)); [discriminate|].
    destruct (negb (threads_ok env)); [discriminate|].
    destruct (first_failed_create env) as [i|].
    - destruct (Z.of_nat i <? _); [discriminate|]. injection Hnew as <-. auto.
    - injection Hnew as <-. auto. }
  destruct Hp as [Hq Ha].
  constructor; cbn [fresh state base queue threads accepted started finished
                    length app]; unfold MAX_QUEUE_SIZE;
    rewrite ?count_busy_replicate; try assumption; try reflexivity; lia.
Qed.

Tactic Notation "q_fields" :=
  cbn [state base queue threads accepted started finished fst snd
       set_queue_size set_active_threads set_shutdown raise_shutdown
       num_threads shutdown queue_size active_threads].

Tactic Notation "q_fields" "in" hyp(H) :=
  cbn [state base queue threads accepted started finished fst snd
       set_queue_size set_active_threads set_shutdown raise_shutdown
       num_threads shutdown queue_size active_threads] in H.

Lemma queue_act_inv s a : queue_inv s -> queue_inv (act s a).
Proof.
  destruct s as [[p q] th ac st fi]. intros [Hsize Hbound Hact Hord Hrun].
  q_fields in Hsize. q_fields in Hbound. q_fields in Hact. q_fields in Hord.
  q_fields in Hrun.
  destruct a as [item_ok task0 data0|i|]; cbn [act]; q_fields.
  - unfold hev_thread_pool_submit. q_fields.
    destruct (task0 =? 0); [constructor; assumption|].
    destruct (negb item_ok); [constructor; assumption|].
    destruct (Z.geb_spec (queue_size p) MAX_QUEUE_SIZE) as [Hge|Hlt];
      [constructor; assumption|].
    change (0 =? 0) with true. constructor; q_fields; try assumption.
    + rewrite length_app. simpl. lia.
    + rewrite length_app. simpl. lia.
    + rewrite Hord, app_assoc. reflexivity.
  - destruct (th !! i) as [pc|] eqn:Hpc; [|constructor; assumption].
    pose proof (count_busy_insert th i pc) as Hc.
    unfold worker_step. cbv zeta. q_fields. destruct pc as [|item|].
    + destruct ((queue_size p =? 0) && negb (shutdown p)).
      { q_fields. rewrite list_insert_id by exact Hpc.
        constructor; assumption. }
      destruct (shutdown p && (queue_size p =? 0)).
      { q_fields. constructor; q_fields; try assumption.
        - rewrite (Hc TGone Hpc). simpl. lia.
        - rewrite (Hc TGone Hpc). simpl. lia. }
      destruct q as [|item rest].
      { q_fields. rewrite list_insert_id by exact Hpc.
        constructor; assumption. }
      q_fields. simpl length in *.
      constructor; q_fields.
      * lia.
      * lia.
      * rewrite (Hc (TRun item) Hpc). simpl. lia.
      * rewrite Hord, <- app_assoc. reflexivity.
      * rewrite (Hc (TRun item) Hpc), length_app. simpl. lia.
    + q_fields. constructor; q_fields; try assumption.
      * rewrite (Hc TLoop Hpc). simpl. lia.
      * rewrite (Hc TLoop Hpc), length_app. simpl. lia.
    + q_fields. rewrite list_insert_id by exact Hpc.
      constructor; assumption.
  - constructor; q_fields; assumption.
Qed.

Lemma queue_exec_inv schedule : forall s, queue_inv s -> queue_inv (exec schedule s).
Proof.
  unfold exec. induction schedule as [|a schedule IH]; intros s Hinv;
    [exact Hinv|].
  simpl. apply IH, queue_act_inv, Hinv.
Qed.

Lemma drains i : forall q s,
  queue_inv s -> shutdown (base (state s)) = true ->
  threads s !! i = Some TLoop -> queue (state s) = q ->
  let s' := exec (turns i (2 * length q + 1)) s in
  threads s' !! i = Some TGone /\ queue (state s') = [] /\
  started s' = started s ++ q /\ finished s' = finished s ++ q.
Proof.
  induction q as [|item rest IH]; intros s Hinv Hshut Hpc Hq.
  - cbn [length Nat.mul Nat.add turns replicate exec fold_left act].
    rewrite Hpc. unfold worker_step. cbv zeta.
    pose proof (qi_size s Hinv) as Hsize. rewrite Hq in Hsize. simpl in Hsize.
    rewrite Hshut, Hsize. cbn [Z.eqb negb andb]. q_fields.
    rewrite list_lookup_insert_eq by (apply lookup_lt_is_Some; eauto).
    rewrite !app_nil_r. auto.
  - replace (2 * length (item :: rest) + 1)%nat
      with (S (S (2 * length rest + 1))) by (simpl; lia).
    cbn [turns replicate exec fold_left].
    fold (turns i (2 * length rest + 1)).
    pose proof (queue_act_inv s (AWorker i) Hinv) as Hinv1.
    pose proof (queue_act_inv _ (AWorker i) Hinv1) as Hinv2.
    pose proof (qi_size s Hinv) as Hsize. rewrite Hq in Hsize.
    simpl length in Hsize.
    assert (Hlen : (i < length (threads s))%nat)
      by (apply lookup_lt_is_Some; eauto).
    set (s1 := act s (AWorker i)) in *.
    assert (H1 : threads s1 !! i = Some (TRun item) /\
                 queue (state s1) = rest /\
                 shutdown (base (state s1)) = true /\
                 started s1 = started s ++ [item] /\
                 finished s1 = finished s).
    { unfold s1. cbn [act]. rewrite Hpc. unfold worker_step. cbv zeta.
      rewrite Hshut, Hq.
      destruct (Z.eqb_spec (queue_size (base (state s))) 0) as [H0|_]; [lia|].
      cbn [negb andb]. q_fields.
      rewrite list_lookup_insert_eq by exact Hlen. auto. }
    destruct H1 as (Hpc1 & Hq1 & Hshut1 & Hst1 & Hfi1).
    set (s2 := act s1 (AWorker i)) in *.
    assert (H2 : threads s2 !! i = Some TLoop /\
                 queue (state s2) = rest /\
                 shutdown (base (state s2)) = true /\
                 started s2 = started s ++ [item] /\
                 finished s2 = finished s ++ [item]).
    { unfold s2. cbn [act]. rewrite Hpc1. unfold worker_step. cbv zeta. q_fields.
      rewrite list_lookup_insert_eq
        by (apply lookup_lt_is_Some; eauto).
      rewrite Hfi1. auto. }
    destruct H2 as (Hpc2 & Hq2 & Hshut2 & Hst2 & Hfi2).
    destruct (IH s2 Hinv2 Hshut2 Hpc2 Hq2) as (Hgone & Hempty & Hst & Hfi).
    unfold exec in *. rewrite Hst, Hfi, Hst2, Hfi2, <- !app_assoc. auto.
Qed.

(** *** The worker pool, as its users see it *)

(** X9 (queue order and bound).  In every state reached from a created
    pool, whatever clients and workers do, [queue_size] is the number of
    items in the list and never exceeds 10000, [active_threads] is the
    number of workers inside a task, and the items taken by the workers, in
    order, followed by the items still queued, in order, are the items
    accepted by submit, in order: workers take items first in, first out. *)
Theorem thread_pool_queue_order env cores n p schedule :
  hev_thread_pool_new env cores n = Some p ->
  let s := exec schedule (fresh p) in
  queue_size (base (state s)) = Z.of_nat (length (queue (state s))) /\
  Z.of_nat (length (queue (state s))) <= MAX_QUEUE_SIZE /\
  active_threads (base (state s)) = count_busy (threads s) /\
  accepted s = started s ++ queue (state s).
Proof.
  intros Hnew s.
  destruct (queue_exec_inv schedule _ (fresh_inv _ _ _ _ Hnew))
    as [Hsize Hbound Hact Hord _].
  fold s in Hsize, Hbound, Hact, Hord.
  repeat split; assumption.
Qed.

Lemma thread_pool_queue_order_witness :
  let p := mkThreadPool 4 false 0 0 in
  let s := exec morning (fresh p) in
  queue_size (base (state s)) = Z.of_nat (length (queue (state s))) /\
  Z.of_nat (length (queue (state s))) <= MAX_QUEUE_SIZE /\
  active_threads (base (state s)) = count_busy (threads s) /\
  accepted s = started s ++ queue (state s).
Proof.
  apply (thread_pool_queue_order all_ok 1 0 (mkThreadPool 4 false 0 0) morning).
  reflexivity.
Defined.

(** X10 (submit).  In every such state a submit returns 0 exactly when it
    is given a task, its [malloc] succeeds and fewer than 10000 items are
    queued, whether or not shutdown has been raised; it then appends the
    item at the tail.  Otherwise it returns -1 and leaves the pool as it
    was. *)
Theorem thread_pool_submit_accepts env cores n p schedule item_ok task0 data0 :
  hev_thread_pool_new env cores n = Some p ->
  let s := exec schedule (fresh p) in
  let r := hev_thread_pool_submit item_ok (state s) task0 data0 in
  (fst r = 0 <->
   task0 <> 0 /\ item_ok = true /\ Z.of_nat (length (queue (state s))) < MAX_QUEUE_SIZE) /\
  (fst r = 0 ->
   queue (snd r) = queue (state s) ++ [{| task := task0; data := data0 |}]) /\
  (fst r <> 0 -> fst r = -1 /\ snd r = state s).
Proof.
  intros Hnew s r.
  destruct (queue_exec_inv schedule _ (fresh_inv _ _ _ _ Hnew)) as [Hsize _ _ _ _].
  fold s in Hsize. unfold r, hev_thread_pool_submit.
  destruct (Z.eqb_spec task0 0) as [Ht|Ht].
  { cbn [fst snd]. repeat split; try discriminate; try tauto. }
  destruct item_ok; cbn [negb].
  2:{ cbn [fst snd]. repeat split; try discriminate; try tauto.
      intros (_ & Hf & _). discriminate. }
  destruct (Z.geb_spec (queue_size (base (state s))) MAX_QUEUE_SIZE)
    as [Hge|Hlt]; cbn [fst snd queue].
  - repeat split; try discriminate; try tauto. intros (_ & _ & Hlen). lia.
  - repeat split; try tauto; try lia.
Qed.

Lemma thread_pool_submit_accepts_witness :
  let p := mkThreadPool 4 false 0 0 in
  let s := exec morning (fresh p) in
  let r := hev_thread_pool_submit true (state s) 1 40 in
  (fst r = 0 <->
   1 <> 0 /\ true = true /\ Z.of_nat (length (queue (state s))) < MAX_QUEUE_SIZE) /\
  (fst r = 0 ->
   queue (snd r) = queue (state s) ++ [{| task := 1; data := 40 |}]) /\
  (fst r <> 0 -> fst r = -1 /\ snd r = state s).
Proof.
  apply (thread_pool_submit_accepts all_ok 1 0 (mkThreadPool 4 false 0 0)
           morning true 1 40).
  reflexivity.
Defined.

(** X11 (wait for all).  In every such state the condition on which
    [hev_thread_pool_wait_all] returns, and on which a worker signals
    [done_cond], no item queued and no worker active, holds exactly when
    every item accepted by submit has been run to the end. *)
Theorem thread_pool_wait_all_exact env cores n p schedule :
  hev_thread_pool_new env cores n = Some p ->
  let s := exec schedule (fresh p) in
  all_done (state s) = true <-> length (finished s) = length (accepted s).
Proof.
  intros Hnew s.
  destruct (queue_exec_inv schedule _ (fresh_inv _ _ _ _ Hnew))
    as [Hsize _ Hact Hord Hrun].
  fold s in Hsize, Hact, Hord, Hrun.
  assert (Hbusy : 0 <= count_busy (threads s)) by (unfold count_busy; lia).
  unfold all_done. rewrite Hsize, Hact, Hord, length_app.
  rewrite andb_true_iff, !Z.eqb_eq. lia.
Qed.

Lemma thread_pool_wait_all_exact_witness :
  let s := exec (morning ++ [AWorker 1; AWorker 0; AWorker 0]%nat)
                (fresh (mkThreadPool 4 false 0 0)) in
  all_done (state s) = true <-> length (finished s) = length (accepted s).
Proof.
  apply (thread_pool_wait_all_exact all_ok 1 0 (mkThreadPool 4 false 0 0)
           (morning ++ [AWorker 1; AWorker 0; AWorker 0]%nat)).
  reflexivity.
Defined.

(** X12 (shutdown drains the queue).  Take any state reached from a created
    pool in which worker [i] is at the head of its loop.  Once
    [hev_thread_pool_destroy] has raised [shutdown], that worker alone runs
    every item still queued, in order, each to its end, and only then
    returns: no queued task is dropped by a shutdown. *)
Theorem thread_pool_shutdown_drains env cores n p schedule i :
  hev_thread_pool_new env cores n = Some p ->
  threads (exec schedule (fresh p)) !! i = Some TLoop ->
  let s := exec schedule (fresh p) in
  let left := queue (state s) in
  let s' := exec (AShutdown :: turns i (2 * length left + 1)) s in
  threads s' !! i = Some TGone /\ queue (state s') = [] /\
  started s' = started s ++ left /\ finished s' = finished s ++ left.
Proof.
  intros Hnew Hpc s left s'.
  pose proof (queue_exec_inv schedule _ (fresh_inv _ _ _ _ Hnew)) as Hinv.
  fold s in Hinv, Hpc.
  pose proof (queue_act_inv s AShutdown Hinv) as Hinv1.
  exact (drains i left (act s AShutdown) Hinv1 eq_refl Hpc eq_refl).
Qed.

Lemma thread_pool_shutdown_drains_witness :
  let s := exec morning (fresh (mkThreadPool 4 false 0 0)) in
  let left := queue (state s) in
  let s' := exec (AShutdown :: turns 2 (2 * length left + 1)) s in
  left = [{| task := 1; data := 30 |}] /\
  threads s' !! 2%nat = Some TGone /\ queue (state s') = [] /\
  started s' = started s ++ left /\ finished s' = finished s ++ left.
Proof.
  split; [reflexivity|].
  apply (thread_pool_shutdown_drains all_ok 1 0 (mkThreadPool 4 false 0 0)
           morning 2%nat); reflexivity.
Defined.

End ThreadPoolQueue.

(** ** Sessions and their tasks: tcp_accept_handler, udp_recv_handler and
       session_task_wrapper of src/hev-socks5-tunnel.c *)

Module SessionTasks.

Import SessionRegistry ThreadPoolQueue.

(** Error codes of the stack (lwip/err.h). *)
Definition ERR_OK : Z := 0.
Definition ERR_MEM : Z := -1.
Definition ERR_RST : Z := -14.

(** The globals these handlers touch. *)
Record tunnel_state := mkTunnelState {
  run : bool;                   (* static volatile int run *)
  sessions : registry;          (* session_list_head/tail, session_count *)
  thread_pool : pool_state      (* static HevThreadPool *thread_pool *)
}.

(** What the handlers do to objects outside these globals. *)
Inductive event : Type :=
  | EvPbufFree (p : Z)                 (* pbuf_free (p) *)
  | EvUdpRemove (pcb : Z)              (* udp_remove (pcb) *)
  | EvUdpRecvClear (pcb : Z)           (* udp_recv (pcb, NULL, NULL) *)
  | EvUdpSendfrom (pcb b len : Z)      (* udp_sendfrom (pcb, b, ...) *)
  | EvRunSession (session : Z)         (* task_data->run_func (session) *)
  | EvFree (ptr : Z).                  (* free (task_data) *)

(** What the environment answers during one handler call: the session
    object created (0: NULL), the [malloc] of the task data (0: NULL),
    whether the [malloc]s inside [insert_session] and
    [hev_thread_pool_submit] succeed, and the configured session cap. *)
Record accept_env := mkAcceptEnv {
  session : Z;
  task_data : Z;
  node_ok : bool;
  item_ok : bool;
  max_sessions : Z
}.

(** The mapped-DNS side of a datagram: whether a mapper is installed,
    whether the source address is IPv4 and which, the configured mapper
    address and port, the reply buffer allocated (0: NULL) and the result of
    [hev_mapped_dns_handle]. *)
Record dns_env := mkDnsEnv {
  dns : bool;
  addr_v4 : bool;
  addr4 : Z;
  faddr : Z;
  fport : Z;
  reply : Z;
  res : Z
}.

Section Handlers.

(** The address of [session_task_wrapper], which is not NULL. *)
Variable wrapper : Z.

(** [tcp_accept_handler]: the [err_t] returned, the globals, the events. *)
Definition tcp_accept_handler (env : accept_env) (err : Z) (st : tunnel_state)
  : Z * tunnel_state * list event :=
  if negb (err =? ERR_OK) then (err, st, [])
  else if negb (run st) then (ERR_RST, st, [])
  else if session env =? 0 then (ERR_MEM, st, [])
  else if task_data env =? 0 then (ERR_MEM, st, [])
  else
    let sessions1 :=
      insert_session (node_ok env) (max_sessions env) (session env)
                     (sessions st) in
    let r := hev_thread_pool_submit (item_ok env) (thread_pool st) wrapper
                                    (task_data env) in
    if fst r <? 0 then
      (ERR_MEM,
       {| run := run st;
          sessions := remove_session (session env) sessions1;
          thread_pool := snd r |},
       [EvFree (task_data env)])
    else
      (ERR_OK,
       {| run := run st; sessions := sessions1; thread_pool := snd r |}, []).

(** [udp_recv_handler] for the datagram [p] received on [pcb] from [port]. *)
Definition udp_recv_handler (denv : dns_env) (env : accept_env)
    (pcb p port : Z) (st : tunnel_state) : tunnel_state * list event :=
  if negb (run st) then (st, [EvPbufFree p; EvUdpRemove pcb])
  else if dns denv && addr_v4 denv
          && ((fport denv =? port) && (u32 (faddr denv) =? addr4 denv)) then
    (st,
     (if reply denv =? 0 then []
      else (if res denv >? 0
            then [EvUdpSendfrom pcb (reply denv) (res denv)] else [])
           ++ [EvPbufFree (reply denv)])
     ++ [EvPbufFree p; EvUdpRecvClear pcb; EvUdpRemove pcb])
  else if session env =? 0 then (st, [EvPbufFree p; EvUdpRemove pcb])
  else if task_data env =? 0 then (st, [EvPbufFree p; EvUdpRemove pcb])
  else
    let sessions1 :=
      insert_session (node_ok env) (max_sessions env) (session env)
                     (sessions st) in
    let r := hev_thread_pool_submit (item_ok env) (thread_pool st) wrapper
                                    (task_data env) in
    if fst r <? 0 then
      ({| run := run st;
          sessions := remove_session (session env) sessions1;
          thread_pool := snd r |},
       [EvPbufFree p; EvFree (task_data env); EvUdpRemove pcb])
    else
      ({| run := run st; sessions := sessions1; thread_pool := snd r |},
       [EvPbufFree p]).

End Handlers.

(** [session_task_wrapper] on the task data [(session, run_func)] stored at
    [task_data0]. *)
Definition session_task_wrapper (task_data0 session0 : Z) (st : tunnel_state)
  : tunnel_state * list event :=
  ({| run := run st; sessions := remove_session session0 (sessions st);
      thread_pool := thread_pool st |},
   [EvRunSession session0; EvFree task_data0]).

(** The session part of [hev_socks5_tunnel_fini]. *)
Definition clear_sessions (r : registry) : registry :=
  {| session_list := []; session_count := 0; warnings := warnings r |}.

(** Calls on the registry, as the handlers and the wrapper make them. *)
Inductive registry_call : Type :=
  | Insert (node_ok0 : bool) (max_sessions0 : Z) (session0 : Z)
  | Remove (session0 : Z)
  | Clear.

Definition registry_step (r : registry) (c : registry_call) : registry :=
  match c with
  | Insert ok m s => insert_session ok m s r
  | Remove s => remove_session s r
  | Clear => clear_sessions r
  end.

Definition registry_run (calls : list registry_call) : registry :=
  fold_left registry_step calls empty_registry.

(** How often a trace frees the packet buffer [p], and how often it removes
    the control block [pcb]. *)
Definition frees_pbuf (p : Z) (e : event) : bool :=
  match e with EvPbufFree q => q =? p | _ => false end.

Definition removes_pcb (pcb : Z) (e : event) : bool :=
  match e with EvUdpRemove q => q =? pcb | _ => false end.

Fixpoint occurrences (f : event -> bool) (evs : list event) : nat :=
  match evs with
  | [] => 0
  | e :: rest => (if f e then 1 else 0) + occurrences f rest
  end.

(** A running tunnel with one session registered and an idle pool of two
    workers; an environment in which every allocation succeeds. *)
Definition tunnel_one : tunnel_state :=
  {| run := true;
     sessions := insert_session true 0 4096 empty_registry;
     thread_pool := {| base := ThreadPool.mkThreadPool 2 false 0 0;
                       queue := [] |} |}.

Definition env_ok : accept_env :=
  {| session := 8192; task_data := 12288; node_ok := true; item_ok := true;
     max_sessions := 0 |}.

Definition no_dns : dns_env :=
  {| dns := false; addr_v4 := true; addr4 := 0; faddr := 0; fport := 53;
     reply := 0; res := 0 |}.

(** *** The registry *)

Lemma unlink_spec session0 : forall l,
  match unlink session0 l with
  | Some l' =>
      exists older newer,
        l = older ++ session0 :: newer /\ (session0 ∉ older) /\
        l' = older ++ newer
  | None => session0 ∉ l
  end.
Proof.
  induction l as [|s l IH]; cbn [unlink].
  - apply not_elem_of_nil.
  - destruct (Z.eqb_spec s session0) as [->|Hne].
    + exists [], l. split; [reflexivity|]. split; [apply not_elem_of_nil|reflexivity].
    + destruct (unlink session0 l) as [l'|]; cbn [option_map].
      * destruct IH as (older & newer & -> & Hout & ->).
        exists (s :: older), newer. split; [reflexivity|].
        split; [|reflexivity]. apply not_elem_of_cons. split; congruence.
      * apply not_elem_of_cons. split; congruence.
Qed.

Lemma unlink_fresh session0 l :
  session0 ∉ l -> unlink session0 (l ++ [session0]) = Some l.
Proof.
  induction l as [|s l IH]; intros Hout; cbn [app unlink].
  - rewrite Z.eqb_refl. reflexivity.
  - apply not_elem_of_cons in Hout as [Hne Hout].
    destruct (Z.eqb_spec s session0) as [->|_]; [congruence|].
    rewrite (IH Hout). reflexivity.
Qed.

Lemma unlink_absent session0 l : session0 ∉ l -> unlink session0 l = None.
Proof.
  intros Hout. pose proof (unlink_spec session0 l) as Hspec.
  destruct (unlink session0 l) as [l'|]; [|reflexivity].
  destruct Hspec as (older & newer & -> & _ & _).
  exfalso. apply Hout. apply elem_of_app. right. left.
Qed.

Lemma registry_step_count r c :
  session_count r = Z.of_nat (length (session_list r)) ->
  session_count (registry_step r c)
  = Z.of_nat (length (session_list (registry_step r c))).
Proof.
  intros Hr. destruct c as [ok m s0|s0|]; cbn [registry_step].
  - unfold insert_session. destruct ok; cbn [negb]; [|exact Hr].
    cbn [session_count session_list]. rewrite length_app. simpl. lia.
  - unfold remove_session. pose proof (unlink_spec s0 (session_list r)) as Hspec.
    destruct (unlink s0 (session_list r)) as [l'|]; [|exact Hr].
    destruct Hspec as (older & newer & Hl & _ & ->).
    cbn [session_count session_list]. rewrite Hr, Hl, !length_app. simpl. lia.
  - reflexivity.
Qed.

(** A session that is not registered yet is registered and removed again
    without a trace in the list or the counter, whether or not the node
    could be allocated. *)
Lemma insert_remove_fresh ok m s0 r :
  s0 ∉ session_list r ->
  session_list (remove_session s0 (insert_session ok m s0 r)) = session_list r /\
  session_count (remove_session s0 (insert_session ok m s0 r)) = session_count r.
Proof.
  intros Hout. unfold insert_session. destruct ok; cbn [negb].
  - unfold remove_session. cbn [session_list session_count].
    rewrite (unlink_fresh s0 _ Hout). cbn [session_list session_count].
    split; [reflexivity|lia].
  - unfold remove_session. rewrite (unlink_absent s0 _ Hout). auto.
Qed.

(** *** Sessions, as the rest of the tunnel sees them *)

(** X13 (registry counter).  After any sequence of fewer than 2^31
    [insert_session] calls (whether or not their node can be allocated),
    [remove_session] calls and clearings by [hev_socks5_tunnel_fini],
    [session_count] is the number of nodes in the session list; it is at
    most the number of calls, so that the [int] never overflows. *)
Theorem registry_count_is_length calls :
  Z.of_nat (length calls) < 2 ^ 31 ->
  let r := registry_run calls in
  session_count r = Z.of_nat (length (session_list r)) /\
  0 <= session_count r <= Z.of_nat (length calls) /\
  session_count r < 2 ^ 31.
Proof.
  intros Hfew r. subst r. unfold registry_run.
  assert (Hgen : forall r0,
    session_count r0 = Z.of_nat (length (session_list r0)) ->
    session_count (fold_left registry_step calls r0)
    = Z.of_nat (length (session_list (fold_left registry_step calls r0))) /\
    (length (session_list (fold_left registry_step calls r0))
     <= length (session_list r0) + length calls)%nat).
  { clear Hfew. induction calls as [|c calls IH]; intros r0 Hr.
    - cbn [fold_left length]. split; [exact Hr|lia].
    - cbn [fold_left length].
      destruct (IH (registry_step r0 c) (registry_step_count r0 c Hr))
        as [Hcount Hlen].
      split; [exact Hcount|].
      assert (Hstep : (length (session_list (registry_step r0 c))
                       <= S (length (session_list r0)))%nat).
      { destruct c as [ok m s0|s0|]; cbn [registry_step].
        - unfold insert_session. destruct ok; cbn [negb session_list]; [|lia].
          rewrite length_app. cbn [length]. lia.
        - unfold remove_session.
          pose proof (unlink_spec s0 (session_list r0)) as Hspec.
          destruct (unlink s0 (session_list r0)) as [l'|]; [|lia].
          destruct Hspec as (older & newer & Hl & _ & ->).
          cbn [session_list]. rewrite Hl, !length_app. cbn [length]. lia.
        - cbn [clear_sessions session_list length]. lia. }
      lia. }
  destruct (Hgen empty_registry eq_refl) as [Hcount Hlen].
  cbn [empty_registry session_list length] in Hlen.
  split; [exact Hcount|]. rewrite Hcount. lia.
Qed.

Lemma registry_count_is_length_witness :
  session_list
    (registry_run [Insert true 2 4096; Insert false 2 8192; Insert true 2 12288;
                   Insert true 2 16384; Remove 12288; Remove 20480])
  = [4096; 16384] /\
  (session_count
     (registry_run [Insert true 2 4096; Insert false 2 8192; Insert true 2 12288;
                    Insert true 2 16384; Remove 12288; Remove 20480])
   = Z.of_nat (length (session_list
       (registry_run [Insert true 2 4096; Insert false 2 8192;
                      Insert true 2 12288; Insert true 2 16384; Remove 12288;
                      Remove 20480]))) /\
   0 <= session_count
          (registry_run [Insert true 2 4096; Insert false 2 8192;
                         Insert true 2 12288; Insert true 2 16384;
                         Remove 12288; Remove 20480])
     <= Z.of_nat (length [Insert true 2 4096; Insert false 2 8192;
                          Insert true 2 12288; Insert true 2 16384;
                          Remove 12288; Remove 20480]) /\
   session_count
     (registry_run [Insert true 2 4096; Insert false 2 8192; Insert true 2 12288;
                    Insert true 2 16384; Remove 12288; Remove 20480])
   < 2 ^ 31).
Proof.
  split; [vm_compute; reflexivity|].
  apply (registry_count_is_length
           [Insert true 2 4096; Insert false 2 8192; Insert true 2 12288;
            Insert true 2 16384; Remove 12288; Remove 20480]).
  vm_compute. reflexivity.
Defined.

(** X14 (removal).  [remove_session] unlinks the oldest node that carries
    the session, keeps every other node in its place and takes 1 off the
    counter; when no node carries the session it changes nothing. *)
Theorem remove_session_unlinks_oldest session0 r :
  ((session0 ∉ session_list r) /\ remove_session session0 r = r) \/
  (exists older newer,
     session_list r = older ++ session0 :: newer /\ (session0 ∉ older) /\
     session_list (remove_session session0 r) = older ++ newer /\
     session_count (remove_session session0 r) = session_count r - 1).
Proof.
  unfold remove_session. pose proof (unlink_spec session0 (session_list r)) as Hspec.
  destruct (unlink session0 (session_list r)) as [l'|].
  - right. destruct Hspec as (older & newer & Hl & Hout & ->).
    exists older, newer. auto.
  - left. auto.
Qed.

(** X15 (accepting a connection).  For a session object that is not
    registered yet, [tcp_accept_handler] returns [ERR_OK] exactly when the
    stack reports no error, the tunnel runs, the session and the task data
    could be allocated and the pool took the task; the task is then at the
    tail of the pool's queue and, when its node could be allocated, the
    session at the tail of the registry.  On every other return the session
    list, the session counter and the pool are what they were. *)
Theorem tcp_accept_outcome wrapper env err st :
  wrapper <> 0 ->
  session env ∉ session_list (sessions st) ->
  let r := tcp_accept_handler wrapper env err st in
  let ret := fst (fst r) in
  let st' := snd (fst r) in
  (ret = ERR_OK <->
   err = ERR_OK /\ run st = true /\ session env <> 0 /\ task_data env <> 0 /\
   item_ok env = true /\
   ThreadPool.queue_size (base (thread_pool st)) < ThreadPool.MAX_QUEUE_SIZE) /\
  (ret = ERR_OK ->
   queue (thread_pool st')
   = queue (thread_pool st) ++ [{| task := wrapper; data := task_data env |}] /\
   session_list (sessions st')
   = (if node_ok env then session_list (sessions st) ++ [session env]
      else session_list (sessions st))) /\
  (ret <> ERR_OK ->
   session_list (sessions st') = session_list (sessions st) /\
   session_count (sessions st') = session_count (sessions st) /\
   thread_pool st' = thread_pool st).
Proof.
  intros Hw Hfresh. cbv zeta. unfold tcp_accept_handler, ERR_OK.
  destruct (Z.eqb_spec err 0) as [He|He]; cbn [negb fst snd].
  2:{ repeat split; try tauto. }
  destruct (run st) eqn:Hrun; cbn [negb fst snd].
  2:{ unfold ERR_RST. repeat split; try discriminate; try tauto.
      intros (_ & Hf & _). discriminate. }
  destruct (Z.eqb_spec (session env) 0) as [Hs|Hs]; cbn [fst snd].
  { unfold ERR_MEM. repeat split; try discriminate; try tauto. }
  destruct (Z.eqb_spec (task_data env) 0) as [Ht|Ht]; cbn [fst snd].
  { unfold ERR_MEM. repeat split; try discriminate; try tauto. }
  unfold hev_thread_pool_submit.
  destruct (Z.eqb_spec wrapper 0) as [|_]; [contradiction|].
  destruct (item_ok env); cbn [negb].
  2:{ change (-1 <? 0) with true. cbn [fst snd sessions thread_pool].
      destruct (insert_remove_fresh (node_ok env) (max_sessions env)
                  (session env) (sessions st) Hfresh) as [Hl Hc].
      unfold ERR_MEM. repeat split; try discriminate; try tauto.
      intros (_ & _ & _ & _ & Hf & _). discriminate. }
  destruct (Z.geb_spec (ThreadPool.queue_size (base (thread_pool st)))
                       ThreadPool.MAX_QUEUE_SIZE) as [Hge|Hlt].
  - change (-1 <? 0) with true. cbn [fst snd sessions thread_pool].
    destruct (insert_remove_fresh (node_ok env) (max_sessions env)
                (session env) (sessions st) Hfresh) as [Hl Hc].
    unfold ERR_MEM. repeat split; try discriminate; try tauto.
    intros (_ & _ & _ & _ & _ & Hf). lia.
  - change (0 <? 0) with false. cbn [fst snd sessions thread_pool queue].
    repeat split; try tauto.
    unfold insert_session. destruct (node_ok env); reflexivity.
Qed.

Lemma tcp_accept_outcome_witness :
  let r := tcp_accept_handler 1 env_ok 0 tunnel_one in
  let ret := fst (fst r) in
  let st' := snd (fst r) in
  (ret = ERR_OK <->
   0 = ERR_OK /\ run tunnel_one = true /\ session env_ok <> 0 /\
   task_data env_ok <> 0 /\ item_ok env_ok = true /\
   ThreadPool.queue_size (base (thread_pool tunnel_one))
   < ThreadPool.MAX_QUEUE_SIZE) /\
  (ret = ERR_OK ->
   queue (thread_pool st')
   = queue (thread_pool tunnel_one)
     ++ [{| task := 1; data := task_data env_ok |}] /\
   session_list (sessions st')
   = (if node_ok env_ok
      then session_list (sessions tunnel_one) ++ [session env_ok]
      else session_list (sessions tunnel_one))) /\
  (ret <> ERR_OK ->
   session_list (sessions st') = session_list (sessions tunnel_one) /\
   session_count (sessions st') = session_count (sessions tunnel_one) /\
   thread_pool st' = thread_pool tunnel_one).
Proof.
  apply (tcp_accept_outcome 1 env_ok 0 tunnel_one).
  - discriminate.
  - vm_compute. intros H. inversion H as [|? ? ? H1]; inversion H1.
Defined.

(** X16 (a session that ends).  When [tcp_accept_handler] has returned
    [ERR_OK] for a session that was not registered before, and
    [session_task_wrapper] later runs its task, the session is run once and
    the session list and counter are back to what they were before the
    connection was accepted. *)
Theorem session_leaves_no_trace wrapper env err st :
  session env ∉ session_list (sessions st) ->
  fst (fst (tcp_accept_handler wrapper env err st)) = ERR_OK ->
  let st1 := snd (fst (tcp_accept_handler wrapper env err st)) in
  let r := session_task_wrapper (task_data env) (session env) st1 in
  snd r = [EvRunSession (session env); EvFree (task_data env)] /\
  session_list (sessions (fst r)) = session_list (sessions st) /\
  session_count (sessions (fst r)) = session_count (sessions st).
Proof.
  intros Hfresh Hok. cbv zeta. unfold session_task_wrapper. cbn [fst snd sessions].
  split; [reflexivity|].
  unfold tcp_accept_handler, ERR_OK in *.
  destruct (negb (err =? 0)) eqn:He; cbn [fst snd] in *.
  { subst err. discriminate. }
  destruct (negb (run st)); cbn [fst snd] in *; [discriminate|].
  destruct (session env =? 0); cbn [fst snd] in *; [discriminate|].
  destruct (task_data env =? 0); cbn [fst snd] in *; [discriminate|].
  destruct (fst (hev_thread_pool_submit _ _ _ _) <? 0);
    cbn [fst snd sessions] in *; [discriminate|].
  exact (insert_remove_fresh _ _ _ _ Hfresh).
Qed.

Lemma session_leaves_no_trace_witness :
  let st1 := snd (fst (tcp_accept_handler 1 env_ok 0 tunnel_one)) in
  let r := session_task_wrapper (task_data env_ok) (session env_ok) st1 in
  session_list (sessions st1) = [4096; 8192] /\
  snd r = [EvRunSession (session env_ok); EvFree (task_data env_ok)] /\
  session_list (sessions (fst r)) = session_list (sessions tunnel_one) /\
  session_count (sessions (fst r)) = session_count (sessions tunnel_one).
Proof.
  split; [reflexivity|].
  apply (session_leaves_no_trace 1 env_ok 0 tunnel_one).
  - vm_compute. intros H. inversion H as [|? ? ? H1]; inversion H1.
  - reflexivity.
Defined.

(** X17 (a datagram's buffers).  On every path of [udp_recv_handler] the
    received packet buffer is freed exactly once.  The control block is
    handed over to a session task, and then not removed, or it is removed
    exactly once and the pool is left as it was. *)
Theorem udp_datagram_resources wrapper denv env pcb p port st :
  reply denv <> p ->
  let r := udp_recv_handler wrapper denv env pcb p port st in
  occurrences (frees_pbuf p) (snd r) = 1%nat /\
  ((occurrences (removes_pcb pcb) (snd r) = 0%nat /\
    queue (thread_pool (fst r))
    = queue (thread_pool st) ++ [{| task := wrapper; data := task_data env |}])
   \/
   (occurrences (removes_pcb pcb) (snd r) = 1%nat /\
    thread_pool (fst r) = thread_pool st)).
Proof.
  intros Hreply. cbv zeta. unfold udp_recv_handler.
  assert (Hp : (p =? p) = true) by apply Z.eqb_refl.
  assert (Hpcb : (pcb =? pcb) = true) by apply Z.eqb_refl.
  assert (Hrp : (reply denv =? p) = false) by (apply Z.eqb_neq; exact Hreply).
  destruct (run st); cbn [negb fst snd].
  2:{ cbn [occurrences frees_pbuf removes_pcb]. rewrite Hp, Hpcb. auto. }
  destruct (dns denv && addr_v4 denv && _); cbn [fst snd].
  { destruct (reply denv =? 0); [|destruct (res denv >? 0)];
      cbn [app occurrences frees_pbuf removes_pcb];
      rewrite ?Hp, ?Hrp, ?Hpcb; auto. }
  destruct (session env =? 0); cbn [fst snd].
  { cbn [occurrences frees_pbuf removes_pcb]. rewrite Hp, Hpcb. auto. }
  destruct (task_data env =? 0); cbn [fst snd].
  { cbn [occurrences frees_pbuf removes_pcb]. rewrite Hp, Hpcb. auto. }
  unfold hev_thread_pool_submit.
  destruct (wrapper =? 0);
    [|destruct (negb (item_ok env));
      [|destruct (ThreadPool.queue_size _ >=? _)]];
    cbn [fst snd thread_pool queue Z.ltb Z.compare];
    cbn [occurrences frees_pbuf removes_pcb]; rewrite ?Hp, ?Hpcb; auto.
Qed.

Lemma udp_datagram_resources_witness :
  let r := udp_recv_handler 1 no_dns env_ok 20480 24576 53 tunnel_one in
  occurrences (frees_pbuf 24576) (snd r) = 1%nat /\
  ((occurrences (removes_pcb 20480) (snd r) = 0%nat /\
    queue (thread_pool (fst r))
    = queue (thread_pool tunnel_one)
      ++ [{| task := 1; data := task_data env_ok |}])
   \/
   (occurrences (removes_pcb 20480) (snd r) = 1%nat /\
    thread_pool (fst r) = thread_pool tunnel_one)).
Proof.
  apply (udp_datagram_resources 1 no_dns env_ok 20480 24576 53 tunnel_one).
  discriminate.
Defined.

End SessionTasks.

(** ** The buffer pool and its clients: further facts on
       src/hev-memory-pool.c *)

Module PoolClients.

Import MemoryPool.

(** The client's ledger after a sequence of calls: the buffers it holds,
    latest first.  [None] when the sequence frees a buffer of the pool that
    the client does not hold. *)
Fixpoint ledger (calls : list call) (pool : HevMemoryPool) (held : list Z)
  : option (list Z) :=
  match calls with
  | [] => Some held
  | c :: rest =>
      match ledger_step pool held c with
      | None => None
      | Some held' => ledger rest (step pool c) held'
      end
  end.

(** The largest value [allocated] takes in the course of the calls. *)
Fixpoint high_water (calls : list call) (pool : HevMemoryPool) : Z :=
  match calls with
  | [] => allocated pool
  | c :: rest => Z.max (allocated pool) (high_water rest (step pool c))
  end.

(** What [hev_memory_pool_destroy] passes to [free] for the buffer table:
    every non-null cell below [buffer_count], in order. *)
Definition hev_memory_pool_destroy (pool : HevMemoryPool) : list Z :=
  filter (fun p => p <> 0)
         ((fun i => cell (buffers pool) i)
            <$> seq 0 (Z.to_nat (buffer_count pool))).

(** The buffer table when the first loop of [hev_memory_pool_new] stops, at
    the first failed allocation or at its end, and the pool that the
    constructor hands to [hev_memory_pool_destroy] when it stopped at a
    failure. *)
Fixpoint fill_buffers_until (heap : nat -> Z) (todo : list nat)
    (bufs : list Z) : list Z :=
  match todo with
  | [] => bufs
  | i :: rest =>
      if heap i =? 0 then bufs
      else fill_buffers_until heap rest (<[i := heap i]> bufs)
  end.

Definition pool_at_failure (heap : nat -> Z) (buffer_size buffer_count : Z)
  : HevMemoryPool :=
  let buffer_count :=
    if buffer_count >? POOL_MAX_BUFFERS then POOL_MAX_BUFFERS
    else buffer_count in
  {| buffers := fill_buffers_until heap (seq 0 (Z.to_nat buffer_count))
                  (replicate (Z.to_nat POOL_MAX_BUFFERS) 0);
     free_bitmap := replicate BITMAP_WORDS 0;
     buffer_size := buffer_size; buffer_count := buffer_count;
     allocated := 0; peak_usage := 0 |}.

(** A heap on which the allocation of buffer 2 fails. *)
Definition heap_fails_at_2 (i : nat) : Z :=
  if (i =? 2)%nat then 0 else heap64 i.

(** *** Static parts of the pool *)

Lemma alloc_buffers pool :
  buffers (snd (hev_memory_pool_alloc pool)) = buffers pool.
Proof.
  unfold hev_memory_pool_alloc. cbv zeta.
  destruct (alloc_scan_spec pool
              (seq 0 (Z.to_nat (usize (buffer_count pool + 31) / 32))))
    as [(-> & _)|(i & _ & ->)]; reflexivity.
Qed.

Lemma free_buffers pool p :
  buffers (hev_memory_pool_free pool p) = buffers pool /\
  buffer_count (hev_memory_pool_free pool p) = buffer_count pool.
Proof.
  unfold hev_memory_pool_free. destruct (p =? 0); [auto|].
  destruct (find_buffer _ _ _); auto.
Qed.

Lemma step_static pool c :
  buffers (step pool c) = buffers pool /\
  buffer_count (step pool c) = buffer_count pool.
Proof.
  destruct c as [|ptr]; cbn [step].
  - split; [apply alloc_buffers|apply alloc_buffer_count].
  - apply free_buffers.
Qed.

Lemma run_static calls : forall pool,
  buffers (run calls pool) = buffers pool /\
  buffer_count (run calls pool) = buffer_count pool.
Proof.
  induction calls as [|c calls IH]; intros pool; [auto|].
  cbn [run fold_left]. fold (run calls (step pool c)).
  destruct (IH (step pool c)) as [-> ->]. apply step_static.
Qed.

(** *** The ledger and the invariant *)

Lemma ledger_inv calls : forall pool held held',
  pool_inv pool held -> ledger calls pool held = Some held' ->
  pool_inv (run calls pool) held'.
Proof.
  induction calls as [|c calls IH]; intros pool held held' Hinv Hl.
  - injection Hl as <-. exact Hinv.
  - cbn [ledger] in Hl.
    destruct (ledger_step pool held c) as [h|] eqn:Hstep; [|discriminate].
    cbn [run fold_left]. apply (IH _ h); [|exact Hl].
    apply (step_inv pool held c h); assumption.
Qed.

Lemma held_nonnull pool held p : pool_inv pool held -> p ∈ held -> p <> 0.
Proof.
  intros Hinv Hp. apply (inv_link _ _ Hinv) in Hp as (idx & Hidx & <- & _).
  exact (inv_nonnull _ _ Hinv idx Hidx).
Qed.

(** A buffer taken and given back at once leaves the client's ledger as it
    was. *)
Lemma alloc_free_inv pool held :
  pool_inv pool held ->
  let a := hev_memory_pool_alloc pool in
  fst a <> 0 ->
  pool_inv (hev_memory_pool_free (snd a) (fst a)) held.
Proof.
  intros Hinv a Hnz.
  destruct (alloc_inv pool held Hinv) as [(H0 & _)|(_ & Hout & _ & _ & Hinv' & _)];
    fold a in H0 || fold a in Hout, Hinv'; [contradiction|].
  pose proof (free_inv _ _ (fst a) Hinv' ltac:(left)) as Hfree.
  rewrite filter_cons in Hfree.
  destruct (decide (fst a <> fst a)) as [Hne|_]; [congruence|].
  rewrite (filter_out_absent held (fst a) Hout) in Hfree. exact Hfree.
Qed.



(** *** The peak *)

Lemma step_peak pool held c held' :
  pool_inv pool held -> ledger_step pool held c = Some held' ->
  peak_usage (step pool c)
  = Z.max (peak_usage pool) (allocated (step pool c)).
Proof.
  intros Hinv Hstep.
  pose proof (step_inv pool held c held' Hinv Hstep) as Hinv'.
  pose proof (inv_peak _ _ Hinv) as Hpk.
  pose proof (inv_peak _ _ Hinv') as Hpk'.
  destruct c as [|ptr]; cbn [step] in *.
  - unfold hev_memory_pool_alloc in *. cbv zeta in *.
    destruct (alloc_scan_spec pool
                (seq 0 (Z.to_nat (usize (buffer_count pool + 31) / 32))))
      as [(Hr & _)|(i & Hw & Hr)]; rewrite Hr in *; cbn [snd] in *; [lia|].
    unfold claim in *. cbn [snd peak_usage allocated] in *.
    destruct (Z.gtb_spec (usize (allocated pool + 1)) (peak_usage pool)); lia.
  - unfold hev_memory_pool_free in *.
    destruct (ptr =? 0); [lia|].
    destruct (find_buffer _ _ _); [|lia].
    cbn [peak_usage allocated] in *. lia.
Qed.

Lemma high_water_lower calls : forall pool,
  allocated pool <= high_water calls pool.
Proof. destruct calls; intros pool; cbn [high_water]; lia. Qed.

Lemma run_peak calls : forall pool held held',
  pool_inv pool held -> ledger calls pool held = Some held' ->
  peak_usage (run calls pool)
  = Z.max (peak_usage pool) (high_water calls pool).
Proof.
  induction calls as [|c calls IH]; intros pool held held' Hinv Hl.
  - cbn [run fold_left high_water]. pose proof (inv_peak _ _ Hinv). lia.
  - cbn [ledger] in Hl.
    destruct (ledger_step pool held c) as [h|] eqn:Hstep; [|discriminate].
    cbn [run fold_left high_water]. fold (run calls (step pool c)).
    rewrite (IH _ h held' (step_inv _ _ _ _ Hinv Hstep) Hl).
    rewrite (step_peak _ _ _ _ Hinv Hstep).
    pose proof (high_water_lower calls (step pool c)).
    pose proof (inv_peak _ _ Hinv). lia.
Qed.

(** *** The constructor's failure path *)

Lemma fill_buffers_until_agrees heap : forall todo bufs out,
  fill_buffers heap todo bufs = Some out ->
  fill_buffers_until heap todo bufs = out.
Proof.
  induction todo as [|i todo IH]; intros bufs out Hfill; cbn in *.
  - congruence.
  - destruct (heap i =? 0); [discriminate|]. apply IH. exact Hfill.
Qed.

Lemma fill_buffers_none heap : forall todo bufs,
  fill_buffers heap todo bufs = None <-> exists i, i ∈ todo /\ heap i = 0.
Proof.
  induction todo as [|i todo IH]; intros bufs; cbn [fill_buffers].
  - split; [discriminate|]. intros (i & Hi & _). inversion Hi.
  - destruct (Z.eqb_spec (heap i) 0) as [H0|Hnz].
    + split; [|reflexivity]. intros _. exists i. split; [left|exact H0].
    + rewrite IH. split.
      * intros (j & Hj & Hz). exists j. split; [right; exact Hj|exact Hz].
      * intros (j & Hj & Hz). apply elem_of_cons in Hj as [->|Hj];
          [contradiction|]. exists j. auto.
Qed.

Lemma fill_until_cells heap n : forall k bufs stop,
  (k + n <= length bufs)%nat ->
  (k <= stop)%nat -> (stop < k + n)%nat -> heap stop = 0 ->
  (forall i, (k <= i < stop)%nat -> heap i <> 0) ->
  forall j, cell (fill_buffers_until heap (seq k n) bufs) j
            = if decide (k <= j < stop)%nat then heap j else cell bufs j.
Proof.
  induction n as [|n IH]; intros k bufs stop Hlen Hk Hstop Hz Hnz j; [lia|].
  cbn [seq fill_buffers_until].
  destruct (Z.eqb_spec (heap k) 0) as [H0|Hk0].
  - assert (stop = k).
    { destruct (decide (stop = k)) as [|Hne]; [assumption|].
      exfalso. apply (Hnz k); [lia|exact H0]. }
    subst stop. destruct (decide (k <= j < k)%nat); [lia|reflexivity].
  - assert (k <> stop) by (intros ->; contradiction).
    rewrite (IH (S k) _ stop); try lia; try assumption.
    + rewrite cell_insert by lia.
      destruct (decide (S k <= j < stop)%nat) as [Hin|Hout].
      * destruct (decide (k <= j < stop)%nat); [reflexivity|lia].
      * destruct (decide (j = k)) as [->|Hne].
        -- destruct (decide (k <= k < stop)%nat); [reflexivity|lia].
        -- destruct (decide (k <= j < stop)%nat); [lia|reflexivity].
    + rewrite length_insert. lia.
    + intros i Hi. apply Hnz. lia.
Qed.

Lemma clamped_count count :
  0 <= count ->
  (if count >? POOL_MAX_BUFFERS then POOL_MAX_BUFFERS else count)
  = Z.min count POOL_MAX_BUFFERS.
Proof. intros _. destruct (Z.gtb_spec count POOL_MAX_BUFFERS); lia. Qed.

Lemma filter_nonzero_all (f : nat -> Z) (l : list nat) :
  (forall i, i ∈ l -> f i <> 0) ->
  filter (fun p => p <> 0) (f <$> l) = f <$> l.
Proof.
  induction l as [|x l IH]; intros Hall; [reflexivity|].
  cbn [fmap list_fmap]. rewrite filter_cons.
  destruct (decide (f x <> 0)) as [_|Hz].
  - f_equal. apply IH. intros i Hi. apply Hall. right. exact Hi.
  - exfalso. apply Hz, Hall. left.
Qed.

Lemma filter_nonzero_none (f : nat -> Z) (l : list nat) :
  (forall i, i ∈ l -> f i = 0) ->
  filter (fun p => p <> 0) (f <$> l) = [].
Proof.
  induction l as [|x l IH]; intros Hall; [reflexivity|].
  cbn [fmap list_fmap]. rewrite filter_cons.
  destruct (decide (f x <> 0)) as [Hnz|_].
  - exfalso. apply Hnz, Hall. left.
  - apply IH. intros i Hi. apply Hall. right. exact Hi.
Qed.

(** *** The pool, as its clients see it *)

(** X18 (exclusive buffers).  Take the pool returned by the constructor and
    any sequence of allocate and free calls, one after the other, in which
    no buffer is freed twice.  The buffers the client holds are pairwise
    distinct buffers of the pool, and [allocated] is their number.  The next
    allocate returns NULL exactly when all the buffers of the pool are
    held; otherwise it returns a buffer of the pool that is not held. *)
Theorem allocate_is_exclusive struct_ok heap size count pool0 calls held :
  0 <= count ->
  hev_memory_pool_new struct_ok heap size count = Some pool0 ->
  heap_distinct heap (Z.to_nat (buffer_count pool0)) ->
  ledger calls pool0 [] = Some held ->
  let pool := run calls pool0 in
  let p := fst (hev_memory_pool_alloc pool) in
  NoDup held /\
  allocated pool = Z.of_nat (length held) /\
  (forall q, q ∈ held ->
     exists i, Z.of_nat i < buffer_count pool0 /\ q = heap i) /\
  (p = 0 <-> Z.of_nat (length held) = buffer_count pool0) /\
  (p <> 0 ->
   (p ∉ held) /\ exists i, Z.of_nat i < buffer_count pool0 /\ p = heap i).
Proof.
  intros Hcount Hnew Hdist Hl pool p. subst p.
  destruct (new_inv _ _ _ _ _ Hcount Hnew Hdist) as [Hinv0 _].
  destruct (new_ok _ _ _ _ _ Hcount Hnew) as (_ & _ & _ & _ & Hheap).
  pose proof (ledger_inv calls pool0 [] held Hinv0 Hl) as Hinv. fold pool in Hinv.
  destruct (run_static calls pool0) as [Hb Hc]. fold pool in Hb, Hc.
  assert (Hin : forall h q, pool_inv pool h -> q ∈ h ->
            exists i, Z.of_nat i < buffer_count pool0 /\ q = heap i).
  { intros h q Hh Hq. apply (inv_link _ _ Hh) in Hq as (i & Hi & Hq & _).
    exists i. rewrite Hc in Hi. split; [exact Hi|].
    rewrite <- Hq, Hb. apply Hheap. exact Hi. }
  split; [exact (inv_held_nodup _ _ Hinv)|].
  split; [exact (inv_held_count _ _ Hinv)|].
  split; [intros q Hq; exact (Hin held q Hinv Hq)|].
  pose proof (inv_held_count _ _ Hinv) as Hn.
  destruct (alloc_inv pool held Hinv)
    as [(H0 & _ & Hfull)|(Hnz & Hout & Hroom & _ & Hinv' & _)].
  - split; [split; [intros _; lia|intros _; exact H0]|]. contradiction.
  - split; [split; [contradiction|lia]|].
    intros _. split; [exact Hout|].
    assert (Hbufs' : buffers (snd (hev_memory_pool_alloc pool)) = buffers pool)
      by apply alloc_buffers.
    pose proof (proj1 (inv_link _ _ Hinv' _) ltac:(left)) as (i & Hi & Hq & _).
    rewrite alloc_buffer_count, Hc in Hi. exists i. split; [exact Hi|].
    rewrite <- Hq, Hbufs', Hb. apply Hheap. exact Hi.
Qed.

Lemma allocate_is_exclusive_witness :
  let calls := [Allocate; Allocate; Release 64; Allocate; Allocate; Allocate] in
  let held := [256; 192; 64; 128] in
  let pool := run calls pool4 in
  let p := fst (hev_memory_pool_alloc pool) in
  p = 0 /\
  (NoDup held /\
   allocated pool = Z.of_nat (length held) /\
   (forall q, q ∈ held ->
      exists i, Z.of_nat i < buffer_count pool4 /\ q = heap64 i) /\
   (p = 0 <-> Z.of_nat (length held) = buffer_count pool4) /\
   (p <> 0 ->
    (p ∉ held) /\ exists i, Z.of_nat i < buffer_count pool4 /\ p = heap64 i)).
Proof.
  split; [vm_compute; reflexivity|].
  apply (allocate_is_exclusive true heap64 2048 4 pool4
           [Allocate; Allocate; Release 64; Allocate; Allocate; Allocate]
           [256; 192; 64; 128]).
  - lia.
  - vm_compute. reflexivity.
  - intros i j _ _. unfold heap64. lia.
  - vm_compute. reflexivity.
Defined.

(** X19 (the peak is the high-water mark).  For the pool returned by the
    constructor and any such sequence of calls, [peak_usage] is the largest
    value that [allocated] has taken in the course of the calls. *)
Theorem peak_is_high_water struct_ok heap size count pool0 calls held :
  0 <= count ->
  hev_memory_pool_new struct_ok heap size count = Some pool0 ->
  heap_distinct heap (Z.to_nat (buffer_count pool0)) ->
  ledger calls pool0 [] = Some held ->
  snd (hev_memory_pool_get_stats (run calls pool0)) = high_water calls pool0.
Proof.
  intros Hcount Hnew Hdist Hl.
  destruct (new_inv _ _ _ _ _ Hcount Hnew Hdist) as [Hinv0 _].
  unfold hev_memory_pool_get_stats. cbn [snd].
  rewrite (run_peak calls pool0 [] held Hinv0 Hl).
  pose proof (high_water_lower calls pool0).
  pose proof (inv_peak _ _ Hinv0). pose proof (inv_allocated_range _ _ Hinv0).
  assert (peak_usage pool0 = 0).
  { unfold hev_memory_pool_new in Hnew. destruct (negb struct_ok); [discriminate|].
    destruct (fill_buffers _ _ _); [|discriminate].
    injection Hnew as <-. reflexivity. }
  lia.
Qed.

Lemma peak_is_high_water_witness :
  let calls := [Allocate; Allocate; Release 64; Release 128; Allocate] in
  high_water calls pool4 = 2 /\
  snd (hev_memory_pool_get_stats (run calls pool4)) = high_water calls pool4.
Proof.
  split; [vm_compute; reflexivity|].
  apply (peak_is_high_water true heap64 2048 4 pool4
           [Allocate; Allocate; Release 64; Release 128; Allocate] [64]).
  - lia.
  - vm_compute. reflexivity.
  - intros i j _ _. unfold heap64. lia.
  - vm_compute. reflexivity.
Defined.

(** X20 (failure of the constructor).  [hev_memory_pool_new] returns NULL
    exactly when the allocation of the structure fails or one of the first
    [min (buffer_count, 2048)] buffer allocations fails.  In the second
    case the pool it destroys before returning holds the buffers obtained
    before the failure and NULL everywhere else, so that those buffers, and
    only those, are freed, each once. *)
Theorem pool_new_fails_cleanly struct_ok heap size count :
  0 <= count ->
  let n := Z.to_nat (Z.min count POOL_MAX_BUFFERS) in
  (hev_memory_pool_new struct_ok heap size count = None <->
   struct_ok = false \/ exists i, (i < n)%nat /\ heap i = 0) /\
  (forall stop,
     (stop < n)%nat -> heap stop = 0 ->
     (forall i, (i < stop)%nat -> heap i <> 0) ->
     hev_memory_pool_destroy (pool_at_failure heap size count)
     = heap <$> seq 0 stop).
Proof.
  intros Hcount n. split.
  - unfold hev_memory_pool_new. rewrite (clamped_count count Hcount). fold n.
    destruct struct_ok; cbn [negb].
    + destruct (fill_buffers heap (seq 0 n) _) as [out|] eqn:Hfill.
      * split; [discriminate|]. intros [Hf|(i & Hi & Hz)]; [discriminate|].
        exfalso.
        assert (Hnone : fill_buffers heap (seq 0 n)
                          (replicate (Z.to_nat POOL_MAX_BUFFERS) 0) = None).
        { apply fill_buffers_none. exists i. split; [|exact Hz].
          apply elem_of_seq. lia. }
        congruence.
      * split; [|reflexivity]. intros _. right.
        apply fill_buffers_none in Hfill as (i & Hi & Hz).
        apply elem_of_seq in Hi. exists i. split; [lia|exact Hz].
    + split; [intros _; left; reflexivity|reflexivity].
  - intros stop Hstop Hz Hnz.
    unfold hev_memory_pool_destroy, pool_at_failure.
    cbn [buffers buffer_count]. rewrite (clamped_count count Hcount). fold n.
    assert (Hcells : forall j,
      cell (fill_buffers_until heap (seq 0 n)
              (replicate (Z.to_nat POOL_MAX_BUFFERS) 0)) j
      = if decide (j < stop)%nat then heap j else 0).
    { intros j. rewrite (fill_until_cells heap n 0 _ stop); try assumption;
        try lia.
      - destruct (decide (0 <= j < stop)%nat), (decide (j < stop)%nat);
          try lia; try reflexivity.
        unfold cell. destruct (_ !! j) as [x|] eqn:Hx; [|reflexivity].
        apply lookup_replicate in Hx as [-> _]. reflexivity.
      - rewrite length_replicate. unfold POOL_MAX_BUFFERS in *. lia.
      - intros i Hi. apply Hnz. lia. }
    set (table := fill_buffers_until heap (seq 0 n) _) in *.
    replace n with (stop + (n - stop))%nat by lia.
    rewrite seq_app, fmap_app, filter_app.
    rewrite (list_fmap_ext _ heap (seq 0 stop)).
    2:{ intros i x Hx. apply lookup_seq in Hx as [-> Hi]. rewrite Hcells.
        destruct (decide (0 + i < stop)%nat); [reflexivity|lia]. }
    rewrite (filter_nonzero_all heap).
    2:{ intros i Hi. apply elem_of_seq in Hi. apply Hnz. lia. }
    rewrite filter_nonzero_none; [apply app_nil_r|].
    intros i Hi. apply elem_of_seq in Hi. rewrite Hcells.
    destruct (decide (i < stop)%nat); [lia|reflexivity].
Qed.

Lemma pool_new_fails_cleanly_witness :
  let n := Z.to_nat (Z.min 4 POOL_MAX_BUFFERS) in
  (hev_memory_pool_new true heap_fails_at_2 2048 4 = None <->
   true = false \/ exists i, (i < n)%nat /\ heap_fails_at_2 i = 0) /\
  (forall stop,
     (stop < n)%nat -> heap_fails_at_2 stop = 0 ->
     (forall i, (i < stop)%nat -> heap_fails_at_2 i <> 0) ->
     hev_memory_pool_destroy (pool_at_failure heap_fails_at_2 2048 4)
     = heap_fails_at_2 <$> seq 0 stop).
Proof.
  apply (pool_new_fails_cleanly true heap_fails_at_2 2048 4). lia.
Defined.

End PoolClients.

(** ** Batched TUN I/O on pool buffers: src/hev-tunnel-io-enhanced.c *)

Module EnhancedIO.

Import MemoryPool PoolClients.

Definition BATCH_SIZE : Z := 32.
Definition EAGAIN : Z := 11.
Definition EWOULDBLOCK : Z := 11.

Inductive HevIOMode : Type :=
  | HEV_IO_MODE_STANDARD
  | HEV_IO_MODE_BATCH
  | HEV_IO_MODE_ZEROCOPY
  | HEV_IO_MODE_IOV.

Record HevTunnelIOStats := mkStats {
  bytes_read : Z;             (* uint64_t, like all of them *)
  bytes_written : Z;
  packets_read : Z;
  packets_written : Z;
  batches_processed : Z;
  zero_copy_operations : Z;
  errors : Z
}.

Record HevTunnelIOEnhanced := mkEnhanced {
  tun_fd : Z;
  mode : HevIOMode;
  buffer_pool : HevMemoryPool;
  stats : HevTunnelIOStats;
  pipe_fds : Z * Z
}.

Definition zero_stats : HevTunnelIOStats :=
  {| bytes_read := 0; bytes_written := 0; packets_read := 0;
     packets_written := 0; batches_processed := 0;
     zero_copy_operations := 0; errors := 0 |}.

Definition set_pool (io : HevTunnelIOEnhanced) (p : HevMemoryPool)
  : HevTunnelIOEnhanced :=
  {| tun_fd := tun_fd io; mode := mode io; buffer_pool := p;
     stats := stats io; pipe_fds := pipe_fds io |}.

Definition set_stats (io : HevTunnelIOEnhanced) (s : HevTunnelIOStats)
  : HevTunnelIOEnhanced :=
  {| tun_fd := tun_fd io; mode := mode io; buffer_pool := buffer_pool io;
     stats := s; pipe_fds := pipe_fds io |}.

Definition count_error (io : HevTunnelIOEnhanced) : HevTunnelIOEnhanced :=
  let s := stats io in
  set_stats io
    {| bytes_read := bytes_read s; bytes_written := bytes_written s;
       packets_read := packets_read s; packets_written := packets_written s;
       batches_processed := batches_processed s;
       zero_copy_operations := zero_copy_operations s;
       errors := u64 (errors s + 1) |}.

Definition count_read (io : HevTunnelIOEnhanced) (n : Z)
  : HevTunnelIOEnhanced :=
  let s := stats io in
  set_stats io
    {| bytes_read := u64 (bytes_read s + n); bytes_written := bytes_written s;
       packets_read := u64 (packets_read s + 1);
       packets_written := packets_written s;
       batches_processed := batches_processed s;
       zero_copy_operations := zero_copy_operations s;
       errors := errors s |}.

Definition count_written (io : HevTunnelIOEnhanced) (n : Z)
  : HevTunnelIOEnhanced :=
  let s := stats io in
  set_stats io
    {| bytes_read := bytes_read s; bytes_written := u64 (bytes_written s + n);
       packets_read := packets_read s;
       packets_written := u64 (packets_written s + 1);
       batches_processed := batches_processed s;
       zero_copy_operations := zero_copy_operations s;
       errors := errors s |}.

Definition count_batch (io : HevTunnelIOEnhanced) : HevTunnelIOEnhanced :=
  let s := stats io in
  set_stats io
    {| bytes_read := bytes_read s; bytes_written := bytes_written s;
       packets_read := packets_read s; packets_written := packets_written s;
       batches_processed := u64 (batches_processed s + 1);
       zero_copy_operations := zero_copy_operations s;
       errors := errors s |}.

(** [hev_tunnel_io_enhanced_new].  The flags and [heap] are the answers of
    the allocator for the structure, for the pool structure and for the
    pool's buffers; [pipe] is the pair of descriptors made by [pipe2], or
    [None] when it fails. *)
Definition hev_tunnel_io_enhanced_new (struct_ok pool_struct_ok : bool)
    (heap : nat -> Z) (pipe : option (Z * Z)) (fd : Z) (m : HevIOMode)
  : option HevTunnelIOEnhanced :=
  if fd <? 0 then None
  else if negb struct_ok then None
  else
    match hev_memory_pool_new pool_struct_ok heap 2048 1024 with
    | None => None
    | Some p =>
        let io := {| tun_fd := fd; mode := m; buffer_pool := p;
                     stats := zero_stats; pipe_fds := (-1, -1) |} in
        match m with
        | HEV_IO_MODE_ZEROCOPY =>
            match pipe with
            | None => None
            | Some fds =>
                Some {| tun_fd := fd; mode := m; buffer_pool := p;
                        stats := zero_stats; pipe_fds := fds |}
            end
        | _ => Some io
        end
    end.

(** The TUN device during a batch: the return value and [errno] of the
    [read], or [write], of loop iteration [i]. *)
Definition device := nat -> Z * Z.

(** The loop of [hev_tunnel_io_enhanced_read_batch] over the iterations
    [todo]: the engine afterwards and the cells [buffers[i]], [sizes[i]] it
    filled, first cell first. *)
Fixpoint read_loop (dev : device) (todo : list nat) (io : HevTunnelIOEnhanced)
  : HevTunnelIOEnhanced * list (Z * Z) :=
  match todo with
  | [] => (io, [])
  | i :: rest =>
      let a := hev_memory_pool_alloc (buffer_pool io) in
      let buf := fst a in
      if buf =? 0 then (set_pool io (snd a), [])
      else
        let n := fst (dev i) in
        let errno := snd (dev i) in
        if n <? 0 then
          let io1 := set_pool io (hev_memory_pool_free (snd a) buf) in
          if (errno =? EAGAIN) || (errno =? EWOULDBLOCK) then (io1, [])
          else (count_error io1, [])
        else if n =? 0 then
          (set_pool io (hev_memory_pool_free (snd a) buf), [])
        else
          let r := read_loop dev rest (count_read (set_pool io (snd a)) n) in
          (fst r, (buf, n) :: snd r)
  end.

(** [hev_tunnel_io_enhanced_read_batch] with non-null arguments: the value
    returned, the engine, and the cells written. *)
Definition hev_tunnel_io_enhanced_read_batch (dev : device)
    (io : HevTunnelIOEnhanced) (max_count : Z)
  : Z * HevTunnelIOEnhanced * list (Z * Z) :=
  if max_count <=? 0 then (-1, io, [])
  else
    let r := read_loop dev (seq 0 (Z.to_nat max_count)) io in
    let count := Z.of_nat (length (snd r)) in
    (count, if count >? 0 then count_batch (fst r) else fst r, snd r).

(** The loop of [hev_tunnel_io_enhanced_write_batch] from iteration [i] on:
    the engine afterwards and the number of packets written. *)
Fixpoint write_loop (dev : device) (i : nat) (batch : list (Z * Z))
    (io : HevTunnelIOEnhanced) : HevTunnelIOEnhanced * nat :=
  match batch with
  | [] => (io, 0%nat)
  | (buf, size) :: rest =>
      let n := fst (dev i) in
      let errno := snd (dev i) in
      if n <? 0 then
        if (errno =? EAGAIN) || (errno =? EWOULDBLOCK) then (io, 0%nat)
        else (count_error io, 0%nat)
      else
        let io1 := count_written io n in
        let io2 := set_pool io1 (hev_memory_pool_free (buffer_pool io1) buf) in
        let r := write_loop dev (S i) rest io2 in
        (fst r, S (snd r))
  end.

(** [hev_tunnel_io_enhanced_write_batch] on the cells [batch], [count] being
    their number. *)
Definition hev_tunnel_io_enhanced_write_batch (dev : device)
    (io : HevTunnelIOEnhanced) (batch : list (Z * Z))
  : Z * HevTunnelIOEnhanced :=
  if Z.of_nat (length batch) <=? 0 then (-1, io)
  else
    let r := write_loop dev 0 batch io in
    let written := Z.of_nat (snd r) in
    (written, if written >? 0 then count_batch (fst r) else fst r).

(** [hev_tunnel_io_enhanced_get_stats] and [..._reset_stats]. *)
Definition hev_tunnel_io_enhanced_get_stats (io : HevTunnelIOEnhanced)
  : HevTunnelIOStats := stats io.

Definition hev_tunnel_io_enhanced_reset_stats (io : HevTunnelIOEnhanced)
  : HevTunnelIOEnhanced := set_stats io zero_stats.

(** An engine on the example heap, a device that delivers three packets and
    then has nothing to read, and a device that takes every write. *)
Definition engine : HevTunnelIOEnhanced :=
  Eval vm_compute in
    default (mkEnhanced 0 HEV_IO_MODE_BATCH pool4 zero_stats (-1, -1))
      (hev_tunnel_io_enhanced_new true true heap64 None 3 HEV_IO_MODE_BATCH).

Definition three_packets : device :=
  fun i => if (i <? 3)%nat then (60 + Z.of_nat i, 0) else (-1, EAGAIN).


(** The engine after it has read these three packets. *)
Definition engine_loaded : HevTunnelIOEnhanced :=
  Eval vm_compute in
    snd (fst (hev_tunnel_io_enhanced_read_batch three_packets engine 8)).

Definition loaded_cells : list (Z * Z) := [(64, 60); (128, 61); (192, 62)].

(** A device that takes one packet and then fails with [EIO]. *)
Definition takes_one : device := fun i => if (i <? 1)%nat then (60, 0) else (-1, 5).

(** *** Arithmetic of the counters *)

Lemma u64_add a b : u64 (u64 a + b) = u64 (a + b).
Proof. unfold u64. apply Zplus_mod_idemp_l. Qed.

(** *** The two loops *)

Lemma read_loop_spec dev n : forall k io held,
  pool_inv (buffer_pool io) held ->
  let r := read_loop dev (seq k n) io in
  let cells := snd r in
  pool_inv (buffer_pool (fst r)) (reverse (fst <$> cells) ++ held) /\
  (length cells <= n)%nat /\
  (forall j c, cells !! j = Some c ->
     snd c = fst (dev (k + j)%nat) /\ 0 < snd c) /\
  ((length cells < n)%nat ->
   allocated (buffer_pool (fst r)) = buffer_count (buffer_pool (fst r)) \/
   fst (dev (k + length cells)%nat) <= 0) /\
  buffers (buffer_pool (fst r)) = buffers (buffer_pool io) /\
  buffer_count (buffer_pool (fst r)) = buffer_count (buffer_pool io) /\
  u64 (packets_read (stats (fst r)))
  = u64 (packets_read (stats io) + Z.of_nat (length cells)) /\
  batches_processed (stats (fst r)) = batches_processed (stats io).
Proof.
  induction n as [|n IH]; intros k io held Hinv.
  - cbn [seq read_loop fst snd length fmap list_fmap app]. rewrite ?reverse_nil.
    split; [exact Hinv|]. split; [lia|].
    split; [intros j c Hc; discriminate|]. split; [lia|].
    split; [reflexivity|]. split; [reflexivity|].
    split; [f_equal; cbn; lia|reflexivity].
  - cbn [seq read_loop]. cbv zeta.
    pose proof (alloc_inv _ _ Hinv) as Halloc. cbv zeta in Halloc.
    pose proof (alloc_buffers (buffer_pool io)) as Hbufs.
    pose proof (alloc_buffer_count (buffer_pool io)) as Hcnt.
    destruct (Z.eqb_spec (fst (hev_memory_pool_alloc (buffer_pool io))) 0)
      as [Hnull|Hbuf].
    { destruct Halloc as [(_ & Hsame & Hfull)|(Hnz & _)]; [|contradiction].
      cbn [fst snd set_pool buffer_pool stats length fmap list_fmap app]. rewrite ?reverse_nil.
      rewrite Hsame.
      split; [exact Hinv|]. split; [lia|].
      split; [intros j c Hc; discriminate|].
      split; [intros _; left; exact Hfull|].
      split; [reflexivity|]. split; [reflexivity|].
      split; [f_equal; cbn; lia|reflexivity]. }
    pose proof (alloc_free_inv _ _ Hinv Hbuf) as Hback.
    destruct (free_buffers (snd (hev_memory_pool_alloc (buffer_pool io)))
                           (fst (hev_memory_pool_alloc (buffer_pool io))))
      as [Hfb Hfc].
    assert (Hstopped : forall io1,
      buffer_pool io1
      = hev_memory_pool_free (snd (hev_memory_pool_alloc (buffer_pool io)))
                             (fst (hev_memory_pool_alloc (buffer_pool io))) ->
      packets_read (stats io1) = packets_read (stats io) ->
      batches_processed (stats io1) = batches_processed (stats io) ->
      fst (dev k) <= 0 ->
      pool_inv (buffer_pool io1) ([] ++ held) /\
      (0 <= S n)%nat /\
      (forall j (c : Z * Z), [] !! j = Some c ->
         snd c = fst (dev (k + j)%nat) /\ 0 < snd c) /\
      ((0 < S n)%nat ->
       allocated (buffer_pool io1) = buffer_count (buffer_pool io1) \/
       fst (dev (k + 0)%nat) <= 0) /\
      buffers (buffer_pool io1) = buffers (buffer_pool io) /\
      buffer_count (buffer_pool io1) = buffer_count (buffer_pool io) /\
      u64 (packets_read (stats io1))
      = u64 (packets_read (stats io) + Z.of_nat 0) /\
      batches_processed (stats io1) = batches_processed (stats io)).
    { intros io1 Hp Hpk Hbt Hle. rewrite Hp.
      split; [exact Hback|]. split; [lia|].
      split; [intros j c Hc; discriminate|].
      split; [intros _; right; rewrite Nat.add_0_r; exact Hle|].
      split; [congruence|]. split; [congruence|].
      split; [rewrite Hpk; f_equal; cbn; lia|exact Hbt]. }
    destruct (Z.ltb_spec (fst (dev k)) 0) as [Hneg|Hnonneg].
    { destruct ((snd (dev k) =? EAGAIN) || (snd (dev k) =? EWOULDBLOCK));
        cbn [fst snd length fmap list_fmap]; rewrite ?reverse_nil;
        apply Hstopped; try reflexivity; lia. }
    destruct (Z.eqb_spec (fst (dev k)) 0) as [Hzero|Hpos].
    { cbn [fst snd length fmap list_fmap]. rewrite ?reverse_nil.
      apply Hstopped; try reflexivity; lia. }
    clear Hstopped.
    destruct Halloc as [(Hnull & _)|(_ & Hout & _ & _ & Hinv' & _)];
      [contradiction|].
    match goal with
    | |- context [read_loop dev (seq (S k) n) ?io1] =>
        specialize (IH (S k) io1 _ Hinv');
        set (r := read_loop dev (seq (S k) n) io1) in *
    end.
    cbv zeta in IH.
    destruct IH as (Hpool & Hlen & Hcells & Hstop & Hb & Hc & Hpk & Hbt).
    cbn [fst snd length fmap list_fmap]. rewrite reverse_cons.
    cbn [buffer_pool set_pool count_read set_stats stats packets_read
         batches_processed] in Hb, Hc, Hpk, Hbt.
    split; [rewrite <- app_assoc; exact Hpool|].
    split; [lia|].
    split.
    { intros [|j] c Hc0; cbn in Hc0.
      - injection Hc0 as <-. cbn [snd]. rewrite Nat.add_0_r.
        split; [reflexivity|lia].
      - replace (k + S j)%nat with (S k + j)%nat by lia. apply Hcells, Hc0. }
    split.
    { intros Hlt. replace (k + S (length (snd r)))%nat
        with (S k + length (snd r))%nat by lia.
      apply Hstop. lia. }
    split; [congruence|]. split; [congruence|]. split; [|exact Hbt].
    rewrite Hpk, u64_add. f_equal. lia.
Qed.

Lemma write_loop_spec dev : forall batch i io held,
  pool_inv (buffer_pool io) held ->
  NoDup (fst <$> batch) ->
  (forall c, c ∈ batch -> fst c ∈ held) ->
  let r := write_loop dev i batch io in
  (snd r <= length batch)%nat /\
  ((snd r < length batch)%nat -> fst (dev (i + snd r)%nat) < 0) /\
  buffers (buffer_pool (fst r)) = buffers (buffer_pool io) /\
  buffer_count (buffer_pool (fst r)) = buffer_count (buffer_pool io) /\
  u64 (packets_written (stats (fst r)))
  = u64 (packets_written (stats io) + Z.of_nat (snd r)) /\
  exists held',
    pool_inv (buffer_pool (fst r)) held' /\
    (length held' + snd r = length held)%nat /\
    forall p, p ∈ held' <->
              p ∈ held /\ (p ∉ fst <$> take (snd r) batch).
Proof.
  induction batch as [|[buf size] rest IH]; intros i io held Hinv Hnd Hheld.
  - cbn [write_loop fst snd length take fmap list_fmap].
    split; [lia|]. split; [lia|]. split; [reflexivity|]. split; [reflexivity|].
    split; [f_equal; cbn; lia|].
    exists held. split; [exact Hinv|]. split; [lia|].
    intros p. split; [intros Hp; split; [exact Hp|apply not_elem_of_nil]|tauto].
  - cbn [write_loop]. cbv zeta.
    destruct (Z.ltb_spec (fst (dev i)) 0) as [Hneg|Hok].
    { assert (Hstopped : forall io1,
        buffer_pool io1 = buffer_pool io ->
        packets_written (stats io1) = packets_written (stats io) ->
        (0 <= length ((buf, size) :: rest))%nat /\
        ((0 < length ((buf, size) :: rest))%nat -> fst (dev (i + 0)%nat) < 0) /\
        buffers (buffer_pool io1) = buffers (buffer_pool io) /\
        buffer_count (buffer_pool io1) = buffer_count (buffer_pool io) /\
        u64 (packets_written (stats io1))
        = u64 (packets_written (stats io) + Z.of_nat 0) /\
        exists held',
          pool_inv (buffer_pool io1) held' /\
          (length held' + 0 = length held)%nat /\
          forall p, p ∈ held' <->
                    p ∈ held /\ (p ∉ fst <$> take 0 ((buf, size) :: rest))).
      { intros io1 Hp Hpk. rewrite Hp, Hpk.
        split; [lia|]. split; [intros _; rewrite Nat.add_0_r; exact Hneg|].
        split; [reflexivity|]. split; [reflexivity|].
        split; [f_equal; cbn; lia|].
        exists held. split; [exact Hinv|]. split; [lia|].
        intros p. cbn [take fmap list_fmap].
        split; [intros Hp0; split; [exact Hp0|apply not_elem_of_nil]|tauto]. }
      destruct ((snd (dev i) =? EAGAIN) || (snd (dev i) =? EWOULDBLOCK));
        cbn [fst snd]; apply Hstopped; reflexivity. }
    cbn [fmap list_fmap fst] in Hnd. apply NoDup_cons in Hnd as [Hfirst Hnd].
    assert (Hbuf : buf ∈ held) by (apply (Hheld (buf, size)); left).
    pose proof (free_inv _ _ buf Hinv Hbuf) as Hinv1.
    destruct (free_buffers (buffer_pool io) buf) as [Hfb Hfc].
    match goal with
    | |- context [write_loop dev (S i) rest ?io2] =>
        specialize (IH (S i) io2 (filter (fun q => q <> buf) held));
        set (r := write_loop dev (S i) rest io2) in *
    end.
    cbn [buffer_pool set_pool count_written set_stats stats packets_written] in IH.
    destruct (IH Hinv1 Hnd)
      as (Hlen & Hstop & Hb & Hc & Hpk & held' & Hinv' & Hl' & Hmem).
    { intros c Hc. apply list_elem_of_filter. split.
      - intros Heq. apply Hfirst. apply list_elem_of_fmap. exists c. auto.
      - apply Hheld. right. exact Hc. }
    cbn [fst snd length take fmap list_fmap].
    split; [lia|]. split.
    { intros Hlt. replace (i + S (snd r))%nat with (S i + snd r)%nat by lia.
      apply Hstop. lia. }
    split; [congruence|]. split; [congruence|]. split.
    { rewrite Hpk, u64_add. f_equal. lia. }
    exists held'. split; [exact Hinv'|]. split.
    { rewrite (length_filter_out held buf (inv_held_nodup _ _ Hinv) Hbuf) in Hl'.
      assert (0 < length held)%nat by (destruct held; [inversion Hbuf|simpl; lia]).
      lia. }
    intros p. rewrite Hmem, list_elem_of_filter, not_elem_of_cons. tauto.
Qed.

Lemma engine_inv : pool_inv (buffer_pool engine) [] /\
                   buffer_count (buffer_pool engine) = 1024.
Proof.
  destruct (new_inv true heap64 2048 1024 (buffer_pool engine)) as [Hinv Hc].
  - lia.
  - vm_compute. reflexivity.
  - intros i j _ _. unfold heap64. lia.
  - split; [exact Hinv|]. rewrite Hc. reflexivity.
Qed.

(** *** Batches, as the caller sees them *)

(** X21 (reading a batch).  On an engine whose pool is in order,
    [hev_tunnel_io_enhanced_read_batch] with a positive [max_count] returns
    the number of cells it filled, at most [max_count].  Cell [j] holds the
    length returned by the [j]-th read, which is positive, and a buffer of
    the pool that is not null, was not held before and is in no other cell.
    The pool ends with exactly that many more buffers out: the buffer taken
    for a read that failed or found nothing has gone back.  The batch is
    shorter than [max_count] only when the pool ran out of buffers or a read
    returned nothing or failed.  The packet counter grows by the number of
    cells and the batch counter by one when there is a cell. *)
Theorem read_batch_accounts dev io max_count held :
  pool_inv (buffer_pool io) held ->
  0 < max_count ->
  let r := hev_tunnel_io_enhanced_read_batch dev io max_count in
  let count := fst (fst r) in
  let io' := snd (fst r) in
  let cells := snd r in
  count = Z.of_nat (length cells) /\ 0 <= count <= max_count /\
  (forall j c, cells !! j = Some c ->
     snd c = fst (dev j) /\ 0 < snd c /\ fst c <> 0 /\ (fst c ∉ held)) /\
  NoDup (fst <$> cells) /\
  pool_inv (buffer_pool io') (reverse (fst <$> cells) ++ held) /\
  allocated (buffer_pool io') = allocated (buffer_pool io) + count /\
  (count < max_count ->
   allocated (buffer_pool io') = buffer_count (buffer_pool io') \/
   fst (dev (Z.to_nat count)) <= 0) /\
  u64 (packets_read (stats io'))
  = u64 (packets_read (stats io) + count) /\
  batches_processed (stats io')
  = (if count >? 0 then u64 (batches_processed (stats io) + 1)
     else batches_processed (stats io)).
Proof.
  intros Hinv Hmax. cbv zeta. unfold hev_tunnel_io_enhanced_read_batch.
  destruct (Z.leb_spec max_count 0) as [|_]; [lia|]. cbv zeta.
  pose proof (read_loop_spec dev (Z.to_nat max_count) 0 io held Hinv) as Hspec.
  cbv zeta in Hspec.
  set (r := read_loop dev (seq 0 (Z.to_nat max_count)) io) in *.
  destruct Hspec as (Hpool & Hlen & Hcells & Hstop & _ & _ & Hpk & Hbt).
  cbn [fst snd].
  assert (Hpool' : forall (b : bool),
    buffer_pool (if b then count_batch (fst r) else fst r) = buffer_pool (fst r)).
  { intros []; reflexivity. }
  assert (Hpk' : forall (b : bool),
    packets_read (stats (if b then count_batch (fst r) else fst r))
    = packets_read (stats (fst r))).
  { intros []; reflexivity. }
  rewrite Hpool', Hpk'.
  pose proof (inv_held_nodup _ _ Hpool) as Hnd.
  apply NoDup_app in Hnd as (Hnd1 & Hdisj & _).
  split; [reflexivity|]. split; [lia|]. split.
  { intros j c Hc. destruct (Hcells j c Hc) as [Hn Hpos]. cbn in Hn.
    assert (Hin : fst c ∈ reverse (fst <$> snd r)).
    { apply elem_of_reverse, list_elem_of_fmap. exists c. split; [reflexivity|].
      apply list_elem_of_lookup. eauto. }
    split; [exact Hn|]. split; [exact Hpos|]. split.
    - apply (held_nonnull _ _ _ Hpool). apply elem_of_app. left. exact Hin.
    - apply Hdisj, Hin. }
  split; [rewrite reverse_Permutation in Hnd1; exact Hnd1|].
  split; [exact Hpool|]. split.
  { rewrite (inv_held_count _ _ Hpool), (inv_held_count _ _ Hinv).
    rewrite length_app, length_reverse, length_fmap. lia. }
  split.
  { intros Hlt. rewrite Nat2Z.id. apply Hstop. lia. }
  split; [exact Hpk|].
  destruct (Z.of_nat (length (snd r)) >? 0); cbn [count_batch set_stats stats
    batches_processed]; rewrite Hbt; reflexivity.
Qed.

Lemma read_batch_accounts_witness :
  let r := hev_tunnel_io_enhanced_read_batch three_packets engine 8 in
  let count := fst (fst r) in
  let io' := snd (fst r) in
  let cells := snd r in
  cells = [(64, 60); (128, 61); (192, 62)] /\
  (count = Z.of_nat (length cells) /\ 0 <= count <= 8 /\
   (forall j c, cells !! j = Some c ->
      snd c = fst (three_packets j) /\ 0 < snd c /\ fst c <> 0 /\ (fst c ∉ [])) /\
   NoDup (fst <$> cells) /\
   pool_inv (buffer_pool io') (reverse (fst <$> cells) ++ []) /\
   allocated (buffer_pool io') = allocated (buffer_pool engine) + count /\
   (count < 8 ->
    allocated (buffer_pool io') = buffer_count (buffer_pool io') \/
    fst (three_packets (Z.to_nat count)) <= 0) /\
   u64 (packets_read (stats io'))
   = u64 (packets_read (stats engine) + count) /\
   batches_processed (stats io')
   = (if count >? 0 then u64 (batches_processed (stats engine) + 1)
      else batches_processed (stats engine))).
Proof.
  split; [vm_compute; reflexivity|].
  apply (read_batch_accounts three_packets engine 8 []).
  - exact (proj1 engine_inv).
  - lia.
Defined.

(** X22 (writing a batch).  Given cells whose buffers are distinct and held,
    [hev_tunnel_io_enhanced_write_batch] returns the number of packets
    written, stops at the first write that fails, and gives back to the pool
    exactly the buffers of the packets written: the buffers of the cells
    after these stay out, with their owner. *)
Theorem write_batch_releases dev io batch held :
  pool_inv (buffer_pool io) held ->
  NoDup (fst <$> batch) ->
  (forall c, c ∈ batch -> fst c ∈ held) ->
  batch <> [] ->
  let r := hev_tunnel_io_enhanced_write_batch dev io batch in
  let written := fst r in
  let io' := snd r in
  0 <= written <= Z.of_nat (length batch) /\
  (written < Z.of_nat (length batch) -> fst (dev (Z.to_nat written)) < 0) /\
  allocated (buffer_pool io') = allocated (buffer_pool io) - written /\
  exists held',
    pool_inv (buffer_pool io') held' /\
    forall p, p ∈ held' <->
              p ∈ held /\ (p ∉ fst <$> take (Z.to_nat written) batch).
Proof.
  intros Hinv Hnd Hheld Hne. cbv zeta.
  unfold hev_tunnel_io_enhanced_write_batch.
  destruct (Z.leb_spec (Z.of_nat (length batch)) 0) as [Hz|_].
  { destruct batch; [contradiction|]. simpl in Hz. lia. }
  cbv zeta.
  pose proof (write_loop_spec dev batch 0 io held Hinv Hnd Hheld) as Hspec.
  cbv zeta in Hspec. set (r := write_loop dev 0 batch io) in *.
  destruct Hspec as (Hlen & Hstop & _ & _ & _ & held' & Hinv' & Hl' & Hmem).
  cbn [fst snd].
  assert (Hpool' : forall (b : bool),
    buffer_pool (if b then count_batch (fst r) else fst r) = buffer_pool (fst r)).
  { intros []; reflexivity. }
  rewrite Hpool', Nat2Z.id.
  split; [lia|]. split; [intros Hlt; apply Hstop; lia|]. split.
  { rewrite (inv_held_count _ _ Hinv'), (inv_held_count _ _ Hinv). lia. }
  exists held'. split; [exact Hinv'|exact Hmem].
Qed.

Lemma engine_loaded_inv : pool_inv (buffer_pool engine_loaded) [192; 128; 64].
Proof.
  pose proof (read_loop_spec three_packets 8 0 engine [] (proj1 engine_inv)) as H.
  cbv zeta in H. destruct H as [H _].
  assert (E1 : buffer_pool (fst (read_loop three_packets (seq 0 8) engine))
               = buffer_pool engine_loaded) by (vm_compute; reflexivity).
  assert (E2 : reverse (fst <$> snd (read_loop three_packets (seq 0 8) engine))
               ++ [] = [192; 128; 64]) by (vm_compute; reflexivity).
  rewrite E1, E2 in H. exact H.
Qed.

Lemma write_batch_releases_witness :
  let r := hev_tunnel_io_enhanced_write_batch takes_one engine_loaded
             loaded_cells in
  let written := fst r in
  let io' := snd r in
  written = 1 /\
  (0 <= written <= Z.of_nat (length loaded_cells) /\
   (written < Z.of_nat (length loaded_cells) ->
    fst (takes_one (Z.to_nat written)) < 0) /\
   allocated (buffer_pool io') = allocated (buffer_pool engine_loaded) - written /\
   exists held',
     pool_inv (buffer_pool io') held' /\
     forall p, p ∈ held' <->
               p ∈ [192; 128; 64] /\
               (p ∉ fst <$> take (Z.to_nat written) loaded_cells)).
Proof.
  split; [vm_compute; reflexivity|].
  apply (write_batch_releases takes_one engine_loaded loaded_cells
           [192; 128; 64]).
  - exact engine_loaded_inv.
  - cbn. repeat (apply NoDup_cons; split;
                   [rewrite ?elem_of_cons, elem_of_nil; lia|]).
    apply NoDup_nil_2.
  - intros c Hc. apply list_elem_of_In in Hc. simpl in Hc.
    destruct Hc as [<-|[<-|[<-|[]]]]; cbn;
      rewrite ?elem_of_cons; lia.
  - discriminate.
Defined.



End EnhancedIO.

(** ** The connection pool in use: sequences of calls on
       src/hev-connection-pool.c *)

Module ConnectionPoolUse.

Import ConnectionPool.

(** [hev_connection_pool_destroy]: the descriptors it closes, in slot
    order. *)
Definition hev_connection_pool_destroy (pool : HevConnectionPool) : list Z :=
  filter (fun f => 0 <= f)
         ((fun i => fd (slot pool i)) <$> seq 0 (Z.to_nat (size pool))).

(** The calls a client makes, each with what the operating system answers
    during the call. *)
Inductive pool_call : Type :=
  | Get (env : get_env)
  | Release (t : Z) (fd0 : Z)
  | Remove (fd0 : Z)
  | Cleanup (t : Z).

Definition call_step (pool : HevConnectionPool) (c : pool_call)
  : HevConnectionPool :=
  match c with
  | Get env => snd (hev_connection_pool_get env pool)
  | Release t fd0 => hev_connection_pool_release t pool fd0
  | Remove fd0 => hev_connection_pool_remove pool fd0
  | Cleanup t => hev_connection_pool_cleanup t pool
  end.

Definition call_run (calls : list pool_call) (pool : HevConnectionPool)
  : HevConnectionPool :=
  fold_left call_step calls pool.

(** The values returned by the [get] calls of a sequence, in order. *)
Fixpoint got (calls : list pool_call) (pool : HevConnectionPool) : list Z :=
  match calls with
  | [] => []
  | c :: rest =>
      match c with
      | Get env => fst (hev_connection_pool_get env pool) :: got rest (call_step pool c)
      | _ => got rest (call_step pool c)
      end
  end.

(** How many of these returned a descriptor. *)
Definition served (results : list Z) : Z :=
  Z.of_nat (length (filter (fun f => 0 <= f) results)).

(** [get] found a pooled connection to hand out. *)
Definition hit (env : get_env) (pool : HevConnectionPool) : Prop :=
  0 <= fst (scan env (seq 0 (Z.to_nat (size pool))) (count_request pool)).

(** The slot is one that [cleanup] closes at time [t]. *)
Definition stale (t : Z) (c : HevConnection) : bool :=
  (fd c >=? 0) && negb (in_use c) && (t - last_used c >=? CONN_IDLE_TIMEOUT).

(** A day of a pool of four slots: two connections are opened and returned
    to the pool, both are handed out again, a third is opened while they
    are out, a request fails for want of a socket, two connections come
    back and the pool is cleaned once the first of them has idled for more
    than a minute. *)
Definition env_at (t : Z) (new_fd : Z) : get_env :=
  {| now := t; peek := quiet; socket_ret := new_fd;
     connect_ret := -1; connect_errno := EINPROGRESS |}.

Definition day : list pool_call :=
  [Get (env_at 1000 5); Get (env_at 1001 6); Release 1010 5; Release 1011 6;
   Get (env_at 1020 7); Get (env_at 1021 7); Get (env_at 1022 7);
   Get env_no_socket; Release 1030 6; Release 1050 7; Cleanup 1095].

(** A call that does not give back or drop the descriptor [f]. *)
Definition keeps (f : Z) (c : pool_call) : Prop :=
  match c with
  | Release _ fd0 => fd0 <> f
  | Remove fd0 => fd0 <> f
  | _ => True
  end.

(** How many slots of [todo] [cleanup] closes at time [t]. *)
Definition stale_count (t : Z) (pool : HevConnectionPool) (todo : list nat) : Z :=
  Z.of_nat (length (filter (fun i => stale t (slot pool i) = true) todo)).

(** The pools a client can hold: what the constructor returned, after any
    calls. *)
Definition reachable (pool : HevConnectionPool) : Prop :=
  exists size0 pool0 calls,
    0 <= size0 /\ hev_connection_pool_new true size0 = Some pool0 /\
    pool = call_run calls pool0.

(** The pool of four slots after its first four calls of the day: the
    descriptors 5 and 6 sit idle in slots 0 and 1. *)
Definition morning_pool : HevConnectionPool :=
  call_run (take 4 day) pool_of_4.

(** *** Shape and uniqueness *)

Record conn_inv (pool : HevConnectionPool) : Prop := {
  ci_size : 0 <= size pool <= CONN_POOL_SIZE;
  ci_len : length (conns pool) = Z.to_nat CONN_POOL_SIZE;
  ci_uniq : forall i j,
    (i < Z.to_nat (size pool))%nat -> (j < Z.to_nat (size pool))%nat ->
    0 <= fd (slot pool i) -> fd (slot pool i) = fd (slot pool j) -> i = j
}.

Definition same_shape (p1 p2 : HevConnectionPool) : Prop :=
  size p2 = size p1 /\ length (conns p2) = length (conns p1).

Lemma same_shape_refl p : same_shape p p.
Proof. split; reflexivity. Qed.

Lemma same_shape_trans p1 p2 p3 :
  same_shape p1 p2 -> same_shape p2 p3 -> same_shape p1 p3.
Proof. intros [H1 H2] [H3 H4]. split; congruence. Qed.

Lemma same_shape_set_slot pool i c : same_shape pool (set_slot pool i c).
Proof. split; [reflexivity|]. cbn [set_slot conns]. apply length_insert. Qed.

Lemma scan_shape env : forall todo pool,
  same_shape pool (snd (scan env todo pool)).
Proof.
  induction todo as [|i todo IH]; intros pool; cbn [scan].
  - apply same_shape_refl.
  - destruct (reusable env (slot pool i)); [|apply IH].
    destruct (dead (peek env i)).
    + eapply same_shape_trans; [|apply IH].
      apply (same_shape_set_slot pool i).
    + cbn [snd]. apply (same_shape_set_slot pool i).
Qed.

Lemma get_shape env pool :
  same_shape pool (snd (hev_connection_pool_get env pool)).
Proof.
  unfold hev_connection_pool_get.
  pose proof (scan_shape env (seq 0 (Z.to_nat (size pool))) (count_request pool))
    as Hscan.
  destruct (fst (scan env _ _) <? 0); [|exact Hscan].
  unfold connect_new. destruct (socket_ret env <? 0); [exact Hscan|].
  destruct (_ && _); exact Hscan.
Qed.

Lemma release_shape t pool fd0 :
  same_shape pool (hev_connection_pool_release t pool fd0).
Proof.
  unfold hev_connection_pool_release. destruct (fd0 <? 0); [apply same_shape_refl|].
  destruct (find_fd _ _ _) as [i|]; [apply same_shape_set_slot|].
  destruct (find_empty _ _) as [i|]; [apply same_shape_set_slot|].
  split; reflexivity.
Qed.

Lemma remove_shape pool fd0 :
  same_shape pool (hev_connection_pool_remove pool fd0).
Proof.
  unfold hev_connection_pool_remove. destruct (fd0 <? 0); [apply same_shape_refl|].
  destruct (find_fd _ _ _) as [i|]; [|apply same_shape_refl].
  apply (same_shape_set_slot pool i).
Qed.

Lemma cleanup_shape t pool :
  same_shape pool (hev_connection_pool_cleanup t pool).
Proof.
  unfold hev_connection_pool_cleanup.
  generalize (seq 0 (Z.to_nat (size pool))). intros todo.
  assert (Hgen : forall acc, same_shape pool acc ->
    same_shape pool
      (fold_left
         (fun acc i =>
            let c := slot acc i in
            if (fd c >=? 0) && negb (in_use c)
               && (t - last_used c >=? CONN_IDLE_TIMEOUT)
            then count_eviction (set_slot acc i (evict c)) else acc)
         todo acc)).
  { induction todo as [|i todo IH]; intros acc Hacc; [exact Hacc|].
    cbn [fold_left]. apply IH. cbv zeta.
    destruct (_ && _ && _); [|exact Hacc].
    eapply same_shape_trans; [exact Hacc|apply (same_shape_set_slot acc i)]. }
  apply Hgen, same_shape_refl.
Qed.

Lemma slot_lookup pool i :
  (i < length (conns pool))%nat -> conns pool !! i = Some (slot pool i).
Proof.
  intros Hi. unfold slot. destruct (lookup_lt_is_Some_2 _ _ Hi) as [c ->].
  reflexivity.
Qed.

(** Calls that put no descriptor into a slot keep the descriptors apart. *)
Lemma uniq_shrink before after :
  conn_inv before -> fds_from (-1) before after -> same_shape before after ->
  conn_inv after.
Proof.
  intros [Hsize Hlen Huniq] Hfds [Hs Hl].
  assert (Hfd : forall i, (i < Z.to_nat (size before))%nat ->
            0 <= fd (slot after i) -> fd (slot after i) = fd (slot before i)).
  { intros i Hi Hpos. unfold CONN_POOL_SIZE in *.
    pose proof (slot_lookup after i ltac:(lia)) as Ha.
    destruct (Hfds i _ Ha) as (c & Hc & [Heq|Heq]); [|lia].
    rewrite (slot_lookup before i ltac:(lia)) in Hc. injection Hc as <-.
    exact Heq. }
  constructor; rewrite ?Hs, ?Hl; try assumption.
  intros i j Hi Hj Hpos Heq.
  pose proof (Hfd i Hi Hpos) as Ei.
  pose proof (Hfd j Hj ltac:(lia)) as Ej.
  apply Huniq; try assumption; lia.
Qed.

Lemma find_fd_spec pool fd0 : forall todo,
  match find_fd pool fd0 todo with
  | Some i => i ∈ todo /\ fd (slot pool i) = fd0
  | None => forall j, j ∈ todo -> fd (slot pool j) <> fd0
  end.
Proof.
  induction todo as [|i todo IH]; cbn [find_fd].
  - intros j Hj. inversion Hj.
  - destruct (Z.eqb_spec (fd (slot pool i)) fd0) as [Heq|Hne].
    + split; [left|exact Heq].
    + destruct (find_fd pool fd0 todo) as [k|].
      * destruct IH as [Hk Hfd]. split; [right; exact Hk|exact Hfd].
      * intros j Hj. apply elem_of_cons in Hj as [->|Hj]; [exact Hne|].
        apply IH, Hj.
Qed.

Lemma find_empty_spec pool : forall todo,
  match find_empty pool todo with
  | Some i => i ∈ todo /\ fd (slot pool i) < 0
  | None => forall j, j ∈ todo -> 0 <= fd (slot pool j)
  end.
Proof.
  induction todo as [|i todo IH]; cbn [find_empty].
  - intros j Hj. inversion Hj.
  - destruct (Z.ltb_spec (fd (slot pool i)) 0) as [Hneg|Hpos].
    + split; [left|exact Hneg].
    + destruct (find_empty pool todo) as [k|].
      * destruct IH as [Hk Hfd]. split; [right; exact Hk|exact Hfd].
      * intros j Hj. apply elem_of_cons in Hj as [->|Hj]; [exact Hpos|].
        apply IH, Hj.
Qed.

Lemma slot_set_slot pool i c j :
  (i < length (conns pool))%nat ->
  slot (set_slot pool i c) j = if decide (j = i) then c else slot pool j.
Proof.
  intros Hi. unfold slot. rewrite lookup_set_slot.
  destruct (decide (j = i)) as [->|Hne]; [|reflexivity].
  destruct (lookup_lt_is_Some_2 _ _ Hi) as [c0 ->]. reflexivity.
Qed.

Lemma release_inv t pool fd0 :
  conn_inv pool -> conn_inv (hev_connection_pool_release t pool fd0).
Proof.
  intros Hinv. pose proof Hinv as [Hsize Hlen Huniq].
  unfold hev_connection_pool_release.
  destruct (Z.ltb_spec fd0 0) as [|Hfd0]; [exact Hinv|]. cbv zeta.
  pose proof (find_fd_spec pool fd0 (seq 0 (Z.to_nat (size pool)))) as Hfind.
  destruct (find_fd pool fd0 _) as [i|].
  - destruct Hfind as [Hi Hfd]. apply elem_of_seq in Hi.
    unfold CONN_POOL_SIZE in *.
    constructor; cbn [set_slot size conns]; rewrite ?length_insert;
      try assumption.
    intros a b Ha Hb. rewrite !slot_set_slot by lia.
    destruct (decide (a = i)) as [->|Hai], (decide (b = i)) as [->|Hbi];
      cbn [fd]; intros Hpos Heq; try reflexivity.
    + apply Huniq; try lia; congruence.
    + apply Huniq; try lia; congruence.
    + apply Huniq; assumption.
  - pose proof (find_empty_spec pool (seq 0 (Z.to_nat (size pool)))) as Hempty.
    destruct (find_empty pool _) as [i|];
      [|constructor; [exact Hsize|exact Hlen|exact Huniq]].
    destruct Hempty as [Hi Hneg]. apply elem_of_seq in Hi.
    unfold CONN_POOL_SIZE in *.
    constructor; cbn [set_slot size conns]; rewrite ?length_insert;
      try assumption.
    intros a b Ha Hb. rewrite !slot_set_slot by lia.
    destruct (decide (a = i)) as [->|Hai], (decide (b = i)) as [->|Hbi];
      cbn [fd]; intros Hpos Heq; try reflexivity.
    + exfalso. apply (Hfind b); [apply elem_of_seq; lia|congruence].
    + exfalso. apply (Hfind a); [apply elem_of_seq; lia|congruence].
    + apply Huniq; assumption.
Qed.

Lemma call_step_inv pool c : conn_inv pool -> conn_inv (call_step pool c).
Proof.
  intros Hinv. destruct c as [env|t fd0|fd0|t]; cbn [call_step].
  - exact (uniq_shrink _ _ Hinv (get_fds env pool) (get_shape env pool)).
  - apply release_inv, Hinv.
  - exact (uniq_shrink _ _ Hinv (remove_fds pool fd0) (remove_shape pool fd0)).
  - exact (uniq_shrink _ _ Hinv (cleanup_fds t pool) (cleanup_shape t pool)).
Qed.

Lemma call_run_inv calls : forall pool,
  conn_inv pool -> conn_inv (call_run calls pool).
Proof.
  induction calls as [|c calls IH]; intros pool Hinv; [exact Hinv|].
  cbn [call_run fold_left]. apply IH, call_step_inv, Hinv.
Qed.

(** *** The fresh pool *)

Lemma init_slots n : forall k (l : list HevConnection),
  let l' := fold_left
      (fun acc i =>
         <[i := {| fd := -1;
                   last_used := last_used (default zero_conn (acc !! i));
                   created := created (default zero_conn (acc !! i));
                   in_use := false;
                   use_count := use_count (default zero_conn (acc !! i)) |}]> acc)
      (seq k n) l in
  length l' = length l /\
  forall j, (k <= j < k + n)%nat -> (j < length l)%nat ->
    exists c, l' !! j = Some c /\ fd c = -1 /\ in_use c = false.
Proof.
  induction n as [|n IH]; intros k l; cbn [seq fold_left].
  - split; [reflexivity|]. intros j Hj. lia.
  - cbv zeta in IH. match goal with
    | |- context [fold_left ?f (seq (S k) n) ?l1] =>
        destruct (IH (S k) l1) as [Hlen Hslots]
    end.
    rewrite length_insert in Hlen, Hslots. cbv zeta. split; [exact Hlen|].
    intros j Hj Hjl. destruct (decide (j = k)) as [->|Hne].
    + (* slot [k] is written once *)
      clear Hslots.
      assert (Hkeep : forall m (l1 : list HevConnection) c,
        l1 !! k = Some c ->
        fold_left
          (fun acc i =>
             <[i := {| fd := -1;
                       last_used := last_used (default zero_conn (acc !! i));
                       created := created (default zero_conn (acc !! i));
                       in_use := false;
                       use_count := use_count (default zero_conn (acc !! i)) |}]> acc)
          (seq (S k) m) l1 !! k = Some c).
      { clear. intros m. assert (Hgen : forall a (l1 : list HevConnection) c,
          (k < a)%nat -> l1 !! k = Some c ->
          fold_left
            (fun acc i =>
               <[i := {| fd := -1;
                         last_used := last_used (default zero_conn (acc !! i));
                         created := created (default zero_conn (acc !! i));
                         in_use := false;
                         use_count := use_count (default zero_conn (acc !! i)) |}]> acc)
            (seq a m) l1 !! k = Some c).
        { induction m as [|m IHm]; intros a l1 c Ha Hc; [exact Hc|].
          cbn [seq fold_left]. apply IHm; [lia|].
          rewrite list_lookup_insert_ne by lia. exact Hc. }
        intros l1 c Hc. apply Hgen; [lia|exact Hc]. }
      eexists. split; [apply Hkeep, list_lookup_insert_eq; exact Hjl|].
      split; reflexivity.
    + apply Hslots; lia.
Qed.

Lemma new_conn_inv size0 pool0 :
  0 <= size0 ->
  hev_connection_pool_new true size0 = Some pool0 ->
  conn_inv pool0 /\
  size pool0 = Z.min size0 CONN_POOL_SIZE /\
  (forall i, (i < Z.to_nat (size pool0))%nat ->
     fd (slot pool0 i) = -1 /\ in_use (slot pool0 i) = false) /\
  total_requests pool0 = 0 /\ cache_hits pool0 = 0 /\
  cache_misses pool0 = 0 /\ evictions pool0 = 0.
Proof.
  intros Hsize Hnew. unfold hev_connection_pool_new in Hnew. cbn [negb] in Hnew.
  injection Hnew as <-. cbn [size total_requests cache_hits cache_misses evictions].
  set (sz := if size0 >? CONN_POOL_SIZE then CONN_POOL_SIZE else size0).
  assert (Hsz : sz = Z.min size0 CONN_POOL_SIZE).
  { unfold sz. destruct (Z.gtb_spec size0 CONN_POOL_SIZE); lia. }
  destruct (init_slots (Z.to_nat sz) 0
              (replicate (Z.to_nat CONN_POOL_SIZE) zero_conn)) as [Hlen Hslots].
  rewrite length_replicate in Hlen, Hslots.
  set (table := fold_left _ (seq 0 (Z.to_nat sz)) _) in *.
  assert (Hempty : forall i, (i < Z.to_nat sz)%nat ->
    fd (slot {| conns := table; size := sz; total_requests := 0;
                cache_hits := 0; cache_misses := 0; evictions := 0 |} i) = -1 /\
    in_use (slot {| conns := table; size := sz; total_requests := 0;
                    cache_hits := 0; cache_misses := 0; evictions := 0 |} i)
    = false).
  { intros i Hi. unfold slot. cbn [conns].
    destruct (Hslots i) as (c & -> & Hfd & Hin);
      [lia|unfold CONN_POOL_SIZE in *; lia|]. auto. }
  split; [|split; [exact Hsz|split; [exact Hempty|auto]]].
  constructor; cbn [size conns].
  - unfold CONN_POOL_SIZE in *. lia.
  - exact Hlen.
  - intros i j Hi Hj Hpos. destruct (Hempty i Hi) as [Hfd _]. lia.
Qed.

(** *** The scan of [get] *)

Lemma scan_hit env : forall todo pool,
  NoDup todo -> (forall i, i ∈ todo -> (i < length (conns pool))%nat) ->
  0 <= fst (scan env todo pool) ->
  exists i, i ∈ todo /\ reusable env (slot pool i) = true /\
            dead (peek env i) = false /\
            fst (scan env todo pool) = fd (slot pool i) /\
            slot (snd (scan env todo pool)) i = reuse env (slot pool i).
Proof.
  induction todo as [|j todo IH]; intros pool Hnd Hin Hhit; cbn [scan] in *.
  - cbn in Hhit. lia.
  - apply NoDup_cons in Hnd as [Hj Hnd].
    assert (Hjl : (j < length (conns pool))%nat) by (apply Hin; left).
    destruct (reusable env (slot pool j)) eqn:Hre.
    + destruct (dead (peek env j)) eqn:Hdead.
      * destruct (IH (count_eviction (set_slot pool j (evict (slot pool j))))
                    Hnd) as (i & Hi & Hri & Hdi & Hfd & Hslot).
        { intros i Hi. cbn [count_eviction set_slot conns].
          rewrite length_insert. apply Hin. right. exact Hi. }
        { exact Hhit. }
        assert (Hne : i <> j) by (intros ->; contradiction).
        assert (Hsame : slot (count_eviction (set_slot pool j (evict (slot pool j)))) i
                        = slot pool i).
        { change (slot (set_slot pool j (evict (slot pool j))) i = slot pool i).
          rewrite slot_set_slot by exact Hjl.
          destruct (decide (i = j)); [contradiction|reflexivity]. }
        rewrite Hsame in Hri, Hfd, Hslot.
        exists i. split; [right; exact Hi|]. auto.
      * exists j. split; [left|]. split; [exact Hre|]. split; [exact Hdead|].
        cbn [fst snd]. split; [reflexivity|].
        change (slot (set_slot pool j (reuse env (slot pool j))) j
                = reuse env (slot pool j)).
        rewrite slot_set_slot by exact Hjl.
        destruct (decide (j = j)); [reflexivity|contradiction].
    + destruct (IH pool Hnd) as (i & Hi & Hrest).
      { intros i Hi. apply Hin. right. exact Hi. }
      { exact Hhit. }
      exists i. split; [right; exact Hi|exact Hrest].
Qed.

Lemma scan_only env i : forall todo pool,
  i ∈ todo -> NoDup todo ->
  (i < length (conns pool))%nat ->
  (forall j, j ∈ todo -> j <> i -> reusable env (slot pool j) = false) ->
  reusable env (slot pool i) = true -> dead (peek env i) = false ->
  scan env todo pool
  = (fd (slot pool i), count_hit (set_slot pool i (reuse env (slot pool i)))).
Proof.
  induction todo as [|j todo IH]; intros pool Hi Hnd Hil Hothers Hre Hdead.
  - inversion Hi.
  - cbn [scan]. apply NoDup_cons in Hnd as [Hj Hnd].
    destruct (decide (j = i)) as [->|Hne].
    + rewrite Hre, Hdead. reflexivity.
    + rewrite (Hothers j ltac:(left) Hne). apply IH; try assumption.
      * apply elem_of_cons in Hi as [->|Hi]; [contradiction|exact Hi].
      * intros k Hk. apply Hothers. right. exact Hk.
Qed.

(** *** Cleaning *)

Lemma stale_evict t c : stale t (evict c) = false.
Proof. reflexivity. Qed.

Lemma cleanup_slots t : forall todo pool i,
  NoDup todo -> (forall j, j ∈ todo -> (j < length (conns pool))%nat) ->
  slot (fold_left
          (fun acc j =>
             let c := slot acc j in
             if (fd c >=? 0) && negb (in_use c)
                && (t - last_used c >=? CONN_IDLE_TIMEOUT)
             then count_eviction (set_slot acc j (evict c)) else acc)
          todo pool) i
  = if bool_decide (i ∈ todo) && stale t (slot pool i)
    then evict (slot pool i) else slot pool i.
Proof.
  induction todo as [|j todo IH]; intros pool i Hnd Hin; cbn [fold_left].
  - rewrite bool_decide_eq_false_2 by apply not_elem_of_nil. reflexivity.
  - apply NoDup_cons in Hnd as [Hj Hnd].
    assert (Hjl : (j < length (conns pool))%nat) by (apply Hin; left).
    cbv zeta. fold (stale t (slot pool j)).
    destruct (stale t (slot pool j)) eqn:Hst.
    + rewrite IH; [|exact Hnd|].
      2:{ intros k Hk. cbn [count_eviction set_slot conns].
          rewrite length_insert. apply Hin. right. exact Hk. }
      change (slot (count_eviction (set_slot pool j (evict (slot pool j)))) i)
        with (slot (set_slot pool j (evict (slot pool j))) i).
      rewrite slot_set_slot by exact Hjl.
      destruct (decide (i = j)) as [->|Hne].
      * rewrite stale_evict, andb_false_r.
        rewrite bool_decide_eq_true_2 by left. rewrite Hst. reflexivity.
      * destruct (bool_decide (i ∈ todo)) eqn:Hd.
        -- apply bool_decide_eq_true_1 in Hd.
           rewrite bool_decide_eq_true_2 by (right; exact Hd). reflexivity.
        -- apply bool_decide_eq_false_1 in Hd.
           rewrite bool_decide_eq_false_2; [reflexivity|].
           intros Hc. apply elem_of_cons in Hc as [->|Hc]; contradiction.
    + rewrite IH; [|exact Hnd|intros k Hk; apply Hin; right; exact Hk].
      destruct (decide (i = j)) as [->|Hne].
      * rewrite Hst, !andb_false_r. reflexivity.
      * destruct (bool_decide (i ∈ todo)) eqn:Hd.
        -- apply bool_decide_eq_true_1 in Hd.
           rewrite bool_decide_eq_true_2 by (right; exact Hd). reflexivity.
        -- apply bool_decide_eq_false_1 in Hd.
           rewrite bool_decide_eq_false_2; [reflexivity|].
           intros Hc. apply elem_of_cons in Hc as [->|Hc]; contradiction.
Qed.

(** *** Counters *)

Lemma u64_plus a b : u64 (u64 a + b) = u64 (a + b).
Proof. unfold u64. apply Zplus_mod_idemp_l. Qed.

Lemma release_counters t pool fd0 :
  total_requests (hev_connection_pool_release t pool fd0) = total_requests pool /\
  cache_hits (hev_connection_pool_release t pool fd0) = cache_hits pool /\
  cache_misses (hev_connection_pool_release t pool fd0) = cache_misses pool.
Proof.
  unfold hev_connection_pool_release. destruct (fd0 <? 0); [auto|]. cbv zeta.
  destruct (find_fd _ _ _); [auto|]. destruct (find_empty _ _); auto.
Qed.

Lemma remove_counters pool fd0 :
  total_requests (hev_connection_pool_remove pool fd0) = total_requests pool /\
  cache_hits (hev_connection_pool_remove pool fd0) = cache_hits pool /\
  cache_misses (hev_connection_pool_remove pool fd0) = cache_misses pool.
Proof.
  unfold hev_connection_pool_remove. destruct (fd0 <? 0); [auto|].
  destruct (find_fd _ _ _); auto.
Qed.

Lemma cleanup_counters t pool :
  total_requests (hev_connection_pool_cleanup t pool) = total_requests pool /\
  cache_hits (hev_connection_pool_cleanup t pool) = cache_hits pool /\
  cache_misses (hev_connection_pool_cleanup t pool) = cache_misses pool.
Proof.
  unfold hev_connection_pool_cleanup.
  generalize (seq 0 (Z.to_nat (size pool))). intros todo.
  assert (Hgen : forall acc,
    let r := fold_left
       (fun acc j =>
          let c := slot acc j in
          if (fd c >=? 0) && negb (in_use c)
             && (t - last_used c >=? CONN_IDLE_TIMEOUT)
          then count_eviction (set_slot acc j (evict c)) else acc)
       todo acc in
    total_requests r = total_requests acc /\
    cache_hits r = cache_hits acc /\ cache_misses r = cache_misses acc).
  { induction todo as [|i todo IH]; intros acc; cbn [fold_left]; [auto|].
    cbv zeta in *. destruct (_ && _ && _); [|apply IH].
    destruct (IH (count_eviction (set_slot acc i (evict (slot acc i)))))
      as (-> & -> & ->). auto. }
  apply Hgen.
Qed.

Lemma call_step_counts pool c :
  let pool' := call_step pool c in
  match c with
  | Get env =>
      total_requests pool' = u64 (total_requests pool + 1) /\
      u64 (cache_hits pool' + cache_misses pool')
      = u64 (cache_hits pool + cache_misses pool
             + (if 0 <=? fst (hev_connection_pool_get env pool) then 1 else 0))
  | _ =>
      total_requests pool' = total_requests pool /\
      cache_hits pool' + cache_misses pool'
      = cache_hits pool + cache_misses pool
  end.
Proof.
  destruct c as [env|t fd0|fd0|t]; cbn [call_step]; cbv zeta.
  - destruct (get_counts env pool) as (Ht & Hfail & Hok). cbv zeta in *.
    split; [exact Ht|].
    destruct (Z.leb_spec 0 (fst (hev_connection_pool_get env pool))) as [Hpos|Hneg].
    + destruct (Hok Hpos) as [[-> ->]|[-> ->]].
      * rewrite u64_plus. f_equal. lia.
      * rewrite Z.add_comm, u64_plus. f_equal. lia.
    + destruct (Hfail Hneg) as [-> ->]. f_equal. lia.
  - destruct (release_counters t pool fd0) as (-> & -> & ->). auto.
  - destruct (remove_counters pool fd0) as (-> & -> & ->). auto.
  - destruct (cleanup_counters t pool) as (-> & -> & ->). auto.
Qed.

Lemma served_cons f results :
  served (f :: results) = (if 0 <=? f then 1 else 0) + served results.
Proof.
  unfold served. rewrite filter_cons.
  destruct (decide (0 <= f)) as [Hpos|Hneg].
  - destruct (Z.leb_spec 0 f); [|lia]. simpl length. lia.
  - destruct (Z.leb_spec 0 f); [lia|]. lia.
Qed.

Lemma run_counts calls : forall pool,
  u64 (total_requests (call_run calls pool))
  = u64 (total_requests pool + Z.of_nat (length (got calls pool))) /\
  u64 (cache_hits (call_run calls pool) + cache_misses (call_run calls pool))
  = u64 (cache_hits pool + cache_misses pool + served (got calls pool)).
Proof.
  induction calls as [|c calls IH]; intros pool.
  - cbn [call_run fold_left got length]. unfold served. cbn.
    split; f_equal; lia.
  - cbn [call_run fold_left]. fold (call_run calls (call_step pool c)).
    destruct (IH (call_step pool c)) as [Ht Hs]. rewrite Ht, Hs.
    pose proof (call_step_counts pool c) as Hstep. cbv zeta in Hstep.
    destruct c as [env|t fd0|fd0|t]; cbn [got].
    + destruct Hstep as [Ht1 Hs1]. rewrite Ht1, served_cons. cbn [length].
      split.
      * rewrite u64_plus. f_equal. lia.
      * rewrite <- (u64_plus (cache_hits _ + cache_misses _)), Hs1, u64_plus.
        f_equal. lia.
    + destruct Hstep as [-> ->]. auto.
    + destruct Hstep as [-> ->]. auto.
    + destruct Hstep as [-> ->]. auto.
Qed.

Lemma NoDup_filter_fmap (f : nat -> Z) (l : list nat) :
  NoDup l ->
  (forall i j, i ∈ l -> j ∈ l -> 0 <= f i -> f i = f j -> i = j) ->
  NoDup (filter (fun x => 0 <= x) (f <$> l)).
Proof.
  induction l as [|x l IH]; intros Hnd Hinj; [constructor|].
  apply NoDup_cons in Hnd as [Hx Hnd]. cbn [fmap list_fmap].
  rewrite filter_cons.
  assert (Hrest : NoDup (filter (fun x => 0 <= x) (f <$> l))).
  { apply IH; [exact Hnd|]. intros i j Hi Hj. apply Hinj; right; assumption. }
  destruct (decide (0 <= f x)) as [Hpos|_]; [|exact Hrest].
  apply NoDup_cons. split; [|exact Hrest].
  intros Hin. apply list_elem_of_filter in Hin as [_ Hin].
  apply list_elem_of_fmap in Hin as (j & Heq & Hj).
  assert (x = j) by (apply Hinj; [left|right; exact Hj|exact Hpos|exact Heq]).
  subst j. contradiction.
Qed.

(** *** Slots the calls leave alone *)

Lemma all_slots_in pool :
  conn_inv pool ->
  NoDup (seq 0 (Z.to_nat (size pool))) /\
  (forall i, i ∈ seq 0 (Z.to_nat (size pool)) ->
     (i < length (conns pool))%nat).
Proof.
  intros Hinv. split; [apply NoDup_seq|].
  intros i Hi. apply elem_of_seq in Hi.
  pose proof (ci_size _ Hinv). rewrite (ci_len _ Hinv). lia.
Qed.

Lemma reusable_idle env c :
  reusable env c = true ->
  0 <= fd c /\ in_use c = false /\ now env - last_used c < CONN_IDLE_TIMEOUT.
Proof.
  unfold reusable. intros H.
  apply andb_prop in H as [H Ht]. apply andb_prop in H as [Hfd Hu].
  apply Z.geb_le in Hfd. apply Z.ltb_lt in Ht. apply negb_true_iff in Hu.
  auto.
Qed.

Lemma scan_busy env k : forall todo pool,
  (forall i, i ∈ todo -> (i < length (conns pool))%nat) ->
  reusable env (slot pool k) = false ->
  slot (snd (scan env todo pool)) k = slot pool k.
Proof.
  induction todo as [|i todo IH]; intros pool Hin Hk; cbn [scan]; [reflexivity|].
  cbv zeta.
  assert (Hil : (i < length (conns pool))%nat) by (apply Hin; left).
  destruct (reusable env (slot pool i)) eqn:Hre.
  - assert (Hne : k <> i) by (intros ->; congruence).
    destruct (dead (peek env i)).
    + rewrite IH.
      * change (slot (count_eviction (set_slot pool i (evict (slot pool i)))) k)
          with (slot (set_slot pool i (evict (slot pool i))) k).
        rewrite slot_set_slot by exact Hil.
        destruct (decide (k = i)); [contradiction|reflexivity].
      * intros j Hj. cbn [count_eviction set_slot conns].
        rewrite length_insert. apply Hin. right. exact Hj.
      * change (slot (count_eviction (set_slot pool i (evict (slot pool i)))) k)
          with (slot (set_slot pool i (evict (slot pool i))) k).
        rewrite slot_set_slot by exact Hil.
        destruct (decide (k = i)); [contradiction|exact Hk].
    + cbn [snd].
      change (slot (count_hit (set_slot pool i (reuse env (slot pool i)))) k)
        with (slot (set_slot pool i (reuse env (slot pool i))) k).
      rewrite slot_set_slot by exact Hil.
      destruct (decide (k = i)); [contradiction|reflexivity].
  - apply IH; [|exact Hk]. intros j Hj. apply Hin. right. exact Hj.
Qed.

Lemma get_busy env pool k :
  conn_inv pool -> in_use (slot pool k) = true ->
  slot (snd (hev_connection_pool_get env pool)) k = slot pool k.
Proof.
  intros Hinv Hk. destruct (all_slots_in pool Hinv) as [_ Hin].
  assert (Hre : reusable env (slot pool k) = false).
  { unfold reusable. rewrite Hk. cbn [negb]. rewrite andb_false_r. reflexivity. }
  unfold hev_connection_pool_get. cbv zeta.
  pose proof (scan_busy env k (seq 0 (Z.to_nat (size pool))) (count_request pool)
                Hin Hre) as Hscan.
  destruct (_ <? 0); [|exact Hscan].
  unfold connect_new. cbv zeta.
  destruct (socket_ret env <? 0); [exact Hscan|].
  destruct (_ && _); exact Hscan.
Qed.

Lemma release_other t pool fd0 k :
  conn_inv pool -> 0 <= fd (slot pool k) -> fd (slot pool k) <> fd0 ->
  slot (hev_connection_pool_release t pool fd0) k = slot pool k.
Proof.
  intros Hinv Hpos Hne. destruct (all_slots_in pool Hinv) as [_ Hin].
  unfold hev_connection_pool_release. destruct (fd0 <? 0); [reflexivity|].
  cbv zeta.
  pose proof (find_fd_spec pool fd0 (seq 0 (Z.to_nat (size pool)))) as Hfd.
  destruct (find_fd pool fd0 _) as [i|].
  - destruct Hfd as [Hi Hfd]. rewrite slot_set_slot by (apply Hin; exact Hi).
    destruct (decide (k = i)) as [->|]; [congruence|reflexivity].
  - pose proof (find_empty_spec pool (seq 0 (Z.to_nat (size pool)))) as Hem.
    destruct (find_empty pool _) as [i|]; [|reflexivity].
    destruct Hem as [Hi Hem]. rewrite slot_set_slot by (apply Hin; exact Hi).
    destruct (decide (k = i)) as [->|]; [lia|reflexivity].
Qed.

Lemma remove_other pool fd0 k :
  conn_inv pool -> fd (slot pool k) <> fd0 ->
  slot (hev_connection_pool_remove pool fd0) k = slot pool k.
Proof.
  intros Hinv Hne. destruct (all_slots_in pool Hinv) as [_ Hin].
  unfold hev_connection_pool_remove. destruct (fd0 <? 0); [reflexivity|].
  pose proof (find_fd_spec pool fd0 (seq 0 (Z.to_nat (size pool)))) as Hfd.
  destruct (find_fd pool fd0 _) as [i|]; [|reflexivity].
  destruct Hfd as [Hi Hfd]. cbv zeta.
  match goal with
  | |- slot (count_eviction (set_slot ?p ?i ?c)) ?k = _ =>
      change (slot (count_eviction (set_slot p i c)) k)
        with (slot (set_slot p i c) k)
  end.
  rewrite slot_set_slot by (apply Hin; exact Hi).
  destruct (decide (k = i)) as [->|]; [congruence|reflexivity].
Qed.

Lemma cleanup_slot t pool i :
  conn_inv pool ->
  slot (hev_connection_pool_cleanup t pool) i
  = if bool_decide (i ∈ seq 0 (Z.to_nat (size pool))) && stale t (slot pool i)
    then evict (slot pool i) else slot pool i.
Proof.
  intros Hinv. destruct (all_slots_in pool Hinv) as [Hnd Hin].
  unfold hev_connection_pool_cleanup. apply cleanup_slots; assumption.
Qed.

Lemma cleanup_busy t pool k :
  conn_inv pool -> in_use (slot pool k) = true ->
  slot (hev_connection_pool_cleanup t pool) k = slot pool k.
Proof.
  intros Hinv Hk. rewrite cleanup_slot by exact Hinv.
  unfold stale. rewrite Hk. cbn [negb]. rewrite andb_false_r, andb_false_r.
  reflexivity.
Qed.

Lemma keeps_busy f k pool c :
  conn_inv pool -> 0 <= f -> fd (slot pool k) = f ->
  in_use (slot pool k) = true -> keeps f c ->
  slot (call_step pool c) k = slot pool k.
Proof.
  intros Hinv Hpos Hfd Hk Hkeep.
  destruct c as [env|t fd0|fd0|t]; cbn [call_step keeps] in *.
  - apply get_busy; assumption.
  - apply release_other; [exact Hinv|lia|congruence].
  - apply remove_other; [exact Hinv|congruence].
  - apply cleanup_busy; assumption.
Qed.

Lemma keeps_run_busy f k calls : forall pool,
  conn_inv pool -> 0 <= f -> fd (slot pool k) = f ->
  in_use (slot pool k) = true -> Forall (keeps f) calls ->
  slot (call_run calls pool) k = slot pool k.
Proof.
  induction calls as [|c calls IH]; intros pool Hinv Hpos Hfd Hk Hall;
    [reflexivity|].
  apply Forall_cons in Hall as [Hc Hall].
  cbn [call_run fold_left]. fold (call_run calls (call_step pool c)).
  pose proof (keeps_busy f k pool c Hinv Hpos Hfd Hk Hc) as Hstep.
  rewrite IH; [exact Hstep|apply call_step_inv; exact Hinv|exact Hpos| | |exact Hall].
  - rewrite Hstep. exact Hfd.
  - rewrite Hstep. exact Hk.
Qed.

Lemma hit_result env pool :
  hit env pool ->
  hev_connection_pool_get env pool
  = scan env (seq 0 (Z.to_nat (size pool))) (count_request pool).
Proof.
  unfold hit, hev_connection_pool_get. intros Hhit. cbv zeta.
  destruct (Z.ltb_spec (fst (scan env (seq 0 (Z.to_nat (size pool)))
                               (count_request pool))) 0); [lia|reflexivity].
Qed.

Lemma hit_slot env pool :
  conn_inv pool -> hit env pool ->
  exists i, (i < Z.to_nat (size pool))%nat /\
            reusable env (slot pool i) = true /\
            dead (peek env i) = false /\
            fst (hev_connection_pool_get env pool) = fd (slot pool i) /\
            slot (snd (hev_connection_pool_get env pool)) i
            = reuse env (slot pool i).
Proof.
  intros Hinv Hhit. rewrite (hit_result env pool Hhit).
  destruct (all_slots_in pool Hinv) as [Hnd Hin].
  destruct (scan_hit env (seq 0 (Z.to_nat (size pool))) (count_request pool)
              Hnd Hin Hhit) as (i & Hi & Hre & Hd & Hf & Hs).
  exists i. apply elem_of_seq in Hi. split; [lia|]. auto.
Qed.

Lemma scan_finds env i : forall todo pool,
  i ∈ todo -> (forall j, j ∈ todo -> (j < length (conns pool))%nat) ->
  reusable env (slot pool i) = true -> dead (peek env i) = false ->
  0 <= fst (scan env todo pool).
Proof.
  induction todo as [|j todo IH]; intros pool Hi Hin Hre Hd.
  - apply elem_of_nil in Hi. contradiction.
  - cbn [scan]. cbv zeta.
    assert (Hjl : (j < length (conns pool))%nat) by (apply Hin; left).
    destruct (reusable env (slot pool j)) eqn:Hrj.
    + destruct (dead (peek env j)) eqn:Hdj.
      * assert (Hne : i <> j) by (intros ->; congruence).
        apply elem_of_cons in Hi as [->|Hi]; [contradiction|].
        apply IH; [exact Hi| | |exact Hd].
        -- intros k Hk. cbn [count_eviction set_slot conns].
           rewrite length_insert. apply Hin. right. exact Hk.
        -- change (slot (count_eviction (set_slot pool j (evict (slot pool j)))) i)
             with (slot (set_slot pool j (evict (slot pool j))) i).
           rewrite slot_set_slot by exact Hjl.
           destruct (decide (i = j)); [contradiction|exact Hre].
      * cbn [fst]. apply reusable_idle in Hrj. lia.
    + apply elem_of_cons in Hi as [->|Hi]; [congruence|].
      apply IH; [exact Hi| |exact Hre|exact Hd].
      intros k Hk. apply Hin. right. exact Hk.
Qed.

Lemma release_places t pool f :
  conn_inv pool -> 0 <= f ->
  (exists i, (i < Z.to_nat (size pool))%nat /\
             (fd (slot pool i) = f \/ fd (slot pool i) < 0)) ->
  exists i, (i < Z.to_nat (size pool))%nat /\
            (fd (slot pool i) = f \/ fd (slot pool i) < 0) /\
            fd (slot (hev_connection_pool_release t pool f) i) = f /\
            in_use (slot (hev_connection_pool_release t pool f) i) = false /\
            last_used (slot (hev_connection_pool_release t pool f) i) = t /\
            forall j, j <> i ->
              slot (hev_connection_pool_release t pool f) j = slot pool j.
Proof.
  intros Hinv Hpos (i0 & Hi0 & Hroom).
  destruct (all_slots_in pool Hinv) as [_ Hin].
  unfold hev_connection_pool_release.
  destruct (Z.ltb_spec f 0) as [|_]; [lia|]. cbv zeta.
  pose proof (find_fd_spec pool f (seq 0 (Z.to_nat (size pool)))) as Hfd.
  destruct (find_fd pool f _) as [i|].
  - destruct Hfd as [Hi Hfd]. exists i.
    pose proof (Hin i Hi) as Hil. apply elem_of_seq in Hi.
    split; [lia|]. split; [left; exact Hfd|].
    rewrite slot_set_slot by exact Hil.
    destruct (decide (i = i)); [|contradiction]. cbn [fd in_use last_used].
    repeat split; try assumption; try reflexivity.
    intros j Hj. rewrite slot_set_slot by exact Hil.
    destruct (decide (j = i)); [contradiction|reflexivity].
  - pose proof (find_empty_spec pool (seq 0 (Z.to_nat (size pool)))) as Hem.
    destruct (find_empty pool _) as [i|].
    + destruct Hem as [Hi Hem]. exists i.
      pose proof (Hin i Hi) as Hil. apply elem_of_seq in Hi.
      split; [lia|]. split; [right; exact Hem|].
      rewrite slot_set_slot by exact Hil.
      destruct (decide (i = i)); [|contradiction]. cbn [fd in_use last_used].
      repeat split; try reflexivity.
      intros j Hj. rewrite slot_set_slot by exact Hil.
      destruct (decide (j = i)); [contradiction|reflexivity].
    + exfalso.
      assert (Hi : i0 ∈ seq 0 (Z.to_nat (size pool))) by (apply elem_of_seq; lia).
      destruct Hroom as [Hf|He].
      * exact (Hfd i0 Hi Hf).
      * specialize (Hem i0 Hi). lia.
Qed.

Lemma stale_count_cons t pool i todo :
  stale_count t pool (i :: todo)
  = (if stale t (slot pool i) then 1 else 0) + stale_count t pool todo.
Proof.
  unfold stale_count. rewrite filter_cons.
  destruct (decide (stale t (slot pool i) = true)) as [->|Hne].
  - cbn [length]. lia.
  - destruct (stale t (slot pool i)); [congruence|]. lia.
Qed.

Lemma stale_count_frame t pool j c todo :
  (j < length (conns pool))%nat -> j ∉ todo ->
  stale_count t (set_slot pool j c) todo = stale_count t pool todo.
Proof.
  intros Hj. induction todo as [|i todo IH]; intros Hnot; [reflexivity|].
  rewrite !stale_count_cons. apply not_elem_of_cons in Hnot as [Hne Hnot].
  rewrite slot_set_slot by exact Hj.
  destruct (decide (i = j)); [congruence|]. rewrite IH by exact Hnot.
  reflexivity.
Qed.

Lemma cleanup_evictions t : forall todo pool,
  NoDup todo -> (forall j, j ∈ todo -> (j < length (conns pool))%nat) ->
  u64 (evictions
         (fold_left
            (fun acc j =>
               let c := slot acc j in
               if (fd c >=? 0) && negb (in_use c)
                  && (t - last_used c >=? CONN_IDLE_TIMEOUT)
               then count_eviction (set_slot acc j (evict c)) else acc)
            todo pool))
  = u64 (evictions pool + stale_count t pool todo).
Proof.
  induction todo as [|j todo IH]; intros pool Hnd Hin; cbn [fold_left].
  - unfold stale_count. cbn. f_equal. lia.
  - apply NoDup_cons in Hnd as [Hj Hnd].
    assert (Hjl : (j < length (conns pool))%nat) by (apply Hin; left).
    rewrite stale_count_cons. cbv zeta. fold (stale t (slot pool j)).
    destruct (stale t (slot pool j)) eqn:Hst.
    + rewrite IH; [|exact Hnd|].
      2:{ intros k Hk. cbn [count_eviction set_slot conns].
          rewrite length_insert. apply Hin. right. exact Hk. }
      assert (Hsc : stale_count t
                      (count_eviction (set_slot pool j (evict (slot pool j)))) todo
                    = stale_count t pool todo).
      { rewrite <- (stale_count_frame t pool j (evict (slot pool j)) todo)
          by assumption. reflexivity. }
      rewrite Hsc. cbn [count_eviction evictions set_slot].
      rewrite u64_plus. f_equal. lia.
    + rewrite IH; [f_equal; lia|exact Hnd|].
      intros k Hk. apply Hin. right. exact Hk.
Qed.

Lemma total_in_range calls : forall pool,
  total_requests pool = u64 (total_requests pool) ->
  total_requests (call_run calls pool)
  = u64 (total_requests (call_run calls pool)).
Proof.
  induction calls as [|c calls IH]; intros pool Hr; [exact Hr|].
  cbn [call_run fold_left]. fold (call_run calls (call_step pool c)).
  apply IH. pose proof (call_step_counts pool c) as Hstep. cbv zeta in Hstep.
  destruct c as [env|t fd0|fd0|t].
  - destruct Hstep as [-> _]. unfold u64. rewrite Z.mod_mod by lia. reflexivity.
  - destruct Hstep as [-> _]. exact Hr.
  - destruct Hstep as [-> _]. exact Hr.
  - destruct Hstep as [-> _]. exact Hr.
Qed.

Lemma reachable_inv pool : reachable pool -> conn_inv pool.
Proof.
  intros (size0 & pool0 & calls & Hsize & Hnew & ->).
  apply call_run_inv. apply (new_conn_inv size0 pool0 Hsize Hnew).
Qed.

Lemma morning_reachable : reachable morning_pool.
Proof.
  exists 4, pool_of_4, (take 4 day).
  split; [lia|]. split; reflexivity.
Qed.

Lemma cleanup_nothing_stale t : forall todo pool,
  (forall j, j ∈ todo -> stale t (slot pool j) = false) ->
  fold_left
    (fun acc j =>
       let c := slot acc j in
       if (fd c >=? 0) && negb (in_use c)
          && (t - last_used c >=? CONN_IDLE_TIMEOUT)
       then count_eviction (set_slot acc j (evict c)) else acc)
    todo pool = pool.
Proof.
  induction todo as [|j todo IH]; intros pool Hno; cbn [fold_left];
    [reflexivity|].
  cbv zeta. fold (stale t (slot pool j)).
  rewrite (Hno j) by left. apply IH. intros k Hk. apply Hno. right. exact Hk.
Qed.

(** *** The connection pool, as its clients see it *)

(** X24 (no descriptor twice).  In a pool returned by the constructor,
    after any sequence of get, release, remove and cleanup calls, no two
    slots hold the same descriptor, so that
    [hev_connection_pool_destroy] closes every pooled descriptor exactly
    once. *)
Theorem pool_holds_each_fd_once size0 pool0 calls :
  0 <= size0 ->
  hev_connection_pool_new true size0 = Some pool0 ->
  let pool := call_run calls pool0 in
  (forall i j,
     (i < Z.to_nat (size pool))%nat -> (j < Z.to_nat (size pool))%nat ->
     0 <= fd (slot pool i) -> fd (slot pool i) = fd (slot pool j) -> i = j) /\
  NoDup (hev_connection_pool_destroy pool).
Proof.
  intros Hsize Hnew pool.
  destruct (new_conn_inv size0 pool0 Hsize Hnew) as [Hinv0 _].
  pose proof (call_run_inv calls pool0 Hinv0) as Hinv. fold pool in Hinv.
  split; [exact (ci_uniq _ Hinv)|].
  unfold hev_connection_pool_destroy. apply NoDup_filter_fmap.
  - apply NoDup_seq.
  - intros i j Hi Hj. apply elem_of_seq in Hi, Hj.
    apply (ci_uniq _ Hinv); lia.
Qed.

Lemma pool_holds_each_fd_once_witness :
  let pool := call_run day pool_of_4 in
  hev_connection_pool_destroy pool = [5; 7] /\
  ((forall i j,
      (i < Z.to_nat (size pool))%nat -> (j < Z.to_nat (size pool))%nat ->
      0 <= fd (slot pool i) -> fd (slot pool i) = fd (slot pool j) -> i = j) /\
   NoDup (hev_connection_pool_destroy pool)).
Proof.
  split; [vm_compute; reflexivity|].
  apply (pool_holds_each_fd_once 4 pool_of_4 day).
  - lia.
  - vm_compute. reflexivity.
Defined.

(** X25 (a connection handed out stays out).  When [get] hands out a
    pooled connection, it comes from an idle, unexpired slot whose peer
    has not closed, and the slot is marked in use; until that descriptor
    is released or removed, no later [get] finds it in the pool again,
    whatever other calls are made in between. *)
Theorem handed_out_stays_out env pool calls env2 :
  reachable pool -> hit env pool -> Forall (keeps (fst (hev_connection_pool_get env pool))) calls ->
  let f := fst (hev_connection_pool_get env pool) in
  let pool1 := snd (hev_connection_pool_get env pool) in
  let pool2 := call_run calls pool1 in
  (exists i, (i < Z.to_nat (size pool))%nat /\
             reusable env (slot pool i) = true /\
             dead (peek env i) = false /\
             f = fd (slot pool i) /\
             slot pool1 i = reuse env (slot pool i) /\
             slot pool2 i = reuse env (slot pool i)) /\
  (hit env2 pool2 -> fst (hev_connection_pool_get env2 pool2) <> f).
Proof.
  intros Hreach Hhit Hkeep f pool1 pool2.
  pose proof (reachable_inv pool Hreach) as Hinv.
  destruct (hit_slot env pool Hinv Hhit) as (i & Hi & Hre & Hd & Hf & Hs).
  fold f in Hf. fold pool1 in Hs.
  assert (Hinv1 : conn_inv pool1) by (apply (call_step_inv pool (Get env)); exact Hinv).
  assert (Hinv2 : conn_inv pool2) by (apply call_run_inv; exact Hinv1).
  assert (Hsz1 : size pool1 = size pool) by apply (get_shape env pool).
  assert (Hsz2 : size pool2 = size pool1).
  { clear -Hinv1. subst pool2. revert Hinv1. generalize pool1.
    induction calls as [|c calls IH]; intros p Hp; [reflexivity|].
    cbn [call_run fold_left]. fold (call_run calls (call_step p c)).
    rewrite IH by (apply call_step_inv; exact Hp).
    destruct c as [e|t fd0|fd0|t]; cbn [call_step].
    - apply (get_shape e p).
    - apply (release_shape t p fd0).
    - apply (remove_shape p fd0).
    - apply (cleanup_shape t p). }
  destruct (reusable_idle env _ Hre) as (Hpos & _ & _).
  assert (Hfd1 : fd (slot pool1 i) = f) by (rewrite Hs; cbn [reuse fd]; auto).
  assert (Hin1 : in_use (slot pool1 i) = true) by (rewrite Hs; reflexivity).
  assert (Hpf : 0 <= f) by lia.
  pose proof (keeps_run_busy f i calls pool1 Hinv1 Hpf Hfd1 Hin1 Hkeep) as Hrun.
  fold pool2 in Hrun.
  split.
  - exists i. repeat split; try assumption. rewrite Hrun. exact Hs.
  - intros Hhit2 Heq.
    destruct (hit_slot env2 pool2 Hinv2 Hhit2) as (j & Hj & Hrj & _ & Hfj & _).
    destruct (reusable_idle env2 _ Hrj) as (Hposj & Hidle & _).
    assert (j = i).
    { apply (ci_uniq _ Hinv2); [exact Hj|lia|exact Hposj|].
      rewrite <- Hfj, Heq, Hrun, <- Hfd1. reflexivity. }
    subst j. rewrite Hrun, Hin1 in Hidle. discriminate.
Qed.

Lemma handed_out_stays_out_witness :
  fst (hev_connection_pool_get (env_at 1020 7) morning_pool) = 5 /\
  fst (hev_connection_pool_get (env_at 1040 9)
         (call_run [Release 1030 6; Get (env_at 1031 8); Cleanup 1032]
            (snd (hev_connection_pool_get (env_at 1020 7) morning_pool)))) = 9 /\
  ((exists i, (i < Z.to_nat (size morning_pool))%nat /\
      reusable (env_at 1020 7) (slot morning_pool i) = true /\
      dead (peek (env_at 1020 7) i) = false /\
      fst (hev_connection_pool_get (env_at 1020 7) morning_pool)
      = fd (slot morning_pool i) /\
      slot (snd (hev_connection_pool_get (env_at 1020 7) morning_pool)) i
      = reuse (env_at 1020 7) (slot morning_pool i) /\
      slot (call_run [Release 1030 6; Get (env_at 1031 8); Cleanup 1032]
              (snd (hev_connection_pool_get (env_at 1020 7) morning_pool))) i
      = reuse (env_at 1020 7) (slot morning_pool i)) /\
   (hit (env_at 1040 9)
        (call_run [Release 1030 6; Get (env_at 1031 8); Cleanup 1032]
           (snd (hev_connection_pool_get (env_at 1020 7) morning_pool))) ->
    fst (hev_connection_pool_get (env_at 1040 9)
           (call_run [Release 1030 6; Get (env_at 1031 8); Cleanup 1032]
              (snd (hev_connection_pool_get (env_at 1020 7) morning_pool))))
    <> fst (hev_connection_pool_get (env_at 1020 7) morning_pool))).
Proof.
  split; [vm_compute; reflexivity|]. split; [vm_compute; reflexivity|].
  apply (handed_out_stays_out (env_at 1020 7) morning_pool
           [Release 1030 6; Get (env_at 1031 8); Cleanup 1032] (env_at 1040 9)).
  - exact morning_reachable.
  - unfold hit. vm_compute. discriminate.
  - repeat constructor; vm_compute; discriminate.
Defined.

(** X26 (a released connection is found again).  When a descriptor is
    released into a pool that holds it or has an empty slot, a [get]
    within the idle timeout, with no peer closed, is served from the pool;
    when no other slot holds a connection fit for reuse, it returns the
    released descriptor itself and counts one hit and no miss. *)
Theorem released_connection_is_reused t env pool f :
  reachable pool -> 0 <= f ->
  (exists i, (i < Z.to_nat (size pool))%nat /\
             (fd (slot pool i) = f \/ fd (slot pool i) < 0)) ->
  now env - t < CONN_IDLE_TIMEOUT ->
  (forall i, dead (peek env i) = false) ->
  let pool1 := hev_connection_pool_release t pool f in
  let r := hev_connection_pool_get env pool1 in
  hit env pool1 /\
  ((forall j, (j < Z.to_nat (size pool))%nat -> fd (slot pool j) <> f ->
      reusable env (slot pool j) = false) ->
   fst r = f /\
   cache_hits (snd r) = u64 (cache_hits pool + 1) /\
   cache_misses (snd r) = cache_misses pool).
Proof.
  intros Hreach Hpos Hroom Hfresh Halive pool1 r.
  pose proof (reachable_inv pool Hreach) as Hinv.
  assert (Hinv1 : conn_inv pool1) by (apply release_inv; exact Hinv).
  destruct (release_places t pool f Hinv Hpos Hroom)
    as (i & Hi & _ & Hfd & Hidle & Hlast & Hframe).
  fold pool1 in Hfd, Hidle, Hlast, Hframe.
  assert (Hsz : size pool1 = size pool) by apply (release_shape t pool f).
  destruct (all_slots_in pool1 Hinv1) as [Hnd Hin].
  assert (Hit : i ∈ seq 0 (Z.to_nat (size pool1))).
  { apply elem_of_seq. lia. }
  assert (Hre : reusable env (slot pool1 i) = true).
  { unfold reusable. rewrite Hfd, Hidle, Hlast. cbn [negb].
    destruct (Z.geb_spec f 0); [|lia].
    destruct (Z.ltb_spec (now env - t) CONN_IDLE_TIMEOUT); [reflexivity|lia]. }
  assert (Hhit : hit env pool1).
  { unfold hit.
    apply (scan_finds env i (seq 0 (Z.to_nat (size pool1))) (count_request pool1));
      [exact Hit|exact Hin|exact Hre|apply Halive]. }
  split; [exact Hhit|].
  intros Hothers. subst r. rewrite (hit_result env pool1 Hhit).
  rewrite (scan_only env i (seq 0 (Z.to_nat (size pool1))) (count_request pool1)
             Hit Hnd (Hin i Hit)); [| |exact Hre|apply Halive].
  - cbn [fst snd count_hit cache_hits cache_misses set_slot count_request].
    change (slot (count_request pool1) i) with (slot pool1 i).
    destruct (release_counters t pool f) as (_ & Hh & Hm). fold pool1 in Hh, Hm.
    rewrite Hfd, Hh, Hm. auto.
  - intros j Hj Hne.
    change (slot (count_request pool1) j) with (slot pool1 j).
    rewrite (Hframe j Hne). apply elem_of_seq in Hj.
    apply Hothers; [lia|]. intros Hjf.
    assert (Habs : 0 <= fd (slot pool1 j)) by (rewrite (Hframe j Hne); lia).
    apply Hne. apply (ci_uniq _ Hinv1); [lia|lia|exact Habs|].
    rewrite (Hframe j Hne), Hjf, Hfd. reflexivity.
Qed.

Lemma released_connection_is_reused_witness :
  hit (env_at 1050 9)
      (hev_connection_pool_release 1040 (call_run (take 6 day) pool_of_4) 6) /\
  ((forall j, (j < Z.to_nat (size (call_run (take 6 day) pool_of_4)))%nat ->
      fd (slot (call_run (take 6 day) pool_of_4) j) <> 6 ->
      reusable (env_at 1050 9) (slot (call_run (take 6 day) pool_of_4) j) = false) ->
   fst (hev_connection_pool_get (env_at 1050 9)
          (hev_connection_pool_release 1040 (call_run (take 6 day) pool_of_4) 6))
   = 6 /\
   cache_hits (snd (hev_connection_pool_get (env_at 1050 9)
          (hev_connection_pool_release 1040 (call_run (take 6 day) pool_of_4) 6)))
   = u64 (cache_hits (call_run (take 6 day) pool_of_4) + 1) /\
   cache_misses (snd (hev_connection_pool_get (env_at 1050 9)
          (hev_connection_pool_release 1040 (call_run (take 6 day) pool_of_4) 6)))
   = cache_misses (call_run (take 6 day) pool_of_4)).
Proof.
  apply (released_connection_is_reused 1040 (env_at 1050 9)
           (call_run (take 6 day) pool_of_4) 6).
  - exists 4, pool_of_4, (take 6 day). split; [lia|]. split; reflexivity.
  - lia.
  - exists 1%nat. split; [vm_compute; lia|]. left. vm_compute. reflexivity.
  - vm_compute. reflexivity.
  - intros i. reflexivity.
Defined.

(** X27 (cleanup closes exactly the stale connections).  After
    [hev_connection_pool_cleanup] at time [t], every slot that held an
    idle connection last used [CONN_IDLE_TIMEOUT] seconds ago or earlier
    is empty, every other slot is as it was, the eviction counter has
    grown by the number of slots closed, and a second cleanup at the same
    time changes nothing. *)
Theorem cleanup_closes_stale t pool :
  reachable pool ->
  let pool' := hev_connection_pool_cleanup t pool in
  (forall i, (i < Z.to_nat (size pool))%nat ->
     slot pool' i
     = if stale t (slot pool i) then evict (slot pool i) else slot pool i) /\
  (forall i, (i < Z.to_nat (size pool))%nat -> stale t (slot pool' i) = false) /\
  u64 (evictions pool')
  = u64 (evictions pool + stale_count t pool (seq 0 (Z.to_nat (size pool)))) /\
  hev_connection_pool_cleanup t pool' = pool'.
Proof.
  intros Hreach pool'.
  pose proof (reachable_inv pool Hreach) as Hinv.
  destruct (all_slots_in pool Hinv) as [Hnd Hin].
  assert (Hslots : forall i, (i < Z.to_nat (size pool))%nat ->
            slot pool' i
            = if stale t (slot pool i) then evict (slot pool i) else slot pool i).
  { intros i Hi. subst pool'. rewrite cleanup_slot by exact Hinv.
    rewrite bool_decide_eq_true_2 by (apply elem_of_seq; lia). reflexivity. }
  assert (Hclean : forall i, (i < Z.to_nat (size pool))%nat ->
            stale t (slot pool' i) = false).
  { intros i Hi. rewrite (Hslots i Hi).
    destruct (stale t (slot pool i)) eqn:Hst; [apply stale_evict|exact Hst]. }
  split; [exact Hslots|]. split; [exact Hclean|]. split.
  - subst pool'. unfold hev_connection_pool_cleanup.
    apply cleanup_evictions; assumption.
  - assert (Hsz : size pool' = size pool) by apply (cleanup_shape t pool).
    unfold hev_connection_pool_cleanup at 1. rewrite Hsz.
    apply cleanup_nothing_stale. intros j Hj. apply elem_of_seq in Hj.
    apply Hclean. lia.
Qed.

Lemma cleanup_closes_stale_witness :
  hev_connection_pool_destroy (call_run (take 10 day) pool_of_4) = [5; 6; 7] /\
  hev_connection_pool_destroy
    (hev_connection_pool_cleanup 1095 (call_run (take 10 day) pool_of_4))
  = [5; 7] /\
  ((forall i, (i < Z.to_nat (size (call_run (take 10 day) pool_of_4)))%nat ->
     slot (hev_connection_pool_cleanup 1095 (call_run (take 10 day) pool_of_4)) i
     = if stale 1095 (slot (call_run (take 10 day) pool_of_4) i)
       then evict (slot (call_run (take 10 day) pool_of_4) i)
       else slot (call_run (take 10 day) pool_of_4) i) /\
  (forall i, (i < Z.to_nat (size (call_run (take 10 day) pool_of_4)))%nat ->
     stale 1095
       (slot (hev_connection_pool_cleanup 1095
                (call_run (take 10 day) pool_of_4)) i) = false) /\
  u64 (evictions (hev_connection_pool_cleanup 1095
                    (call_run (take 10 day) pool_of_4)))
  = u64 (evictions (call_run (take 10 day) pool_of_4)
         + stale_count 1095 (call_run (take 10 day) pool_of_4)
             (seq 0 (Z.to_nat (size (call_run (take 10 day) pool_of_4))))) /\
  hev_connection_pool_cleanup 1095
    (hev_connection_pool_cleanup 1095 (call_run (take 10 day) pool_of_4))
  = hev_connection_pool_cleanup 1095 (call_run (take 10 day) pool_of_4)).
Proof.
  split; [vm_compute; reflexivity|]. split; [vm_compute; reflexivity|].
  apply (cleanup_closes_stale 1095 (call_run (take 10 day) pool_of_4)).
  exists 4, pool_of_4, (take 10 day). split; [lia|]. split; reflexivity.
Defined.

(** X28 (every request is accounted for).  In a pool returned by the
    constructor, after any sequence of calls, [total_requests] is the
    number of [get] calls and [cache_hits + cache_misses] is the number of
    those that returned a descriptor (both modulo 2^64): the requests that
    are neither hit nor miss are exactly the failed ones. *)
Theorem requests_accounted size0 pool0 calls :
  0 <= size0 ->
  hev_connection_pool_new true size0 = Some pool0 ->
  let pool := call_run calls pool0 in
  total_requests pool = u64 (Z.of_nat (length (got calls pool0))) /\
  u64 (cache_hits pool + cache_misses pool) = u64 (served (got calls pool0)) /\
  hev_connection_pool_stats pool = (cache_hits pool, cache_misses pool).
Proof.
  intros Hsize Hnew pool.
  destruct (new_conn_inv size0 pool0 Hsize Hnew)
    as (_ & _ & _ & Ht & Hh & Hm & _).
  subst pool.
  destruct (run_counts calls pool0) as [Htot Hsum].
  rewrite Ht in Htot. rewrite Hh, Hm in Hsum.
  split; [|split; [exact Hsum|reflexivity]].
  rewrite (total_in_range calls pool0) by (rewrite Ht; reflexivity).
  exact Htot.
Qed.

Lemma requests_accounted_witness :
  got day pool_of_4 = [5; 6; 5; 6; 7; -1] /\
  total_requests (call_run day pool_of_4) = 6 /\
  (total_requests (call_run day pool_of_4)
   = u64 (Z.of_nat (length (got day pool_of_4))) /\
   u64 (cache_hits (call_run day pool_of_4)
        + cache_misses (call_run day pool_of_4))
   = u64 (served (got day pool_of_4)) /\
   hev_connection_pool_stats (call_run day pool_of_4)
   = (cache_hits (call_run day pool_of_4),
      cache_misses (call_run day pool_of_4))).
Proof.
  split; [vm_compute; reflexivity|]. split; [vm_compute; reflexivity|].
  apply (requests_accounted 4 pool_of_4 day).
  - lia.
  - vm_compute. reflexivity.
Defined.

(** X29 (a removed descriptor is gone).  After
    [hev_connection_pool_remove] of a descriptor, no slot of the pool
    holds it; every slot that held another descriptor is as it was; and
    the eviction counter grows by one when the descriptor was in the
    pool, and the pool is unchanged when it was not. *)
Theorem removed_is_gone pool f :
  reachable pool -> 0 <= f ->
  let pool' := hev_connection_pool_remove pool f in
  (forall i, (i < Z.to_nat (size pool))%nat -> fd (slot pool' i) <> f) /\
  (forall i, fd (slot pool i) <> f -> slot pool' i = slot pool i) /\
  ((exists i, (i < Z.to_nat (size pool))%nat /\ fd (slot pool i) = f) ->
   evictions pool' = u64 (evictions pool + 1)) /\
  ((forall i, (i < Z.to_nat (size pool))%nat -> fd (slot pool i) <> f) ->
   pool' = pool).
Proof.
  intros Hreach Hpos pool'.
  pose proof (reachable_inv pool Hreach) as Hinv.
  destruct (all_slots_in pool Hinv) as [_ Hin].
  split; [|split; [|split]].
  - intros i Hi Hfd. subst pool'. unfold hev_connection_pool_remove in Hfd.
    destruct (Z.ltb_spec f 0) as [|_]; [lia|].
    pose proof (find_fd_spec pool f (seq 0 (Z.to_nat (size pool)))) as Hspec.
    destruct (find_fd pool f _) as [k|].
    + destruct Hspec as [Hk Hkf]. cbv zeta in Hfd.
      match type of Hfd with
      | fd (slot (count_eviction (set_slot ?p ?k ?c)) ?i) = _ =>
          change (slot (count_eviction (set_slot p k c)) i)
            with (slot (set_slot p k c) i) in Hfd
      end.
      rewrite slot_set_slot in Hfd by (apply Hin; exact Hk).
      destruct (decide (i = k)) as [->|Hne].
      * cbn [fd] in Hfd. lia.
      * apply Hne. apply elem_of_seq in Hk.
        apply (ci_uniq _ Hinv); [exact Hi|lia|lia|congruence].
    + apply (Hspec i); [apply elem_of_seq; lia|exact Hfd].
  - intros i Hne. apply remove_other; assumption.
  - intros (i & Hi & Hfd). subst pool'. unfold hev_connection_pool_remove.
    destruct (Z.ltb_spec f 0) as [|_]; [lia|].
    pose proof (find_fd_spec pool f (seq 0 (Z.to_nat (size pool)))) as Hspec.
    destruct (find_fd pool f _) as [k|]; [reflexivity|].
    exfalso. apply (Hspec i); [apply elem_of_seq; lia|exact Hfd].
  - intros Hnone. subst pool'. unfold hev_connection_pool_remove.
    destruct (Z.ltb_spec f 0) as [|_]; [lia|].
    pose proof (find_fd_spec pool f (seq 0 (Z.to_nat (size pool)))) as Hspec.
    destruct (find_fd pool f _) as [k|]; [|reflexivity].
    exfalso. destruct Hspec as [Hk Hkf]. apply elem_of_seq in Hk.
    apply (Hnone k); [lia|exact Hkf].
Qed.

Lemma removed_is_gone_witness :
  hev_connection_pool_destroy (hev_connection_pool_remove morning_pool 5) = [6] /\
  ((forall i, (i < Z.to_nat (size morning_pool))%nat ->
      fd (slot (hev_connection_pool_remove morning_pool 5) i) <> 5) /\
   (forall i, fd (slot morning_pool i) <> 5 ->
      slot (hev_connection_pool_remove morning_pool 5) i = slot morning_pool i) /\
   ((exists i, (i < Z.to_nat (size morning_pool))%nat /\
                fd (slot morning_pool i) = 5) ->
    evictions (hev_connection_pool_remove morning_pool 5)
    = u64 (evictions morning_pool + 1)) /\
   ((forall i, (i < Z.to_nat (size morning_pool))%nat ->
       fd (slot morning_pool i) <> 5) ->
    hev_connection_pool_remove morning_pool 5 = morning_pool)).
Proof.
  split; [vm_compute; reflexivity|].
  apply (removed_is_gone morning_pool 5).
  - exact morning_reachable.
  - lia.
Defined.

End ConnectionPoolUse.

(** ** The write queue of the I/O engine under concurrent use:
       src/hev-tunnel-io.c *)

(** Producers call [hev_tunnel_io_write] while the writer threads run.  A
    step is what a thread does under [write_mutex] (a producer's enqueue, a
    writer's wait-or-take), or a writer's handling of one packet of its
    local batch (the write, the two atomic additions to the counters, the
    free), or the clearing of the running flag by [hev_tunnel_io_stop]. *)
Module WriteQueue.

Import TunnelIO.

(** Where a writer thread is: at the head of its outer loop, inside the
    [for] loop with the packets of its batch still to write, or returned. *)
Inductive writer_pc : Type :=
  | WIdle
  | WBatch (batch : list pbuf)
  | WGone.

Definition batch_of (pc : writer_pc) : list pbuf :=
  match pc with
  | WBatch b => b
  | _ => []
  end.

(** The engine, its writer threads, what they did to the world, and the
    packets [hev_tunnel_io_write] returned 0 for, in order. *)
Record system := mkSystem {
  engine : HevTunnelIO;
  writers : list writer_pc;
  trace : list event;
  accepted : list pbuf
}.

Inductive action : Type :=
  | AWrite (node_ok : bool) (buf : pbuf)
  | AWriter (w : nat) (answer : Z * Z)   (* the TUN device's answer, if asked *)
  | AStop.

(** One step of [writer_thread]. *)
Definition writer_step (answer : Z * Z) (io : HevTunnelIO) (pc : writer_pc)
  : HevTunnelIO * writer_pc * list event :=
  match pc with
  | WIdle =>
      if running io || (write_queue_size io >? 0) then
        if (write_queue_size io =? 0) && running io then (io, WIdle, [])
        else
          let b := take_batch WRITE_BATCH_SIZE io in
          (snd b, WBatch (fst b), [])
      else (io, WGone, [])
  | WBatch [] => (io, WIdle, [])
  | WBatch (p :: rest) =>
      let r := write_one (fun _ => answer) io p in
      (fst r, WBatch rest, snd r)
  | WGone => (io, WGone, [])
  end.

Definition act (s : system) (a : action) : system :=
  match a with
  | AWrite node_ok buf =>
      let r := hev_tunnel_io_write node_ok (engine s) buf in
      {| engine := snd r; writers := writers s; trace := trace s;
         accepted := if fst r =? 0 then accepted s ++ [buf] else accepted s |}
  | AWriter w answer =>
      match writers s !! w with
      | Some pc =>
          let '(io, pc', evs) := writer_step answer (engine s) pc in
          {| engine := io; writers := <[w := pc']> (writers s);
             trace := trace s ++ evs; accepted := accepted s |}
      | None => s
      end
  | AStop =>
      {| engine := fst (hev_tunnel_io_stop (engine s)); writers := writers s;
         trace := trace s; accepted := accepted s |}
  end.

Definition exec (acts : list action) (s : system) : system :=
  fold_left act acts s.

(** The engine as [hev_tunnel_io_start] leaves it, its writers at the head
    of their loops. *)
Definition started (io : HevTunnelIO) : system :=
  {| engine := io; writers := replicate (num_writers io) WIdle;
     trace := []; accepted := [] |}.

(** The packets taken off the queue and not yet written. *)
Definition in_batches (ws : list writer_pc) : list pbuf :=
  concat (batch_of <$> ws).

(** The writes that the device took, and the bytes it took. *)
Fixpoint sent (evs : list event) : Z :=
  match evs with
  | [] => 0
  | EvWrite _ written :: rest =>
      (if written >? 0 then 1 else 0) + sent rest
  | _ :: rest => sent rest
  end.

Fixpoint sent_bytes (evs : list event) : Z :=
  match evs with
  | [] => 0
  | EvWrite _ written :: rest =>
      (if written >? 0 then written else 0) + sent_bytes rest
  | _ :: rest => sent_bytes rest
  end.

(** An hour of an engine on a 4-core machine: three packets are queued, a
    writer takes them and writes two, a fourth packet arrives, the second
    writer takes it, the engine is stopped, the writers finish. *)
Definition packet (n : Z) : pbuf := mkPbuf (4096 * n) n n.

Definition hour : list action :=
  [AWrite true (packet 40); AWrite true (packet 41); AWrite false (packet 99);
   AWrite true (packet 42); AWriter 0 (0, 0); AWriter 0 (40, 0);
   AWriter 0 (-1, EAGAIN); AWrite true (packet 43); AWriter 1 (0, 0);
   AStop; AWriter 1 (43, 0); AWriter 0 (42, 0); AWriter 0 (0, 0);
   AWriter 1 (0, 0); AWriter 0 (0, 0); AWriter 1 (0, 0)].

Definition engine_4 : HevTunnelIO :=
  Eval vm_compute in
    snd (hev_tunnel_io_start true
           (default (mkIO 0 0 false 0 0 [] 0 0 0 0 0)
                    (hev_tunnel_io_new true true 4 3 1500))).

(** *** What every step keeps *)

Record queue_ok (s : system) : Prop := {
  qo_size : write_queue_size (engine s)
            = Z.of_nat (length (write_queue (engine s)));
  qo_bound : (length (write_queue (engine s)) <= Z.to_nat WRITE_QUEUE_SIZE)%nat;
  qo_all : accepted s
           ≡ₚ packets_written (trace s) ++ in_batches (writers s)
               ++ write_queue (engine s);
  qo_freed : packets_freed (trace s) = packets_written (trace s);
  qo_packets : tx_packets (engine s) = usize (sent (trace s));
  qo_bytes : tx_bytes (engine s) = usize (sent_bytes (trace s))
}.

Lemma in_batches_insert ws w pc pc' :
  ws !! w = Some pc ->
  exists others,
    in_batches ws ≡ₚ batch_of pc ++ others /\
    in_batches (<[w := pc']> ws) ≡ₚ batch_of pc' ++ others.
Proof.
  intros Hw. exists (in_batches (take w ws) ++ in_batches (drop (S w) ws)).
  assert (Hlt : (w < length ws)%nat) by (apply lookup_lt_is_Some; eauto).
  split.
  - rewrite <- (take_drop_middle ws w pc Hw) at 1.
    unfold in_batches. rewrite fmap_app, concat_app. cbn [fmap list_fmap concat].
    rewrite Permutation_app_swap_app. reflexivity.
  - rewrite insert_take_drop by exact Hlt.
    unfold in_batches. rewrite fmap_app, concat_app. cbn [fmap list_fmap concat].
    rewrite Permutation_app_swap_app. reflexivity.
Qed.

Lemma sent_app e1 e2 : sent (e1 ++ e2) = sent e1 + sent e2.
Proof.
  induction e1 as [|e e1 IH]; [reflexivity|].
  destruct e; cbn [app sent]; rewrite IH; lia.
Qed.

Lemma sent_bytes_app e1 e2 :
  sent_bytes (e1 ++ e2) = sent_bytes e1 + sent_bytes e2.
Proof.
  induction e1 as [|e e1 IH]; [reflexivity|].
  destruct e; cbn [app sent_bytes]; rewrite IH; lia.
Qed.

Lemma usize_plus a b : usize (usize a + b) = usize (a + b).
Proof. unfold usize. apply Zplus_mod_idemp_l. Qed.

Lemma write_one_counts answer io p :
  let r := write_one (fun _ => answer) io p in
  tx_packets (fst r)
  = (if fst answer >? 0 then usize (tx_packets io + 1) else tx_packets io) /\
  tx_bytes (fst r)
  = (if fst answer >? 0 then usize (tx_bytes io + fst answer) else tx_bytes io) /\
  sent (snd r) = (if fst answer >? 0 then 1 else 0) /\
  sent_bytes (snd r) = (if fst answer >? 0 then fst answer else 0).
Proof.
  unfold write_one. cbn [fst snd].
  destruct (fst answer >? 0) eqn:Hpos.
  - cbn [count_tx tx_packets tx_bytes app sent sent_bytes]. rewrite Hpos.
    repeat split; lia.
  - destruct (_ && _); cbn [tx_packets tx_bytes app sent sent_bytes];
      rewrite Hpos; repeat split; lia.
Qed.

Lemma started_ok io :
  write_queue io = [] -> write_queue_size io = 0 ->
  tx_packets io = 0 -> tx_bytes io = 0 ->
  queue_ok (started io).
Proof.
  intros Hq Hs Hp Hb. constructor; cbn [started engine writers trace accepted].
  - rewrite Hq, Hs. reflexivity.
  - rewrite Hq. cbn. lia.
  - rewrite Hq. cbn [packets_written app].
    assert (Hnil : forall n, in_batches (replicate n WIdle) = []).
    { induction n as [|n IH]; [reflexivity|]. exact IH. }
    rewrite Hnil. reflexivity.
  - reflexivity.
  - rewrite Hp. reflexivity.
  - rewrite Hb. reflexivity.
Qed.

Lemma write_ok node_ok s buf :
  queue_ok s ->
  queue_ok (act s (AWrite node_ok buf)) /\
  (fst (hev_tunnel_io_write node_ok (engine s) buf) = 0 <->
   node_ok = true /\
   (length (write_queue (engine s)) < Z.to_nat WRITE_QUEUE_SIZE)%nat).
Proof.
  intros [Hsize Hbound Hall Hfreed Hp Hb].
  cbn [act]. unfold hev_tunnel_io_write.
  destruct node_ok; cbn [negb].
  - destruct (Z.geb_spec (write_queue_size (engine s)) WRITE_QUEUE_SIZE)
      as [Hfull|Hroom]; cbn [fst snd Z.eqb].
    + split; [constructor; assumption|].
      split; [discriminate|]. unfold WRITE_QUEUE_SIZE in *. lia.
    + split.
      * constructor; cbn [engine writers trace accepted write_queue
                           write_queue_size tx_packets tx_bytes];
          try assumption.
        -- rewrite length_app. cbn [length]. lia.
        -- rewrite length_app. cbn [length]. unfold WRITE_QUEUE_SIZE in *. lia.
        -- rewrite Hall. rewrite <- !app_assoc. reflexivity.
      * split; [intros _|reflexivity].
        split; [reflexivity|]. unfold WRITE_QUEUE_SIZE in *. lia.
  - cbn [fst snd Z.eqb]. split; [constructor; assumption|].
    split; [discriminate|]. intros [Hno _]. discriminate.
Qed.

Lemma take_batch_stats n : forall io,
  tx_packets (snd (take_batch n io)) = tx_packets io /\
  tx_bytes (snd (take_batch n io)) = tx_bytes io.
Proof.
  induction n as [|n IH]; intros io; cbn [take_batch]; [auto|].
  destruct (write_queue io) as [|p rest]; [auto|]. cbv zeta. cbn [fst snd].
  match goal with
  | |- context [take_batch n ?x] => destruct (IH x) as [-> ->]
  end.
  auto.
Qed.

(** The three kinds of step of a writer, as relations between the states. *)
Lemma writer_step_spec answer io pc :
  match pc with
  | WIdle =>
      (writer_step answer io pc = (io, WIdle, []) \/
       writer_step answer io pc = (io, WGone, [])) \/
      exists io1,
        writer_step answer io pc
        = (io1, WBatch (take WRITE_BATCH_SIZE (write_queue io)), []) /\
        write_queue io1 = drop WRITE_BATCH_SIZE (write_queue io) /\
        write_queue_size io1
        = write_queue_size io
          - Z.of_nat (length (take WRITE_BATCH_SIZE (write_queue io))) /\
        tx_packets io1 = tx_packets io /\ tx_bytes io1 = tx_bytes io
  | WBatch [] => writer_step answer io pc = (io, WIdle, [])
  | WBatch (p :: rest) =>
      (exists io1 evs,
         writer_step answer io pc = (io1, WBatch rest, evs) /\
         write_queue io1 = write_queue io /\
         write_queue_size io1 = write_queue_size io /\
         packets_written evs = [p] /\ packets_freed evs = [p] /\
         tx_packets io1 = usize (tx_packets io + sent evs) /\
         tx_bytes io1 = usize (tx_bytes io + sent_bytes evs)) \/
      (exists io1 evs,
         writer_step answer io pc = (io1, WBatch rest, evs) /\
         write_queue io1 = write_queue io /\
         write_queue_size io1 = write_queue_size io /\
         packets_written evs = [p] /\ packets_freed evs = [p] /\
         tx_packets io1 = tx_packets io /\ sent evs = 0 /\
         tx_bytes io1 = tx_bytes io /\ sent_bytes evs = 0)
  | WGone => writer_step answer io pc = (io, WGone, [])
  end.
Proof.
  destruct pc as [|[|p rest]|]; cbn [writer_step]; try reflexivity.
  - destruct (running io || (write_queue_size io >? 0)); [|left; right; reflexivity].
    destruct ((write_queue_size io =? 0) && running io); [left; left; reflexivity|].
    right. cbv zeta.
    destruct (take_batch_spec WRITE_BATCH_SIZE io) as (Hb & Hq & Hs & _).
    destruct (take_batch_stats WRITE_BATCH_SIZE io) as [Hp Hy].
    exists (snd (take_batch WRITE_BATCH_SIZE io)).
    rewrite Hb. auto.
  - cbv zeta.
    destruct (write_one_spec (fun _ => answer) io p) as (Hq & Hs & _ & Hw & Hf).
    destruct (write_one_counts answer io p) as (Hc1 & Hc2 & Hc3 & Hc4).
    cbv zeta in Hc1, Hc2, Hc3, Hc4.
    destruct (fst answer >? 0).
    + left. exists (fst (write_one (fun _ => answer) io p)),
                   (snd (write_one (fun _ => answer) io p)).
      rewrite Hc1, Hc2, Hc3, Hc4. repeat split; assumption.
    + right. exists (fst (write_one (fun _ => answer) io p)),
                    (snd (write_one (fun _ => answer) io p)).
      repeat split; assumption.
Qed.

Lemma writer_ok w answer s : queue_ok s -> queue_ok (act s (AWriter w answer)).
Proof.
  intros Hok. pose proof Hok as [Hsize Hbound Hall Hfreed Hp Hb].
  unfold act. destruct (writers s !! w) as [pc|] eqn:Hw; [|exact Hok].
  pose proof (writer_step_spec answer (engine s) pc) as Hstep.
  destruct (writer_step answer (engine s) pc) as [[io pc'] evs].
  destruct (in_batches_insert (writers s) w pc pc' Hw)
    as (others & Hbefore & Hafter).
  destruct pc as [|[|p rest]|].
  - destruct Hstep as [[Hstep|Hstep]|(io1 & Hstep & Hq1 & Hs1 & Hp1 & Hb1)];
      injection Hstep as -> -> ->; cbn [batch_of app] in Hbefore, Hafter;
      constructor; cbn [engine writers trace accepted]; rewrite ?app_nil_r;
      try assumption.
    + rewrite Hall, Hafter, Hbefore. reflexivity.
    + rewrite Hall, Hafter, Hbefore. reflexivity.
    + rewrite Hs1, Hq1, Hsize, length_take, length_drop. lia.
    + rewrite Hq1, length_drop. lia.
    + rewrite Hall, Hafter, Hbefore, Hq1.
      apply Permutation_app_head.
      transitivity (others ++ take WRITE_BATCH_SIZE (write_queue (engine s))
                           ++ drop WRITE_BATCH_SIZE (write_queue (engine s))).
      { rewrite take_drop. reflexivity. }
      rewrite !(app_assoc _ _ (drop _ _)).
      apply Permutation_app_tail. apply Permutation_app_comm.
    + rewrite Hp1. exact Hp.
    + rewrite Hb1. exact Hb.
  - injection Hstep as -> -> ->. cbn [batch_of app] in Hbefore, Hafter.
    constructor; cbn [engine writers trace accepted]; rewrite ?app_nil_r;
      try assumption.
    rewrite Hall, Hafter, Hbefore. reflexivity.
  - cbn [batch_of] in Hbefore, Hafter.
    destruct Hstep as [(io1 & evs1 & Hstep & Hq1 & Hs1 & Hw1 & Hf1 & Hc1 & Hc2)
                      |(io1 & evs1 & Hstep & Hq1 & Hs1 & Hw1 & Hf1 & Hc1 & Hc3
                        & Hc2 & Hc4)];
      injection Hstep as -> -> ->;
      constructor; cbn [engine writers trace accepted].
    + rewrite Hs1, Hq1. exact Hsize.
    + rewrite Hq1. exact Hbound.
    + rewrite Hall, Hafter, Hbefore, Hq1, packets_written_app, Hw1.
      rewrite <- !app_assoc. reflexivity.
    + rewrite packets_written_app, packets_freed_app, Hw1, Hf1, Hfreed.
      reflexivity.
    + rewrite sent_app, Hc1, Hp. apply usize_plus.
    + rewrite sent_bytes_app, Hc2, Hb. apply usize_plus.
    + rewrite Hs1, Hq1. exact Hsize.
    + rewrite Hq1. exact Hbound.
    + rewrite Hall, Hafter, Hbefore, Hq1, packets_written_app, Hw1.
      rewrite <- !app_assoc. reflexivity.
    + rewrite packets_written_app, packets_freed_app, Hw1, Hf1, Hfreed.
      reflexivity.
    + rewrite sent_app, Hc1, Hc3, Hp. f_equal. lia.
    + rewrite sent_bytes_app, Hc2, Hc4, Hb. f_equal. lia.
  - injection Hstep as -> -> ->. cbn [batch_of app] in Hbefore, Hafter.
    constructor; cbn [engine writers trace accepted]; rewrite ?app_nil_r;
      try assumption.
    rewrite Hall, Hafter, Hbefore. reflexivity.
Qed.

Lemma stop_ok s : queue_ok s -> queue_ok (act s AStop).
Proof.
  intros [Hsize Hbound Hall Hfreed Hp Hb].
  cbn [act]. unfold hev_tunnel_io_stop.
  destruct (negb (running (engine s))); cbn [fst];
    constructor; assumption.
Qed.

Lemma act_ok s a : queue_ok s -> queue_ok (act s a).
Proof.
  intros Hok. destruct a as [node_ok buf|w answer|].
  - apply (write_ok node_ok s buf Hok).
  - apply writer_ok. exact Hok.
  - apply stop_ok. exact Hok.
Qed.

Lemma exec_ok acts : forall s, queue_ok s -> queue_ok (exec acts s).
Proof.
  induction acts as [|a acts IH]; intros s Hok; [exact Hok|].
  cbn [exec fold_left]. apply IH. apply act_ok. exact Hok.
Qed.

(** With one writer thread the order is kept, not only the content. *)
Lemma single_order_step a s pc0 :
  writers s = [pc0] ->
  accepted s
  = packets_written (trace s) ++ batch_of pc0 ++ write_queue (engine s) ->
  exists pc1,
    writers (act s a) = [pc1] /\
    accepted (act s a)
    = packets_written (trace (act s a)) ++ batch_of pc1
        ++ write_queue (engine (act s a)).
Proof.
  intros Hws Hall. destruct a as [node_ok buf|w answer|].
  - exists pc0. cbn [act writers trace engine accepted]. split; [exact Hws|].
    unfold hev_tunnel_io_write. destruct node_ok; cbn [negb].
    + destruct (write_queue_size (engine s) >=? WRITE_QUEUE_SIZE);
        cbn [fst snd Z.eqb write_queue]; [exact Hall|].
      rewrite Hall. rewrite <- !app_assoc. reflexivity.
    + cbn [fst snd Z.eqb]. exact Hall.
  - unfold act. rewrite Hws. destruct w as [|w].
    2:{ exists pc0. replace ([pc0] !! S w) with (@None writer_pc)
          by (destruct w; reflexivity).
        split; [exact Hws|exact Hall]. }
    change ([pc0] !! 0%nat) with (Some pc0). cbv beta iota.
    pose proof (writer_step_spec answer (engine s) pc0) as Hstep.
    destruct (writer_step answer (engine s) pc0) as [[io pc'] evs].
    exists pc'. cbn [writers trace engine accepted insert list_insert].
    split; [reflexivity|].
    destruct pc0 as [|[|p rest]|].
    + destruct Hstep as [[Hstep|Hstep]|(io1 & Hstep & Hq1 & _)];
        injection Hstep as -> -> ->; rewrite app_nil_r;
        cbn [batch_of app] in *; try exact Hall.
      rewrite Hall, Hq1, take_drop. reflexivity.
    + injection Hstep as -> -> ->. rewrite app_nil_r. exact Hall.
    + cbn [batch_of] in Hall.
      destruct Hstep as [(io1 & evs1 & Hstep & Hq1 & _ & Hw1 & _)
                        |(io1 & evs1 & Hstep & Hq1 & _ & Hw1 & _)];
        injection Hstep as -> -> ->;
        rewrite packets_written_app, Hw1, Hq1, Hall; cbn [batch_of];
        rewrite <- !app_assoc; reflexivity.
    + injection Hstep as -> -> ->. rewrite app_nil_r. exact Hall.
  - exists pc0. cbn [act writers trace engine accepted]. split; [exact Hws|].
    unfold hev_tunnel_io_stop. destruct (negb (running (engine s)));
      cbn [fst set_running write_queue]; exact Hall.
Qed.

Lemma single_order acts : forall s pc0,
  writers s = [pc0] ->
  accepted s
  = packets_written (trace s) ++ batch_of pc0 ++ write_queue (engine s) ->
  accepted (exec acts s)
  = packets_written (trace (exec acts s)) ++ in_batches (writers (exec acts s))
      ++ write_queue (engine (exec acts s)).
Proof.
  induction acts as [|a acts IH]; intros s pc0 Hws Hall.
  - cbn [exec fold_left]. rewrite Hws. unfold in_batches.
    cbn [fmap list_fmap concat]. rewrite app_nil_r. exact Hall.
  - cbn [exec fold_left]. fold (exec acts (act s a)).
    destruct (single_order_step a s pc0 Hws Hall) as (pc1 & Hws1 & Hall1).
    apply (IH (act s a) pc1 Hws1 Hall1).
Qed.

Lemma new_engine_fresh num_cpus fd0 mtu0 io0 :
  hev_tunnel_io_new true true num_cpus fd0 mtu0 = Some io0 ->
  let io1 := snd (hev_tunnel_io_start true io0) in
  write_queue io1 = [] /\ write_queue_size io1 = 0 /\
  tx_packets io1 = 0 /\ tx_bytes io1 = 0 /\
  num_writers io1 = (if (if num_cpus <? 2 then 2 else num_cpus) >=? 4
                     then 2%nat else 1%nat).
Proof.
  unfold hev_tunnel_io_new. cbn [negb]. cbv zeta. intros [= <-].
  unfold hev_tunnel_io_start. cbn. auto.
Qed.

(** *** The write queue, as producers and writers see it *)

(** X30 (the write queue neither loses nor repeats a packet).  From a
    started engine, under any interleaving of producers' writes, writer
    threads' steps and a stop: the queue counter is the queue's length and
    never exceeds [WRITE_QUEUE_SIZE]; a write of a packet (not NULL) is
    refused only when the node cannot be allocated or [WRITE_QUEUE_SIZE]
    packets are queued; every accepted packet is exactly once among those
    handed to the device, those in a writer's batch and those queued;
    every packet handed to the device is freed, nothing else is; the
    transmit counters count the writes the device took and their bytes.
    On a machine with fewer than four processors (one writer) the packets
    reach the device in the order they were accepted. *)
Theorem write_queue_delivers num_cpus fd0 mtu0 io0 acts :
  hev_tunnel_io_new true true num_cpus fd0 mtu0 = Some io0 ->
  let s := exec acts (started (snd (hev_tunnel_io_start true io0))) in
  write_queue_size (engine s) = Z.of_nat (length (write_queue (engine s))) /\
  0 <= write_queue_size (engine s) <= WRITE_QUEUE_SIZE /\
  (forall node_ok buf,
     fst (hev_tunnel_io_write node_ok (engine s) buf) = 0 <->
     node_ok = true /\
     (length (write_queue (engine s)) < Z.to_nat WRITE_QUEUE_SIZE)%nat) /\
  accepted s
  ≡ₚ packets_written (trace s) ++ in_batches (writers s)
      ++ write_queue (engine s) /\
  packets_freed (trace s) = packets_written (trace s) /\
  tx_packets (engine s) = usize (sent (trace s)) /\
  tx_bytes (engine s) = usize (sent_bytes (trace s)) /\
  (num_cpus < 4 ->
   accepted s
   = packets_written (trace s) ++ in_batches (writers s)
       ++ write_queue (engine s)).
Proof.
  intros Hnew s.
  destruct (new_engine_fresh num_cpus fd0 mtu0 io0 Hnew)
    as (Hq & Hs & Hp & Hb & Hn). cbv zeta in Hq, Hs, Hp, Hb, Hn.
  assert (Hok : queue_ok s).
  { apply exec_ok. apply started_ok; assumption. }
  pose proof Hok as [Hsize Hbound Hall Hfreed Htp Htb].
  split; [exact Hsize|]. split.
  { rewrite Hsize. unfold WRITE_QUEUE_SIZE in *. lia. }
  split; [intros node_ok buf; apply (write_ok node_ok s buf Hok)|].
  split; [exact Hall|]. split; [exact Hfreed|].
  split; [exact Htp|]. split; [exact Htb|].
  intros Hfew. subst s. apply (single_order acts _ WIdle).
  - cbn [started writers]. rewrite Hn.
    destruct (Z.ltb_spec num_cpus 2); cbn [Z.geb Z.compare]; [reflexivity|].
    destruct (Z.geb_spec num_cpus 4); [lia|reflexivity].
  - cbn [started accepted trace engine packets_written batch_of app].
    rewrite Hq. reflexivity.
Qed.

Lemma write_queue_delivers_witness :
  accepted (exec hour (started engine_4))
  = [packet 40; packet 41; packet 42; packet 43] /\
  packets_written (trace (exec hour (started engine_4)))
  = [packet 40; packet 41; packet 43; packet 42] /\
  tx_packets (engine (exec hour (started engine_4))) = 3 /\
  (write_queue_size (engine (exec hour (started engine_4)))
   = Z.of_nat (length (write_queue (engine (exec hour (started engine_4))))) /\
   0 <= write_queue_size (engine (exec hour (started engine_4)))
     <= WRITE_QUEUE_SIZE /\
   (forall node_ok buf,
      fst (hev_tunnel_io_write node_ok
             (engine (exec hour (started engine_4))) buf) = 0 <->
      node_ok = true /\
      (length (write_queue (engine (exec hour (started engine_4))))
       < Z.to_nat WRITE_QUEUE_SIZE)%nat) /\
   accepted (exec hour (started engine_4))
   ≡ₚ packets_written (trace (exec hour (started engine_4)))
       ++ in_batches (writers (exec hour (started engine_4)))
       ++ write_queue (engine (exec hour (started engine_4))) /\
   packets_freed (trace (exec hour (started engine_4)))
   = packets_written (trace (exec hour (started engine_4))) /\
   tx_packets (engine (exec hour (started engine_4)))
   = usize (sent (trace (exec hour (started engine_4)))) /\
   tx_bytes (engine (exec hour (started engine_4)))
   = usize (sent_bytes (trace (exec hour (started engine_4)))) /\
   (4 < 4 ->
    accepted (exec hour (started engine_4))
    = packets_written (trace (exec hour (started engine_4)))
        ++ in_batches (writers (exec hour (started engine_4)))
        ++ write_queue (engine (exec hour (started engine_4))))).
Proof.
  split; [vm_compute; reflexivity|]. split; [vm_compute; reflexivity|].
  split; [vm_compute; reflexivity|].
  apply (write_queue_delivers 4 3 1500 (mkIO 3 1500 false 2 2 [] 0 0 0 0 0) hour).
  reflexivity.
Defined.

End WriteQueue.
